(** * Sliding-block puzzle engine: move generators, canonical keys,
      enumerators and breadth-first search.

    Shallow embedding of the state-space engine of the repository
    (potentialMoves.py, simpleShortestMoves.py, shortestMoves.py,
    graph/getToEnd.py).  Python dictionaries that describe a piece are
    records; dictionaries used as maps are [gmap]s, sets are [gset]s;
    exceptions are [None] results; the [while queue] loops take a fuel
    argument that counts dequeues. *)

From Stdlib Require Import ZArith Lia Arith.
From stdpp Require Import base option list sorting gmap strings pretty.

Open Scope string_scope.
Open Scope list_scope.
Open Scope Z_scope.

(** ** Pieces *)

(** A piece is the dictionary read from the configuration file.  The keys
    [height] and [width] are absent until some function stores them; the
    key [fixed] is the mobility flag of the configuration format, which a
    dictionary may carry. *)
Record piece := Piece {
  label : string;
  row : Z;
  col : Z;
  piece_type : string;
  height : option Z;
  width : option Z;
  fixed : option bool
}.

#[global] Instance piece_eq_dec : EqDecision piece.
Proof. solve_decision. Defined.

(** [p["row"], p["col"] = r, c] *)
Definition set_pos (p : piece) (r c : Z) : piece :=
  Piece (label p) r c (piece_type p) (height p) (width p) (fixed p).

(** [p["height"], p["width"] = h, w] *)
Definition set_dims (p : piece) (h w : Z) : piece :=
  Piece (label p) (row p) (col p) (piece_type p) (Some h) (Some w) (fixed p).

(** A move offered for a piece: [(direction, new_row, new_col)]. *)
Definition move : Type := string * Z * Z.

(** An entry of a move history: [(piece_label, direction)]. *)
Definition step : Type := string * string.

(** The global [MOVES] dictionary, in insertion order. *)
Definition MOVES : list (string * (Z * Z)) :=
  [("up", (-1, 0)); ("down", (1, 0)); ("left", (0, -1)); ("right", (0, 1))].

(** [range(n)] *)
Definition range (n : Z) : list Z := Z.of_nat <$> seq 0 (Z.to_nat n).

(** [{(r0 + r, c0 + c) for r in range(h) for c in range(w)}] *)
Definition cells (r0 c0 h w : Z) : list (Z * Z) :=
  r ← range h; c ← range w; [(r0 + r, c0 + c)].

(** [next(p for p in pieces if p["label"] == l)], [None] when the
    generator is empty. *)
Definition find_piece (l : string) (pieces : list piece) : option piece :=
  snd <$> list_find (λ p, label p = l) pieces.

(** The board after one piece is moved: every dictionary whose label is
    [l] gets the new anchor. *)
Definition move_piece (pieces : list piece) (l : string) (r c : Z) : list piece :=
  (λ p, if decide (label p = l) then set_pos p r c else p) <$> pieces.

(** ** Canonical key *)

(** Python's order on [(label, row, col)] tuples: lexicographic, strings
    compared character by character. *)
Definition tuple_leb (a b : string * Z * Z) : bool :=
  match String.compare a.1.1 b.1.1 with
  | Lt => true
  | Gt => false
  | Eq => match Z.compare a.1.2 b.1.2 with
          | Lt => true
          | Gt => false
          | Eq => a.2 <=? b.2
          end
  end.

Definition tuple_le (a b : string * Z * Z) : Prop := tuple_leb a b = true.

#[global] Instance tuple_le_dec : RelDecision tuple_le.
Proof. intros a b. unfold tuple_le. apply _. Defined.

Definition triple (p : piece) : string * Z * Z := (label p, row p, col p).

(** [tuple(sorted((p["label"], p["row"], p["col"]) for p in pieces))] *)
Definition board_to_tuple (pieces : list piece) : list (string * Z * Z) :=
  merge_sort tuple_le (triple <$> pieces).

(** ** Move generators *)

(** The three files potentialMoves.py, simpleShortestMoves.py and
    graph/heatmap.py share the text of [create_board_representation],
    [is_valid_move] and [get_all_possible_moves]; they differ in the
    piece types [get_piece_dimensions] knows. *)
Module MoveGen.
Section MoveGenerator.
Variable get_piece_dimensions : piece → option (Z * Z).

(** One iteration of the loop of [create_board_representation]: the
    cells of the piece are written into the board. *)
Definition paint (board : gmap (Z * Z) string) (p : piece) (h w : Z)
  : gmap (Z * Z) string :=
  foldl (λ b cell, <[cell := label p]> b) board (cells (row p) (col p) h w).

(** [create_board_representation]: returns the board and the pieces
    with their dimensions stored (the function writes them into the
    dictionaries it is given).  [None] is the [ValueError] of
    [get_piece_dimensions]. *)
Fixpoint create_board_from (board : gmap (Z * Z) string) (pieces : list piece)
  : option (gmap (Z * Z) string * list piece) :=
  match pieces with
  | [] => Some (board, [])
  | p :: rest =>
      match get_piece_dimensions p with
      | None => None
      | Some (h, w) =>
          match create_board_from (paint board p h w) rest with
          | None => None
          | Some (b, ps) => Some (b, set_dims p h w :: ps)
          end
      end
  end.

Definition create_board_representation (pieces : list piece) :=
  create_board_from ∅ pieces.

(** [is_valid_move]; [None] is the [KeyError] of a piece without stored
    dimensions. *)
Definition is_valid_move (p : piece) (new_row new_col : Z)
    (board : gmap (Z * Z) string) (rows cols : Z) : option bool :=
  match height p, width p with
  | Some h, Some w =>
      if (new_row <? 0) || (new_col <? 0) || (rows <? new_row + h)
         || (cols <? new_col + w)
      then Some false
      else Some (forallb
                   (λ cell, match board !! cell with
                            | Some l => bool_decide (l = label p)
                            | None => true
                            end)
                   (cells new_row new_col h w))
  | _, _ => None
  end.

(** The inner loop of [get_all_possible_moves] over [MOVES.items()]. *)
Fixpoint moves_of (p : piece) (board : gmap (Z * Z) string) (rows cols : Z)
    (dirs : list (string * (Z * Z))) : option (list move) :=
  match dirs with
  | [] => Some []
  | (direction, (dr, dc)) :: rest =>
      let new_row := row p + dr in
      let new_col := col p + dc in
      match is_valid_move p new_row new_col board rows cols with
      | None => None
      | Some ok =>
          match moves_of p board rows cols rest with
          | None => None
          | Some ms =>
              Some (if ok then (direction, new_row, new_col) :: ms else ms)
          end
      end
  end.

(** The outer loop: [move_dict[piece["label"]] = [...]] for each piece
    in turn, a later piece with the same label overwriting the entry. *)
Fixpoint move_dict_from (move_dict : gmap string (list move))
    (pieces : list piece) (board : gmap (Z * Z) string) (rows cols : Z)
  : option (gmap string (list move)) :=
  match pieces with
  | [] => Some move_dict
  | p :: rest =>
      match moves_of p board rows cols MOVES with
      | None => None
      | Some ms => move_dict_from (<[label p := ms]> move_dict) rest board rows cols
      end
  end.

(** [get_all_possible_moves]: the move dictionary, and the pieces as
    [create_board_representation] left them. *)
Definition get_all_possible_moves (pieces : list piece) (rows cols : Z)
  : option (gmap string (list move) * list piece) :=
  match create_board_representation pieces with
  | None => None
  | Some (board, pieces') =>
      match move_dict_from ∅ pieces' board rows cols with
      | None => None
      | Some move_dict => Some (move_dict, pieces')
      end
  end.
End MoveGenerator.
End MoveGen.

(** ** Puzzle configuration *)

(** The dictionary [puzzle_data] loaded from the configuration file. *)
Record puzzle_data := PuzzleData {
  rows : Z;
  cols : Z;
  pieces : list piece;
  target : string
}.

(** A value as [json.load] returns it, as far as [load_puzzle_config]
    and its callers tell values apart: [JNull] is Python's [None]; a
    scalar ([true], [false], a number, a string) is given by its text in
    the file; a dictionary is the record of the entries the code
    reads. *)
Inductive json_top :=
  | JNull
  | JScalar (text : string)
  | JList
  | JDict (data : puzzle_data).

(** The configuration file: missing; not readable as JSON ([open] or
    [json.load] raises); or holding a value. *)
Inductive config_file :=
  | NoFile
  | Unreadable
  | Holds (data : json_top).

(** [load_puzzle_config] of shortestMoves.py (potentialMoves.py and
    simpleShortestMoves.py have the same text): the result [None] is an
    exception, [Some JNull] is Python's [None]. *)
Definition load_puzzle_config (file : config_file) : option json_top :=
  match file with
  | NoFile => Some JNull
  | Unreadable => None
  | Holds JList => Some JNull
  | Holds data => Some data
  end.

(** ** The breadth-first loop *)

(** Every search function of the repository runs the same loop: dequeue
    [(state, move_history)], look at the state, and either return, skip
    it, or enqueue the unseen states among its successors.  What the
    loop body does with a dequeued state is its [view]. *)
Inductive view (St Mv : Type) :=
  | Stop                              (* [return move_history] *)
  | Skip                              (* [continue] *)
  | Fail                              (* an exception leaves the loop *)
  | Grow (next : list (Mv * St)).     (* the states offered, in loop order *)
Arguments Stop {St Mv}.
Arguments Skip {St Mv}.
Arguments Fail {St Mv}.
Arguments Grow {St Mv} next.

Inductive outcome (St Mv : Type) :=
  | Found (move_history : list Mv) (s : St)   (* returned from inside the loop *)
  | Exhausted                                 (* the queue ran empty *)
  | Raised                                    (* an exception *)
  | OutOfFuel.                                (* the model's fuel ran out *)
Arguments Found {St Mv} move_history s.
Arguments Exhausted {St Mv}.
Arguments Raised {St Mv}.
Arguments OutOfFuel {St Mv}.

Section BFS.
Context {St Mv K : Type} `{Countable K}.
Variable key : St → K.
Variable inspect : St → view St Mv.

(** The body of the innermost loop:
    [if new_state not in visited: visited.add(new_state);
     queue.append((new_pieces, move_history + [mv]))]. *)
Definition push (move_history : list Mv)
    (acc : list (St * list Mv) * gset K) (x : Mv * St)
  : list (St * list Mv) * gset K :=
  if decide (key x.2 ∈ acc.2) then acc
  else (acc.1 ++ [(x.2, move_history ++ [x.1])], {[key x.2]} ∪ acc.2).

(** [while queue: ...]; one unit of fuel per dequeue. *)
Fixpoint bfs_loop (fuel : nat) (queue : list (St * list Mv))
    (visited : gset K) : outcome St Mv :=
  match fuel with
  | O => OutOfFuel
  | S fuel' =>
      match queue with
      | [] => Exhausted
      | (current, move_history) :: rest =>
          match inspect current with
          | Stop => Found move_history current
          | Skip => bfs_loop fuel' rest visited
          | Fail => Raised
          | Grow next =>
              let acc := foldl (push move_history) (rest, visited) next in
              bfs_loop fuel' acc.1 acc.2
          end
      end
  end.

(** The loop entered with the initial state queued and marked. *)
Definition bfs (fuel : nat) (init : St) : outcome St Mv :=
  bfs_loop fuel [(init, [])] {[key init]}.
End BFS.

(** The two nested loops [for piece in current_pieces: for direction,
    new_row, new_col in possible_moves[piece["label"]]: ...], as the list
    of moves tried with the board each one produces. *)
Definition candidates (current_pieces : list piece)
    (possible_moves : gmap string (list move)) : list (step * list piece) :=
  p ← current_pieces;
  m ← possible_moves !!! label p;
  [((label p, m.1.1), move_piece current_pieces (label p) m.1.2 m.2)].

(** The value a search function returns for an outcome of its loop:
    the history found, [[]] after the loop, nothing when an exception
    escapes (or the fuel of the model ends). *)
Definition returned {St} (o : outcome St step) : option (list step) :=
  match o with
  | Found move_history _ => Some move_history
  | Exhausted => Some []
  | Raised | OutOfFuel => None
  end.

(** ** potentialMoves.py *)
Module Potential.
Definition get_piece_dimensions (p : piece) : option (Z * Z) :=
  if decide (piece_type p = "1x1") then Some (1, 1)
  else if decide (piece_type p = "1x2") then Some (1, 2)
  else if decide (piece_type p = "2x1") then Some (2, 1)
  else None.

Definition get_all_possible_moves :=
  MoveGen.get_all_possible_moves get_piece_dimensions.
End Potential.

(** ** simpleShortestMoves.py *)
Module Simple.
Definition get_piece_dimensions (p : piece) : option (Z * Z) :=
  if decide (piece_type p = "1x1") then Some (1, 1)
  else if decide (piece_type p = "1x2") then Some (1, 2)
  else if decide (piece_type p = "2x1") then Some (2, 1)
  else if decide (piece_type p = "2x2") then Some (2, 2)
  else None.

Definition get_all_possible_moves :=
  MoveGen.get_all_possible_moves get_piece_dimensions.

(** The body of the [while] loop of [find_shortest_target_path] up to
    the nested [for] loops.  [next(...)] raises [StopIteration] when no
    piece carries the target label. *)
Definition inspect (rows cols : Z) (target_label : string)
    (current_pieces : list piece) : view (list piece) step :=
  match find_piece target_label current_pieces with
  | None => Fail
  | Some target_piece =>
      match get_piece_dimensions target_piece with
      | None => Fail
      | Some (target_height, _) =>
          if bool_decide (row target_piece = rows - target_height
                          ∧ col target_piece = 0)
          then Stop
          else match get_all_possible_moves current_pieces rows cols with
               | None => Fail
               | Some (possible_moves, current_pieces') =>
                   Grow (candidates current_pieces' possible_moves)
               end
      end
  end.

Definition search (fuel : nat) (d : puzzle_data) : outcome (list piece) step :=
  bfs board_to_tuple (inspect (rows d) (cols d) (target d)) fuel (pieces d).

Definition find_shortest_target_path (fuel : nat) (d : puzzle_data)
  : option (list step) :=
  returned (search fuel d).
End Simple.

(** [itertools.combinations(l, k)]: the [k]-element subsequences of [l],
    in lexicographic order of positions. *)
Fixpoint combinations {A} (l : list A) (k : nat) : list (list A) :=
  match k with
  | O => [[]]
  | S k' =>
      match l with
      | [] => []
      | x :: rest => ((x ::.) <$> combinations rest k') ++ combinations rest k
      end
  end.

(** ** shortestMoves.py *)
Module Shortest.
Definition get_piece_dimensions (p : piece) : option (Z * Z) :=
  if decide (piece_type p = "1x1") then Some (1, 1)
  else if decide (piece_type p = "1x2") then Some (1, 2)
  else if decide (piece_type p = "2x1") then Some (2, 1)
  else None.

(** [get_all_possible_moves]: the four shifted anchors of every piece;
    neither [rows] nor [cols] is read. *)
Definition get_all_possible_moves (pieces : list piece) (rows cols : Z)
  : gmap string (list move) :=
  foldl (λ move_dict p,
           <[label p := (λ e, (e.1, row p + e.2.1, col p + e.2.2)) <$> MOVES]>
             move_dict)
        ∅ pieces.

(** The body of the [while] loop of
    [find_shortest_target_path_from_state]: a state without the target
    is skipped ([continue]). *)
Definition inspect (rows cols : Z) (target_label : string)
    (current_pieces : list piece) : view (list piece) step :=
  match find_piece target_label current_pieces with
  | None => Skip
  | Some target_piece =>
      if bool_decide (row target_piece = rows - 1 ∧ col target_piece = 0)
      then Stop
      else Grow (candidates current_pieces
                   (get_all_possible_moves current_pieces rows cols))
  end.

Definition search (fuel : nat) (initial_pieces : list piece) (d : puzzle_data)
  : outcome (list piece) step :=
  bfs board_to_tuple (inspect (rows d) (cols d) (target d)) fuel initial_pieces.

(** [find_shortest_target_path_from_state]: [[]] at once when the
    target is missing from the initial state. *)
Definition find_shortest_target_path_from_state (fuel : nat)
    (initial_pieces : list piece) (d : puzzle_data) : option (list step) :=
  match find_piece (target d) initial_pieces with
  | None => Some []
  | Some _ => returned (search fuel initial_pieces d)
  end.

Definition is_domino (p : piece) : Prop :=
  piece_type p = "1x2" ∨ piece_type p = "2x1".

#[global] Instance is_domino_dec p : Decision (is_domino p).
Proof. unfold is_domino. apply _. Defined.

(** A placement is a pair of cells, [placement[0]] being the anchor. *)
Definition placement : Type := (Z * Z) * (Z * Z).

Definition placements_h (rows cols : Z) : list placement :=
  r ← range rows; c ← range (cols - 1); [((r, c), (r, c + 1))].

Definition placements_v (rows cols : Z) : list placement :=
  r ← range (rows - 1); c ← range cols; [((r, c), (r + 1, c))].

(** The loop that checks [comb_h + comb_v] against the cells taken so
    far; it starts from the empty set. *)
Fixpoint placements_free (occupied : gset (Z * Z)) (chosen : list placement)
  : bool :=
  match chosen with
  | [] => true
  | pl :: rest =>
      if decide (pl.1 ∈ occupied ∨ pl.2 ∈ occupied) then false
      else placements_free ({[pl.1; pl.2]} ∪ occupied) rest
  end.

(** A copy of the piece whose dimensions are stored. *)
Definition with_dimensions (p : piece) : option piece :=
  match get_piece_dimensions p with
  | None => None
  | Some (h, w) => Some (set_dims p h w)
  end.

(** The copy of a movable piece put at the anchor of its placement. *)
Definition assign (x : piece * placement) : option piece :=
  with_dimensions (set_pos x.1 x.2.1.1 x.2.1.2).

(** [if state_tuple not in seen: seen.add(state_tuple);
     hyper_states.append(state)] *)
Definition add_unique
    (acc : list (list piece) * gset (list (string * Z * Z)))
    (state : list piece) :=
  if decide (board_to_tuple state ∈ acc.2) then acc
  else (acc.1 ++ [state], {[board_to_tuple state]} ∪ acc.2).

(** [generate_hypernodes]; [None] is the [ValueError] raised for a piece
    of unknown type.  The same [fixed] dictionaries end every state. *)
Definition generate_hypernodes (d : puzzle_data) : option (list (list piece)) :=
  let movable := filter is_domino (pieces d) in
  fixed ← mapM with_dimensions (filter (λ p, ¬ is_domino p) (pieces d));
  let mov_1x2 := filter (λ p, piece_type p = "1x2") movable in
  let mov_2x1 := filter (λ p, piece_type p = "2x1") movable in
  let num_1x2 := length mov_1x2 in
  let num_2x1 := length mov_2x1 in
  let combos :=
    comb_h ← combinations (placements_h (rows d) (cols d)) num_1x2;
    comb_v ← combinations (placements_v (rows d) (cols d)) num_2x1;
    [(comb_h, comb_v)] in
  states ← mapM (λ cc : list placement * list placement,
                   hs ← mapM assign (zip mov_1x2 cc.1);
                   vs ← mapM assign (zip mov_2x1 cc.2);
                   Some (hs ++ vs ++ fixed))
                (filter (λ cc, placements_free ∅ (cc.1 ++ cc.2) = true) combos);
  Some (foldl add_unique ([], ∅) states).1.

(** The cells of a piece whose dimensions are stored. *)
Definition footprint (p : piece) : list (Z * Z) :=
  match height p, width p with
  | Some h, Some w => cells (row p) (col p) h w
  | _, _ => []
  end.

(** The first loop of [generate_supernodes] on one piece: dimensions
    are looked up from the type when either key is missing. *)
Definition ensure_dimensions (p : piece) : option piece :=
  match height p, width p with
  | Some _, Some _ => Some p
  | _, _ => with_dimensions p
  end.

(** The unit block put on the [idx]-th cell of a combination. *)
Definition block (idx : nat) (cell : Z * Z) : piece :=
  Piece ("Block" +:+ pretty (idx + 1)%nat) cell.1 cell.2 "1x1"
        (Some 1) (Some 1) None.

(** [generate_supernodes]: four blocks, the literal count of the
    source.  [list(total_cells - occupied)] lists a set in an order the
    language leaves open; here it is the order of [elements]. *)
Definition generate_supernodes (hyper_state : list piece) (d : puzzle_data)
  : option (list (list piece)) :=
  hyper_state' ← mapM ensure_dimensions hyper_state;
  let total_cells : gset (Z * Z) := list_to_set (cells 0 0 (rows d) (cols d)) in
  let occupied : gset (Z * Z) := list_to_set (hyper_state' ≫= footprint) in
  let empty_spaces := elements (total_cells ∖ occupied) in
  Some (if decide (4 ≤ length empty_spaces)%nat
        then (λ combo, hyper_state' ++ imap block combo)
               <$> combinations empty_spaces 4
        else []).
End Shortest.

(** The start of [main] of shortestMoves.py: the configuration is
    loaded and, unless it is falsy, handed to [generate_hypernodes].
    [None]: [main] returns or raises before [generate_hypernodes]
    returns hyper-states (an exception of the loader; the value [None];
    a scalar, which is falsy or on which [puzzle_data["rows"]] raises;
    the [ValueError] of a piece of unknown type). *)
Definition main_hyper_states (file : config_file)
  : option (list (list piece)) :=
  match load_puzzle_config file with
  | Some (JDict data) => Shortest.generate_hypernodes data
  | _ => None
  end.

(** ** graph/getToEnd.py *)
Module GetToEnd.
(** A state dictionary: the movable pieces and the cells of the extra
    blocks. *)
Record state := State {
  pieces : list piece;
  extra_blocks : list (Z * Z)
}.

#[global] Instance state_eq_dec : EqDecision state.
Proof. solve_decision. Defined.

Definition get_piece_dimensions (p : piece) : option (Z * Z) :=
  if decide (piece_type p = "1x1") then Some (1, 1)
  else if decide (piece_type p = "1x2") then Some (1, 2)
  else if decide (piece_type p = "2x1") then Some (2, 1)
  else None.

(** [piece.setdefault("height", h); piece.setdefault("width", w)] *)
Definition setdefault_dims (p : piece) (h w : Z) : piece :=
  Piece (label p) (row p) (col p) (piece_type p)
        (Some (default h (height p))) (Some (default w (width p))) (fixed p).

(** [create_board_representation]: the cells written are those of the
    stored dimensions. *)
Fixpoint create_board_from (board : gmap (Z * Z) string) (ps : list piece)
  : option (gmap (Z * Z) string * list piece) :=
  match ps with
  | [] => Some (board, [])
  | p :: rest =>
      match get_piece_dimensions p with
      | None => None
      | Some (h, w) =>
          let p' := setdefault_dims p h w in
          let board' :=
            foldl (λ b cell, <[cell := label p']> b) board
                  (cells (row p') (col p')
                         (default h (height p)) (default w (width p))) in
          match create_board_from board' rest with
          | None => None
          | Some (b, ps') => Some (b, p' :: ps')
          end
      end
  end.

Definition create_board_representation (ps : list piece) :=
  create_board_from ∅ ps.

(** [get_all_possible_moves(pieces, extra_blocks, rows, cols)]: the extra
    blocks are written into the board under the label ["X"]. *)
Definition get_all_possible_moves (ps : list piece) (extra : list (Z * Z))
    (rows cols : Z) : option (gmap string (list move) * list piece) :=
  match create_board_representation ps with
  | None => None
  | Some (board, ps') =>
      let board' := foldl (λ b cell, <[cell := "X"]> b) board extra in
      match MoveGen.move_dict_from ∅ ps' board' rows cols with
      | None => None
      | Some move_dict => Some (move_dict, ps')
      end
  end.

(** Python's order on [(row, col)] tuples. *)
Definition cell_le (a b : Z * Z) : Prop :=
  a.1 < b.1 ∨ (a.1 = b.1 ∧ a.2 ≤ b.2).

#[global] Instance cell_le_dec : RelDecision cell_le.
Proof. intros a b. unfold cell_le. apply _. Defined.

Definition board_to_tuple (s : state) : list (string * Z * Z) * list (Z * Z) :=
  (merge_sort tuple_le (triple <$> pieces s), merge_sort cell_le (extra_blocks s)).

(** [target_piece_in_bottom_left]; [None] is the [KeyError] of a piece
    without stored dimensions. *)
Definition target_piece_in_bottom_left (p : piece) (rows cols : Z) : option bool :=
  match height p, width p with
  | Some h, Some w =>
      Some (bool_decide ((rows - 1, 0) ∈ cells (row p) (col p) h w))
  | _, _ => None
  end.

(** The copy of the state after one move: the first piece with the label
    gets the new anchor ([break]). *)
Fixpoint move_first (ps : list piece) (l : string) (r c : Z) : list piece :=
  match ps with
  | [] => []
  | p :: rest =>
      if decide (label p = l) then set_pos p r c :: rest
      else p :: move_first rest l r c
  end.

Definition candidates (ps : list piece) (extra : list (Z * Z))
    (moves : gmap string (list move)) : list (step * state) :=
  p ← ps;
  m ← moves !!! label p;
  [((label p, m.1.1), State (move_first ps (label p) m.1.2 m.2) extra)].

Definition expand (rows cols : Z) (s : state) : view state step :=
  match get_all_possible_moves (pieces s) (extra_blocks s) rows cols with
  | None => Fail
  | Some (moves, ps') => Grow (candidates ps' (extra_blocks s) moves)
  end.

(** The body of the [while] loop of [find_shortest_path_from_supernode]:
    a state without the target is expanded like any other. *)
Definition inspect (rows cols : Z) (target_label : string) (s : state)
  : view state step :=
  match find_piece target_label (pieces s) with
  | None => expand rows cols s
  | Some target_piece =>
      match target_piece_in_bottom_left target_piece rows cols with
      | None => Fail
      | Some true => Stop
      | Some false => expand rows cols s
      end
  end.

Definition search (fuel : nat) (initial_state : state) (d : puzzle_data)
    (target_label : string) : outcome state step :=
  bfs board_to_tuple (inspect (rows d) (cols d) target_label) fuel initial_state.

(** What [find_shortest_path_from_supernode] returns: the pair
    [(move_history, current_state)], or the pair [(None, None)]. *)
Inductive result :=
  | Solution (move_history : list step) (s : state)
  | NoSolution.

Definition find_shortest_path_from_supernode (fuel : nat)
    (initial_state : state) (d : puzzle_data) (target_label : string)
  : option result :=
  match search fuel initial_state d target_label with
  | Found move_history s => Some (Solution move_history s)
  | Exhausted => Some NoSolution
  | Raised | OutOfFuel => None
  end.
End GetToEnd.

(** * Specification vocabulary *)

(** ** The graph a search explores *)

(** Sequences of labelled transitions of a relation. *)
Inductive walk {St Mv : Type} (R : St → Mv → St → Prop)
  : St → list Mv → St → Prop :=
  | walk_nil s : walk R s [] s
  | walk_cons s m s' h s'' :
      R s m s' → walk R s' h s'' → walk R s (m :: h) s''.

Section BFSGraph.
Context {St Mv K : Type} `{Countable K}.
Variable key : St → K.
Variable inspect : St → view St Mv.

(** The loop offers [s'] under the name [m] when it expands [s]. *)
Definition edge (s : St) (m : Mv) (s' : St) : Prop :=
  ∃ next, inspect s = Grow next ∧ (m, s') ∈ next.

Definition path : St → list Mv → St → Prop := walk edge.

(** The states within [n] transitions of [init], as a list. *)
Fixpoint ball (n : nat) (init : St) : list St :=
  match n with
  | O => [init]
  | S n' =>
      ball n' init ++
      (s ← ball n' init;
       match inspect s with Grow next => snd <$> next | _ => [] end)
  end.

Definition depth (e : St * list Mv) : nat := length e.2.

(** The invariant of the [while] loop.  [done] is the list of entries
    dequeued so far (a ghost variable), each with the history it was
    queued with. *)
Record bfs_inv (init : St) (done queue : list (St * list Mv))
    (visited : gset K) : Prop := {
  inv_path : ∀ e, e ∈ done ++ queue → path init e.2 e.1;
  inv_init : (init, []) ∈ done ++ queue;
  inv_visited : ∀ k, k ∈ visited ↔ ∃ e, e ∈ done ++ queue ∧ key e.1 = k;
  inv_sorted : StronglySorted (λ e1 e2, (depth e1 ≤ depth e2)%nat) queue;
  inv_near : ∀ e0 e, head queue = Some e0 → e ∈ queue →
             (depth e ≤ S (depth e0))%nat;
  inv_done_le : ∀ e' e, e' ∈ done → e ∈ queue → (depth e' ≤ depth e)%nat;
  inv_done : ∀ e, e ∈ done →
             ∃ next, inspect e.1 = Grow next ∧
               ∀ x, x ∈ next →
                 ∃ e', e' ∈ done ++ queue ∧ key e'.1 = key x.2 ∧
                       (depth e' ≤ S (depth e))%nat
}.

(** What a finished search guarantees: a history that is found leads to
    a state the loop stops at and no shorter history does; an exhausted
    queue means no such state can be reached. *)
Definition bfs_post (init : St) (o : outcome St Mv) : Prop :=
  match o with
  | Found h s =>
      path init h s ∧ inspect s = Stop ∧
      ∀ h' t, path init h' t → inspect t = Stop → (length h ≤ length h')%nat
  | Exhausted => ∀ h' t, path init h' t → inspect t ≠ Stop
  | Raised | OutOfFuel => False
  end.
End BFSGraph.

(** ** Legal moves *)

Section Legality.
Variable get_piece_dimensions : piece → option (Z * Z).

(** The cells a piece covers, as its type says. *)
Definition type_cells (p : piece) : list (Z * Z) :=
  match get_piece_dimensions p with
  | Some (h, w) => cells (row p) (col p) h w
  | None => []
  end.

Definition in_grid (rows cols : Z) (cell : Z * Z) : Prop :=
  0 ≤ cell.1 < rows ∧ 0 ≤ cell.2 < cols.

(** The invariant of a board state: no two pieces share a cell. *)
Definition disjoint_board (s : list piece) : Prop :=
  ∀ p q cell, p ∈ s → q ∈ s → p ≠ q →
    cell ∈ type_cells p → cell ∉ type_cells q.

(** The move [m] of piece [p] is legal on board [s]: it shifts the piece
    by one cell in a direction of [MOVES], and every cell of the shifted
    footprint lies in the grid and belongs to no other piece. *)
Definition legal_move (rows cols : Z) (s : list piece) (p : piece) (m : move)
  : Prop :=
  ∃ dr dc h w,
    (m.1.1, (dr, dc)) ∈ MOVES ∧ m.1.2 = row p + dr ∧ m.2 = col p + dc ∧
    get_piece_dimensions p = Some (h, w) ∧
    ∀ cell, cell ∈ cells m.1.2 m.2 h w →
      in_grid rows cols cell ∧ ∀ q, q ∈ s → q ≠ p → cell ∉ type_cells q.

(** One legal step of the puzzle, named as in a move history. *)
Definition legal_step (rows cols : Z) (s : list piece) (mv : step)
    (s' : list piece) : Prop :=
  ∃ p m, p ∈ s ∧ mv = (label p, m.1.1) ∧ legal_move rows cols s p m ∧
         s' = move_piece s (label p) m.1.2 m.2.

(** The label of the last piece of the list that covers the cell, [o]
    when there is none: what the board dictionary holds for the cell. *)
Fixpoint owner (s : list piece) (cell : Z * Z) (o : option string)
  : option string :=
  match s with
  | [] => o
  | p :: rest =>
      owner rest cell
        (if decide (cell ∈ type_cells p) then Some (label p) else o)
  end.

(** The piece as [create_board_representation] leaves it. *)
Definition cache (p : piece) : piece :=
  match get_piece_dimensions p with
  | Some (h, w) => set_dims p h w
  | None => p
  end.
End Legality.

(** What the key and the move generators read of a piece. *)
Definition strip (p : piece) : piece :=
  Piece (label p) (row p) (col p) (piece_type p) None None None.

(** ** Goal predicates and states of one puzzle *)

(** The test of [find_shortest_target_path]: the target stands in the
    bottom-left corner, its height taken into account. *)
Definition simple_goal (rows : Z) (target_label : string) (s : list piece)
  : Prop :=
  ∃ t h w, find_piece target_label s = Some t ∧
           Simple.get_piece_dimensions t = Some (h, w) ∧
           row t = rows - h ∧ col t = 0.

(** The test of [find_shortest_target_path_from_state]: the anchor of the
    target is the cell [(rows - 1, 0)]. *)
Definition anchor_goal (rows : Z) (target_label : string) (s : list piece)
  : Prop :=
  ∃ t, find_piece target_label s = Some t ∧ row t = rows - 1 ∧ col t = 0.

(** An unchecked step: some piece is shifted by one cell, wherever that
    takes it. *)
Definition free_step (s : list piece) (mv : step) (s' : list piece) : Prop :=
  ∃ p dr dc, p ∈ s ∧ mv.1 = label p ∧ (mv.2, (dr, dc)) ∈ MOVES ∧
             s' = move_piece s (label p) (row p + dr) (col p + dc).

(** The boards of one puzzle: the same pieces as [init], in the same
    order, at any anchors. *)
Definition same_pieces (init s : list piece) : Prop :=
  label <$> s = label <$> init ∧ piece_type <$> s = piece_type <$> init.

(** All the ways of putting the pieces of [ps], in their order, at
    anchors drawn from [anchors]. *)
Fixpoint placements_over (anchors : list (Z * Z)) (ps : list piece)
  : list (list piece) :=
  match ps with
  | [] => [[]]
  | p :: rest =>
      c ← anchors; l ← placements_over anchors rest; [set_pos p c.1 c.2 :: l]
  end.

(** The anchors a piece of the puzzle can ever have in a search that
    checks bounds: those of the initial state and the cells of the grid. *)
Definition anchors_of (rows cols : Z) (init : list piece) : list (Z * Z) :=
  ((λ p, (row p, col p)) <$> init) ++ cells 0 0 rows cols.

Definition anchored (anchors : list (Z * Z)) (s : list piece) : Prop :=
  Forall (λ p, (row p, col p) ∈ anchors) s.

(** No piece of the state has a legal move. *)
Definition stuck (gpd : piece → option (Z * Z)) (rows cols : Z)
    (s : list piece) : Prop :=
  ∀ p m, p ∈ s → ¬ legal_move gpd rows cols s p m.

(** ** Order on labels *)

(** The strict order of Python on strings. *)
Definition str_lt (a b : string) : Prop := String.compare a b = Lt.

(** ** Counting *)

(** The binomial coefficient, by Pascal's rule. *)
Fixpoint binom (n k : nat) : nat :=
  match k with
  | O => 1
  | S k' =>
      match n with
      | O => 0
      | S n' => binom n' k' + binom n' k
      end
  end%nat.

(** The cells of the grid that no piece of the state covers, with the
    dimensions the pieces store. *)
Definition empty_cells (rows cols : Z) (s : list piece) : gset (Z * Z) :=
  list_to_set (cells 0 0 rows cols) ∖ list_to_set (s ≫= Shortest.footprint).

(** The anchors of the pieces a super-state adds to a hyper-state of
    [n] pieces. *)
Definition added_cells (n : nat) (state : list piece) : list (Z * Z) :=
  (λ p, (row p, col p)) <$> drop n state.

(** The label-to-anchor mapping of a board. *)
Definition anchor_of (l : string) (s : list piece) : option (Z * Z) :=
  (λ p, (row p, col p)) <$> find_piece l s.

(** ** Example boards *)

(** A piece as the configuration file gives it: no stored dimensions,
    no flag. *)
Definition pc (l : string) (r c : Z) (t : string) : piece :=
  Piece l r c t None None None.

(** Two unit pieces in the left column of a 2 x 2 grid, the target above
    the other piece. *)
Definition two_units : puzzle_data :=
  PuzzleData 2 2 [pc "T" 0 0 "1x1"; pc "B" 1 0 "1x1"] "T".

(** The same two pieces filling a 2 x 1 grid: no piece can move. *)
Definition packed_column : puzzle_data :=
  PuzzleData 2 1 [pc "T" 0 0 "1x1"; pc "B" 1 0 "1x1"] "T".

(** A domino and the unit target on a 2 x 3 grid. *)
Definition domino_and_target : puzzle_data :=
  PuzzleData 2 3 [pc "H" 0 0 "1x2"; pc "T" 0 2 "1x1"] "T".

(** The domino of [domino_and_target] put on the two rightmost cells of
    the top row, over the target; dimensions stored as
    [generate_hypernodes] stores them. *)
Definition domino_over_target : list piece :=
  [Piece "H" 0 1 "1x2" (Some 1) (Some 2) None;
   Piece "T" 0 2 "1x1" (Some 1) (Some 1) None].

(** Two pieces of a state cover the same cell. *)
Definition overlapping (s : list piece) : Prop :=
  ∃ i j p q cell, i ≠ j ∧ s !! i = Some p ∧ s !! j = Some q ∧
    cell ∈ Shortest.footprint p ∧ cell ∈ Shortest.footprint q.

(** The test of [find_shortest_path_from_supernode]: the target is
    among the pieces of the state and its footprint, of the stored
    dimensions, covers the cell [(rows - 1, 0)]. *)
Definition corner_goal (rows : Z) (target_label : string)
    (s : GetToEnd.state) : Prop :=
  ∃ t h w, find_piece target_label (GetToEnd.pieces s) = Some t ∧
           height t = Some h ∧ width t = Some w ∧
           (rows - 1, 0) ∈ cells (row t) (col t) h w.

(** The piece with the key ["fixed"] of its dictionary set to [f]. *)
Definition set_fixed (p : piece) (f : option bool) : piece :=
  Piece (label p) (row p) (col p) (piece_type p) (height p) (width p) f.

(** [two_units] with the target marked fixed. *)
Definition fixed_target : list piece :=
  [set_fixed (pc "T" 0 0 "1x1") (Some true); pc "B" 1 0 "1x1"].

(** A configuration with no rows and a negative number of columns, two
    pieces of the same label placed off any grid, and a target label no
    piece carries. *)
Definition malformed : puzzle_data :=
  PuzzleData 0 (-1) [pc "A" 5 5 "1x1"; pc "A" 7 7 "1x1"] "Z".

(** The same pieces and target on a 2 x 2 grid. *)
Definition misplaced : puzzle_data :=
  PuzzleData 2 2 [pc "A" 5 5 "1x1"; pc "A" 7 7 "1x1"] "Z".

(** ** States of one search of getToEnd.py *)

(** A piece with its anchor forgotten. *)
Definition unplaced (p : piece) : piece := set_pos p 0 0.

(** The states that differ from [init] in the anchors of the pieces
    only. *)
Definition same_frame (init s : GetToEnd.state) : Prop :=
  unplaced <$> GetToEnd.pieces s = unplaced <$> GetToEnd.pieces init ∧
  GetToEnd.extra_blocks s = GetToEnd.extra_blocks init.

(** The piece stores positive dimensions and has a known type. *)
Definition sized (p : piece) : Prop :=
  match height p, width p with
  | Some h, Some w =>
      0 < h ∧ 0 < w ∧ is_Some (GetToEnd.get_piece_dimensions p)
  | _, _ => False
  end.

#[global] Instance sized_dec p : Decision (sized p).
Proof. unfold sized. repeat case_match; apply _. Defined.

(** ** The extension enumerator, as specified *)

(** What the specification asks of the extension of a hyper-state [hs]
    for a required number [N] of blocks: no state when fewer than [N]
    cells are empty, and otherwise one state of [N] added blocks for
    each of the [binom E N] combinations of [N] empty cells. *)
Definition extends_by (N : nat) (hs : list piece) (d : puzzle_data) : Prop :=
  ∃ result,
    Shortest.generate_supernodes hs d = Some result ∧
    if decide (size (empty_cells (rows d) (cols d) hs) < N)%nat
    then result = []
    else length result = binom (size (empty_cells (rows d) (cols d) hs)) N ∧
         Forall (λ state, length (added_cells (length hs) state) = N) result.

(** An empty grid of one row and five columns. *)
Definition empty_row : puzzle_data := PuzzleData 1 5 [] "T".

(** * Further functions of the four files *)

(** ** simpleShortestMoves.py: replaying a move history *)
Module Simulate.
(** [MOVES[direction]]; [None] is the [KeyError]. *)
Definition MOVES_get (direction : string) : option (Z * Z) :=
  (λ x, x.2.2) <$> list_find (λ e, e.1 = direction) MOVES.

(** The inner loop of the replay: the first piece with the label is
    shifted ([break]). *)
Fixpoint shift_first (l : string) (dr dc : Z) (ps : list piece) : list piece :=
  match ps with
  | [] => []
  | p :: rest =>
      if decide (label p = l) then set_pos p (row p + dr) (col p + dc) :: rest
      else p :: shift_first l dr dc rest
  end.

Section Replay.
(** Two parts of the replay lie outside the model and are parameters of
    it: [folder_made], the outcome of [os.makedirs] on a missing folder,
    and [draw pieces number], the outcome of the matplotlib calls of
    [save_board_image] (figure, grid lines, rectangles, labels,
    [savefig]) for the board [pieces] written to the file
    [move_<number>.png] with the rows, columns and target of the
    configuration.  [None] is an exception.  The counter [step] of the
    source is [number] here. *)
Variable folder_made : option unit.
Variable draw : list piece → nat → option unit.

(** [save_board_image]: [get_piece_dimensions] is called on every
    piece, [None] being its [ValueError]; all the rest is [draw]. *)
Definition save_board_image (pieces : list piece) (number : nat)
  : option unit :=
  _ ← mapM Simple.get_piece_dimensions pieces; draw pieces number.

(** The loop [for move in shortest_path] of
    [simulate_shortest_path_and_save_images]: the boards saved after
    each move, in order. *)
Fixpoint simulate_from (number : nat) (current_pieces : list piece)
    (shortest_path : list step) : option (list (list piece)) :=
  match shortest_path with
  | [] => Some []
  | (piece_label, direction) :: rest =>
      d ← MOVES_get direction;
      let current_pieces' := shift_first piece_label d.1 d.2 current_pieces in
      _ ← save_board_image current_pieces' number;
      frames ← simulate_from (S number) current_pieces' rest;
      Some (current_pieces' :: frames)
  end.

(** [simulate_shortest_path_and_save_images].  The function returns
    the names of the image files; the model returns the boards saved in
    them, the initial one first. *)
Definition simulate_shortest_path_and_save_images (d : puzzle_data)
    (shortest_path : list step) : option (list (list piece)) :=
  _ ← folder_made;
  _ ← save_board_image (pieces d) 0;
  frames ← simulate_from 1 (pieces d) shortest_path;
  Some (pieces d :: frames).
End Replay.
End Simulate.

(** Every board of the list, saved under its index, is drawn without an
    exception. *)
Definition drawn (draw : list piece → nat → option unit) (start : nat)
    (frames : list (list piece)) : Prop :=
  ∀ i f, frames !! i = Some f → draw f (start + i)%nat = Some ().

(** ** Vocabulary for the enumerators *)

(** The cells of a list of placements. *)
Definition placement_cells (chosen : list Shortest.placement) : list (Z * Z) :=
  chosen ≫= λ pl, [pl.1; pl.2].

(** A piece put at an anchor with dimensions stored, as
    [generate_hypernodes] builds the dominoes of a state. *)
Definition placed (h w : Z) (x : piece * Shortest.placement) : piece :=
  set_dims (set_pos x.1 x.2.1.1 x.2.1.2) h w.

(** The pieces [generate_hypernodes] re-places: horizontal dominoes,
    then vertical ones; and the pieces it keeps in place. *)
Definition mov_1x2 (d : puzzle_data) : list piece :=
  filter (λ p, piece_type p = "1x2") (filter Shortest.is_domino (pieces d)).

Definition mov_2x1 (d : puzzle_data) : list piece :=
  filter (λ p, piece_type p = "2x1") (filter Shortest.is_domino (pieces d)).

Definition kept (d : puzzle_data) : list piece :=
  filter (λ p, ¬ Shortest.is_domino p) (pieces d).

(** ** The other breadth-first loops *)

(** How a loop run with fuel ends: it returns, an exception leaves it,
    or the fuel of the model runs out. *)
Inductive run (A : Type) :=
  | Returns (a : A)
  | Raises
  | NoFuel.
Arguments Returns {A} a.
Arguments Raises {A}.
Arguments NoFuel {A}.

Section Sweeps.
Context {St Mv K : Type} `{Countable K}.
Variable key : St → K.

(** The loop of [BFS] (potentialMoves.py): the queue holds boards
    without histories, and every dequeue is counted.  [expand] is the
    body up to the nested loops, [None] when it raises. *)
Variable expand : St → option (list (Mv * St)).

Definition mark (acc : list St * gset K) (x : Mv * St) : list St * gset K :=
  if decide (key x.2 ∈ acc.2) then acc
  else (acc.1 ++ [x.2], {[key x.2]} ∪ acc.2).

Fixpoint count_loop (fuel : nat) (queue : list St) (visited : gset K)
    (total_configurations : nat) : run nat :=
  match fuel with
  | O => NoFuel
  | S fuel' =>
      match queue with
      | [] => Returns total_configurations
      | current :: rest =>
          match expand current with
          | None => Raises
          | Some next =>
              let acc := foldl mark (rest, visited) next in
              count_loop fuel' acc.1 acc.2 (S total_configurations)
          end
      end
  end.

Definition count (fuel : nat) (init : St) : run nat :=
  count_loop fuel [init] {[key init]} 0.

(** The body of the counting loop as a view: it expands every state. *)
Definition expand_view (s : St) : view St Mv :=
  match expand s with
  | None => Fail
  | Some next => Grow next
  end.

(** The loop of [find_target_piece_paths] (potentialMoves.py): a state
    the loop stops at is appended to [valid_end_states] with its history
    and is not expanded ([continue]). *)
Variable inspect : St → view St Mv.

Fixpoint collect_loop (fuel : nat) (queue : list (St * list Mv))
    (visited : gset K) (valid_end_states : list (St * list Mv))
  : run (list (St * list Mv)) :=
  match fuel with
  | O => NoFuel
  | S fuel' =>
      match queue with
      | [] => Returns valid_end_states
      | (current, move_history) :: rest =>
          match inspect current with
          | Stop =>
              collect_loop fuel' rest visited
                (valid_end_states ++ [(current, move_history)])
          | Skip => collect_loop fuel' rest visited valid_end_states
          | Fail => Raises
          | Grow next =>
              let acc := foldl (push key move_history) (rest, visited) next in
              collect_loop fuel' acc.1 acc.2 valid_end_states
          end
      end
  end.

Definition collect (fuel : nat) (init : St) : run (list (St * list Mv)) :=
  collect_loop fuel [(init, [])] {[key init]} [].

(** The body of the collecting loop as a view of the loop that returns
    nothing early: a state it stops at offers no successor. *)
Definition continue_view (s : St) : view St Mv :=
  match inspect s with
  | Stop => Grow []
  | v => v
  end.
End Sweeps.

(** ** potentialMoves.py: the two searches *)
Module PotentialSearch.
(** The call of [get_all_possible_moves] and the nested loops over its
    result: the boards offered, each with the move that makes it. *)
Definition expand (rows cols : Z) (current_pieces : list piece)
  : option (list (step * list piece)) :=
  match Potential.get_all_possible_moves current_pieces rows cols with
  | None => None
  | Some (possible_moves, current_pieces') =>
      Some (candidates current_pieces' possible_moves)
  end.

(** [BFS(puzzle_data)]: the number of configurations dequeued. *)
Definition BFS (fuel : nat) (d : puzzle_data) : run nat :=
  count board_to_tuple (expand (rows d) (cols d)) fuel (pieces d).

(** The body of the loop of [find_target_piece_paths] up to the nested
    loops; [next(...)] raises [StopIteration] without the target. *)
Definition inspect (rows cols : Z) (target_label : string)
    (current_pieces : list piece) : view (list piece) step :=
  match find_piece target_label current_pieces with
  | None => Fail
  | Some target_piece =>
      if bool_decide (row target_piece = rows - 1 ∧ col target_piece = 0)
      then Stop
      else match expand rows cols current_pieces with
           | None => Fail
           | Some next => Grow next
           end
  end.

(** [find_target_piece_paths(puzzle_data)]: the end states with their
    move histories, in the order they were dequeued. *)
Definition find_target_piece_paths (fuel : nat) (d : puzzle_data)
  : run (list (list piece * list step)) :=
  collect board_to_tuple (inspect (rows d) (cols d) (target d)) fuel (pieces d).
End PotentialSearch.

(** A legal step out of a state that is no end state of
    [find_target_piece_paths]: the only steps that search takes. *)
Definition step_before_goal (rows cols : Z) (target_label : string)
    (s : list piece) (mv : step) (s' : list piece) : Prop :=
  ¬ anchor_goal rows target_label s ∧
  legal_step Potential.get_piece_dimensions rows cols s mv s'.

(** ** Vocabulary for getToEnd.py *)

(** The dimensions a piece stores. *)
Definition stored_dims (p : piece) : option (Z * Z) :=
  match height p, width p with
  | Some h, Some w => Some (h, w)
  | _, _ => None
  end.

(** The move [m] of piece [p] is legal among the pieces [ps] and the
    extra blocks [extra], as getToEnd.py tests it: every cell of the
    shifted footprint (of the stored dimensions) lies in the grid; it is
    no extra block unless the piece itself is labelled ["X"]; and if it
    is no extra block, it belongs to no other piece. *)
Definition legal_among (rows cols : Z) (ps : list piece)
    (extra : list (Z * Z)) (p : piece) (m : move) : Prop :=
  ∃ dr dc h w,
    (m.1.1, (dr, dc)) ∈ MOVES ∧ m.1.2 = row p + dr ∧ m.2 = col p + dc ∧
    stored_dims p = Some (h, w) ∧
    ∀ cell, cell ∈ cells m.1.2 m.2 h w →
      in_grid rows cols cell ∧
      (cell ∈ extra → label p = "X") ∧
      (cell ∉ extra →
       ∀ q, q ∈ ps → q ≠ p → cell ∉ type_cells stored_dims q).

(** One step of the search of getToEnd.py on the pieces [s], among the
    extra blocks [extra]: a move that is legal among them, made by the
    first piece with the label. *)
Definition among_step (rows cols : Z) (extra : list (Z * Z))
    (s : list piece) (mv : step) (s' : list piece) : Prop :=
  ∃ p m, p ∈ s ∧ mv = (label p, m.1.1) ∧ legal_among rows cols s extra p m ∧
         s' = GetToEnd.move_first s (label p) m.1.2 m.2.

(** The piece has a known type, and the dimensions it stores, if any,
    are positive. *)
Definition sizable (p : piece) : Prop :=
  is_Some (GetToEnd.get_piece_dimensions p) ∧
  0 < default 1 (height p) ∧ 0 < default 1 (width p).

(** The piece as [create_board_representation] of getToEnd.py leaves
    it. *)
Definition stored (p : piece) : piece :=
  match GetToEnd.get_piece_dimensions p with
  | Some (h, w) => GetToEnd.setdefault_dims p h w
  | None => p
  end.

(** The states of a search of getToEnd.py from [init]: the pieces of
    [init] at other anchors, no two of them overlapping, among the same
    extra blocks. *)
Definition apart (init s : GetToEnd.state) : Prop :=
  same_frame init s ∧ disjoint_board stored_dims (GetToEnd.pieces s).

(** ** graph/getToEnd.py: hyper nodes and super nodes *)

Module HyperSuper.
(** The order of [sorted(..., key=lambda x: (x[0][0], x[0][1]))]. *)
Definition anchor_le (a b : Shortest.placement) : Prop :=
  GetToEnd.cell_le a.1 b.1.

#[global] Instance anchor_le_dec : RelDecision anchor_le.
Proof. intros a b. unfold anchor_le. apply _. Defined.

(** [count_valid_arrangements]: the placements and the check of the
    chosen ones are those of shortestMoves.py; an arrangement is the
    [frozenset] of the placements chosen, and [valid_states] a set of
    them.  [list(valid_states)] lists a set in an order the language
    leaves open; here it is the order of [elements]. *)
Definition count_valid_arrangements (d : puzzle_data)
  : list (gset Shortest.placement) :=
  let num_1x2 := length (filter (λ p, piece_type p = "1x2") (pieces d)) in
  let num_2x1 := length (filter (λ p, piece_type p = "2x1") (pieces d)) in
  let valid_states : gset (gset Shortest.placement) :=
    list_to_set
      (chosen_h ← combinations (Shortest.placements_h (rows d) (cols d)) num_1x2;
       chosen_v ← combinations (Shortest.placements_v (rows d) (cols d)) num_2x1;
       if Shortest.placements_free ∅ (chosen_h ++ chosen_v)
       then [list_to_set (chosen_h ++ chosen_v)]
       else []) in
  elements valid_states.

(** [piece["row"], piece["col"] = placement[0]] on a copy of the
    piece. *)
Definition assign (x : piece * Shortest.placement) : piece :=
  set_pos x.1 x.2.1.1 x.2.1.2.

(** [generate_supernode_states]: the 1x2 and the 2x1 pieces of the
    configuration are put, in their order, on the horizontal and the
    vertical placements of the hyper node, sorted by anchor ([zip] stops
    at the shorter list); every choice of four empty cells gives a
    state.  The sets are listed in the order of [elements]. *)
Definition generate_supernode_states (hyper_node : gset Shortest.placement)
    (d : puzzle_data) : list GetToEnd.state :=
  let horizontal_placements :=
    merge_sort anchor_le
      (filter (λ p : Shortest.placement, p.1.1 = p.2.1) (elements hyper_node)) in
  let vertical_placements :=
    merge_sort anchor_le
      (filter (λ p : Shortest.placement, p.1.2 = p.2.2) (elements hyper_node)) in
  let horiz_pieces := filter (λ p, piece_type p = "1x2") (pieces d) in
  let vert_pieces := filter (λ p, piece_type p = "2x1") (pieces d) in
  let assigned_pieces :=
    (assign <$> zip horiz_pieces horizontal_placements) ++
    (assign <$> zip vert_pieces vertical_placements) in
  let occupied_cells : gset (Z * Z) :=
    list_to_set (placement_cells (elements hyper_node)) in
  let total_cells : gset (Z * Z) :=
    list_to_set (cells 0 0 (rows d) (cols d)) in
  let empty_spaces := elements (total_cells ∖ occupied_cells) in
  (λ extra, GetToEnd.State assigned_pieces extra)
    <$> combinations empty_spaces 4.

(** [build_hyper_super_structure]: the super nodes of all the hyper
    nodes, in their order. *)
Definition build_hyper_super_structure
    (hyper_states : list (gset Shortest.placement)) (d : puzzle_data)
  : list GetToEnd.state :=
  hyper_state ← hyper_states; generate_supernode_states hyper_state d.
End HyperSuper.

(** The 1x2 and the 2x1 pieces of a configuration. *)
Definition horiz_pieces (d : puzzle_data) : list piece :=
  filter (λ p, piece_type p = "1x2") (pieces d).

Definition vert_pieces (d : puzzle_data) : list piece :=
  filter (λ p, piece_type p = "2x1") (pieces d).

(** The cells of an arrangement. *)
Definition arrangement_cells (hyper_node : gset Shortest.placement)
  : gset (Z * Z) :=
  list_to_set (placement_cells (elements hyper_node)).

(** The cells of the grid outside an arrangement. *)
Definition free_cells (rows cols : Z) (hyper_node : gset Shortest.placement)
  : gset (Z * Z) :=
  list_to_set (cells 0 0 rows cols) ∖ arrangement_cells hyper_node.

(** * Proofs *)

(** ** Walks *)
Section Walk.
Context {St Mv : Type} (R : St → Mv → St → Prop).

Lemma walk_app s h1 s' h2 s'' :
  walk R s h1 s' → walk R s' h2 s'' → walk R s (h1 ++ h2) s''.
Proof.
  induction 1 as [|s m s1 h s2 Hstep Hw IH]; simpl; [done|].
  intros Hw2. eapply walk_cons; eauto.
Qed.

Lemma walk_snoc s h s' m s'' :
  walk R s h s' → R s' m s'' → walk R s (h ++ [m]) s''.
Proof.
  intros Hw Hstep. eapply walk_app; [done|].
  eapply walk_cons; [done|constructor].
Qed.

Lemma walk_snoc_inv s h m s'' :
  walk R s (h ++ [m]) s'' → ∃ s', walk R s h s' ∧ R s' m s''.
Proof.
  revert s. induction h as [|m0 h IH]; simpl; intros s Hw.
  - inversion Hw as [|? ? s1 ? ? Hstep Hrest]; subst.
    inversion Hrest; subst. exists s. split; [constructor|done].
  - inversion Hw as [|? ? s1 ? ? Hstep Hrest]; subst.
    destruct (IH _ Hrest) as (s' & Hw' & Hlast).
    exists s'. split; [|done]. eapply walk_cons; eauto.
Qed.

Lemma walk_nil_inv s s' : walk R s [] s' → s = s'.
Proof. by inversion 1. Qed.
End Walk.

Section BFSLoop.
Context {St Mv K : Type} `{Countable K}.
Variable key : St → K.
Variable inspect : St → view St Mv.

(** The effect of the innermost loops on the queue and the visited set. *)
Lemma foldl_push_spec hist next queue visited :
  ∃ new : list (St * list Mv),
    (foldl (push key hist) (queue, visited) next).1 = queue ++ new ∧
    (∀ e, e ∈ new → ∃ m, (m, e.1) ∈ next ∧ e.2 = hist ++ [m]) ∧
    (∀ k, k ∈ (foldl (push key hist) (queue, visited) next).2 ↔
          k ∈ visited ∨ ∃ e, e ∈ new ∧ key e.1 = k) ∧
    (∀ x, x ∈ next → key x.2 ∈ (foldl (push key hist) (queue, visited) next).2) ∧
    size (foldl (push key hist) (queue, visited) next).2
      = (size visited + length new)%nat.
Proof.
  revert queue visited.
  induction next as [|x next IH]; intros queue visited; simpl.
  - exists []. rewrite app_nil_r. split_and!.
    + done.
    + intros e He. by apply elem_of_nil in He.
    + intros k. split; [auto|]. intros [?|(e & He & _)]; [done|].
      by apply elem_of_nil in He.
    + intros x Hx. by apply elem_of_nil in Hx.
    + simpl. lia.
  - unfold push at 2 4 6 8. simpl. case_decide as Hin.
    + destruct (IH queue visited) as (new & Hq & Hnew & Hv & Hnext & Hsz).
      exists new. split_and!; [done| | done | |done].
      * intros e He. destruct (Hnew e He) as (m & Hm & Hh).
        exists m. split; [by right|done].
      * intros y [->|Hy]%elem_of_cons; [|by apply Hnext].
        apply Hv. by left.
    + destruct (IH (queue ++ [(x.2, hist ++ [x.1])]) ({[key x.2]} ∪ visited))
        as (new & Hq & Hnew & Hv & Hnext & Hsz).
      exists ((x.2, hist ++ [x.1]) :: new).
      split_and!.
      * rewrite Hq. by rewrite <- app_assoc.
      * intros e [->|He]%elem_of_cons.
        -- exists x.1. simpl. split; [|done]. destruct x; by left.
        -- destruct (Hnew e He) as (m & Hm & Hh).
           exists m. split; [by right|done].
      * intros k. rewrite Hv. split.
        -- intros [[Hk%elem_of_singleton|Hk]%elem_of_union|(e & He & Hk)].
           ++ right. exists (x.2, hist ++ [x.1]). split; [by left|done].
           ++ by left.
           ++ right. exists e. split; [by right|done].
        -- intros [Hk|(e & [Heq|He]%elem_of_cons & Hk)].
           ++ left. apply elem_of_union. by right.
           ++ left. rewrite Heq in Hk. simpl in Hk.
              apply elem_of_union. left. by apply elem_of_singleton.
           ++ right. by exists e.
      * intros y [->|Hy]%elem_of_cons; [|by apply Hnext].
        apply Hv. left. apply elem_of_union. left. by apply elem_of_singleton.
      * rewrite Hsz. rewrite size_union by (by apply disjoint_singleton_l).
        rewrite size_singleton. simpl. lia.
Qed.

Lemma head_least s h rest e :
  StronglySorted (λ e1 e2 : St * list Mv, (depth e1 ≤ depth e2)%nat)
    ((s, h) :: rest) →
  e ∈ (s, h) :: rest → (length h ≤ depth e)%nat.
Proof.
  intros Hs [->|He]%elem_of_cons.
  { unfold depth. simpl. lia. }
  apply StronglySorted_inv in Hs as [_ Hall].
  rewrite Forall_forall in Hall. by apply (Hall e).
Qed.

Lemma same_depth_sorted (l : list (St * list Mv)) n :
  (∀ e, e ∈ l → depth e = n) →
  StronglySorted (λ e1 e2 : St * list Mv, (depth e1 ≤ depth e2)%nat) l.
Proof.
  induction l as [|e l IH]; intros Hall; constructor.
  - apply IH. intros e' He'. apply Hall. by right.
  - apply Forall_forall. intros e' He'.
    rewrite (Hall e) by (by left). rewrite (Hall e') by (by right). done.
Qed.

(** The outcome of the loop does not change when more fuel is given. *)
Lemma bfs_loop_fuel fuel fuel' queue visited :
  (fuel ≤ fuel')%nat →
  bfs_loop key inspect fuel queue visited ≠ OutOfFuel →
  bfs_loop key inspect fuel' queue visited
    = bfs_loop key inspect fuel queue visited.
Proof.
  revert fuel' queue visited.
  induction fuel as [|fuel IH]; intros fuel' queue visited Hle; simpl; [done|].
  destruct fuel' as [|fuel']; [lia|]. simpl.
  destruct queue as [|[s h] rest]; [done|].
  destruct (inspect s); [done| |done|].
  - apply IH. lia.
  - apply IH. lia.
Qed.

(** A history that is returned is the name of a walk to the state it is
    returned with, whatever the states look like. *)

Lemma bfs_loop_sound init fuel queue visited h s :
  (∀ e, e ∈ queue → path inspect init e.2 e.1) →
  bfs_loop key inspect fuel queue visited = Found h s →
  path inspect init h s ∧ inspect s = Stop.
Proof.
  revert queue visited.
  induction fuel as [|fuel IH]; intros queue visited Hq; simpl; [done|].
  destruct queue as [|[cur hist] rest]; [done|].
  destruct (inspect cur) as [| | |next] eqn:Hview.
  - intros [= <- <-]. split; [|done]. apply (Hq (cur, hist)). by left.
  - apply IH. intros e He. apply Hq. by right.
  - done.
  - apply IH.
    destruct (foldl_push_spec hist next rest visited)
      as (new & -> & Hnew & _).
    intros e [He|He]%elem_of_app.
    + apply Hq. by right.
    + destruct (Hnew e He) as (m & Hm & ->).
      eapply walk_snoc; [apply (Hq (cur, hist)); by left|].
      by exists next.
Qed.

Lemma bfs_sound init fuel h s :
  bfs key inspect fuel init = Found h s →
  path inspect init h s ∧ inspect s = Stop.
Proof.
  apply bfs_loop_sound. intros e ->%list_elem_of_singleton. constructor.
Qed.
End BFSLoop.

Section BFSCorrect.
Context {St Mv K : Type} `{Countable K}.
Variable key : St → K.
Variable inspect : St → view St Mv.
Variable init : St.
Variable Rinv : St → Prop.
Hypothesis Rinv_init : Rinv init.
Hypothesis Rinv_edge :
  ∀ s m s', Rinv s → edge inspect s m s' → Rinv s'.
Hypothesis Rinv_view :
  ∀ s, Rinv s → inspect s = Stop ∨ ∃ next, inspect s = Grow next.
Hypothesis key_sim :
  ∀ s s' m t, Rinv s → Rinv s' → key s = key s' → edge inspect s m t →
    ∃ t', edge inspect s' m t' ∧ key t' = key t.
Hypothesis key_stop :
  ∀ s s', Rinv s → Rinv s' → key s = key s' →
    inspect s = Stop → inspect s' = Stop.

Local Abbreviation path := (path inspect).
Local Abbreviation bfs_inv := (bfs_inv key inspect init).

Lemma path_Rinv s h s' : Rinv s → path s h s' → Rinv s'.
Proof. intros Hs Hp. induction Hp; eauto. Qed.


Lemma bfs_inv_start : bfs_inv [] [(init, [])] {[key init]}.
Proof.
  split; simpl.
  - intros e ->%list_elem_of_singleton. constructor.
  - by left.
  - intros k. rewrite elem_of_singleton. split.
    + intros ->. exists (init, []). split; [by left|done].
    + by intros (e & ->%list_elem_of_singleton & <-).
  - repeat constructor.
  - intros e0 e [= <-] ->%list_elem_of_singleton. lia.
  - intros e' e He'. by apply elem_of_nil in He'.
  - intros e He. by apply elem_of_nil in He.
Qed.


(** Every state within the depth of the queue has an entry whose
    history is at most as long as any walk to it. *)
Lemma covered done queue visited h t :
  bfs_inv done queue visited →
  path init h t →
  (∀ e, e ∈ queue → (length h ≤ depth e)%nat) →
  ∃ e, e ∈ done ++ queue ∧ key e.1 = key t ∧ (depth e ≤ length h)%nat.
Proof.
  intros Hinv. revert t. induction h as [|m h IH] using rev_ind; intros t Hp Hq.
  - apply walk_nil_inv in Hp as <-.
    exists (init, []). split_and!; [apply Hinv|done|done].
  - apply walk_snoc_inv in Hp as (u & Hu & Hedge).
    rewrite length_app in Hq. simpl in Hq.
    destruct (IH u Hu) as (eu & Heu & Hku & Hdu).
    { intros e He. specialize (Hq e He). lia. }
    assert (eu ∈ done) as Hdone.
    { apply elem_of_app in Heu as [?|Heq]; [done|].
      specialize (Hq eu Heq). lia. }
    destruct (inv_done _ _ _ _ _ _ Hinv eu Hdone) as (next & Hnext & Hall).
    assert (Rinv u) as HRu by (eapply path_Rinv; eauto).
    assert (Rinv eu.1) as HReu.
    { eapply path_Rinv; [apply Rinv_init|]. apply Hinv.
      apply elem_of_app. by left. }
    destruct (key_sim u eu.1 m t HRu HReu (eq_sym Hku) Hedge)
      as (t' & (next' & Hnext' & Hin) & Hkt).
    rewrite Hnext in Hnext'. injection Hnext' as <-.
    destruct (Hall _ Hin) as (e' & He' & Hk' & Hd').
    exists e'. split_and!; [done|simpl in Hk'; congruence|].
    rewrite length_app. simpl. lia.
Qed.

(** No state the loop stops at lies strictly below the depth of the
    queue. *)
Lemma no_goal_below done queue visited h t :
  bfs_inv done queue visited →
  path init h t → inspect t = Stop →
  (∀ e, e ∈ queue → (length h < depth e)%nat) → False.
Proof.
  intros Hinv Hp Hstop Hq.
  destruct (covered done queue visited h t Hinv Hp) as (e & He & Hk & Hd).
  { intros e He. specialize (Hq e He). lia. }
  assert (e ∈ done) as Hdone.
  { apply elem_of_app in He as [?|Heq]; [done|].
    specialize (Hq e Heq). lia. }
  destruct (inv_done _ _ _ _ _ _ Hinv e Hdone) as (next & Hnext & _).
  assert (inspect e.1 = Stop) as Habs.
  { eapply (key_stop t e.1); [| |done|done].
    - eapply path_Rinv; eauto.
    - eapply path_Rinv; [apply Rinv_init|]. apply Hinv.
      apply elem_of_app. by left. }
  congruence.
Qed.


(** One turn of the loop on a state that is expanded keeps the
    invariant. *)
Lemma bfs_inv_step done s h rest visited next :
  bfs_inv done ((s, h) :: rest) visited →
  inspect s = Grow next →
  bfs_inv ((s, h) :: done)
          (foldl (push key h) (rest, visited) next).1
          (foldl (push key h) (rest, visited) next).2.
Proof.
  intros Hinv Hgrow.
  destruct (foldl_push_spec key h next rest visited)
    as (new & Hq & Hnew & Hv & Hnext & _).
  rewrite Hq.
  assert (∀ e, e ∈ new → depth e = S (length h)) as Hnew_depth.
  { intros e He. destruct (Hnew e He) as (m & _ & Hh).
    unfold depth. rewrite Hh, length_app. simpl. lia. }
  assert (∀ e, e ∈ rest → (length h ≤ depth e ≤ S (length h))%nat) as Hrest_depth.
  { intros e He. split.
    - eapply head_least; [apply Hinv|by right].
    - apply (inv_near _ _ _ _ _ _ Hinv (s, h) e); [done|by right]. }
  assert (∀ e, e ∈ done → (depth e ≤ length h)%nat) as Hdone_depth.
  { intros e He. apply (inv_done_le _ _ _ _ _ _ Hinv e (s, h) He). by left. }
  assert (∀ e, e ∈ done ++ (s, h) :: rest → e ∈ ((s, h) :: done) ++ rest ++ new)
    as Hmove.
  { intros e. rewrite !elem_of_app, !elem_of_cons. tauto. }
  assert (∀ e, e ∈ ((s, h) :: done) ++ rest ++ new →
               e ∈ done ++ (s, h) :: rest ∨ e ∈ new) as Hback.
  { intros e. rewrite !elem_of_app, !elem_of_cons. tauto. }
  assert (∀ e, e ∈ ((s, h) :: done) ++ rest ++ new → (depth e ≤ S (length h))%nat)
    as Hall_depth.
  { intros e. rewrite !elem_of_app, !elem_of_cons.
    intros [[->|He]|[He|He]].
    - unfold depth. simpl. lia.
    - specialize (Hdone_depth e He). lia.
    - specialize (Hrest_depth e He). lia.
    - rewrite (Hnew_depth e He). lia. }
  split.
  - intros e [He|He]%Hback; [by apply Hinv|].
    destruct (Hnew e He) as (m & Hm & ->).
    eapply walk_snoc.
    + apply (inv_path _ _ _ _ _ _ Hinv (s, h)).
      apply elem_of_app. right. by left.
    + by exists next.
  - apply Hmove, Hinv.
  - intros k. rewrite Hv, (inv_visited _ _ _ _ _ _ Hinv). split.
    + intros [(e & He & Hk)|(e & He & Hk)].
      * exists e. split; [by apply Hmove|done].
      * exists e. split; [|done]. rewrite !elem_of_app. auto.
    + intros (e & [He|He]%Hback & Hk); [left|right]; by exists e.
  - apply StronglySorted_app_2.
    + intros e1 e2 He1 He2. rewrite (Hnew_depth e2 He2).
      by apply Hrest_depth.
    + pose proof (inv_sorted _ _ _ _ _ _ Hinv) as Hs.
      by apply StronglySorted_inv in Hs as [? _].
    + by apply (same_depth_sorted new (S (length h))).
  - intros e0 e Hhead He.
    assert (length h ≤ depth e0)%nat.
    { apply head_Some_elem_of in Hhead.
      apply elem_of_app in Hhead as [Hin|Hin].
      - by apply Hrest_depth.
      - rewrite (Hnew_depth e0 Hin). lia. }
    assert (depth e ≤ S (length h))%nat; [|lia].
    apply Hall_depth. rewrite elem_of_app. by right.
  - intros e' e [->|He']%elem_of_cons [He|He]%elem_of_app.
    + by apply Hrest_depth.
    + rewrite (Hnew_depth e He). unfold depth. simpl. lia.
    + specialize (Hdone_depth e' He'). specialize (Hrest_depth e He). lia.
    + specialize (Hdone_depth e' He'). rewrite (Hnew_depth e He). lia.
  - intros e [->|He]%elem_of_cons.
    + exists next. split; [done|]. intros x Hx.
      specialize (Hnext x Hx). apply Hv in Hnext.
      assert (∃ e', e' ∈ ((s, h) :: done) ++ rest ++ new ∧ key e'.1 = key x.2)
        as (e' & He' & Hk).
      { destruct Hnext as [Hk|(e' & He' & Hk)].
        - apply (inv_visited _ _ _ _ _ _ Hinv) in Hk as (e' & He' & Hk).
          exists e'. split; [by apply Hmove|done].
        - exists e'. split; [|done]. rewrite !elem_of_app. auto. }
      exists e'. split_and!; [done|done|]. by apply Hall_depth.
    + destruct (inv_done _ _ _ _ _ _ Hinv e He) as (next' & Hnext' & Hall).
      exists next'. split; [done|]. intros x Hx.
      destruct (Hall x Hx) as (e' & He' & Hk & Hd).
      exists e'. split_and!; [by apply Hmove|done|done].
Qed.


Section Universe.
Variable U : gset K.
Hypothesis visited_in_U :
  ∀ done queue visited, bfs_inv done queue visited → visited ⊆ U.

(** With all the keys that are ever marked drawn from a finite set, the
    loop ends before the fuel does, and its outcome is right. *)
Lemma bfs_loop_correct fuel done queue visited :
  bfs_inv done queue visited →
  (size (U ∖ visited) + length queue < fuel)%nat →
  bfs_post inspect init (bfs_loop key inspect fuel queue visited).
Proof.
  revert done queue visited.
  induction fuel as [|fuel IH]; intros done queue visited Hinv Hfuel; [lia|].
  simpl. destruct queue as [|[s h] rest].
  - simpl. intros h' t Hp Hstop.
    eapply (no_goal_below done [] visited h' t); eauto.
    intros e He. by apply elem_of_nil in He.
  - assert (path init h s) as Hps.
    { apply (inv_path _ _ _ _ _ _ Hinv (s, h)).
      apply elem_of_app. right. by left. }
    assert (Rinv s) as HRs by (eapply path_Rinv; eauto).
    destruct (Rinv_view s HRs) as [Hstop|(next & Hgrow)].
    + rewrite Hstop. simpl. split_and!; [done|done|].
      intros h' t Hp Ht.
      destruct (decide (length h ≤ length h')%nat) as [|Hlt]; [done|].
      exfalso. eapply (no_goal_below done ((s, h) :: rest) visited h' t); eauto.
      intros e He.
      pose proof (head_least s h rest e (inv_sorted _ _ _ _ _ _ Hinv) He). lia.
    + rewrite Hgrow.
      pose proof (bfs_inv_step done s h rest visited next Hinv Hgrow) as Hinv'.
      apply (IH _ _ _ Hinv').
      destruct (foldl_push_spec key h next rest visited)
        as (new & Hq & _ & Hv & _ & Hsz).
      pose proof (visited_in_U _ _ _ Hinv') as HU'.
      assert (visited ⊆ (foldl (push key h) (rest, visited) next).2) as Hsub.
      { intros k Hk. apply Hv. by left. }
      rewrite Hq, length_app.
      rewrite size_difference by done.
      rewrite size_difference in Hfuel by (by etrans).
      pose proof (subseteq_size _ _ HU'). simpl in Hfuel. lia.
Qed.

Lemma bfs_correct fuel :
  (size U < fuel)%nat →
  bfs_post inspect init (bfs key inspect fuel init).
Proof.
  intros Hfuel. unfold bfs.
  apply (bfs_loop_correct fuel [] _ _ bfs_inv_start).
  pose proof (visited_in_U _ _ _ bfs_inv_start) as HU.
  rewrite size_difference by done.
  rewrite size_singleton. simpl.
  pose proof (subseteq_size _ _ HU) as Hsz. rewrite size_singleton in Hsz. lia.
Qed.
End Universe.

Lemma ball_init n : init ∈ ball inspect n init.
Proof.
  induction n as [|n IH]; simpl; [by left|].
  apply elem_of_app. by left.
Qed.

Lemma path_in_ball h s n :
  path init h s → (length h ≤ n)%nat → s ∈ ball inspect n init.
Proof.
  revert s n. induction h as [|m h IH] using rev_ind; intros s n Hp Hn.
  - apply walk_nil_inv in Hp as <-. apply ball_init.
  - apply walk_snoc_inv in Hp as (u & Hu & next & Hnext & Hin).
    rewrite length_app in Hn. simpl in Hn.
    destruct n as [|n]; [lia|]. simpl.
    apply elem_of_app. right.
    apply list_elem_of_bind. exists u. split; [|apply IH; [done|lia]].
    rewrite Hnext. apply list_elem_of_fmap. by exists (m, s).
Qed.

(** While a state the loop stops at exists [n] transitions away, no
    entry is deeper than [n + 1]. *)
Lemma depth_bounded done queue visited h t e :
  path init h t → inspect t = Stop →
  bfs_inv done queue visited →
  e ∈ done ++ queue → (depth e ≤ S (length h))%nat.
Proof.
  intros Hp Hstop Hinv He.
  destruct queue as [|[s0 h0] rest].
  - exfalso. eapply (no_goal_below done [] visited h t); eauto.
    intros e' He'. by apply elem_of_nil in He'.
  - assert (length h0 ≤ length h)%nat as Hhead.
    { destruct (decide (length h0 ≤ length h)%nat) as [|Hlt]; [done|].
      exfalso.
      eapply (no_goal_below done ((s0, h0) :: rest) visited h t); eauto.
      intros e' He'.
      pose proof (head_least s0 h0 rest e' (inv_sorted _ _ _ _ _ _ Hinv) He').
      lia. }
    apply elem_of_app in He as [He|He].
    + pose proof (inv_done_le _ _ _ _ _ _ Hinv e (s0, h0) He) as Hle.
      unfold depth at 2 in Hle. simpl in Hle.
      assert ((s0, h0) ∈ (s0, h0) :: rest) as Hin by (by left).
      specialize (Hle Hin). lia.
    + pose proof (inv_near _ _ _ _ _ _ Hinv (s0, h0) e eq_refl He) as Hle.
      unfold depth at 2 in Hle. simpl in Hle. lia.
Qed.

(** A search from which a stopping state can be reached finds one, with
    a history no longer than any walk to such a state, however large the
    graph is. *)
Lemma bfs_finds h t fuel :
  path init h t → inspect t = Stop →
  (size (list_to_set (C := gset K) (key <$> ball inspect (S (length h)) init))
     < fuel)%nat →
  ∃ h0 s0, bfs key inspect fuel init = Found h0 s0 ∧
    path init h0 s0 ∧ inspect s0 = Stop ∧
    ∀ h' t', path init h' t' → inspect t' = Stop → (length h0 ≤ length h')%nat.
Proof.
  intros Hp Hstop Hfuel.
  pose proof (bfs_correct _ (λ done queue visited Hinv k Hk,
    let '(ex_intro _ e (conj He Hke)) :=
      proj1 (inv_visited _ _ _ _ _ _ Hinv k) Hk in
    proj2 (elem_of_list_to_set _ _)
      (proj2 (list_elem_of_fmap _ _ _)
        (ex_intro _ e.1 (conj (eq_sym Hke)
          (path_in_ball _ _ _ (inv_path _ _ _ _ _ _ Hinv e He)
             (depth_bounded _ _ _ _ _ _ Hp Hstop Hinv He)))))) fuel Hfuel)
    as Hpost.
  destruct (bfs key inspect fuel init) as [h0 s0| | |]; simpl in Hpost.
  - exists h0, s0. by destruct Hpost as (? & ? & ?).
  - by destruct (Hpost h t Hp).
  - done.
  - done.
Qed.
End BFSCorrect.


(** ** The order on tuples and the canonical key *)

Lemma str_compare_refl a : String.compare a a = Eq.
Proof.
  induction a as [|c a IH]; simpl; [done|].
  unfold Ascii.compare. by rewrite N.compare_refl.
Qed.

Lemma str_lt_irrefl a : ¬ str_lt a a.
Proof. unfold str_lt. by rewrite str_compare_refl. Qed.

Lemma str_lt_asym a b : str_lt a b → ¬ str_lt b a.
Proof.
  unfold str_lt. intros Hab Hba.
  rewrite String.compare_antisym, Hba in Hab. done.
Qed.

Lemma str_lt_trans a b c : str_lt a b → str_lt b c → str_lt a c.
Proof.
  unfold str_lt. intros Hab Hbc.
  assert (String.le a c) as Hle.
  { trans b; unfold String.le, String.leb; [by rewrite Hab|by rewrite Hbc]. }
  unfold String.le, String.leb in Hle.
  destruct (String.compare a c) eqn:Hac; [|done|done].
  apply String.compare_eq_iff in Hac as ->.
  by destruct (str_lt_asym _ _ Hab).
Qed.

Lemma str_trichotomy a b : str_lt a b ∨ a = b ∨ str_lt b a.
Proof.
  unfold str_lt. destruct (String.compare a b) eqn:Hab.
  - right. left. by apply String.compare_eq_iff.
  - by left.
  - right. right. rewrite String.compare_antisym, Hab. done.
Qed.

Lemma tuple_le_alt a b :
  tuple_le a b ↔
  str_lt a.1.1 b.1.1 ∨
  (a.1.1 = b.1.1 ∧ (a.1.2 < b.1.2 ∨ (a.1.2 = b.1.2 ∧ a.2 ≤ b.2))).
Proof.
  unfold tuple_le, tuple_leb, str_lt.
  destruct (String.compare a.1.1 b.1.1) eqn:Hs.
  - apply String.compare_eq_iff in Hs.
    destruct (Z.compare_spec a.1.2 b.1.2) as [Hz|Hz|Hz].
    + rewrite Z.leb_le. split.
      * intros Hle. right. split; [done|]. right. by split.
      * intros [?|(_ & [?|[_ ?]])]; [done|lia|lia].
    + split; [|done]. intros _. right. split; [done|]. by left.
    + split; [done|]. intros [?|(_ & [?|[? _]])]; [done|lia|lia].
  - split; [|done]. intros _. by left.
  - split; [done|]. intros [?|[Heq _]]; [done|].
    rewrite Heq, str_compare_refl in Hs. done.
Qed.

#[global] Instance tuple_le_total : Total tuple_le.
Proof.
  intros a b. rewrite !tuple_le_alt.
  destruct (str_trichotomy a.1.1 b.1.1) as [?|[Heq|?]]; [left; by left| |right; by left].
  destruct (Z.lt_total a.1.2 b.1.2) as [?|[Hz|?]].
  - left. right. auto.
  - destruct (Z.le_ge_cases a.2 b.2).
    + left. right. auto.
    + right. right. split; [done|]. right. split; [done|lia].
  - right. right. auto.
Qed.

#[global] Instance tuple_le_trans : Transitive tuple_le.
Proof.
  intros a b c. rewrite !tuple_le_alt.
  intros [Hab|(Hab & Hab')] [Hbc|(Hbc & Hbc')].
  - left. by eapply str_lt_trans.
  - left. by rewrite <- Hbc.
  - left. by rewrite Hab.
  - right. split; [congruence|]. lia.
Qed.

#[global] Instance tuple_le_antisym : AntiSymm (=) tuple_le.
Proof.
  intros [[la ra] ca] [[lb rb] cb]. rewrite !tuple_le_alt. simpl.
  intros [Hab|(Hab & Hab')] [Hba|(Hba & Hba')].
  - by destruct (str_lt_asym _ _ Hab).
  - rewrite Hba in Hab. by destruct (str_lt_irrefl _ Hab).
  - rewrite Hab in Hba. by destruct (str_lt_irrefl _ Hba).
  - assert (ra = rb) as -> by lia. assert (ca = cb) as -> by lia. by rewrite Hab.
Qed.

(** The key is the same for two boards exactly when their tuples are
    the same up to order. *)
Lemma board_to_tuple_perm s s' :
  board_to_tuple s = board_to_tuple s' ↔ triple <$> s ≡ₚ triple <$> s'.
Proof.
  unfold board_to_tuple. split.
  - intros Heq.
    rewrite <- (merge_sort_Permutation tuple_le (triple <$> s)).
    rewrite Heq. apply merge_sort_Permutation.
  - intros Hperm. apply (Sorted_unique tuple_le).
    + apply Sorted_merge_sort; apply _.
    + apply Sorted_merge_sort; apply _.
    + by rewrite !merge_sort_Permutation.
Qed.

(** Lists with the same keys in the same order, without repetition,
    that are permutations of each other are equal. *)
Lemma perm_same_keys {A B} (k : A → B) (l l' : list A) :
  l ≡ₚ l' → k <$> l = k <$> l' → NoDup (k <$> l) → l = l'.
Proof.
  revert l'. induction l as [|x l IH]; intros l' Hperm Hk Hnd.
  - by destruct l'.
  - destruct l' as [|x' l']; [done|].
    simpl in Hk. injection Hk as Hx Hk.
    simpl in Hnd. apply NoDup_cons in Hnd as [Hnotin Hnd].
    assert (x = x') as <-.
    { assert (x ∈ x' :: l') as Hin by (rewrite <- Hperm; by left).
      apply elem_of_cons in Hin as [?|Hin]; [done|].
      exfalso. apply Hnotin. rewrite Hk.
      apply list_elem_of_fmap. by exists x. }
    f_equal. apply IH; [|done|done].
    by apply (inj (cons x)).
Qed.

Lemma key_inj s s' :
  label <$> s = label <$> s' → NoDup (label <$> s) →
  board_to_tuple s = board_to_tuple s' → triple <$> s = triple <$> s'.
Proof.
  intros Hl Hnd Hk. apply board_to_tuple_perm in Hk.
  apply (perm_same_keys (λ t : string * Z * Z, t.1.1)); [done| |].
  - by rewrite <- !list_fmap_compose.
  - by rewrite <- list_fmap_compose.
Qed.

(** ** Cells *)

Lemma elem_of_range n x : x ∈ range n ↔ 0 ≤ x < n.
Proof.
  unfold range. rewrite list_elem_of_fmap. split.
  - intros (k & -> & Hk). apply elem_of_seq in Hk. lia.
  - intros Hx. exists (Z.to_nat x). split; [lia|].
    apply elem_of_seq. lia.
Qed.

Lemma elem_of_cells r0 c0 h w cell :
  cell ∈ cells r0 c0 h w ↔
  r0 ≤ cell.1 < r0 + h ∧ c0 ≤ cell.2 < c0 + w.
Proof.
  unfold cells. rewrite list_elem_of_bind. split.
  - intros (r & Hin & Hr). apply list_elem_of_bind in Hin as (c & Hin & Hc).
    apply list_elem_of_singleton in Hin as ->.
    apply elem_of_range in Hr, Hc. simpl. lia.
  - intros [Hr Hc]. exists (cell.1 - r0). split; [|apply elem_of_range; lia].
    apply list_elem_of_bind. exists (cell.2 - c0).
    split; [|apply elem_of_range; lia].
    apply list_elem_of_singleton. destruct cell as [a b]. simpl. f_equal; lia.
Qed.

Lemma foldl_insert_lookup {A} (l : list (Z * Z)) (v : A)
    (b : gmap (Z * Z) A) cell :
  foldl (λ b c, <[c := v]> b) b l !! cell
  = if decide (cell ∈ l) then Some v else b !! cell.
Proof.
  revert b. induction l as [|c l IH]; intros b.
  - simpl. destruct (decide (cell ∈ [])) as [Hin|]; [|done].
    by apply elem_of_nil in Hin.
  - cbn [foldl]. rewrite IH.
    destruct (decide (cell ∈ l)) as [Hin|Hnin].
    + by rewrite decide_True by (by right).
    + destruct (decide (cell = c)) as [->|Hne].
      * rewrite decide_True by (by left). by rewrite lookup_insert_eq.
      * rewrite decide_False by (by intros [?|?]%elem_of_cons).
        by rewrite lookup_insert_ne.
Qed.

Lemma fmap_cons_eq {A B} (f : A → B) x l y l' :
  f <$> (x :: l) = f <$> (y :: l') → f x = f y ∧ f <$> l = f <$> l'.
Proof. rewrite !fmap_cons. intros Heq. by injection Heq. Qed.

(** ** The checked move generator *)

Section MoveGenProofs.
Variable gpd : piece → option (Z * Z).
Hypothesis gpd_type : ∀ p q, piece_type p = piece_type q → gpd p = gpd q.
Hypothesis gpd_pos : ∀ p h w, gpd p = Some (h, w) → 0 < h ∧ 0 < w.


Lemma paint_lookup b p h w cell :
  gpd p = Some (h, w) →
  MoveGen.paint b p h w !! cell
  = if decide (cell ∈ type_cells gpd p) then Some (label p) else b !! cell.
Proof.
  intros Hd. unfold MoveGen.paint, type_cells. rewrite Hd.
  apply foldl_insert_lookup.
Qed.

(** The board dictionary holds, for every cell, the label of the last
    piece that covers it. *)
Lemma create_board_from_spec s b :
  Forall (λ p, is_Some (gpd p)) s →
  ∃ b', MoveGen.create_board_from gpd b s = Some (b', cache gpd <$> s) ∧
        ∀ cell, b' !! cell = owner gpd s cell (b !! cell).
Proof.
  revert b. induction s as [|p s IH]; intros b Hall; simpl.
  - by exists b.
  - apply Forall_cons in Hall as [[[h w] Hd] Hall].
    rewrite Hd. destruct (IH (MoveGen.paint b p h w) Hall) as (b' & -> & Hb').
    exists b'. split.
    + unfold cache at 2. by rewrite Hd.
    + intros cell. rewrite Hb'. by rewrite (paint_lookup _ _ _ _ _ Hd).
Qed.

Lemma create_board_from_None s b :
  ¬ Forall (λ p, is_Some (gpd p)) s →
  MoveGen.create_board_from gpd b s = None.
Proof.
  revert b. induction s as [|p s IH]; intros b Hall; simpl.
  - by destruct Hall.
  - destruct (gpd p) as [[h w]|] eqn:Hd; [|done].
    rewrite IH; [done|]. intros Hs. apply Hall. constructor; [by eexists|done].
Qed.

Lemma owner_free s cell o :
  (∀ q, q ∈ s → cell ∉ type_cells gpd q) → owner gpd s cell o = o.
Proof.
  revert o. induction s as [|p s IH]; intros o Hfree; simpl; [done|].
  rewrite decide_False by (apply Hfree; by left).
  apply IH. intros q Hq. apply Hfree. by right.
Qed.

Lemma owner_covered s cell o :
  (∃ q, q ∈ s ∧ cell ∈ type_cells gpd q) →
  ∃ q, q ∈ s ∧ cell ∈ type_cells gpd q ∧ owner gpd s cell o = Some (label q).
Proof.
  revert o. induction s as [|p s IH]; intros o (q & Hq & Hc).
  - by apply elem_of_nil in Hq.
  - simpl.
    destruct (decide (Exists (λ q', cell ∈ type_cells gpd q') s)) as [Hex|Hno];
      rewrite Exists_exists in *.
    + destruct (IH (if decide (cell ∈ type_cells gpd p) then Some (label p) else o) Hex)
        as (q' & Hq' & Hc' & Ho).
      exists q'. split_and!; [by right|done|done].
    + assert (q = p) as ->.
      { apply elem_of_cons in Hq as [?|Hq]; [done|].
        exfalso. apply Hno. by exists q. }
      rewrite decide_True by done.
      exists p. split_and!; [by left|done|].
      apply owner_free. intros q' Hq' Hc'. apply Hno. by exists q'.
Qed.

Lemma owner_Some s cell l :
  owner gpd s cell None = Some l →
  ∃ q, q ∈ s ∧ cell ∈ type_cells gpd q ∧ label q = l.
Proof.
  intros Ho.
  destruct (decide (Exists (λ q', cell ∈ type_cells gpd q') s)) as [Hex|Hno];
    rewrite Exists_exists in *.
  - destruct (owner_covered s cell None Hex) as (q & Hq & Hc & Ho').
    exists q. split_and!; [done|done|congruence].
  - rewrite owner_free in Ho; [done|].
    intros q Hq Hc. apply Hno. by exists q.
Qed.

Lemma NoDup_label_inj (s : list piece) p q :
  NoDup (label <$> s) → p ∈ s → q ∈ s → label p = label q → p = q.
Proof.
  intros Hnd Hp Hq Hl.
  apply list_elem_of_lookup in Hp as [i Hi].
  apply list_elem_of_lookup in Hq as [j Hj].
  assert (i = j) as ->; [|congruence].
  eapply (NoDup_lookup (label <$> s)); [done| |].
  - by rewrite list_lookup_fmap, Hi.
  - by rewrite list_lookup_fmap, Hj, Hl.
Qed.

(** On a board that satisfies the invariant, the test of
    [is_valid_move] accepts a shifted footprint exactly when it lies in
    the grid and meets no other piece. *)
Lemma is_valid_move_legal s b p h w r c rows cols :
  NoDup (label <$> s) → disjoint_board gpd s →
  (∀ cell, b !! cell = owner gpd s cell None) →
  p ∈ s → gpd p = Some (h, w) →
  MoveGen.is_valid_move (set_dims p h w) r c b rows cols = Some true ↔
  ∀ cell, cell ∈ cells r c h w →
    in_grid rows cols cell ∧ ∀ q, q ∈ s → q ≠ p → cell ∉ type_cells gpd q.
Proof.
  intros Hnd Hdis Hb Hp Hd.
  destruct (gpd_pos p h w Hd) as [Hh Hw].
  unfold MoveGen.is_valid_move. simpl.
  destruct ((r <? 0) || (c <? 0) || (rows <? r + h) || (cols <? c + w))
    eqn:Hbounds.
  - split; [done|]. intros Hall. exfalso.
    assert (in_grid rows cols (r, c)) as [Hr Hc].
    { apply Hall. apply elem_of_cells. simpl. lia. }
    assert (in_grid rows cols (r + h - 1, c + w - 1)) as [Hr' Hc'].
    { apply Hall. apply elem_of_cells. simpl. lia. }
    simpl in *.
    repeat (apply orb_true_iff in Hbounds as [Hbounds|Hbounds]);
      apply Z.ltb_lt in Hbounds; lia.
  - repeat (apply orb_false_iff in Hbounds as [Hbounds ?]).
    rewrite Z.ltb_ge in *.
    split.
    + intros [= Hall]. rewrite forallb_forall in Hall.
      intros cell Hcell. split.
      { apply elem_of_cells in Hcell. unfold in_grid. lia. }
      intros q Hq Hne Hcq.
      apply list_elem_of_In in Hcell. specialize (Hall cell Hcell).
      rewrite Hb in Hall.
      destruct (owner_covered s cell None) as (q' & Hq' & Hcq' & Ho).
      { by exists q. }
      rewrite Ho in Hall. apply bool_decide_eq_true in Hall.
      assert (q' = p) as -> by (by eapply NoDup_label_inj).
      by apply (Hdis p q cell).
    + intros Hall. f_equal. apply forallb_forall. intros cell Hcell.
      apply list_elem_of_In in Hcell.
      destruct (Hall cell Hcell) as [_ Hfree].
      rewrite Hb. destruct (owner gpd s cell None) as [l|] eqn:Ho; [|done].
      apply owner_Some in Ho as (q & Hq & Hcq & <-).
      apply bool_decide_eq_true.
      destruct (decide (q = p)) as [->|Hne]; [done|].
      by destruct (Hfree q Hq Hne).
Qed.

Lemma moves_of_spec p b rows cols dirs :
  is_Some (height p) → is_Some (width p) →
  ∃ ms, MoveGen.moves_of p b rows cols dirs = Some ms ∧
    ∀ m, m ∈ ms ↔
      ∃ dr dc, (m.1.1, (dr, dc)) ∈ dirs ∧
        m.1.2 = row p + dr ∧ m.2 = col p + dc ∧
        MoveGen.is_valid_move p (row p + dr) (col p + dc) b rows cols
          = Some true.
Proof.
  intros [h Hh] [w Hw].
  induction dirs as [|[dir [dr dc]] dirs (ms & IH & Hms)]; simpl.
  - exists []. split; [done|]. intros m. split; [by intros ?%elem_of_nil|].
    by intros (? & ? & ?%elem_of_nil & _).
  - rewrite IH.
    assert (is_Some (MoveGen.is_valid_move p (row p + dr) (col p + dc) b rows cols))
      as [ok Hok].
    { unfold MoveGen.is_valid_move. rewrite Hh, Hw. by case_match. }
    rewrite Hok. eexists. split; [done|]. intros m.
    destruct ok.
    + rewrite elem_of_cons, Hms. split.
      * intros [->|(dr' & dc' & Hin & ?)].
        -- exists dr, dc. simpl. split_and!; [by left|done..].
        -- exists dr', dc'. split; [by right|done].
      * intros (dr' & dc' & [Heq|Hin]%elem_of_cons & Hr & Hc & Hv).
        -- left. injection Heq as Hd <- <-.
           destruct m as [[d r] c]. simpl in *. by subst.
        -- right. by exists dr', dc'.
    + rewrite Hms. split.
      * intros (dr' & dc' & Hin & ?). exists dr', dc'. split; [by right|done].
      * intros (dr' & dc' & [Heq|Hin]%elem_of_cons & Hr & Hc & Hv).
        -- injection Heq as Hd <- <-. congruence.
        -- by exists dr', dc'.
Qed.

Lemma move_dict_from_lookup ps md0 b rows cols md :
  MoveGen.move_dict_from md0 ps b rows cols = Some md →
  (∀ l, l ∉ label <$> ps → md !! l = md0 !! l) ∧
  (NoDup (label <$> ps) → ∀ p, p ∈ ps →
     md !! label p = MoveGen.moves_of p b rows cols MOVES).
Proof.
  revert md0. induction ps as [|p0 ps IH]; intros md0;
    cbn [MoveGen.move_dict_from fmap list_fmap].
  - intros [= <-]. split; [done|]. intros _ p Hp. by apply elem_of_nil in Hp.
  - destruct (MoveGen.moves_of p0 b rows cols MOVES) as [ms0|] eqn:Hms0; [|done].
    intros Hmd. destruct (IH _ Hmd) as [Hout Hin]. split.
    + intros l Hl. rewrite Hout.
      * apply lookup_insert_ne. intros <-. apply Hl. by left.
      * intros ?. apply Hl. by right.
    + intros [Hnotin Hnd]%NoDup_cons p [->|Hp]%elem_of_cons.
      * rewrite Hout by done. by rewrite lookup_insert_eq.
      * by apply Hin.
Qed.

Lemma cache_label p : label (cache gpd p) = label p.
Proof. unfold cache. by repeat case_match. Qed.

Lemma cache_labels (s : list piece) : label <$> (cache gpd <$> s) = label <$> s.
Proof.
  rewrite <- list_fmap_compose. apply list_fmap_ext. intros _ p _.
  apply cache_label.
Qed.

Lemma move_dict_from_is_Some ps md0 b rows cols :
  Forall (λ p, is_Some (height p) ∧ is_Some (width p)) ps →
  is_Some (MoveGen.move_dict_from md0 ps b rows cols).
Proof.
  revert md0. induction ps as [|p ps IH]; intros md0 Hall;
    cbn [MoveGen.move_dict_from]; [done|].
  apply Forall_cons in Hall as [[Hh Hw] Hall].
  destruct (moves_of_spec p b rows cols MOVES Hh Hw) as (ms & -> & _).
  by apply IH.
Qed.

(** What [get_all_possible_moves] returns when every type is known. *)
Lemma get_all_possible_moves_spec s rows cols :
  Forall (λ p, is_Some (gpd p)) s →
  ∃ md b,
    MoveGen.get_all_possible_moves gpd s rows cols = Some (md, cache gpd <$> s) ∧
    (∀ cell, b !! cell = owner gpd s cell None) ∧
    (NoDup (label <$> s) → ∀ p, p ∈ s →
       md !! label p = MoveGen.moves_of (cache gpd p) b rows cols MOVES).
Proof.
  intros Hall. unfold MoveGen.get_all_possible_moves,
    MoveGen.create_board_representation.
  destruct (create_board_from_spec s ∅ Hall) as (b & -> & Hb).
  destruct (move_dict_from_is_Some (cache gpd <$> s) ∅ b rows cols)
    as [md Hmd].
  { apply Forall_fmap. eapply Forall_impl; [apply Hall|].
    intros p [[h w] Hd]. unfold compose, cache. rewrite Hd. simpl. eauto. }
  rewrite Hmd. exists md, b. split_and!; [done| |].
  - intros cell. by rewrite Hb, lookup_empty.
  - intros Hnd p Hp.
    destruct (move_dict_from_lookup _ _ _ _ _ _ Hmd) as [_ Hin].
    rewrite <- (cache_label p). apply Hin.
    + by rewrite cache_labels.
    + by apply list_elem_of_fmap_2.
Qed.

Lemma get_all_possible_moves_Some s rows cols md s' :
  MoveGen.get_all_possible_moves gpd s rows cols = Some (md, s') →
  Forall (λ p, is_Some (gpd p)) s.
Proof.
  intros Hgen.
  destruct (decide (Forall (λ p, is_Some (gpd p)) s)) as [|Hno]; [done|].
  unfold MoveGen.get_all_possible_moves,
    MoveGen.create_board_representation in Hgen.
  by rewrite (create_board_from_None s ∅ Hno) in Hgen.
Qed.

(** The entries of a piece in the move dictionary are its legal moves. *)
Lemma get_all_possible_moves_legal s rows cols md s' p m :
  NoDup (label <$> s) → disjoint_board gpd s →
  MoveGen.get_all_possible_moves gpd s rows cols = Some (md, s') →
  p ∈ s →
  m ∈ md !!! label p ↔ legal_move gpd rows cols s p m.
Proof.
  intros Hnd Hdis Hgen Hp.
  pose proof (get_all_possible_moves_Some _ _ _ _ _ Hgen) as Hall.
  destruct (get_all_possible_moves_spec s rows cols Hall)
    as (md' & b & Hgen' & Hb & Hmd).
  rewrite Hgen in Hgen'. injection Hgen' as <- _.
  rewrite Forall_forall in Hall. destruct (Hall p Hp) as [[h w] Hd].
  assert (cache gpd p = set_dims p h w) as Hc by (unfold cache; by rewrite Hd).
  destruct (moves_of_spec (cache gpd p) b rows cols MOVES)
    as (ms & Hms & Hin); [rewrite Hc; by eexists..|].
  rewrite lookup_total_alt, (Hmd Hnd p Hp), Hms. simpl.
  rewrite Hin, Hc. simpl. unfold legal_move. split.
  - intros (dr & dc & HM & Hr & Hcl & Hv).
    exists dr, dc, h, w. split_and!; [done..|].
    rewrite Hr, Hcl.
    by apply (is_valid_move_legal s b p h w _ _ rows cols Hnd Hdis Hb Hp Hd).
  - intros (dr & dc & h' & w' & HM & Hr & Hcl & Hd' & Hlegal).
    rewrite Hd in Hd'. injection Hd' as <- <-.
    exists dr, dc. split_and!; [done..|].
    apply (is_valid_move_legal s b p h w _ _ rows cols Hnd Hdis Hb Hp Hd).
    by rewrite <- Hr, <- Hcl.
Qed.

(** *** The generator reads labels, anchors and types only *)

Lemma strip_fields p q :
  strip p = strip q ↔
  label p = label q ∧ row p = row q ∧ col p = col q ∧
  piece_type p = piece_type q.
Proof.
  unfold strip. split; [by intros [=]|]. by intros (-> & -> & -> & ->).
Qed.

Lemma type_cells_strip p q : strip p = strip q → type_cells gpd p = type_cells gpd q.
Proof.
  intros (Hl & Hr & Hc & Ht)%strip_fields. unfold type_cells.
  by rewrite (gpd_type p q Ht), Hr, Hc.
Qed.

Lemma owner_strip s s' cell o :
  strip <$> s = strip <$> s' → owner gpd s cell o = owner gpd s' cell o.
Proof.
  revert s' o. induction s as [|p s IH]; intros [|q s'] o Heq; try done.
  apply fmap_cons_eq in Heq as [Hpq Heq]. simpl.
  rewrite (type_cells_strip p q Hpq).
  apply strip_fields in Hpq as (-> & _). by apply IH.
Qed.

Lemma moves_of_ext p q b rows cols dirs :
  label p = label q → row p = row q → col p = col q →
  height p = height q → width p = width q →
  MoveGen.moves_of p b rows cols dirs = MoveGen.moves_of q b rows cols dirs.
Proof.
  intros Hl Hr Hc Hh Hw.
  induction dirs as [|[dir [dr dc]] dirs IH]; simpl; [done|].
  rewrite IH, Hr, Hc. unfold MoveGen.is_valid_move. by rewrite Hh, Hw, Hl.
Qed.

Lemma move_dict_from_strip s s' md0 b rows cols :
  strip <$> s = strip <$> s' →
  Forall (λ p, is_Some (gpd p)) s →
  MoveGen.move_dict_from md0 (cache gpd <$> s) b rows cols
  = MoveGen.move_dict_from md0 (cache gpd <$> s') b rows cols.
Proof.
  revert s' md0. induction s as [|p s IH]; intros [|q s'] md0 Heq Hall; try done.
  apply fmap_cons_eq in Heq as [Hpq Heq].
  apply Forall_cons in Hall as [[[h w] Hd] Hall].
  cbn [fmap list_fmap MoveGen.move_dict_from].
  apply strip_fields in Hpq as (Hl & Hr & Hc & Ht).
  assert (MoveGen.moves_of (cache gpd p) b rows cols MOVES
          = MoveGen.moves_of (cache gpd q) b rows cols MOVES) as ->.
  { unfold cache. rewrite <- (gpd_type p q Ht), Hd.
    by apply moves_of_ext. }
  rewrite !cache_label, Hl.
  destruct (MoveGen.moves_of (cache gpd q) b rows cols MOVES); [|done].
  by apply IH.
Qed.

Lemma known_strip (s s' : list piece) :
  strip <$> s = strip <$> s' →
  Forall (λ p, is_Some (gpd p)) s → Forall (λ p, is_Some (gpd p)) s'.
Proof.
  revert s'. induction s as [|p s IH]; intros [|q s'] Heq Hall; try done.
  apply fmap_cons_eq in Heq as [Hpq Heq].
  apply Forall_cons in Hall as [Hp Hall].
  apply strip_fields in Hpq as (_ & _ & _ & Ht).
  constructor; [by rewrite <- (gpd_type p q Ht)|by apply IH].
Qed.

Lemma get_all_possible_moves_strip s s' rows cols :
  strip <$> s = strip <$> s' →
  match MoveGen.get_all_possible_moves gpd s rows cols,
        MoveGen.get_all_possible_moves gpd s' rows cols with
  | Some (md, ps), Some (md', ps') =>
      md = md' ∧ ps = cache gpd <$> s ∧ ps' = cache gpd <$> s'
  | None, None => True
  | _, _ => False
  end.
Proof.
  intros Heq.
  destruct (decide (Forall (λ p, is_Some (gpd p)) s)) as [Hall|Hno].
  - pose proof (known_strip s s' Heq Hall) as Hall'.
    unfold MoveGen.get_all_possible_moves, MoveGen.create_board_representation.
    destruct (create_board_from_spec s ∅ Hall) as (b & -> & Hb).
    destruct (create_board_from_spec s' ∅ Hall') as (b' & -> & Hb').
    assert (b = b') as <-.
    { apply map_eq. intros cell. rewrite Hb, Hb'. by apply owner_strip. }
    rewrite (move_dict_from_strip s s' ∅ b rows cols Heq Hall).
    by destruct (MoveGen.move_dict_from ∅ (cache gpd <$> s') b rows cols).
  - assert (¬ Forall (λ p, is_Some (gpd p)) s') as Hno'.
    { intros Hall'. apply Hno. by apply (known_strip s' s). }
    unfold MoveGen.get_all_possible_moves, MoveGen.create_board_representation.
    by rewrite (create_board_from_None s ∅ Hno), (create_board_from_None s' ∅ Hno').
Qed.
End MoveGenProofs.

(** ** States of one puzzle *)

Lemma find_piece_cons l p (s : list piece) :
  find_piece l (p :: s) = if decide (label p = l) then Some p else find_piece l s.
Proof.
  unfold find_piece. simpl. destruct (decide (label p = l)); [done|].
  by destruct (list_find _ s) as [[??]|].
Qed.

Lemma find_piece_Some l (s : list piece) t :
  find_piece l s = Some t → t ∈ s ∧ label t = l.
Proof.
  induction s as [|p s IH]; [done|]. rewrite find_piece_cons.
  destruct (decide (label p = l)).
  - intros [= <-]. split; [by left|done].
  - intros [? ?]%IH. split; [by right|done].
Qed.

Lemma find_piece_elem l (s : list piece) :
  l ∈ label <$> s → is_Some (find_piece l s).
Proof.
  induction s as [|p s IH]; [by intros ?%elem_of_nil|].
  rewrite find_piece_cons, fmap_cons.
  destruct (decide (label p = l)); [by eexists|].
  intros [?|?]%elem_of_cons; [congruence|by apply IH].
Qed.

Lemma find_piece_NoDup l (s : list piece) p :
  NoDup (label <$> s) → p ∈ s → label p = l → find_piece l s = Some p.
Proof.
  intros Hnd Hp Hl.
  destruct (find_piece_elem l s) as [t Ht].
  { rewrite <- Hl. by apply list_elem_of_fmap_2. }
  rewrite Ht. f_equal. apply find_piece_Some in Ht as [Ht Hlt].
  eapply NoDup_label_inj; eauto. congruence.
Qed.

Lemma find_piece_strip l (s s' : list piece) :
  strip <$> s = strip <$> s' →
  strip <$> find_piece l s = strip <$> find_piece l s'.
Proof.
  revert s'. induction s as [|p s IH]; intros [|q s'] Heq; try done.
  apply fmap_cons_eq in Heq as [Hpq Heq].
  rewrite !find_piece_cons.
  assert (label p = label q) as ->
    by (by apply strip_fields in Hpq as [? _]).
  destruct (decide (label q = l)); [simpl; by f_equal|by apply IH].
Qed.

Lemma strip_idemp p : strip (strip p) = strip p.
Proof. done. Qed.

Lemma strip_set_pos p r c : strip (set_pos p r c) = set_pos (strip p) r c.
Proof. done. Qed.

Lemma strip_move_piece (s : list piece) l r c :
  strip <$> move_piece s l r c = move_piece (strip <$> s) l r c.
Proof.
  unfold move_piece. rewrite <- !list_fmap_compose.
  apply list_fmap_ext. intros _ p _. simpl.
  by destruct (decide (label p = l)).
Qed.

Lemma move_piece_strip_eq (s s' : list piece) l r c :
  strip <$> s = strip <$> s' →
  strip <$> move_piece s l r c = strip <$> move_piece s' l r c.
Proof. intros Heq. by rewrite !strip_move_piece, Heq. Qed.

Lemma triple_strip (s : list piece) : triple <$> (strip <$> s) = triple <$> s.
Proof. by rewrite <- list_fmap_compose. Qed.

Lemma label_strip (s : list piece) : label <$> (strip <$> s) = label <$> s.
Proof. by rewrite <- list_fmap_compose. Qed.

Lemma type_strip (s : list piece) :
  piece_type <$> (strip <$> s) = piece_type <$> s.
Proof. by rewrite <- list_fmap_compose. Qed.

Lemma key_strip (s s' : list piece) :
  strip <$> s = strip <$> s' → board_to_tuple s = board_to_tuple s'.
Proof.
  intros Heq. unfold board_to_tuple.
  by rewrite <- (triple_strip s), <- (triple_strip s'), Heq.
Qed.

Lemma same_pieces_strip init (s s' : list piece) :
  strip <$> s = strip <$> s' → same_pieces init s → same_pieces init s'.
Proof.
  intros Heq [Hl Ht]. split.
  - by rewrite <- (label_strip s'), <- Heq, label_strip.
  - by rewrite <- (type_strip s'), <- Heq, type_strip.
Qed.

Lemma strip_of_triples (s s' : list piece) :
  triple <$> s = triple <$> s' → piece_type <$> s = piece_type <$> s' →
  strip <$> s = strip <$> s'.
Proof.
  revert s'. induction s as [|p s IH]; intros [|q s'] Htr Hty; try done.
  apply fmap_cons_eq in Htr as [Hpq Htr].
  apply fmap_cons_eq in Hty as [Hpq' Hty].
  rewrite !fmap_cons. f_equal; [|by apply IH].
  apply strip_fields. unfold triple in Hpq. injection Hpq as ???. done.
Qed.

(** Two boards of one puzzle with the same key show the same pieces at
    the same anchors. *)
Lemma same_key_strip init (s s' : list piece) :
  NoDup (label <$> init) →
  same_pieces init s → same_pieces init s' →
  board_to_tuple s = board_to_tuple s' → strip <$> s = strip <$> s'.
Proof.
  intros Hnd [Hl Ht] [Hl' Ht'] Hk.
  apply strip_of_triples; [|congruence].
  apply key_inj; [congruence|by rewrite Hl|done].
Qed.

Lemma move_piece_labels (s : list piece) l r c :
  label <$> move_piece s l r c = label <$> s.
Proof.
  unfold move_piece. rewrite <- list_fmap_compose.
  apply list_fmap_ext. intros _ p _. simpl. by destruct (decide (label p = l)).
Qed.

Lemma move_piece_types (s : list piece) l r c :
  piece_type <$> move_piece s l r c = piece_type <$> s.
Proof.
  unfold move_piece. rewrite <- list_fmap_compose.
  apply list_fmap_ext. intros _ p _. simpl. by destruct (decide (label p = l)).
Qed.

Lemma same_pieces_move init (s : list piece) l r c :
  same_pieces init s → same_pieces init (move_piece s l r c).
Proof.
  intros [Hl Ht]. split; [by rewrite move_piece_labels|by rewrite move_piece_types].
Qed.

Lemma elem_of_candidates cur md (x : step * list piece) :
  x ∈ candidates cur md ↔
  ∃ p m, p ∈ cur ∧ m ∈ md !!! label p ∧
         x = ((label p, m.1.1), move_piece cur (label p) m.1.2 m.2).
Proof.
  unfold candidates. rewrite list_elem_of_bind. split.
  - intros (p & Hx & Hp). apply list_elem_of_bind in Hx as (m & Hx & Hm).
    apply list_elem_of_singleton in Hx. by exists p, m.
  - intros (p & m & Hp & Hm & ->). exists p. split; [|done].
    apply list_elem_of_bind. exists m. split; [|done].
    by apply list_elem_of_singleton.
Qed.

(** ** simpleShortestMoves.py: the search *)

Lemma simple_gpd_type p q :
  piece_type p = piece_type q →
  Simple.get_piece_dimensions p = Simple.get_piece_dimensions q.
Proof. unfold Simple.get_piece_dimensions. by intros ->. Qed.

Lemma simple_gpd_pos p h w :
  Simple.get_piece_dimensions p = Some (h, w) → 0 < h ∧ 0 < w.
Proof.
  unfold Simple.get_piece_dimensions.
  repeat case_decide; intros [= <- <-]; lia.
Qed.

Lemma strip_cache (gpd : piece → option (Z * Z)) p : strip (cache gpd p) = strip p.
Proof. unfold cache. by repeat case_match. Qed.

Lemma strip_cache_list (gpd : piece → option (Z * Z)) (s : list piece) :
  strip <$> (cache gpd <$> s) = strip <$> s.
Proof.
  rewrite <- list_fmap_compose. apply list_fmap_ext. intros _ p _.
  apply strip_cache.
Qed.

Lemma strip_elem (s s' : list piece) p :
  strip <$> s = strip <$> s' → p ∈ s → ∃ p', p' ∈ s' ∧ strip p' = strip p.
Proof.
  intros Heq Hp.
  assert (strip p ∈ strip <$> s') as Hin.
  { rewrite <- Heq. by apply list_elem_of_fmap_2. }
  apply list_elem_of_fmap in Hin as (p' & Hp' & Hin). by exists p'.
Qed.

Lemma known_types (gpd : piece → option (Z * Z)) (s s' : list piece) :
  (∀ p q, piece_type p = piece_type q → gpd p = gpd q) →
  piece_type <$> s = piece_type <$> s' →
  Forall (λ p, is_Some (gpd p)) s → Forall (λ p : piece, is_Some (gpd p)) s'.
Proof.
  intros Hgpd. revert s'.
  induction s as [|p s IH]; intros [|q s'] Heq Hall; try done.
  apply fmap_cons_eq in Heq as [Hpq Heq].
  apply Forall_cons in Hall as [Hp Hall].
  constructor; [by rewrite <- (Hgpd p q Hpq)|by apply IH].
Qed.

Lemma candidates_strip (cur cur' : list piece) md m t :
  strip <$> cur = strip <$> cur' →
  (m, t) ∈ candidates cur md →
  ∃ t', (m, t') ∈ candidates cur' md ∧ strip <$> t = strip <$> t'.
Proof.
  intros Heq (p & mv & Hp & Hmv & Hx)%elem_of_candidates.
  injection Hx as -> ->.
  destruct (strip_elem cur cur' p Heq Hp) as (p' & Hp' & Hpp).
  assert (label p' = label p) as Hl by (by apply strip_fields in Hpp as [? _]).
  exists (move_piece cur' (label p) mv.1.2 mv.2). split.
  - apply elem_of_candidates. exists p', mv. by rewrite Hl.
  - by apply move_piece_strip_eq.
Qed.

Section SimpleSearch.
Variables (rows cols : Z) (tgt : string) (init : list piece).
Hypothesis init_nodup : NoDup (label <$> init).
Hypothesis init_known :
  Forall (λ p, is_Some (Simple.get_piece_dimensions p)) init.
Hypothesis init_target : tgt ∈ label <$> init.

Lemma simple_inspect_Stop s :
  Simple.inspect rows cols tgt s = Stop ↔ simple_goal rows tgt s.
Proof.
  unfold Simple.inspect, simple_goal. split.
  - destruct (find_piece tgt s) as [t|]; [|done].
    destruct (Simple.get_piece_dimensions t) as [[h w]|] eqn:Hd; [|done].
    case_bool_decide as Hg.
    + intros _. exists t, h, w. by destruct Hg.
    + by destruct (Simple.get_all_possible_moves s rows cols) as [[??]|].
  - intros (t & h & w & -> & -> & Hr & Hc).
    by rewrite bool_decide_eq_true_2.
Qed.

Lemma simple_view s :
  same_pieces init s →
  Simple.inspect rows cols tgt s = Stop ∨
  ∃ md, Simple.get_all_possible_moves s rows cols
          = Some (md, cache Simple.get_piece_dimensions <$> s) ∧
        Simple.inspect rows cols tgt s
          = Grow (candidates (cache Simple.get_piece_dimensions <$> s) md).
Proof.
  intros [Hl Ht].
  assert (Forall (λ p, is_Some (Simple.get_piece_dimensions p)) s) as Hknown.
  { eapply known_types; [apply simple_gpd_type|symmetry; apply Ht|done]. }
  unfold Simple.inspect.
  destruct (find_piece_elem tgt s) as [t Hfind]; [by rewrite Hl|].
  rewrite Hfind.
  apply find_piece_Some in Hfind as [Hin _].
  rewrite Forall_forall in Hknown. destruct (Hknown t Hin) as [[h w] ->].
  case_bool_decide; [by left|]. right.
  destruct (get_all_possible_moves_spec Simple.get_piece_dimensions s rows cols)
    as (md & b & Hgen & _); [by apply Forall_forall|].
  exists md. unfold Simple.get_all_possible_moves. by rewrite Hgen.
Qed.

Lemma simple_inspect_strip s s' :
  strip <$> s = strip <$> s' →
  (Simple.inspect rows cols tgt s = Stop →
   Simple.inspect rows cols tgt s' = Stop) ∧
  ∀ next, Simple.inspect rows cols tgt s = Grow next →
    ∃ next', Simple.inspect rows cols tgt s' = Grow next' ∧
      ∀ m t, (m, t) ∈ next →
        ∃ t', (m, t') ∈ next' ∧ strip <$> t = strip <$> t'.
Proof.
  intros Heq. unfold Simple.inspect.
  pose proof (find_piece_strip tgt s s' Heq) as Hfind.
  destruct (find_piece tgt s) as [t|], (find_piece tgt s') as [t'|];
    try done.
  simpl in Hfind. apply (inj Some) in Hfind as Htt.
  apply strip_fields in Htt as (_ & Hr & Hc & Hty).
  rewrite <- (simple_gpd_type t t' Hty), <- Hr, <- Hc.
  destruct (Simple.get_piece_dimensions t) as [[h w]|]; [|done].
  case_bool_decide; [done|].
  pose proof (get_all_possible_moves_strip Simple.get_piece_dimensions
                simple_gpd_type s s' rows cols Heq) as Hgen.
  unfold Simple.get_all_possible_moves.
  destruct (MoveGen.get_all_possible_moves _ s rows cols) as [[md ps]|],
    (MoveGen.get_all_possible_moves _ s' rows cols) as [[md' ps']|]; try done.
  destruct Hgen as (<- & -> & ->). split; [done|].
  intros next [= <-]. eexists. split; [done|].
  intros m u Hin. eapply candidates_strip; [|done].
  by rewrite !strip_cache_list.
Qed.

Lemma simple_edge_same s m s' :
  same_pieces init s → edge (Simple.inspect rows cols tgt) s m s' →
  same_pieces init s'.
Proof.
  intros Hs (next & Hnext & Hin).
  destruct (simple_view s Hs) as [Hstop|(md & _ & Hgrow)]; [congruence|].
  rewrite Hgrow in Hnext. injection Hnext as <-.
  apply elem_of_candidates in Hin as (p & mv & _ & _ & [= _ ->]).
  apply same_pieces_move.
  eapply same_pieces_strip; [|apply Hs]. by rewrite strip_cache_list.
Qed.

Lemma simple_view_cases s :
  same_pieces init s →
  Simple.inspect rows cols tgt s = Stop ∨
  ∃ next, Simple.inspect rows cols tgt s = Grow next.
Proof.
  intros Hs. destruct (simple_view s Hs) as [?|(md & _ & ?)]; eauto.
Qed.

Lemma simple_key_sim s s' m t :
  same_pieces init s → same_pieces init s' →
  board_to_tuple s = board_to_tuple s' →
  edge (Simple.inspect rows cols tgt) s m t →
  ∃ t', edge (Simple.inspect rows cols tgt) s' m t' ∧
        board_to_tuple t' = board_to_tuple t.
Proof.
  intros Hs Hs' Hk (next & Hnext & Hin).
  pose proof (same_key_strip init s s' init_nodup Hs Hs' Hk) as Heq.
  destruct (simple_inspect_strip s s' Heq) as [_ Hgrow].
  destruct (Hgrow next Hnext) as (next' & Hnext' & Hall).
  destruct (Hall m t Hin) as (t' & Hin' & Htt).
  exists t'. split; [by exists next'|]. symmetry. by apply key_strip.
Qed.

Lemma simple_key_stop s s' :
  same_pieces init s → same_pieces init s' →
  board_to_tuple s = board_to_tuple s' →
  Simple.inspect rows cols tgt s = Stop →
  Simple.inspect rows cols tgt s' = Stop.
Proof.
  intros Hs Hs' Hk.
  pose proof (same_key_strip init s s' init_nodup Hs Hs' Hk) as Heq.
  by destruct (simple_inspect_strip s s' Heq) as [? _].
Qed.
End SimpleSearch.

(** *** Legal steps and the edges of the search *)

Lemma elem_of_move_piece (s : list piece) l r c x :
  x ∈ move_piece s l r c ↔
  ∃ y, y ∈ s ∧ x = if decide (label y = l) then set_pos y r c else y.
Proof.
  unfold move_piece. rewrite list_elem_of_fmap. split.
  - intros (y & -> & Hy). by exists y.
  - intros (y & Hy & ->). by exists y.
Qed.

Lemma type_cells_set_pos (gpd : piece → option (Z * Z)) p r c h w :
  (∀ p q, piece_type p = piece_type q → gpd p = gpd q) →
  gpd p = Some (h, w) → type_cells gpd (set_pos p r c) = cells r c h w.
Proof.
  intros Hgpd Hd. unfold type_cells.
  by rewrite (Hgpd (set_pos p r c) p eq_refl), Hd.
Qed.

Section LegalSteps.
Variable gpd : piece → option (Z * Z).
Hypothesis gpd_type : ∀ p q, piece_type p = piece_type q → gpd p = gpd q.
Variables rows cols : Z.

(** A legal move keeps the pieces apart. *)
Lemma legal_step_disjoint s mv s' :
  NoDup (label <$> s) → disjoint_board gpd s →
  legal_step gpd rows cols s mv s' → disjoint_board gpd s'.
Proof.
  intros Hnd Hdis (p & m & Hp & -> & Hlegal & ->).
  destruct Hlegal as (dr & dc & h & w & _ & _ & _ & Hd & Hcells).
  assert (∀ y, y ∈ s → label y = label p → y = p) as Hsame.
  { intros y Hy Hl. by eapply NoDup_label_inj. }
  intros x y cell (x0 & Hx0 & ->)%elem_of_move_piece
    (y0 & Hy0 & ->)%elem_of_move_piece Hne Hcx Hcy.
  destruct (decide (label x0 = label p)) as [Hlx|Hlx],
    (decide (label y0 = label p)) as [Hly|Hly].
  - rewrite (Hsame x0 Hx0 Hlx), (Hsame y0 Hy0 Hly) in Hne. done.
  - rewrite (Hsame x0 Hx0 Hlx) in Hcx.
    rewrite (type_cells_set_pos gpd p _ _ h w gpd_type Hd) in Hcx.
    destruct (Hcells cell Hcx) as [_ Hfree].
    assert (y0 ≠ p) as Hyp by (intros ->; done).
    by apply (Hfree y0 Hy0 Hyp).
  - rewrite (Hsame y0 Hy0 Hly) in Hcy.
    rewrite (type_cells_set_pos gpd p _ _ h w gpd_type Hd) in Hcy.
    destruct (Hcells cell Hcy) as [_ Hfree].
    assert (x0 ≠ p) as Hxp by (intros ->; done).
    by apply (Hfree x0 Hx0 Hxp).
  - assert (x0 ≠ y0) as Hxy by (intros ->; done).
    by apply (Hdis x0 y0 cell Hx0 Hy0 Hxy).
Qed.

Lemma legal_step_same init s mv s' :
  same_pieces init s → legal_step gpd rows cols s mv s' →
  same_pieces init s'.
Proof.
  intros Hs (p & m & _ & _ & _ & ->). by apply same_pieces_move.
Qed.
End LegalSteps.

Section SimpleLegal.
Variables (rows cols : Z) (tgt : string) (init : list piece).
Hypothesis init_nodup : NoDup (label <$> init).
Hypothesis init_known :
  Forall (λ p, is_Some (Simple.get_piece_dimensions p)) init.
Hypothesis init_target : tgt ∈ label <$> init.

Local Abbreviation gpd := Simple.get_piece_dimensions.
Local Abbreviation insp := (Simple.inspect rows cols tgt).
Local Abbreviation legal := (legal_step Simple.get_piece_dimensions rows cols).

Lemma simple_grow_legal σ md p m :
  same_pieces init σ → disjoint_board gpd σ →
  Simple.get_all_possible_moves σ rows cols = Some (md, cache gpd <$> σ) →
  p ∈ σ →
  m ∈ md !!! label p ↔ legal_move gpd rows cols σ p m.
Proof.
  intros [Hl _] Hdis Hgen Hp.
  eapply get_all_possible_moves_legal; eauto using simple_gpd_pos.
  by rewrite Hl.
Qed.

Lemma simple_edge_to_legal s σ mv s' :
  strip <$> s = strip <$> σ → same_pieces init σ → disjoint_board gpd σ →
  edge insp s mv s' →
  ∃ σ', legal σ mv σ' ∧ strip <$> s' = strip <$> σ'.
Proof.
  intros Heq Hσ Hdis (next & Hnext & Hin).
  destruct (simple_inspect_strip rows cols tgt s σ Heq) as [_ Hgrow].
  destruct (Hgrow next Hnext) as (next' & Hnext' & Hall).
  destruct (Hall mv s' Hin) as (t' & Hin' & Htt).
  destruct (simple_view rows cols tgt init init_known init_target σ Hσ)
    as [Hstop|(md & Hgen & Hview)]; [congruence|].
  rewrite Hview in Hnext'. injection Hnext' as <-.
  apply elem_of_candidates in Hin' as (p' & m & Hp' & Hm & [= -> ->]).
  apply list_elem_of_fmap in Hp' as (p & -> & Hp).
  rewrite cache_label in *.
  exists (move_piece σ (label p) m.1.2 m.2). split.
  - exists p, m. split_and!; [done|done| |done].
    by apply (simple_grow_legal σ md).
  - rewrite Htt. apply move_piece_strip_eq. apply strip_cache_list.
Qed.

Lemma simple_legal_to_edge s σ mv σ' :
  strip <$> s = strip <$> σ → same_pieces init σ → disjoint_board gpd σ →
  insp σ ≠ Stop → legal σ mv σ' →
  ∃ s', edge insp s mv s' ∧ strip <$> s' = strip <$> σ'.
Proof.
  intros Heq Hσ Hdis Hnot (p & m & Hp & -> & Hlegal & ->).
  destruct (simple_view rows cols tgt init init_known init_target σ Hσ)
    as [Hstop|(md & Hgen & Hview)]; [done|].
  destruct (simple_inspect_strip rows cols tgt σ s (eq_sym Heq)) as [_ Hgrow].
  destruct (Hgrow _ Hview) as (next & Hnext & Hall).
  destruct (Hall (label p, m.1.1)
              (move_piece (cache gpd <$> σ) (label p) m.1.2 m.2))
    as (s' & Hin & Hss).
  { apply elem_of_candidates. exists (cache gpd p), m.
    rewrite cache_label. split_and!; [by apply list_elem_of_fmap_2| |done].
    by apply (simple_grow_legal σ md). }
  exists s'. split; [by exists next|].
  rewrite <- Hss. apply move_piece_strip_eq. apply strip_cache_list.
Qed.

Lemma simple_stop_strip s σ :
  strip <$> s = strip <$> σ → insp s = Stop ↔ insp σ = Stop.
Proof.
  intros Heq. split.
  - by destruct (simple_inspect_strip rows cols tgt s σ Heq) as [? _].
  - by destruct (simple_inspect_strip rows cols tgt σ s (eq_sym Heq)) as [? _].
Qed.

(** A legal sequence that ends in a goal state is, up to its first goal
    state, a walk of the search. *)
Lemma simple_legal_walk_path σ seq σf :
  walk legal σ seq σf →
  ∀ s, strip <$> s = strip <$> σ →
    same_pieces init σ → disjoint_board gpd σ →
    simple_goal rows tgt σf →
    ∃ h t, path insp s h t ∧ insp t = Stop ∧ (length h ≤ length seq)%nat.
Proof.
  induction 1 as [σ|σ m σ1 seq σf Hstep Hwalk IH]; intros s Heq Hσ Hdis Hgoal.
  - exists [], s. split_and!; [constructor| |done].
    apply (simple_stop_strip s σ Heq). by apply simple_inspect_Stop.
  - destruct (simple_view rows cols tgt init init_known init_target σ Hσ)
      as [Hstop|(md & _ & Hview)].
    + exists [], s. split_and!; [constructor| |simpl; lia].
      by apply (simple_stop_strip s σ Heq).
    + destruct (simple_legal_to_edge s σ m σ1 Heq Hσ Hdis) as (s1 & Hedge & Heq1);
        [congruence|done|].
      destruct (IH s1 Heq1) as (h & t & Hp & Ht & Hlen); [| |done|].
      * by eapply legal_step_same.
      * apply (legal_step_disjoint gpd simple_gpd_type rows cols σ m σ1);
          [|done|done].
        destruct Hσ as [Hl _]. by rewrite Hl.
      * exists (m :: h), t. split_and!; [by eapply walk_cons|done|simpl; lia].
Qed.

(** A walk of the search is a legal sequence. *)
Lemma simple_path_legal_walk s h t :
  path insp s h t →
  ∀ σ, strip <$> s = strip <$> σ →
    same_pieces init σ → disjoint_board gpd σ →
    ∃ σt, walk legal σ h σt ∧ strip <$> t = strip <$> σt.
Proof.
  induction 1 as [s|s m s1 h t Hedge Hwalk IH]; intros σ Heq Hσ Hdis.
  - exists σ. split; [constructor|done].
  - destruct (simple_edge_to_legal s σ m s1 Heq Hσ Hdis Hedge)
      as (σ1 & Hstep & Heq1).
    destruct (IH σ1 Heq1) as (σt & Hw & Heqt).
    + by eapply legal_step_same.
    + apply (legal_step_disjoint gpd simple_gpd_type rows cols σ m σ1);
        [|done|done].
      destruct Hσ as [Hl _]. by rewrite Hl.
    + exists σt. split; [by eapply walk_cons|done].
Qed.
End SimpleLegal.

Lemma legal_walk_same gpd rows cols init s seq s' :
  walk (legal_step gpd rows cols) s seq s' →
  same_pieces init s → same_pieces init s'.
Proof.
  induction 1 as [|s m s1 seq s' Hstep _ IH]; [done|].
  intros Hs. apply IH. by eapply legal_step_same.
Qed.

Lemma same_pieces_refl init : same_pieces init init.
Proof. done. Qed.

(** The search of [find_shortest_target_path] returns a legal sequence
    to a goal state that is as short as any, whenever there is one. *)
Lemma simple_search_shortest d seq σf :
  NoDup (label <$> pieces d) →
  Forall (λ p, is_Some (Simple.get_piece_dimensions p)) (pieces d) →
  disjoint_board Simple.get_piece_dimensions (pieces d) →
  walk (legal_step Simple.get_piece_dimensions (rows d) (cols d))
       (pieces d) seq σf →
  simple_goal (rows d) (target d) σf →
  ∃ N h s,
    (∀ fuel, (N ≤ fuel)%nat → Simple.search fuel d = Found h s) ∧
    ∃ σ, walk (legal_step Simple.get_piece_dimensions (rows d) (cols d))
              (pieces d) h σ ∧
         simple_goal (rows d) (target d) σ ∧
         ∀ seq' σ',
           walk (legal_step Simple.get_piece_dimensions (rows d) (cols d))
                (pieces d) seq' σ' →
           simple_goal (rows d) (target d) σ' →
           (length h ≤ length seq')%nat.
Proof.
  intros Hnd Hknown Hdis Hwalk Hgoal.
  set (init := pieces d) in *.
  assert (target d ∈ label <$> init) as Htgt.
  { destruct Hgoal as (t & _ & _ & Hfind & _).
    apply find_piece_Some in Hfind as [Hin <-].
    destruct (legal_walk_same _ _ _ init _ _ _ Hwalk (same_pieces_refl init))
      as [<- _].
    by apply list_elem_of_fmap_2. }
  destruct (simple_legal_walk_path (rows d) (cols d) (target d) init
              Hnd Hknown Htgt init seq σf Hwalk init eq_refl
              (same_pieces_refl init) Hdis Hgoal)
    as (h0 & t0 & Hp0 & Hstop0 & _).
  set (N := S (size (list_to_set (C := gset (list (string * Z * Z)))
                      (board_to_tuple <$>
                         ball (Simple.inspect (rows d) (cols d) (target d))
                              (S (length h0)) init)))).
  destruct (bfs_finds board_to_tuple
              (Simple.inspect (rows d) (cols d) (target d)) init
              (same_pieces init) (same_pieces_refl init)
              (λ s m s' Hs He,
                 simple_edge_same (rows d) (cols d) (target d) init
                   Hknown Htgt s m s' Hs He)
              (simple_view_cases (rows d) (cols d) (target d) init Hknown Htgt)
              (simple_key_sim (rows d) (cols d) (target d) init Hnd)
              (simple_key_stop (rows d) (cols d) (target d) init Hnd)
              h0 t0 N Hp0 Hstop0 (Nat.lt_succ_diag_r _))
    as (h & s & Hfound & Hp & Hstop & Hmin).
  exists N, h, s. split.
  - intros fuel Hfuel. unfold Simple.search, bfs in *.
    rewrite <- Hfound. apply bfs_loop_fuel; [done|]. by rewrite Hfound.
  - destruct (simple_path_legal_walk (rows d) (cols d) (target d) init
                Hnd Hknown Htgt init h s Hp init eq_refl
                (same_pieces_refl init) Hdis)
      as (σ & Hw & Heq).
    exists σ. split_and!; [done| |].
    + apply (simple_inspect_Stop (rows d) (cols d) (target d) σ).
      by apply (simple_stop_strip (rows d) (cols d) (target d) s σ Heq).
    + intros seq' σ' Hw' Hg'.
      destruct (simple_legal_walk_path (rows d) (cols d) (target d) init
                  Hnd Hknown Htgt init seq' σ' Hw' init eq_refl
                  (same_pieces_refl init) Hdis Hg')
        as (h' & t' & Hp' & Hstop' & Hlen).
      specialize (Hmin h' t' Hp' Hstop'). lia.
Qed.

(** ** shortestMoves.py: the search *)

Lemma foldl_insert_by_label {A} (f : piece → A) (s : list piece)
    (md0 : gmap string A) :
  (∀ l, l ∉ label <$> s →
     foldl (λ md p, <[label p := f p]> md) md0 s !! l = md0 !! l) ∧
  (NoDup (label <$> s) → ∀ p, p ∈ s →
     foldl (λ md p, <[label p := f p]> md) md0 s !! label p = Some (f p)).
Proof.
  revert md0. induction s as [|p0 s IH]; intros md0; simpl.
  - split; [done|]. intros _ p Hp. by apply elem_of_nil in Hp.
  - destruct (IH (<[label p0 := f p0]> md0)) as [Hout Hin]. split.
    + intros l Hl. rewrite Hout.
      * apply lookup_insert_ne. intros <-. apply Hl. by left.
      * intros ?. apply Hl. by right.
    + intros [Hnotin Hnd]%NoDup_cons p [->|Hp]%elem_of_cons.
      * rewrite Hout by done. by rewrite lookup_insert_eq.
      * by apply Hin.
Qed.

Lemma shortest_moves_lookup (s : list piece) rows cols p :
  NoDup (label <$> s) → p ∈ s →
  Shortest.get_all_possible_moves s rows cols !!! label p
  = (λ e : string * (Z * Z), (e.1, row p + e.2.1, col p + e.2.2)) <$> MOVES.
Proof.
  intros Hnd Hp. apply lookup_total_correct.
  exact (proj2 (foldl_insert_by_label
                  (λ p, (λ e : string * (Z * Z),
                           (e.1, row p + e.2.1, col p + e.2.2)) <$> MOVES)
                  s ∅) Hnd p Hp).
Qed.

Lemma shortest_moves_strip (s s' : list piece) rows cols :
  strip <$> s = strip <$> s' →
  Shortest.get_all_possible_moves s rows cols
  = Shortest.get_all_possible_moves s' rows cols.
Proof.
  unfold Shortest.get_all_possible_moves. generalize (∅ : gmap string (list move)).
  revert s'. induction s as [|p s IH]; intros [|q s'] md0 Heq; try done.
  apply fmap_cons_eq in Heq as [Hpq Heq]. simpl.
  apply strip_fields in Hpq as (-> & -> & -> & _). by apply IH.
Qed.

Section ShortestSearch.
Variables (rows cols : Z) (tgt : string) (init : list piece).
Hypothesis init_nodup : NoDup (label <$> init).
Hypothesis init_target : tgt ∈ label <$> init.

Lemma shortest_inspect_Stop s :
  Shortest.inspect rows cols tgt s = Stop ↔ anchor_goal rows tgt s.
Proof.
  unfold Shortest.inspect, anchor_goal. split.
  - destruct (find_piece tgt s) as [t|]; [|done].
    case_bool_decide as Hg; [|done]. intros _. by exists t.
  - intros (t & -> & Hr & Hc). by rewrite bool_decide_eq_true_2.
Qed.

Lemma shortest_view s :
  same_pieces init s →
  Shortest.inspect rows cols tgt s = Stop ∨
  Shortest.inspect rows cols tgt s
    = Grow (candidates s (Shortest.get_all_possible_moves s rows cols)).
Proof.
  intros [Hl _]. unfold Shortest.inspect.
  destruct (find_piece_elem tgt s) as [t ->]; [by rewrite Hl|].
  case_bool_decide; [by left|by right].
Qed.

Lemma shortest_view_cases s :
  same_pieces init s →
  Shortest.inspect rows cols tgt s = Stop ∨
  ∃ next, Shortest.inspect rows cols tgt s = Grow next.
Proof. intros Hs. destruct (shortest_view s Hs); eauto. Qed.

Lemma shortest_inspect_strip s s' :
  strip <$> s = strip <$> s' →
  (Shortest.inspect rows cols tgt s = Stop →
   Shortest.inspect rows cols tgt s' = Stop) ∧
  ∀ next, Shortest.inspect rows cols tgt s = Grow next →
    ∃ next', Shortest.inspect rows cols tgt s' = Grow next' ∧
      ∀ m t, (m, t) ∈ next →
        ∃ t', (m, t') ∈ next' ∧ strip <$> t = strip <$> t'.
Proof.
  intros Heq. unfold Shortest.inspect.
  pose proof (find_piece_strip tgt s s' Heq) as Hfind.
  destruct (find_piece tgt s) as [t|], (find_piece tgt s') as [t'|];
    try done.
  simpl in Hfind. apply (inj Some) in Hfind as Htt.
  apply strip_fields in Htt as (_ & Hr & Hc & _).
  rewrite <- Hr, <- Hc. case_bool_decide; [done|].
  split; [done|]. intros next [= <-]. eexists. split; [done|].
  intros m u Hin. rewrite <- (shortest_moves_strip s s' rows cols Heq).
  by eapply candidates_strip.
Qed.

Lemma shortest_edge_same s m s' :
  same_pieces init s → edge (Shortest.inspect rows cols tgt) s m s' →
  same_pieces init s'.
Proof.
  intros Hs (next & Hnext & Hin).
  destruct (shortest_view s Hs) as [Hstop|Hgrow]; [congruence|].
  rewrite Hgrow in Hnext. injection Hnext as <-.
  apply elem_of_candidates in Hin as (p & mv & _ & _ & [= _ ->]).
  by apply same_pieces_move.
Qed.

Lemma shortest_key_sim s s' m t :
  same_pieces init s → same_pieces init s' →
  board_to_tuple s = board_to_tuple s' →
  edge (Shortest.inspect rows cols tgt) s m t →
  ∃ t', edge (Shortest.inspect rows cols tgt) s' m t' ∧
        board_to_tuple t' = board_to_tuple t.
Proof.
  intros Hs Hs' Hk (next & Hnext & Hin).
  pose proof (same_key_strip init s s' init_nodup Hs Hs' Hk) as Heq.
  destruct (shortest_inspect_strip s s' Heq) as [_ Hgrow].
  destruct (Hgrow next Hnext) as (next' & Hnext' & Hall).
  destruct (Hall m t Hin) as (t' & Hin' & Htt).
  exists t'. split; [by exists next'|]. symmetry. by apply key_strip.
Qed.

Lemma shortest_key_stop s s' :
  same_pieces init s → same_pieces init s' →
  board_to_tuple s = board_to_tuple s' →
  Shortest.inspect rows cols tgt s = Stop →
  Shortest.inspect rows cols tgt s' = Stop.
Proof.
  intros Hs Hs' Hk.
  pose proof (same_key_strip init s s' init_nodup Hs Hs' Hk) as Heq.
  by destruct (shortest_inspect_strip s s' Heq) as [? _].
Qed.

(** The edges of this search are the unchecked steps. *)
Lemma shortest_edge_free s mv s' :
  same_pieces init s →
  edge (Shortest.inspect rows cols tgt) s mv s' → free_step s mv s'.
Proof.
  intros Hs (next & Hnext & Hin).
  destruct (shortest_view s Hs) as [Hstop|Hgrow]; [congruence|].
  rewrite Hgrow in Hnext. injection Hnext as <-.
  apply elem_of_candidates in Hin as (p & m & Hp & Hm & [= -> ->]).
  rewrite shortest_moves_lookup in Hm; [|by destruct Hs as [-> _]|done].
  apply list_elem_of_fmap in Hm as ([dir [dr dc]] & -> & Hin).
  by exists p, dr, dc.
Qed.

Lemma shortest_free_edge s mv s' :
  same_pieces init s → Shortest.inspect rows cols tgt s ≠ Stop →
  free_step s mv s' → edge (Shortest.inspect rows cols tgt) s mv s'.
Proof.
  intros Hs Hnot (p & dr & dc & Hp & Hl & HM & ->).
  destruct (shortest_view s Hs) as [Hstop|Hgrow]; [done|].
  eexists. split; [done|].
  apply elem_of_candidates. exists p, (mv.2, row p + dr, col p + dc).
  split_and!; [done| |].
  - rewrite shortest_moves_lookup; [|by destruct Hs as [-> _]|done].
    apply list_elem_of_fmap. by exists (mv.2, (dr, dc)).
  - simpl. destruct mv as [l dir]. simpl in *. by subst.
Qed.

Lemma free_step_same s mv s' :
  same_pieces init s → free_step s mv s' → same_pieces init s'.
Proof. intros Hs (p & dr & dc & _ & _ & _ & ->). by apply same_pieces_move. Qed.

Lemma shortest_free_walk_path s seq sf :
  walk free_step s seq sf → same_pieces init s →
  anchor_goal rows tgt sf →
  ∃ h t, path (Shortest.inspect rows cols tgt) s h t ∧
         Shortest.inspect rows cols tgt t = Stop ∧
         (length h ≤ length seq)%nat.
Proof.
  induction 1 as [s|s m s1 seq sf Hstep Hwalk IH]; intros Hs Hgoal.
  - exists [], s. split_and!; [constructor| |done].
    by apply shortest_inspect_Stop.
  - destruct (shortest_view s Hs) as [Hstop|Hgrow].
    + exists [], s. split_and!; [constructor|done|simpl; lia].
    + destruct IH as (h & t & Hp & Ht & Hlen); [by eapply free_step_same|done|].
      exists (m :: h), t. split_and!; [|done|simpl; lia].
      eapply walk_cons; [|done]. apply shortest_free_edge; [done|congruence|done].
Qed.

Lemma shortest_path_free_walk s h t :
  path (Shortest.inspect rows cols tgt) s h t → same_pieces init s →
  walk free_step s h t.
Proof.
  induction 1 as [s|s m s1 h t Hedge Hwalk IH]; intros Hs; [constructor|].
  eapply walk_cons; [by apply shortest_edge_free|].
  apply IH. by eapply shortest_edge_same.
Qed.
End ShortestSearch.

Lemma find_piece_move_piece l (s : list piece) r c :
  find_piece l (move_piece s l r c) = (λ t, set_pos t r c) <$> find_piece l s.
Proof.
  induction s as [|p s IH]; [done|].
  unfold move_piece in *. rewrite fmap_cons, !find_piece_cons.
  destruct (decide (label p = l)) as [Hl|Hl].
  - simpl. by rewrite decide_True.
  - by rewrite decide_False.
Qed.

(** Unchecked steps can always walk the target to the goal anchor. *)
Lemma free_walk_to_goal rows tgt n :
  ∀ s t, find_piece tgt s = Some t →
    Z.abs (row t - (rows - 1)) + Z.abs (col t) ≤ Z.of_nat n →
    ∃ seq sf, walk free_step s seq sf ∧ anchor_goal rows tgt sf.
Proof.
  induction n as [|n IH]; intros s t Hfind Hdist.
  - exists [], s. split; [constructor|]. exists t. split_and!; [done|lia|lia].
  - destruct (decide (row t = rows - 1 ∧ col t = 0)) as [[Hr Hc]|Hnot].
    { exists [], s. split; [constructor|]. by exists t. }
    pose proof (find_piece_Some _ _ _ Hfind) as [Hin Hl].
    assert (∃ dir dr dc, (dir, (dr, dc)) ∈ MOVES ∧
              Z.abs (row t + dr - (rows - 1)) + Z.abs (col t + dc)
                ≤ Z.of_nat n) as (dir & dr & dc & HM & Hless).
    { destruct (Z.lt_trichotomy (row t) (rows - 1)) as [Hlt|[Heq|Hgt]].
      - exists "down", 1, 0. split; [|lia]. unfold MOVES. set_solver.
      - destruct (Z.lt_trichotomy (col t) 0) as [Hlt|[Heq'|Hgt]].
        + exists "right", 0, 1. split; [|lia]. unfold MOVES. set_solver.
        + lia.
        + exists "left", 0, (-1). split; [|lia]. unfold MOVES. set_solver.
      - exists "up", (-1), 0. split; [|lia]. unfold MOVES. set_solver. }
    destruct (IH (move_piece s tgt (row t + dr) (col t + dc))
                 (set_pos t (row t + dr) (col t + dc)))
      as (seq & sf & Hw & Hg).
    { by rewrite find_piece_move_piece, Hfind. }
    { done. }
    exists ((tgt, dir) :: seq), sf. split; [|done].
    eapply walk_cons; [|done].
    exists t, dr, dc. simpl. rewrite Hl. done.
Qed.

(** The search of [find_shortest_target_path_from_state] always returns
    when the target is on the board, with a shortest sequence of
    unchecked steps to the goal anchor. *)
Lemma shortest_search_finds init d :
  NoDup (label <$> init) → target d ∈ label <$> init →
  ∃ N h s,
    (∀ fuel, (N ≤ fuel)%nat → Shortest.search fuel init d = Found h s) ∧
    walk free_step init h s ∧ anchor_goal (rows d) (target d) s ∧
    ∀ seq' s', walk free_step init seq' s' →
      anchor_goal (rows d) (target d) s' → (length h ≤ length seq')%nat.
Proof.
  intros Hnd Htgt.
  destruct (find_piece_elem _ _ Htgt) as [t0 Hfind].
  destruct (free_walk_to_goal (rows d) (target d)
              (Z.to_nat (Z.abs (row t0 - (rows d - 1)) + Z.abs (col t0)))
              init t0 Hfind) as (seq0 & sf0 & Hw0 & Hg0); [lia|].
  destruct (shortest_free_walk_path (rows d) (cols d) (target d) init Hnd Htgt
              init seq0 sf0 Hw0 (same_pieces_refl init) Hg0)
    as (h0 & u0 & Hp0 & Hstop0 & _).
  set (N := S (size (list_to_set (C := gset (list (string * Z * Z)))
                      (board_to_tuple <$>
                         ball (Shortest.inspect (rows d) (cols d) (target d))
                              (S (length h0)) init)))).
  destruct (bfs_finds board_to_tuple
              (Shortest.inspect (rows d) (cols d) (target d)) init
              (same_pieces init) (same_pieces_refl init)
              (shortest_edge_same (rows d) (cols d) (target d) init Htgt)
              (shortest_view_cases (rows d) (cols d) (target d) init Htgt)
              (shortest_key_sim (rows d) (cols d) (target d) init Hnd)
              (shortest_key_stop (rows d) (cols d) (target d) init Hnd)
              h0 u0 N Hp0 Hstop0 (Nat.lt_succ_diag_r _))
    as (h & s & Hfound & Hp & Hstop & Hmin).
  exists N, h, s. split_and!.
  - intros fuel Hfuel. unfold Shortest.search, bfs in *.
    rewrite <- Hfound. apply bfs_loop_fuel; [done|]. by rewrite Hfound.
  - by apply (shortest_path_free_walk (rows d) (cols d) (target d) init
                Hnd Htgt init h s Hp), same_pieces_refl.
  - by apply (shortest_inspect_Stop (rows d) (cols d) (target d) s).
  - intros seq' s' Hw' Hg'.
    destruct (shortest_free_walk_path (rows d) (cols d) (target d) init Hnd Htgt
                init seq' s' Hw' (same_pieces_refl init) Hg')
      as (h' & t' & Hp' & Hstop' & Hlen).
    specialize (Hmin h' t' Hp' Hstop'). lia.
Qed.

(** ** Termination of the checked search *)

Lemma same_pieces_in_placements anchors init (s : list piece) :
  same_pieces init s → anchored anchors s →
  strip <$> s ∈ placements_over anchors (strip <$> init).
Proof.
  revert s. induction init as [|p0 init IH]; intros s [Hl Ht] Hanch.
  - destruct s; [by left|done].
  - destruct s as [|p s]; [done|].
    apply fmap_cons_eq in Hl as [Hl0 Hl].
    apply fmap_cons_eq in Ht as [Ht0 Ht].
    apply Forall_cons in Hanch as [Hp Hanch].
    rewrite !fmap_cons. cbn [placements_over].
    apply list_elem_of_bind. exists (row p, col p). split; [|done].
    apply list_elem_of_bind. exists (strip <$> s). split; [|by apply IH].
    apply list_elem_of_singleton. f_equal.
    unfold strip, set_pos. simpl. by rewrite Hl0, Ht0.
Qed.

Lemma valid_move_in_grid gpd p r c b rows cols :
  (∀ p h w, gpd p = Some (h, w) → 0 < h ∧ 0 < w) →
  is_Some (gpd p) →
  MoveGen.is_valid_move (cache gpd p) r c b rows cols = Some true →
  (r, c) ∈ cells 0 0 rows cols.
Proof.
  intros Hpos [[h w] Hd]. destruct (Hpos p h w Hd) as [Hh Hw].
  unfold MoveGen.is_valid_move, cache. rewrite Hd. simpl.
  destruct ((r <? 0) || (c <? 0) || (rows <? r + h) || (cols <? c + w))
    eqn:Hbounds; [done|]. intros _.
  repeat (apply orb_false_iff in Hbounds as [Hbounds ?]).
  rewrite Z.ltb_ge in *. apply elem_of_cells. simpl. lia.
Qed.

(** Every move the checked generator offers puts the anchor in the grid. *)
Lemma get_all_possible_moves_in_grid gpd (s : list piece) rows cols md s' p m :
  (∀ p h w, gpd p = Some (h, w) → 0 < h ∧ 0 < w) →
  NoDup (label <$> s) →
  MoveGen.get_all_possible_moves gpd s rows cols = Some (md, s') →
  p ∈ s → m ∈ md !!! label p → (m.1.2, m.2) ∈ cells 0 0 rows cols.
Proof.
  intros Hpos Hnd Hgen Hp Hm.
  pose proof (get_all_possible_moves_Some _ _ _ _ _ _ Hgen) as Hall.
  destruct (get_all_possible_moves_spec gpd s rows cols Hall)
    as (md' & b & Hgen' & Hb & Hmd).
  rewrite Hgen in Hgen'. injection Hgen' as <- _.
  rewrite Forall_forall in Hall. destruct (Hall p Hp) as [[h w] Hd].
  destruct (moves_of_spec (cache gpd p) b rows cols MOVES)
    as (ms & Hms & Hin); [unfold cache; rewrite Hd; by eexists..|].
  rewrite lookup_total_alt, (Hmd Hnd p Hp), Hms in Hm. simpl in Hm.
  apply Hin in Hm as (dr & dc & _ & -> & -> & Hv).
  eapply valid_move_in_grid; [done|by eexists|done].
Qed.

Lemma candidates_nil (cur : list piece) (md : gmap string (list move)) :
  (∀ p, p ∈ cur → md !!! label p = []) → candidates cur md = [].
Proof.
  intros Hall.
  destruct (candidates cur md) as [|x l] eqn:Hc; [done|].
  assert (x ∈ candidates cur md) as Hx by (rewrite Hc; by left).
  apply elem_of_candidates in Hx as (p & m & Hp & Hm & _).
  rewrite (Hall p Hp) in Hm. by apply elem_of_nil in Hm.
Qed.

Section SimpleTermination.
Variables (rows cols : Z) (tgt : string) (init : list piece).
Hypothesis init_nodup : NoDup (label <$> init).
Hypothesis init_known :
  Forall (λ p, is_Some (Simple.get_piece_dimensions p)) init.
Hypothesis init_target : tgt ∈ label <$> init.

Local Abbreviation gpd := Simple.get_piece_dimensions.
Local Abbreviation insp := (Simple.inspect rows cols tgt).
Local Abbreviation anchors := (anchors_of rows cols init).

Lemma init_anchored : anchored anchors init.
Proof.
  apply Forall_forall. intros p Hp. apply elem_of_app. left.
  by apply (list_elem_of_fmap_2 (λ p, (row p, col p))).
Qed.

Lemma simple_edge_anchored s m s' :
  same_pieces init s ∧ anchored anchors s → edge insp s m s' →
  same_pieces init s' ∧ anchored anchors s'.
Proof.
  intros [Hs Hanch] Hedge. split.
  { by eapply simple_edge_same. }
  destruct Hedge as (next & Hnext & Hin).
  destruct (simple_view rows cols tgt init init_known init_target s Hs)
    as [Hstop|(md & Hgen & Hview)]; [congruence|].
  rewrite Hview in Hnext. injection Hnext as <-.
  apply elem_of_candidates in Hin as (p' & mv & Hp' & Hm & [= _ ->]).
  apply list_elem_of_fmap in Hp' as (p & -> & Hp).
  rewrite cache_label in *.
  assert ((mv.1.2, mv.2) ∈ cells 0 0 rows cols) as Hgrid.
  { eapply (get_all_possible_moves_in_grid gpd s);
      [apply simple_gpd_pos| |done|done|done].
    destruct Hs as [-> _]. done. }
  apply Forall_forall. intros x (y & Hy & ->)%elem_of_move_piece.
  destruct (decide (label y = label p)); simpl.
  - apply elem_of_app. by right.
  - apply list_elem_of_fmap in Hy as (z & -> & Hz).
    unfold anchored in Hanch. rewrite Forall_forall in Hanch.
    specialize (Hanch z Hz).
    unfold cache. by repeat case_match.
Qed.

(** With bounds checked, the search always ends: it finds a state it
    stops at, by a shortest walk, or it runs out of states. *)
Lemma simple_search_ends :
  ∃ N, ∀ fuel, (N ≤ fuel)%nat →
    bfs_post insp init (bfs board_to_tuple insp fuel init).
Proof.
  set (U := list_to_set (C := gset (list (string * Z * Z)))
              (board_to_tuple <$> placements_over anchors (strip <$> init))).
  exists (S (size U)). intros fuel Hfuel.
  assert (same_pieces init init ∧ anchored anchors init) as Hinit.
  { split; [done|apply init_anchored]. }
  assert (∀ s m s', same_pieces init s ∧ anchored anchors s →
            edge insp s m s' → same_pieces init s' ∧ anchored anchors s')
    as Hedge.
  { intros s m s' Hs He. by eapply simple_edge_anchored. }
  apply (bfs_correct board_to_tuple insp init
           (λ s, same_pieces init s ∧ anchored anchors s) Hinit Hedge
           (λ s Hs, simple_view_cases rows cols tgt init init_known
                      init_target s (proj1 Hs))
           (λ s s' m t Hs Hs', simple_key_sim rows cols tgt init init_nodup
                                 s s' m t (proj1 Hs) (proj1 Hs'))
           (λ s s' Hs Hs', simple_key_stop rows cols tgt init init_nodup
                             s s' (proj1 Hs) (proj1 Hs'))
           U); [|lia].
  intros done queue visited Hinv k Hk.
  apply (inv_visited _ _ _ _ _ _ Hinv) in Hk as (e & He & <-).
  pose proof (inv_path _ _ _ _ _ _ Hinv e He) as Hp.
  destruct (path_Rinv insp (λ s, same_pieces init s ∧ anchored anchors s)
              Hedge init e.2 e.1 Hinit Hp) as [Hs Hanch].
  apply elem_of_list_to_set, list_elem_of_fmap.
  exists (strip <$> e.1). split.
  - apply key_strip. by rewrite <- list_fmap_compose.
  - by apply same_pieces_in_placements.
Qed.

(** A state without legal moves that is not a goal state ends the search
    after it is dequeued. *)
Lemma simple_stuck_exhausted fuel :
  disjoint_board gpd init → stuck gpd rows cols init →
  ¬ simple_goal rows tgt init →
  bfs board_to_tuple insp (S (S fuel)) init = Exhausted.
Proof.
  intros Hdis Hstuck Hnot. unfold bfs. cbn [bfs_loop].
  destruct (simple_view rows cols tgt init init_known init_target init
              (same_pieces_refl init)) as [Hstop|(md & Hgen & ->)].
  { by apply simple_inspect_Stop in Hstop. }
  rewrite candidates_nil; [done|].
  intros p' (p & -> & Hp)%list_elem_of_fmap. rewrite cache_label.
  destruct (md !!! label p) as [|m ms] eqn:Hmd; [done|].
  exfalso. apply (Hstuck p m Hp).
  apply (simple_grow_legal rows cols init init_nodup init md p m
           (same_pieces_refl init) Hdis Hgen Hp).
  rewrite Hmd. by left.
Qed.
End SimpleTermination.

(** ** Combinations *)

Lemma binom_small n k : (n < k)%nat → binom n k = 0%nat.
Proof.
  revert k. induction n as [|n IH]; intros [|k] Hk; simpl; try lia.
  rewrite !IH by lia. done.
Qed.

Lemma binom_fact n k :
  (k ≤ n)%nat → (binom n k * fact k * fact (n - k) = fact n)%nat.
Proof.
  revert k. induction n as [|n IH]; intros k Hk.
  - assert (k = 0)%nat as -> by lia. done.
  - destruct k as [|k]; [simpl; lia|].
    cbn [binom]. replace (S n - S k)%nat with (n - k)%nat by lia.
    destruct (decide (k = n)) as [->|Hne].
    + rewrite (binom_small n (S n)) by lia.
      pose proof (IH n (le_n n)) as IHn.
      rewrite Nat.sub_diag in *. simpl fact in IHn at 2.
      pose proof (lt_O_fact n).
      assert (binom n n = 1)%nat as -> by nia.
      simpl. lia.
    + pose proof (IH k ltac:(lia)) as IH1.
      pose proof (IH (S k) ltac:(lia)) as IH2.
      assert (∃ m, (n - k = S m ∧ n - S k = m)%nat) as (m & Hm & Hm')
        by (exists (n - S k)%nat; lia).
      rewrite Hm in *. rewrite Hm' in *.
      change (fact (S k)) with (S k * fact k)%nat in *.
      change (fact (S n)) with (S n * fact n)%nat.
      change (fact (S m)) with (S m * fact m)%nat in *.
      transitivity (S k * (binom n k * fact k * (S m * fact m))
                    + S m * (binom n (S k) * (S k * fact k) * fact m))%nat;
        [ring|].
      rewrite IH1, IH2. rewrite <- Nat.mul_add_distr_r. f_equal. lia.
Qed.

Lemma length_combinations {A} (l : list A) k :
  length (combinations l k) = binom (length l) k.
Proof.
  revert k. induction l as [|x l IH]; intros [|k]; simpl; try done.
  by rewrite length_app, length_fmap, !IH.
Qed.

Lemma elem_of_combinations {A} (l : list A) k c :
  c ∈ combinations l k ↔ sublist c l ∧ length c = k.
Proof.
  revert k c. induction l as [|x l IH]; intros [|k] c; simpl.
  - rewrite list_elem_of_singleton. split.
    + intros ->. split; [constructor|done].
    + intros [_ ?]. by destruct c.
  - rewrite elem_of_nil. split; [done|].
    intros [Hs Hlen]. apply sublist_nil_r in Hs as ->. done.
  - rewrite list_elem_of_singleton. split.
    + intros ->. split; [apply sublist_nil_l|done].
    + intros [_ ?]. by destruct c.
  - rewrite elem_of_app, list_elem_of_fmap. setoid_rewrite IH. split.
    + intros [(c' & -> & Hs & Hlen)|[Hs Hlen]].
      * split; [by constructor|simpl; by rewrite Hlen].
      * split; [by constructor|done].
    + intros [Hs Hlen]. apply sublist_cons_r in Hs as [Hs|(c' & -> & Hs)].
      * by right.
      * left. exists c'. simpl in Hlen. split_and!; [done|done|lia].
Qed.

Lemma sublist_same_elements {A} (l c1 c2 : list A) :
  NoDup l → sublist c1 l → sublist c2 l →
  (∀ x, x ∈ c1 ↔ x ∈ c2) → c1 = c2.
Proof.
  revert c1 c2. induction l as [|x l IH]; intros c1 c2 Hnd Hs1 Hs2 Heq.
  - apply sublist_nil_r in Hs1 as ->. by apply sublist_nil_r in Hs2 as ->.
  - apply NoDup_cons in Hnd as [Hx Hnd].
    apply sublist_cons_r in Hs1 as [Hs1|(c1' & -> & Hs1)];
      apply sublist_cons_r in Hs2 as [Hs2|(c2' & -> & Hs2)].
    + by apply IH.
    + exfalso. apply Hx. eapply elem_of_sublist; [|apply Hs1].
      apply Heq. by left.
    + exfalso. apply Hx. eapply elem_of_sublist; [|apply Hs2].
      apply Heq. by left.
    + f_equal. apply IH; [done..|].
      intros y. split; intros Hy.
      * assert (y ∈ x :: c2') as [->|?]%elem_of_cons
          by (apply Heq; by right); [|done].
        exfalso. apply Hx. by eapply elem_of_sublist.
      * assert (y ∈ x :: c1') as [->|?]%elem_of_cons
          by (apply Heq; by right); [|done].
        exfalso. apply Hx. by eapply elem_of_sublist.
Qed.

Lemma NoDup_combinations {A} (l : list A) k :
  NoDup l → NoDup (combinations l k).
Proof.
  revert k. induction l as [|x l IH]; intros [|k] Hnd; simpl.
  - apply NoDup_singleton.
  - constructor.
  - apply NoDup_singleton.
  - apply NoDup_cons in Hnd as [Hx Hnd].
    apply NoDup_app. split_and!.
    + apply NoDup_fmap_2; [|by apply IH]. intros ?? [=]. done.
    + intros c (c' & -> & Hc')%list_elem_of_fmap Hc.
      apply elem_of_combinations in Hc as [Hs _].
      apply Hx. eapply elem_of_sublist; [|apply Hs]. by left.
    + by apply IH.
Qed.

(** Different combinations of a list without repetition have different
    sets of elements, and every [k]-element set is the set of one. *)
Lemma combinations_sets `{Countable A} (l : list A) k :
  NoDup l →
  NoDup (list_to_set (C := gset A) <$> combinations l k) ∧
  ∀ X : gset A, X ⊆ list_to_set l → size X = k →
    ∃ c, c ∈ combinations l k ∧ list_to_set c = X.
Proof.
  intros Hnd. split.
  - apply NoDup_fmap_2_strong; [|by apply NoDup_combinations].
    intros c1 c2 [Hs1 _]%elem_of_combinations [Hs2 _]%elem_of_combinations Heq.
    apply (sublist_same_elements l); [done..|].
    intros x. by rewrite <- !(elem_of_list_to_set (C := gset A)), Heq.
  - intros X HX Hsize. exists (filter (λ x, x ∈ X) l).
    assert (list_to_set (filter (λ x, x ∈ X) l) = X) as Hset.
    { apply set_eq. intros x.
      rewrite elem_of_list_to_set, list_elem_of_filter. split; [by intros [? _]|].
      intros Hx. split; [done|].
      apply (elem_of_list_to_set (C := gset A)). by apply HX. }
    split; [|done].
    apply elem_of_combinations. split; [apply sublist_filter|].
    rewrite <- Hsize.
    transitivity (size (list_to_set (C := gset A) (filter (λ x, x ∈ X) l)));
      [|by rewrite Hset].
    rewrite size_list_to_set; [done|]. by apply NoDup_filter.
Qed.

(** ** The extension enumerator *)

Lemma added_cells_blocks (hs : list piece) (combo : list (Z * Z)) :
  added_cells (length hs) (hs ++ imap Shortest.block combo) = combo.
Proof.
  unfold added_cells. rewrite drop_app_length, fmap_imap.
  rewrite (imap_ext _ (const id)); [|by intros ? [??] _].
  rewrite imap_const. apply list_fmap_id.
Qed.

Lemma blocks_unit (combo : list (Z * Z)) :
  Forall (λ p, piece_type p = "1x1" ∧ height p = Some 1 ∧ width p = Some 1)
         (imap Shortest.block combo).
Proof.
  apply Forall_forall. intros p Hp.
  apply elem_of_lookup_imap in Hp as (i & c & -> & _). done.
Qed.

Lemma generate_supernodes_spec hyper_state d hs :
  mapM Shortest.ensure_dimensions hyper_state = Some hs →
  ∃ result,
    Shortest.generate_supernodes hyper_state d = Some result ∧
    ((size (empty_cells (rows d) (cols d) hs) < 4)%nat → result = []) ∧
    length result = binom (size (empty_cells (rows d) (cols d) hs)) 4 ∧
    (∀ state, state ∈ result →
       take (length hs) state = hs ∧
       length (added_cells (length hs) state) = 4%nat ∧
       NoDup (added_cells (length hs) state) ∧
       (∀ cell, cell ∈ added_cells (length hs) state →
                cell ∈ empty_cells (rows d) (cols d) hs) ∧
       Forall (λ p, piece_type p = "1x1" ∧ height p = Some 1 ∧ width p = Some 1)
              (drop (length hs) state)) ∧
    NoDup ((λ state, list_to_set (C := gset (Z * Z))
                       (added_cells (length hs) state)) <$> result) ∧
    (∀ X : gset (Z * Z),
       X ⊆ empty_cells (rows d) (cols d) hs → size X = 4%nat →
       ∃ state, state ∈ result ∧
                list_to_set (added_cells (length hs) state) = X).
Proof.
  intros Hmap. unfold Shortest.generate_supernodes. rewrite Hmap. simpl.
  fold (empty_cells (rows d) (cols d) hs).
  set (empty := empty_cells (rows d) (cols d) hs).
  assert (length (elements empty) = size empty) as Hlen by done.
  pose proof (NoDup_elements empty) as Hnd.
  destruct (combinations_sets (elements empty) 4 Hnd) as [Hsets Hall].
  eexists. split; [done|].
  case_decide as Hfour.
  - split_and!.
    + lia.
    + by rewrite length_fmap, length_combinations, Hlen.
    + intros state (combo & -> & Hc)%list_elem_of_fmap.
      apply elem_of_combinations in Hc as [Hsub Hfourc].
      rewrite added_cells_blocks, take_app_length, drop_app_length.
      split_and!; [done|done| | |apply blocks_unit].
      * eapply sublist_NoDup; eauto.
      * intros cell Hcell. apply elem_of_elements.
        by eapply elem_of_sublist.
    + rewrite <- list_fmap_compose.
      rewrite (list_fmap_ext _ (list_to_set (C := gset (Z * Z)))); [done|].
      intros _ combo _. simpl. by rewrite added_cells_blocks.
    + intros X HX Hsize.
      destruct (Hall X) as (combo & Hc & Hset); [|done|].
      { by rewrite list_to_set_elements_L. }
      exists (hs ++ imap Shortest.block combo). split.
      * by apply (list_elem_of_fmap_2
                    (λ combo, hs ++ imap Shortest.block combo)).
      * by rewrite added_cells_blocks.
  - split_and!.
    + done.
    + rewrite binom_small; [done|lia].
    + intros state Hs. by apply elem_of_nil in Hs.
    + constructor.
    + intros X HX Hsize. exfalso.
      pose proof (subseteq_size _ _ HX). lia.
Qed.

(** ** Keys and label-to-anchor mappings *)

Lemma anchor_of_Some l (s : list piece) r c :
  NoDup (label <$> s) →
  anchor_of l s = Some (r, c) ↔ (l, r, c) ∈ triple <$> s.
Proof.
  intros Hnd. unfold anchor_of. split.
  - destruct (find_piece l s) as [p|] eqn:Hfind; [|done].
    intros [= <- <-]. apply find_piece_Some in Hfind as [Hp <-].
    by apply (list_elem_of_fmap_2 triple).
  - intros (p & Hp & Hin)%list_elem_of_fmap.
    unfold triple in Hp. injection Hp as -> -> ->.
    by rewrite (find_piece_NoDup (label p) s p Hnd Hin eq_refl).
Qed.

Lemma NoDup_triples (s : list piece) :
  NoDup (label <$> s) → NoDup (triple <$> s).
Proof.
  intros Hnd. apply (NoDup_fmap_1 (λ t : string * Z * Z, t.1.1)).
  by rewrite <- list_fmap_compose.
Qed.

Lemma same_key_same_anchors (s s' : list piece) :
  NoDup (label <$> s) → NoDup (label <$> s') →
  board_to_tuple s = board_to_tuple s' ↔
  ∀ l, anchor_of l s = anchor_of l s'.
Proof.
  intros Hnd Hnd'. rewrite board_to_tuple_perm. split.
  - intros Hperm l. apply option_eq. intros [r c].
    by rewrite !anchor_of_Some, Hperm.
  - intros Hall. apply NoDup_Permutation; [by apply NoDup_triples..|].
    intros [[l r] c]. by rewrite <- !anchor_of_Some, Hall.
Qed.

(** ** Deciding the board predicates *)

#[global] Instance from_option_dec {A} (P : A → Prop) (Q : Prop)
    `{∀ x, Decision (P x)} `{Decision Q} (o : option A) :
  Decision (from_option P Q o).
Proof. destruct o; apply _. Defined.

Lemma disjoint_board_alt gpd (s : list piece) :
  disjoint_board gpd s ↔
  Forall (λ p, Forall (λ q, p = q ∨
                 Forall (λ cell, cell ∉ type_cells gpd q) (type_cells gpd p)) s) s.
Proof.
  unfold disjoint_board. rewrite Forall_forall. split.
  - intros Hdis p Hp. apply Forall_forall. intros q Hq.
    destruct (decide (p = q)) as [|Hne]; [by left|right].
    apply Forall_forall. intros cell Hc. by apply (Hdis p q).
  - intros Hall p q cell Hp Hq Hne Hc.
    specialize (Hall p Hp). rewrite Forall_forall in Hall.
    destruct (Hall q Hq) as [?|Hcells]; [done|].
    rewrite Forall_forall in Hcells. by apply Hcells.
Qed.

#[global] Instance disjoint_board_dec gpd s : Decision (disjoint_board gpd s).
Proof.
  refine (cast_if (decide (Forall (λ p, Forall (λ q, p = q ∨
            Forall (λ cell, cell ∉ type_cells gpd q) (type_cells gpd p)) s) s)));
    [by apply disjoint_board_alt|by intros ?%disjoint_board_alt].
Defined.

#[global] Instance in_grid_dec rows cols cell : Decision (in_grid rows cols cell).
Proof. unfold in_grid. apply _. Defined.

Lemma legal_move_alt gpd rows cols (s : list piece) p (m : move) :
  legal_move gpd rows cols s p m ↔
  Exists (λ e : string * (Z * Z),
            e.1 = m.1.1 ∧ m.1.2 = row p + e.2.1 ∧ m.2 = col p + e.2.2) MOVES ∧
  from_option
    (λ hw : Z * Z,
       Forall (λ cell, in_grid rows cols cell ∧
                 Forall (λ q, q = p ∨ cell ∉ type_cells gpd q) s)
              (cells m.1.2 m.2 hw.1 hw.2))
    False (gpd p).
Proof.
  unfold legal_move. rewrite Exists_exists. split.
  - intros (dr & dc & h & w & HM & Hr & Hc & -> & Hall). split.
    + by exists (m.1.1, (dr, dc)).
    + simpl. apply Forall_forall. intros cell Hcell.
      destruct (Hall cell Hcell) as [Hg Hfree]. split; [done|].
      apply Forall_forall. intros q Hq.
      destruct (decide (q = p)) as [|Hne]; [by left|right]. by apply Hfree.
  - intros [([dir [dr dc]] & HM & Hd & Hr & Hc) Hall]. simpl in *. subst dir.
    destruct (gpd p) as [[h w]|]; [|done]. simpl in Hall.
    exists dr, dc, h, w. split_and!; [done..|].
    intros cell Hcell. rewrite Forall_forall in Hall.
    destruct (Hall cell Hcell) as [Hg Hfree]. split; [done|].
    intros q Hq Hne. rewrite Forall_forall in Hfree.
    by destruct (Hfree q Hq).
Qed.

#[global] Instance legal_move_dec gpd rows cols s p m :
  Decision (legal_move gpd rows cols s p m).
Proof.
  refine (cast_if (decide (
    Exists (λ e : string * (Z * Z),
              e.1 = m.1.1 ∧ m.1.2 = row p + e.2.1 ∧ m.2 = col p + e.2.2) MOVES ∧
    from_option
      (λ hw : Z * Z,
         Forall (λ cell, in_grid rows cols cell ∧
                   Forall (λ q, q = p ∨ cell ∉ type_cells gpd q) s)
                (cells m.1.2 m.2 hw.1 hw.2))
      False (gpd p))));
    [by apply legal_move_alt|by intros ?%legal_move_alt].
Defined.

Lemma legal_move_shape gpd rows cols (s : list piece) p (m : move) :
  legal_move gpd rows cols s p m →
  ∃ e, e ∈ MOVES ∧ m = (e.1, row p + e.2.1, col p + e.2.2).
Proof.
  intros (dr & dc & _ & _ & HM & Hr & Hc & _).
  exists (m.1.1, (dr, dc)). split; [done|].
  destruct m as [[??]?]. simpl in *. by subst.
Qed.

Lemma stuck_alt gpd rows cols (s : list piece) :
  stuck gpd rows cols s ↔
  Forall (λ p, Forall (λ e : string * (Z * Z),
            ¬ legal_move gpd rows cols s p (e.1, row p + e.2.1, col p + e.2.2))
          MOVES) s.
Proof.
  unfold stuck. rewrite Forall_forall. split.
  - intros Hstuck p Hp. apply Forall_forall. intros e _. by apply Hstuck.
  - intros Hall p m Hp Hlegal.
    destruct (legal_move_shape _ _ _ _ _ _ Hlegal) as (e & He & ->).
    specialize (Hall p Hp). rewrite Forall_forall in Hall.
    by apply (Hall e He).
Qed.

#[global] Instance stuck_dec gpd rows cols s : Decision (stuck gpd rows cols s).
Proof.
  refine (cast_if (decide (
    Forall (λ p, Forall (λ e : string * (Z * Z),
              ¬ legal_move gpd rows cols s p (e.1, row p + e.2.1, col p + e.2.2))
            MOVES) s)));
    [by apply stuck_alt|by intros ?%stuck_alt].
Defined.

#[global] Instance simple_goal_dec rows tgt s : Decision (simple_goal rows tgt s).
Proof.
  refine (cast_if (decide (
    from_option (λ t, from_option (λ hw : Z * Z, row t = rows - hw.1 ∧ col t = 0)
                        False (Simple.get_piece_dimensions t))
                False (find_piece tgt s))));
    unfold simple_goal.
  - destruct (find_piece tgt s) as [t|]; [|done]. simpl in *.
    destruct (Simple.get_piece_dimensions t) as [[h w]|] eqn:Hd; [|done].
    simpl in *. by exists t, h, w.
  - intros (t & h & w & Hf & Hd & Hr & Hc). rewrite Hf in *. simpl in *.
    rewrite Hd in *. simpl in *. tauto.
Defined.

#[global] Instance anchor_goal_dec rows tgt s : Decision (anchor_goal rows tgt s).
Proof.
  refine (cast_if (decide (
    from_option (λ t, row t = rows - 1 ∧ col t = 0) False (find_piece tgt s))));
    unfold anchor_goal.
  - destruct (find_piece tgt s) as [t|]; [|done]. by exists t.
  - intros (t & Hf & Hr & Hc). rewrite Hf in *. simpl in *. tauto.
Defined.

Lemma legal_step_alt gpd rows cols (s : list piece) (mv : step) s' :
  legal_step gpd rows cols s mv s' ↔
  Exists (λ p, Exists (λ e : string * (Z * Z),
            mv = (label p, e.1) ∧
            legal_move gpd rows cols s p (e.1, row p + e.2.1, col p + e.2.2) ∧
            s' = move_piece s (label p) (row p + e.2.1) (col p + e.2.2))
          MOVES) s.
Proof.
  unfold legal_step. rewrite Exists_exists. split.
  - intros (p & m & Hp & -> & Hlegal & ->). exists p. split; [done|].
    destruct (legal_move_shape _ _ _ _ _ _ Hlegal) as (e & He & ->).
    apply Exists_exists. by exists e.
  - intros (p & Hp & (e & He & -> & Hlegal & ->)%Exists_exists).
    by exists p, (e.1, row p + e.2.1, col p + e.2.2).
Qed.

#[global] Instance legal_step_dec gpd rows cols s mv s' :
  Decision (legal_step gpd rows cols s mv s').
Proof.
  refine (cast_if (decide (
    Exists (λ p, Exists (λ e : string * (Z * Z),
              mv = (label p, e.1) ∧
              legal_move gpd rows cols s p (e.1, row p + e.2.1, col p + e.2.2) ∧
              s' = move_piece s (label p) (row p + e.2.1) (col p + e.2.2))
            MOVES) s)));
    [by apply legal_step_alt|by intros ?%legal_step_alt].
Defined.

Lemma free_step_alt (s : list piece) (mv : step) s' :
  free_step s mv s' ↔
  Exists (λ p, Exists (λ e : string * (Z * Z),
            mv = (label p, e.1) ∧
            s' = move_piece s (label p) (row p + e.2.1) (col p + e.2.2))
          MOVES) s.
Proof.
  unfold free_step. rewrite Exists_exists. split.
  - intros (p & dr & dc & Hp & Hl & HM & ->). exists p. split; [done|].
    apply Exists_exists. exists (mv.2, (dr, dc)). split; [done|].
    destruct mv. simpl in *. by subst.
  - intros (p & Hp & ([dir [dr dc]] & He & -> & ->)%Exists_exists).
    by exists p, dr, dc.
Qed.

#[global] Instance free_step_dec s mv s' : Decision (free_step s mv s').
Proof.
  refine (cast_if (decide (
    Exists (λ p, Exists (λ e : string * (Z * Z),
              mv = (label p, e.1) ∧
              s' = move_piece s (label p) (row p + e.2.1) (col p + e.2.2))
            MOVES) s)));
    [by apply free_step_alt|by intros ?%free_step_alt].
Defined.

(** Deciding a closed proposition by evaluation. *)
Ltac by_decide :=
  match goal with
  | |- ?P => apply (bool_decide_unpack P); vm_compute; exact I
  end.

(** ** graph/getToEnd.py: the search *)

Lemma unplaced_eq p q :
  unplaced p = unplaced q → row p = row q → col p = col q → p = q.
Proof.
  destruct p, q. unfold unplaced, set_pos. simpl.
  intros [= -> -> -> -> ->] -> ->. done.
Qed.

Lemma unplaced_label p q : unplaced p = unplaced q → label p = label q.
Proof. destruct p, q. unfold unplaced, set_pos. simpl. by intros [= -> _]. Qed.

Lemma unplaced_sized p q : unplaced p = unplaced q → sized p → sized q.
Proof.
  destruct p, q. unfold unplaced, set_pos, sized, GetToEnd.get_piece_dimensions.
  simpl. by intros [= -> -> -> -> ->].
Qed.

Lemma unplaced_set_pos p r c : unplaced (set_pos p r c) = unplaced p.
Proof. done. Qed.

Lemma unplaced_labels (s s' : list piece) :
  unplaced <$> s = unplaced <$> s' → label <$> s = label <$> s'.
Proof.
  revert s'. induction s as [|p s IH]; intros [|q s'] Heq; try done.
  apply fmap_cons_eq in Heq as [Hpq Heq].
  rewrite !fmap_cons. f_equal; [by apply unplaced_label|by apply IH].
Qed.

Lemma unplaced_all_sized (s s' : list piece) :
  unplaced <$> s = unplaced <$> s' → Forall sized s → Forall sized s'.
Proof.
  revert s'. induction s as [|p s IH]; intros [|q s'] Heq Hall; try done.
  apply fmap_cons_eq in Heq as [Hpq Heq].
  apply Forall_cons in Hall as [Hp Hall].
  constructor; [by eapply unplaced_sized|by apply IH].
Qed.

(** Two boards of the same pieces with the same anchors are equal. *)
Lemma unplaced_triples (s s' : list piece) :
  unplaced <$> s = unplaced <$> s' → triple <$> s = triple <$> s' → s = s'.
Proof.
  revert s'. induction s as [|p s IH]; intros [|q s'] Heq Htr; try done.
  apply fmap_cons_eq in Heq as [Hpq Heq].
  apply fmap_cons_eq in Htr as [Htpq Htr].
  unfold triple in Htpq. injection Htpq as _ Hr Hc.
  f_equal; [by apply unplaced_eq|by apply IH].
Qed.

Lemma sized_dims p :
  sized p → ∃ h w, height p = Some h ∧ width p = Some w ∧ 0 < h ∧ 0 < w ∧
                   is_Some (GetToEnd.get_piece_dimensions p).
Proof.
  unfold sized. destruct (height p) as [h|], (width p) as [w|]; try done.
  intros (? & ? & ?). by exists h, w.
Qed.

Lemma setdefault_dims_sized p h w :
  sized p → GetToEnd.setdefault_dims p h w = p.
Proof.
  intros (h' & w' & Hh & Hw & _)%sized_dims.
  destruct p. simpl in *. subst. done.
Qed.

(** On pieces that store their dimensions,
    [create_board_representation] changes no piece. *)
Lemma gettoend_create_board_sized b (ps : list piece) :
  Forall sized ps → ∃ b', GetToEnd.create_board_from b ps = Some (b', ps).
Proof.
  intros Hall. revert b.
  induction Hall as [|p ps Hp _ IH]; intros b; [by eexists|].
  cbn [GetToEnd.create_board_from].
  pose proof Hp as (h' & w' & _ & _ & _ & _ & [[h w] Hd])%sized_dims.
  rewrite Hd. rewrite (setdefault_dims_sized p h w Hp).
  match goal with |- context [GetToEnd.create_board_from ?b' ps] =>
    destruct (IH b') as [b'' ->] end.
  by eexists.
Qed.

Lemma gettoend_moves_sized (ps : list piece) extra rows cols :
  Forall sized ps →
  ∃ md b,
    GetToEnd.get_all_possible_moves ps extra rows cols = Some (md, ps) ∧
    (NoDup (label <$> ps) →
     ∀ p, p ∈ ps → md !! label p = MoveGen.moves_of p b rows cols MOVES).
Proof.
  intros Hall. unfold GetToEnd.get_all_possible_moves,
    GetToEnd.create_board_representation.
  destruct (gettoend_create_board_sized ∅ ps Hall) as [b ->].
  set (b' := foldl _ b extra).
  destruct (move_dict_from_is_Some ps ∅ b' rows cols) as [md Hmd].
  { eapply Forall_impl; [exact Hall|].
    intros p (h & w & -> & -> & _)%sized_dims. by split. }
  rewrite Hmd. exists md, b'. split; [done|].
  by apply (move_dict_from_lookup ps ∅ b' rows cols md Hmd).
Qed.

Lemma move_first_unplaced (ps : list piece) l r c :
  unplaced <$> GetToEnd.move_first ps l r c = unplaced <$> ps.
Proof.
  induction ps as [|p ps IH]; [done|]. simpl.
  destruct (decide (label p = l)); [done|].
  rewrite !fmap_cons. by rewrite IH.
Qed.

Lemma move_first_anchored anchors (ps : list piece) l r c :
  anchored anchors ps → (r, c) ∈ anchors →
  anchored anchors (GetToEnd.move_first ps l r c).
Proof.
  unfold anchored. intros Hall Hrc.
  induction Hall as [|p ps Hp Hall IH]; [done|]. simpl.
  destruct (decide (label p = l)); constructor; done.
Qed.

Lemma elem_of_gettoend_candidates (ps : list piece) extra
    (md : gmap string (list move)) x :
  x ∈ GetToEnd.candidates ps extra md ↔
  ∃ p m, p ∈ ps ∧ m ∈ md !!! label p ∧
         x = ((label p, m.1.1),
              GetToEnd.State (GetToEnd.move_first ps (label p) m.1.2 m.2) extra).
Proof.
  unfold GetToEnd.candidates. rewrite list_elem_of_bind. split.
  - intros (p & (m & Hx & Hm)%list_elem_of_bind & Hp).
    apply list_elem_of_singleton in Hx. by exists p, m.
  - intros (p & m & Hp & Hm & ->). exists p. split; [|done].
    apply list_elem_of_bind. exists m. split; [|done].
    by apply list_elem_of_singleton.
Qed.

Lemma stored_valid_move_in_grid p r c b rows cols :
  sized p → MoveGen.is_valid_move p r c b rows cols = Some true →
  (r, c) ∈ cells 0 0 rows cols.
Proof.
  intros (h & w & Hh & Hw & Hhpos & Hwpos & _)%sized_dims.
  unfold MoveGen.is_valid_move. rewrite Hh, Hw.
  destruct ((r <? 0) || (c <? 0) || (rows <? r + h) || (cols <? c + w))
    eqn:Hbounds; [done|]. intros _.
  repeat (apply orb_false_iff in Hbounds as [Hbounds ?]).
  rewrite Z.ltb_ge in *. apply elem_of_cells. simpl. lia.
Qed.

Lemma frame_in_placements anchors (init s : list piece) :
  unplaced <$> s = unplaced <$> init → anchored anchors s →
  s ∈ placements_over anchors init.
Proof.
  revert s. induction init as [|p0 init IH]; intros s Heq Hanch.
  - destruct s; [by left|done].
  - destruct s as [|p s]; [done|].
    apply fmap_cons_eq in Heq as [Hp0 Heq].
    apply Forall_cons in Hanch as [Hp Hanch].
    cbn [placements_over].
    apply list_elem_of_bind. exists (row p, col p). split; [|done].
    apply list_elem_of_bind. exists s. split; [|by apply IH].
    apply list_elem_of_singleton. f_equal.
    by apply unplaced_eq.
Qed.

Section GetToEndSearch.
Variables (rows cols : Z) (tgt : string) (init : GetToEnd.state).
Hypothesis init_nodup : NoDup (label <$> GetToEnd.pieces init).
Hypothesis init_sized : Forall sized (GetToEnd.pieces init).

Local Abbreviation insp := (GetToEnd.inspect rows cols tgt).
Local Abbreviation anchors := (anchors_of rows cols (GetToEnd.pieces init)).

Lemma frame_sized s : same_frame init s → Forall sized (GetToEnd.pieces s).
Proof.
  intros [Hf _]. by apply (unplaced_all_sized (GetToEnd.pieces init)).
Qed.

Lemma frame_nodup s : same_frame init s → NoDup (label <$> GetToEnd.pieces s).
Proof. intros [Hf _]. by rewrite (unplaced_labels _ _ Hf). Qed.

(** A state of the search is a goal state or is expanded with the moves
    [is_valid_move] accepts. *)
Lemma gettoend_view s :
  same_frame init s →
  insp s = Stop ∨
  ∃ md b,
    insp s = Grow (GetToEnd.candidates (GetToEnd.pieces s)
                     (GetToEnd.extra_blocks s) md) ∧
    ∀ p, p ∈ GetToEnd.pieces s →
         md !! label p = MoveGen.moves_of p b rows cols MOVES.
Proof.
  intros Hs. pose proof (frame_sized s Hs) as Hsized.
  destruct (gettoend_moves_sized (GetToEnd.pieces s) (GetToEnd.extra_blocks s)
              rows cols Hsized) as (md & b & Hgen & Hmd).
  assert (GetToEnd.expand rows cols s
          = Grow (GetToEnd.candidates (GetToEnd.pieces s)
                    (GetToEnd.extra_blocks s) md)) as Hexp.
  { unfold GetToEnd.expand. by rewrite Hgen. }
  unfold GetToEnd.inspect.
  destruct (find_piece tgt (GetToEnd.pieces s)) as [t|] eqn:Hfind.
  - apply find_piece_Some in Hfind as [Ht _].
    rewrite Forall_forall in Hsized.
    destruct (sized_dims t (Hsized t Ht)) as (h & w & Hh & Hw & _).
    unfold GetToEnd.target_piece_in_bottom_left. rewrite Hh, Hw.
    case_bool_decide; [by left|right].
    exists md, b. split; [done|]. apply Hmd. by apply frame_nodup.
  - right. exists md, b. split; [done|]. apply Hmd. by apply frame_nodup.
Qed.

Lemma gettoend_view_cases s :
  same_frame init s ∧ anchored anchors (GetToEnd.pieces s) →
  insp s = Stop ∨ ∃ next, insp s = Grow next.
Proof.
  intros [Hs _].
  destruct (gettoend_view s Hs) as [?|(md & b & ? & _)]; [by left|right].
  by eexists.
Qed.

Lemma gettoend_edge_frame s m s' :
  same_frame init s ∧ anchored anchors (GetToEnd.pieces s) →
  edge insp s m s' →
  same_frame init s' ∧ anchored anchors (GetToEnd.pieces s').
Proof.
  intros [Hs Hanch] (next & Hnext & Hin).
  destruct (gettoend_view s Hs) as [Hstop|(md & b & Hview & Hmd)];
    [congruence|].
  rewrite Hview in Hnext. injection Hnext as <-.
  apply elem_of_gettoend_candidates in Hin as (p & mv & Hp & Hm & [= _ ->]).
  destruct Hs as [Hf Hx]. simpl. split.
  - split; simpl; [|done]. by rewrite move_first_unplaced.
  - apply move_first_anchored; [done|].
    assert (sized p) as Hsz.
    { pose proof (frame_sized s (conj Hf Hx)) as Hall.
      rewrite Forall_forall in Hall. by apply Hall. }
    pose proof Hsz as (h & w & Hh & Hw & _)%sized_dims.
    destruct (moves_of_spec p b rows cols MOVES) as (ms & Hms & Hin);
      [by rewrite Hh|by rewrite Hw|].
    rewrite lookup_total_alt, (Hmd p Hp), Hms in Hm. simpl in Hm.
    apply Hin in Hm as (dr & dc & _ & -> & -> & Hv).
    apply elem_of_app. right.
    by eapply stored_valid_move_in_grid.
Qed.

(** Two states of the search with the same key are the same state. *)
Lemma gettoend_key_inj s s' :
  same_frame init s → same_frame init s' →
  GetToEnd.board_to_tuple s = GetToEnd.board_to_tuple s' → s = s'.
Proof.
  intros Hs Hs' Hkey. pose proof (frame_nodup s Hs) as Hnd.
  destruct Hs as [Hf Hx], Hs' as [Hf' Hx'].
  unfold GetToEnd.board_to_tuple in Hkey. injection Hkey as Hkey _.
  assert (GetToEnd.pieces s = GetToEnd.pieces s') as Hps.
  { apply unplaced_triples; [congruence|].
    apply key_inj; [|done|done].
    apply unplaced_labels. congruence. }
  destruct s, s'. simpl in *. congruence.
Qed.

(** With stored dimensions, the search of
    [find_shortest_path_from_supernode] always ends: with a shortest
    history to a state that passes the goal test, or with an empty
    queue when no such state can be reached. *)
Lemma gettoend_search_ends :
  ∃ N, ∀ fuel, (N ≤ fuel)%nat →
    bfs_post insp init (bfs GetToEnd.board_to_tuple insp fuel init).
Proof.
  set (U := list_to_set
              (C := gset (list (string * Z * Z) * list (Z * Z)))
              ((λ ps, GetToEnd.board_to_tuple
                        (GetToEnd.State ps (GetToEnd.extra_blocks init)))
                 <$> placements_over anchors (GetToEnd.pieces init))).
  exists (S (size U)). intros fuel Hfuel.
  set (Rinv := λ s, same_frame init s ∧ anchored anchors (GetToEnd.pieces s)).
  assert (Rinv init) as Hinit.
  { split; [done|]. apply Forall_forall. intros p Hp.
    apply elem_of_app. left.
    by apply (list_elem_of_fmap_2 (λ p, (row p, col p))). }
  assert (∀ s m s', Rinv s → edge insp s m s' → Rinv s') as Hedge.
  { intros s m s' Hs He. by eapply gettoend_edge_frame. }
  assert (∀ s s' m t, Rinv s → Rinv s' →
            GetToEnd.board_to_tuple s = GetToEnd.board_to_tuple s' →
            edge insp s m t →
            ∃ t', edge insp s' m t' ∧
                  GetToEnd.board_to_tuple t' = GetToEnd.board_to_tuple t)
    as Hsim.
  { intros s s' m t [Hs _] [Hs' _] Hkey He.
    rewrite <- (gettoend_key_inj s s' Hs Hs' Hkey). by exists t. }
  assert (∀ s s', Rinv s → Rinv s' →
            GetToEnd.board_to_tuple s = GetToEnd.board_to_tuple s' →
            insp s = Stop → insp s' = Stop) as Hstop.
  { intros s s' [Hs _] [Hs' _] Hkey.
    by rewrite <- (gettoend_key_inj s s' Hs Hs' Hkey). }
  apply (bfs_correct GetToEnd.board_to_tuple insp init Rinv Hinit Hedge
           gettoend_view_cases Hsim Hstop U); [|lia].
  intros done queue visited Hinv k Hk.
  apply (inv_visited _ _ _ _ _ _ Hinv) in Hk as (e & He & <-).
  pose proof (inv_path _ _ _ _ _ _ Hinv e He) as Hp.
  destruct (path_Rinv insp Rinv Hedge init e.2 e.1 Hinit Hp)
    as [[Hf Hx] Hanch].
  apply elem_of_list_to_set, list_elem_of_fmap.
  exists (GetToEnd.pieces e.1). split.
  - rewrite <- Hx. by destruct e.1.
  - by apply frame_in_placements.
Qed.
End GetToEndSearch.

(** * The claims *)

(** ** C1: the searches return shortest sequences *)

(** C1 (as amended).  On an initial state with unique labels:
    [find_shortest_target_path] (simpleShortestMoves.py), when the types
    are known, no two pieces overlap and some goal state can be reached by
    legal moves, returns a sequence of legal moves that leads to a goal
    state and is no longer than any legal sequence that does;
    [find_shortest_target_path_from_state] (shortestMoves.py), when the
    target is on the board, returns a sequence of unchecked one-cell
    shifts that puts the anchor of the target on [(rows - 1, 0)] and is
    no longer than any such sequence.  In both, enough fuel gives the
    result. *)
Theorem bfs_returns_shortest (d : puzzle_data) (init : list piece) :
  (NoDup (label <$> pieces d) →
   Forall (λ p, is_Some (Simple.get_piece_dimensions p)) (pieces d) →
   disjoint_board Simple.get_piece_dimensions (pieces d) →
   (∃ seq σ,
      walk (legal_step Simple.get_piece_dimensions (rows d) (cols d))
           (pieces d) seq σ ∧ simple_goal (rows d) (target d) σ) →
   ∃ N h,
     (∀ fuel, (N ≤ fuel)%nat →
        Simple.find_shortest_target_path fuel d = Some h) ∧
     (∃ σ, walk (legal_step Simple.get_piece_dimensions (rows d) (cols d))
                (pieces d) h σ ∧ simple_goal (rows d) (target d) σ) ∧
     ∀ seq' σ',
       walk (legal_step Simple.get_piece_dimensions (rows d) (cols d))
            (pieces d) seq' σ' →
       simple_goal (rows d) (target d) σ' → (length h ≤ length seq')%nat) ∧
  (NoDup (label <$> init) → target d ∈ label <$> init →
   ∃ N h,
     (∀ fuel, (N ≤ fuel)%nat →
        Shortest.find_shortest_target_path_from_state fuel init d = Some h) ∧
     (∃ s, walk free_step init h s ∧ anchor_goal (rows d) (target d) s) ∧
     ∀ seq' s', walk free_step init seq' s' →
       anchor_goal (rows d) (target d) s' → (length h ≤ length seq')%nat).
Proof.
  split.
  - intros Hnd Hknown Hdis (seq & σf & Hwalk & Hgoal).
    destruct (simple_search_shortest d seq σf Hnd Hknown Hdis Hwalk Hgoal)
      as (N & h & s & Hfound & σ & Hw & Hg & Hmin).
    exists N, h. split_and!; [|by exists σ|done].
    intros fuel Hfuel. unfold Simple.find_shortest_target_path.
    by rewrite (Hfound fuel Hfuel).
  - intros Hnd Htgt.
    destruct (shortest_search_finds init d Hnd Htgt)
      as (N & h & s & Hfound & Hw & Hg & Hmin).
    exists N, h. split_and!; [|by exists s|done].
    intros fuel Hfuel. unfold Shortest.find_shortest_target_path_from_state.
    destruct (find_piece_elem _ _ Htgt) as [t ->].
    by rewrite (Hfound fuel Hfuel).
Qed.

Lemma two_units_legal_walk :
  walk (legal_step Simple.get_piece_dimensions 2 2) (pieces two_units)
       [("B", "right"); ("T", "down")]
       [pc "T" 1 0 "1x1"; pc "B" 1 1 "1x1"].
Proof.
  eapply (walk_cons _ _ _ [pc "T" 0 0 "1x1"; pc "B" 1 1 "1x1"]);
    [by_decide|].
  eapply (walk_cons _ _ _ [pc "T" 1 0 "1x1"; pc "B" 1 1 "1x1"]);
    [by_decide|apply walk_nil].
Qed.

Lemma bfs_returns_shortest_witness :
  (∃ N h,
     (∀ fuel, (N ≤ fuel)%nat →
        Simple.find_shortest_target_path fuel two_units = Some h) ∧
     (∃ σ, walk (legal_step Simple.get_piece_dimensions 2 2)
                (pieces two_units) h σ ∧ simple_goal 2 "T" σ) ∧
     ∀ seq' σ',
       walk (legal_step Simple.get_piece_dimensions 2 2)
            (pieces two_units) seq' σ' →
       simple_goal 2 "T" σ' → (length h ≤ length seq')%nat) ∧
  (∃ N h,
     (∀ fuel, (N ≤ fuel)%nat →
        Shortest.find_shortest_target_path_from_state
          fuel (pieces two_units) two_units = Some h) ∧
     (∃ s, walk free_step (pieces two_units) h s ∧ anchor_goal 2 "T" s) ∧
     ∀ seq' s', walk free_step (pieces two_units) seq' s' →
       anchor_goal 2 "T" s' → (length h ≤ length seq')%nat).
Proof.
  destruct (bfs_returns_shortest two_units (pieces two_units)) as [HS HF].
  split.
  - apply HS; [by_decide..|].
    exists [("B", "right"); ("T", "down")], [pc "T" 1 0 "1x1"; pc "B" 1 1 "1x1"].
    split; [apply two_units_legal_walk|by_decide].
  - apply HF; by_decide.
Defined.

(** On [two_units], [find_shortest_target_path_from_state] returns the
    single step that pushes the target onto the other piece: no legal
    move, and shorter than the two legal moves that solve the board. *)
Lemma shortest_search_returns_illegal_step :
  Shortest.find_shortest_target_path_from_state 3 (pieces two_units) two_units
    = Some [("T", "down")] ∧
  (¬ ∃ s, walk (legal_step Shortest.get_piece_dimensions 2 2)
               (pieces two_units) [("T", "down")] s) ∧
  Simple.find_shortest_target_path 10 two_units
    = Some [("B", "right"); ("T", "down")].
Proof.
  split_and!; [by vm_compute| |by vm_compute].
  intros [s Hw]. inversion Hw as [|? ? s1 ? ? Hstep _]; subst.
  apply legal_step_alt in Hstep. revert Hstep.
  match goal with |- ?P → False => change (¬ P) end.
  by_decide.
Qed.

(** ** C2: what the move generators list *)

Lemma potential_gpd_type p q :
  piece_type p = piece_type q →
  Potential.get_piece_dimensions p = Potential.get_piece_dimensions q.
Proof. unfold Potential.get_piece_dimensions. by intros ->. Qed.

Lemma potential_gpd_pos p h w :
  Potential.get_piece_dimensions p = Some (h, w) → 0 < h ∧ 0 < w.
Proof.
  unfold Potential.get_piece_dimensions.
  repeat case_decide; intros [= <- <-]; lia.
Qed.

(** The generator built on [is_valid_move] lists exactly the legal
    moves of every piece. *)
Lemma checked_generator_legal gpd (s : list piece) rows cols p m :
  (∀ p h w, gpd p = Some (h, w) → 0 < h ∧ 0 < w) →
  NoDup (label <$> s) → p ∈ s →
  Forall (λ p, is_Some (gpd p)) s → disjoint_board gpd s →
  ∃ md s', MoveGen.get_all_possible_moves gpd s rows cols = Some (md, s') ∧
           (m ∈ md !!! label p ↔ legal_move gpd rows cols s p m).
Proof.
  intros Hpos Hnd Hp Hknown Hdis.
  destruct (get_all_possible_moves_spec gpd s rows cols Hknown)
    as (md & b & Hgen & _).
  exists md, (cache gpd <$> s). split; [done|].
  by apply (get_all_possible_moves_legal gpd Hpos s rows cols md
              (cache gpd <$> s)).
Qed.

(** C2 (as amended).  On a board with unique labels, for a piece [p] of
    the board and an entry [m = (direction, new_row, new_col)]:
    [get_all_possible_moves] of potentialMoves.py and of
    simpleShortestMoves.py, on a board of known piece types where no two
    pieces overlap, lists [m] for [p] exactly when [m] is a legal move of
    [p] (the footprint shifted one cell in the direction lies in the grid
    and on no cell of another piece); [get_all_possible_moves] of
    shortestMoves.py lists [m] for [p] exactly when [m] is one of the four
    shifted anchors, whatever the grid and the other pieces. *)
Theorem generator_lists_moves (s : list piece) (rows cols : Z)
    (p : piece) (m : move) :
  NoDup (label <$> s) → p ∈ s →
  (Forall (λ p, is_Some (Potential.get_piece_dimensions p)) s →
   disjoint_board Potential.get_piece_dimensions s →
   ∃ md s', Potential.get_all_possible_moves s rows cols = Some (md, s') ∧
            (m ∈ md !!! label p ↔
             legal_move Potential.get_piece_dimensions rows cols s p m)) ∧
  (Forall (λ p, is_Some (Simple.get_piece_dimensions p)) s →
   disjoint_board Simple.get_piece_dimensions s →
   ∃ md s', Simple.get_all_possible_moves s rows cols = Some (md, s') ∧
            (m ∈ md !!! label p ↔
             legal_move Simple.get_piece_dimensions rows cols s p m)) ∧
  (m ∈ Shortest.get_all_possible_moves s rows cols !!! label p ↔
   ∃ e, e ∈ MOVES ∧ m = (e.1, row p + e.2.1, col p + e.2.2)).
Proof.
  intros Hnd Hp. split_and!.
  - intros Hknown Hdis.
    by apply checked_generator_legal; [apply potential_gpd_pos|..].
  - intros Hknown Hdis.
    by apply checked_generator_legal; [apply simple_gpd_pos|..].
  - pose proof (shortest_moves_lookup s rows cols p Hnd Hp) as Hl.
    unfold move in *. rewrite Hl.
    rewrite list_elem_of_fmap. split; intros (e & ? & ?); by exists e.
Qed.

Lemma generator_lists_moves_witness :
  (∃ md s', Potential.get_all_possible_moves (pieces two_units) 2 2
              = Some (md, s') ∧
            (("right", 1, 1) ∈ md !!! "B" ↔
             legal_move Potential.get_piece_dimensions 2 2 (pieces two_units)
                        (pc "B" 1 0 "1x1") ("right", 1, 1))) ∧
  (∃ md s', Simple.get_all_possible_moves (pieces two_units) 2 2
              = Some (md, s') ∧
            (("right", 1, 1) ∈ md !!! "B" ↔
             legal_move Simple.get_piece_dimensions 2 2 (pieces two_units)
                        (pc "B" 1 0 "1x1") ("right", 1, 1))) ∧
  (("right", 1, 1) ∈ Shortest.get_all_possible_moves (pieces two_units) 2 2
                       !!! "B" ↔
   ∃ e, e ∈ MOVES ∧ ("right", 1, 1) = (e.1, 1 + e.2.1, 0 + e.2.2)).
Proof.
  destruct (generator_lists_moves (pieces two_units) 2 2 (pc "B" 1 0 "1x1")
              ("right", 1, 1)) as (HP & HS & HF); [by_decide..|].
  split_and!; [apply HP; by_decide|apply HS; by_decide|exact HF].
Defined.

(** On [two_units], the generator of shortestMoves.py lists for the top
    piece the shift onto the piece below it and the shift off the grid,
    neither of them a legal move. *)
Lemma unchecked_generator_lists_illegal_moves :
  Shortest.get_all_possible_moves (pieces two_units) 2 2 !!! "T"
    = [("up", -1, 0); ("down", 1, 0); ("left", 0, -1); ("right", 0, 1)] ∧
  ¬ legal_move Shortest.get_piece_dimensions 2 2 (pieces two_units)
               (pc "T" 0 0 "1x1") ("down", 1, 0) ∧
  ¬ legal_move Shortest.get_piece_dimensions 2 2 (pieces two_units)
               (pc "T" 0 0 "1x1") ("up", -1, 0).
Proof. split_and!; [by vm_compute|by_decide..]. Qed.

(** ** C3: the states the enumerators return *)

(** C3 (divergence).  On [domino_and_target], a 2 x 3 grid with the
    domino [H] and the unit piece [T] at [(0, 2)], [generate_hypernodes]
    returns among its states the one where [H] covers [(0, 1)] and
    [(0, 2)], the cell of [T]: the placements are checked against each
    other only, never against the pieces left in place.
    [generate_supernodes] builds from that state one state, which starts
    with the same two overlapping pieces. *)
Theorem hypernodes_overlap_kept_pieces :
  (∃ states, Shortest.generate_hypernodes domino_and_target = Some states ∧
             domino_over_target ∈ states) ∧
  overlapping domino_over_target ∧
  (∃ state, Shortest.generate_supernodes domino_over_target domino_and_target
              = Some [state] ∧
            take 2 state = domino_over_target ∧ overlapping state).
Proof.
  split_and!.
  - eexists. split; [by vm_compute|]. by_decide.
  - exists 0%nat, 1%nat, (Piece "H" 0 1 "1x2" (Some 1) (Some 2) None),
      (Piece "T" 0 2 "1x1" (Some 1) (Some 1) None), (0, 2).
    split_and!; [done|done|done|by_decide..].
  - eexists. split; [by vm_compute|]. split; [done|].
    exists 0%nat, 1%nat, (Piece "H" 0 1 "1x2" (Some 1) (Some 2) None),
      (Piece "T" 0 2 "1x1" (Some 1) (Some 1) None), (0, 2).
    split_and!; [done|done|done|by_decide..].
Qed.

(** ** C4: the searches end *)

(** The search of simpleShortestMoves.py on a configuration with a
    piece of unknown type or without the target is over at the first
    dequeue: it raises, or the initial state is a goal state. *)
Lemma simple_search_first_dequeue (d : puzzle_data) :
  ¬ (Forall (λ p, is_Some (Simple.get_piece_dimensions p)) (pieces d)
     ∧ target d ∈ label <$> pieces d) →
  ∃ o, (o = Raised ∨ o = Found [] (pieces d)) ∧
       ∀ fuel, Simple.search (S fuel) d = o.
Proof.
  intros Hnot. unfold Simple.search, bfs. cbn [bfs_loop].
  unfold Simple.inspect.
  destruct (find_piece (target d) (pieces d)) as [t|] eqn:Hfind;
    [|exists Raised; by split; [left|]].
  destruct (Simple.get_piece_dimensions t) as [[th tw]|];
    [|exists Raised; by split; [left|]].
  case_bool_decide; [exists (Found [] (pieces d)); by split; [right|]|].
  assert (Simple.get_all_possible_moves (pieces d) (rows d) (cols d) = None)
    as ->; [|exists Raised; by split; [left|]].
  unfold Simple.get_all_possible_moves, MoveGen.get_all_possible_moves,
    MoveGen.create_board_representation.
  rewrite create_board_from_None; [done|].
  intros Hknown. apply Hnot. split; [done|].
  apply find_piece_Some in Hfind as [Ht <-]. by apply list_elem_of_fmap_2.
Qed.

(** C4 (as amended).  Both searches end on every initial state with
    unique labels.  [find_shortest_target_path] (simpleShortestMoves.py)
    returns a history, runs out of queue or raises, the same for every
    amount of fuel from some amount on; when the piece types are known
    and the target is on the board it does not raise: it ends with a
    history that is found, no longer than any other to a goal state, or
    with an empty queue when no goal state can be reached; and when,
    moreover, no two pieces overlap, no piece has a legal move and the
    state is no goal state, its queue is empty after the first dequeue.
    [find_shortest_target_path_from_state] (shortestMoves.py) returns a
    list in every case. *)
Theorem searches_end (d : puzzle_data) (init : list piece) :
  (NoDup (label <$> pieces d) →
   (∃ N o, (∀ fuel, (N ≤ fuel)%nat → Simple.search fuel d = o) ∧
           o ≠ OutOfFuel) ∧
   (Forall (λ p, is_Some (Simple.get_piece_dimensions p)) (pieces d) →
    target d ∈ label <$> pieces d →
    (∃ N o, (∀ fuel, (N ≤ fuel)%nat → Simple.search fuel d = o) ∧
            bfs_post (Simple.inspect (rows d) (cols d) (target d))
                     (pieces d) o) ∧
    (disjoint_board Simple.get_piece_dimensions (pieces d) →
     stuck Simple.get_piece_dimensions (rows d) (cols d) (pieces d) →
     ¬ simple_goal (rows d) (target d) (pieces d) →
     ∀ fuel, Simple.search (S (S fuel)) d = Exhausted))) ∧
  (NoDup (label <$> init) →
   ∃ N h, ∀ fuel, (N ≤ fuel)%nat →
     Shortest.find_shortest_target_path_from_state fuel init d = Some h).
Proof.
  assert (NoDup (label <$> pieces d) →
          Forall (λ p, is_Some (Simple.get_piece_dimensions p)) (pieces d) →
          target d ∈ label <$> pieces d →
          ∃ N o, (∀ fuel, (N ≤ fuel)%nat → Simple.search fuel d = o) ∧
                 bfs_post (Simple.inspect (rows d) (cols d) (target d))
                          (pieces d) o) as Hends.
  { intros Hnd Hknown Htgt.
    destruct (simple_search_ends (rows d) (cols d) (target d) (pieces d)
                Hnd Hknown Htgt) as [N HN].
    exists N, (Simple.search N d). split; [|by apply HN].
    intros fuel Hfuel. unfold Simple.search, bfs.
    apply bfs_loop_fuel; [done|].
    specialize (HN N (le_n N)). intros Hout.
    unfold bfs in HN. by rewrite Hout in HN. }
  split.
  - intros Hnd. split.
    + destruct (decide (Forall (λ p, is_Some (Simple.get_piece_dimensions p))
                               (pieces d)
                        ∧ target d ∈ label <$> pieces d)) as [[Hknown Htgt]|Hnot].
      * destruct (Hends Hnd Hknown Htgt) as (N & o & Ho & Hpost).
        exists N, o. split; [done|]. by intros ->.
      * destruct (simple_search_first_dequeue d Hnot) as (o & Ho & Hall).
        exists 1%nat, o. split.
        -- intros [|fuel] Hfuel; [lia|]. apply Hall.
        -- by destruct Ho as [-> | ->].
    + intros Hknown Htgt. split; [by apply Hends|].
      intros Hdis Hstuck Hgoal fuel.
      by apply simple_stuck_exhausted.
  - intros Hnd. unfold Shortest.find_shortest_target_path_from_state.
    destruct (find_piece (target d) init) as [t|] eqn:Hfind.
    + apply find_piece_Some in Hfind as [Ht Hl].
      destruct (shortest_search_finds init d Hnd) as (N & h & s & Hfound & _).
      { rewrite <- Hl. by apply list_elem_of_fmap_2. }
      exists N, h. intros fuel Hfuel. by rewrite (Hfound fuel Hfuel).
    + by exists 0%nat, [].
Qed.

Lemma searches_end_witness :
  ((∃ N o, (∀ fuel, (N ≤ fuel)%nat → Simple.search fuel packed_column = o) ∧
           o ≠ OutOfFuel) ∧
   (∃ N o, (∀ fuel, (N ≤ fuel)%nat → Simple.search fuel packed_column = o) ∧
           bfs_post (Simple.inspect 2 1 "T") (pieces packed_column) o) ∧
   ∀ fuel, Simple.search (S (S fuel)) packed_column = Exhausted) ∧
  (∃ N h, ∀ fuel, (N ≤ fuel)%nat →
     Shortest.find_shortest_target_path_from_state
       fuel (pieces packed_column) packed_column = Some h).
Proof.
  destruct (searches_end packed_column (pieces packed_column)) as [HS HF].
  split.
  - destruct HS as [Hany Hknown]; [by_decide|].
    destruct Hknown as [Hends Hstuck]; [by_decide..|].
    split_and!; [exact Hany|exact Hends|]. apply Hstuck; by_decide.
  - apply HF. by_decide.
Defined.

(** On [packed_column] no piece has a legal move, yet the search of
    shortestMoves.py is not over at the first dequeue: it goes on to the
    states it queued and returns the step that pushes the target onto
    the other piece. *)
Lemma shortest_search_expands_stuck_state :
  stuck Shortest.get_piece_dimensions 2 1 (pieces packed_column) ∧
  ¬ anchor_goal 2 "T" (pieces packed_column) ∧
  Shortest.search 2 (pieces packed_column) packed_column = OutOfFuel ∧
  Shortest.find_shortest_target_path_from_state
    3 (pieces packed_column) packed_column = Some [("T", "down")].
Proof. split_and!; [by_decide..|by vm_compute|by vm_compute]. Qed.

(** ** C5: solved states and states without a solution *)

Lemma find_piece_None l (s : list piece) :
  l ∉ label <$> s → find_piece l s = None.
Proof.
  intros Hl. destruct (find_piece l s) as [t|] eqn:Hfind; [|done].
  apply find_piece_Some in Hfind as [Ht <-].
  exfalso. apply Hl. by apply list_elem_of_fmap_2.
Qed.

Lemma free_walk_same init s seq s' :
  walk free_step s seq s' → same_pieces init s → same_pieces init s'.
Proof.
  induction 1 as [|s m s1 seq s' Hstep _ IH]; [done|].
  intros Hs. apply IH. by eapply free_step_same.
Qed.

(** Without the target on the board, no sequence of shifts makes a goal
    state. *)
Lemma no_target_no_goal rows tgt init seq s :
  tgt ∉ label <$> init → walk free_step init seq s → ¬ anchor_goal rows tgt s.
Proof.
  intros Hl Hw (t & Hfind & _).
  destruct (free_walk_same init init seq s Hw (same_pieces_refl init))
    as [Hlab _].
  rewrite find_piece_None in Hfind; [done|]. by rewrite Hlab.
Qed.

Lemma gettoend_expand_not_Stop rows cols s : GetToEnd.expand rows cols s ≠ Stop.
Proof. unfold GetToEnd.expand. by repeat case_match. Qed.

Lemma gettoend_inspect_Stop rows cols tgt s :
  GetToEnd.inspect rows cols tgt s = Stop ↔ corner_goal rows tgt s.
Proof.
  unfold GetToEnd.inspect, corner_goal, GetToEnd.target_piece_in_bottom_left.
  split.
  - destruct (find_piece tgt (GetToEnd.pieces s)) as [t|];
      [|by intros ?%gettoend_expand_not_Stop].
    destruct (height t) as [h|] eqn:Hh; [|done].
    destruct (width t) as [w|] eqn:Hw; [|done].
    case_bool_decide as Hin; [|by intros ?%gettoend_expand_not_Stop].
    intros _. by exists t, h, w.
  - intros (t & h & w & -> & -> & -> & Hin). by rewrite bool_decide_true.
Qed.

(** C5 (as amended).  On a state that already satisfies the goal test,
    [find_shortest_target_path_from_state] (shortestMoves.py) returns the
    empty list and [find_shortest_path_from_supernode] (getToEnd.py)
    returns the empty history with the state itself.  The latter keeps
    its two results apart: a history it returns leads to a state that
    passes the goal test, [(None, None)] is never returned for a state
    that passes it, and on a state with unique labels whose pieces have
    known types (1x1, 1x2, 2x1) and store positive dimensions it
    returns, given enough fuel, a shortest history if a goal state can
    be reached and [(None, None)] if none can.  The former also returns the empty list when the target is
    missing from the state, in which case no sequence of shifts makes a
    goal state. *)
Theorem solved_and_unsolvable (d : puzzle_data) (solved init : list piece)
    (st_solved st : GetToEnd.state) (tgt : string) (fuel : nat) :
  (anchor_goal (rows d) (target d) solved →
   Shortest.find_shortest_target_path_from_state (S fuel) solved d = Some []) ∧
  (target d ∉ label <$> init →
   Shortest.find_shortest_target_path_from_state fuel init d = Some [] ∧
   ∀ seq s, walk free_step init seq s → ¬ anchor_goal (rows d) (target d) s) ∧
  (corner_goal (rows d) tgt st_solved →
   GetToEnd.find_shortest_path_from_supernode (S fuel) st_solved d tgt
     = Some (GetToEnd.Solution [] st_solved)) ∧
  match GetToEnd.find_shortest_path_from_supernode fuel st d tgt with
  | Some (GetToEnd.Solution h s) =>
      path (GetToEnd.inspect (rows d) (cols d) tgt) st h s ∧
      corner_goal (rows d) tgt s
  | Some GetToEnd.NoSolution => ¬ corner_goal (rows d) tgt st
  | None => True
  end ∧
  (NoDup (label <$> GetToEnd.pieces st) → Forall sized (GetToEnd.pieces st) →
   ∃ N r,
     (∀ fuel', (N ≤ fuel')%nat →
        GetToEnd.find_shortest_path_from_supernode fuel' st d tgt = Some r) ∧
     match r with
     | GetToEnd.Solution h s =>
         path (GetToEnd.inspect (rows d) (cols d) tgt) st h s ∧
         corner_goal (rows d) tgt s ∧
         ∀ h' t, path (GetToEnd.inspect (rows d) (cols d) tgt) st h' t →
                 corner_goal (rows d) tgt t → (length h ≤ length h')%nat
     | GetToEnd.NoSolution =>
         ∀ h' t, path (GetToEnd.inspect (rows d) (cols d) tgt) st h' t →
                 ¬ corner_goal (rows d) tgt t
     end).
Proof.
  split_and!.
  - intros Hgoal.
    unfold Shortest.find_shortest_target_path_from_state.
    pose proof Hgoal as (t & Hfind & _). rewrite Hfind.
    apply (shortest_inspect_Stop (rows d) (cols d)) in Hgoal.
    unfold Shortest.search, bfs. simpl. by rewrite Hgoal.
  - intros Hl. split.
    + unfold Shortest.find_shortest_target_path_from_state.
      by rewrite find_piece_None.
    + intros seq s. by apply no_target_no_goal.
  - intros Hgoal. apply (gettoend_inspect_Stop (rows d) (cols d)) in Hgoal.
    unfold GetToEnd.find_shortest_path_from_supernode, GetToEnd.search, bfs.
    simpl. by rewrite Hgoal.
  - unfold GetToEnd.find_shortest_path_from_supernode.
    destruct (GetToEnd.search fuel st d tgt) as [h' s'| | |] eqn:Hsearch;
      try done.
    + apply bfs_sound in Hsearch as [Hp Hstop].
      split; [done|]. by apply gettoend_inspect_Stop in Hstop.
    + intros Hgoal. apply (gettoend_inspect_Stop (rows d) (cols d)) in Hgoal.
      unfold GetToEnd.search, bfs in Hsearch. destruct fuel; [done|].
      simpl in Hsearch. by rewrite Hgoal in Hsearch.
  - intros Hnd Hsized.
    destruct (gettoend_search_ends (rows d) (cols d) tgt st Hnd Hsized)
      as [N HN].
    assert (∀ fuel', (N ≤ fuel')%nat →
              GetToEnd.search fuel' st d tgt = GetToEnd.search N st d tgt)
      as Hsame.
    { intros fuel' Hfuel. unfold GetToEnd.search, bfs.
      apply bfs_loop_fuel; [done|].
      specialize (HN N (le_n N)). intros Hout.
      unfold bfs in HN. by rewrite Hout in HN. }
    specialize (HN N (le_n N)). fold (GetToEnd.search N st d tgt) in HN.
    unfold GetToEnd.find_shortest_path_from_supernode.
    destruct (GetToEnd.search N st d tgt) as [h s| | |] eqn:Hsearch;
      simpl in HN; try done.
    + exists N, (GetToEnd.Solution h s). split.
      { intros fuel' Hfuel. by rewrite (Hsame fuel' Hfuel). }
      destruct HN as (Hp & Hstop & Hmin). split_and!; [done| |].
      * by apply gettoend_inspect_Stop in Hstop.
      * intros h' t Hp' Hgoal. apply (Hmin h' t Hp').
        by apply gettoend_inspect_Stop.
    + exists N, GetToEnd.NoSolution. split.
      { intros fuel' Hfuel. by rewrite (Hsame fuel' Hfuel). }
      intros h' t Hp' Hgoal. apply (HN h' t Hp').
      by apply gettoend_inspect_Stop.
Qed.

Lemma solved_and_unsolvable_witness :
  Shortest.find_shortest_target_path_from_state
    1 [pc "T" 1 0 "1x1"] two_units = Some [] ∧
  (Shortest.find_shortest_target_path_from_state
     0 [pc "B" 1 0 "1x1"] two_units = Some [] ∧
   ∀ seq s, walk free_step [pc "B" 1 0 "1x1"] seq s →
            ¬ anchor_goal 2 "T" s) ∧
  GetToEnd.find_shortest_path_from_supernode
    1 (GetToEnd.State [Piece "T" 1 0 "1x1" (Some 1) (Some 1) None] [])
    two_units "T"
  = Some (GetToEnd.Solution []
            (GetToEnd.State [Piece "T" 1 0 "1x1" (Some 1) (Some 1) None] [])) ∧
  ∃ N r,
    (∀ fuel', (N ≤ fuel')%nat →
       GetToEnd.find_shortest_path_from_supernode
         fuel' (GetToEnd.State [Piece "H" 0 0 "1x2" (Some 1) (Some 2) None] [])
         two_units "T" = Some r) ∧
    match r with
    | GetToEnd.Solution h s =>
        path (GetToEnd.inspect 2 2 "T")
             (GetToEnd.State [Piece "H" 0 0 "1x2" (Some 1) (Some 2) None] [])
             h s ∧
        corner_goal 2 "T" s ∧
        ∀ h' t,
          path (GetToEnd.inspect 2 2 "T")
               (GetToEnd.State [Piece "H" 0 0 "1x2" (Some 1) (Some 2) None] [])
               h' t →
          corner_goal 2 "T" t → (length h ≤ length h')%nat
    | GetToEnd.NoSolution =>
        ∀ h' t,
          path (GetToEnd.inspect 2 2 "T")
               (GetToEnd.State [Piece "H" 0 0 "1x2" (Some 1) (Some 2) None] [])
               h' t →
          ¬ corner_goal 2 "T" t
    end.
Proof.
  destruct (solved_and_unsolvable two_units [pc "T" 1 0 "1x1"]
              [pc "B" 1 0 "1x1"]
              (GetToEnd.State [Piece "T" 1 0 "1x1" (Some 1) (Some 1) None] [])
              (GetToEnd.State [Piece "H" 0 0 "1x2" (Some 1) (Some 2) None] [])
              "T" 0)
    as (H1 & H2 & H3 & _ & H5).
  split; [apply H1; by_decide|]. split; [apply H2; by_decide|].
  split; [|apply H5; by_decide]. apply H3.
  exists (Piece "T" 1 0 "1x1" (Some 1) (Some 1) None), 1, 1.
  split_and!; [done..|by_decide].
Defined.

(** [find_shortest_target_path_from_state] returns the same empty list
    for a state that is solved and for a state from which no goal state
    can be reached. *)
Lemma shortest_empty_list_is_ambiguous :
  anchor_goal 2 "T" [pc "T" 1 0 "1x1"] ∧
  (∀ fuel, Shortest.find_shortest_target_path_from_state
             (S fuel) [pc "T" 1 0 "1x1"] two_units = Some []) ∧
  (∀ seq s, walk free_step [pc "B" 1 0 "1x1"] seq s →
            ¬ anchor_goal 2 "T" s) ∧
  (∀ fuel, Shortest.find_shortest_target_path_from_state
             fuel [pc "B" 1 0 "1x1"] two_units = Some []).
Proof.
  split_and!; [by_decide|done| |done].
  intros seq s. apply no_target_no_goal. by_decide.
Qed.

(** ** C6: the states [generate_supernodes] returns *)

(** C6 (as amended).  The number of blocks is the literal 4 of the
    source, not a parameter.  For a hyper-state whose pieces have
    dimensions (stored, or known from the type), with [E] cells of the
    grid not covered by any piece: [generate_supernodes] returns the
    empty list if [E < 4], and in every case a list of [binom E 4]
    states; each state is the hyper-state followed by four unit blocks
    on four different cells that were empty; no two states have the
    same set of block cells, and every set of four empty cells is the
    set of block cells of some state. *)
Theorem supernodes_are_combinations (hyper_state : list piece)
    (d : puzzle_data) (hs : list piece) :
  mapM Shortest.ensure_dimensions hyper_state = Some hs →
  ∃ result,
    Shortest.generate_supernodes hyper_state d = Some result ∧
    ((size (empty_cells (rows d) (cols d) hs) < 4)%nat → result = []) ∧
    length result = binom (size (empty_cells (rows d) (cols d) hs)) 4 ∧
    (∀ state, state ∈ result →
       take (length hs) state = hs ∧
       length (added_cells (length hs) state) = 4%nat ∧
       NoDup (added_cells (length hs) state) ∧
       (∀ cell, cell ∈ added_cells (length hs) state →
                cell ∈ empty_cells (rows d) (cols d) hs) ∧
       Forall (λ p, piece_type p = "1x1" ∧
                    height p = Some 1 ∧ width p = Some 1)
              (drop (length hs) state)) ∧
    NoDup ((λ state, list_to_set (C := gset (Z * Z))
                       (added_cells (length hs) state)) <$> result) ∧
    ∀ X : gset (Z * Z),
      X ⊆ empty_cells (rows d) (cols d) hs → size X = 4%nat →
      ∃ state, state ∈ result ∧
               list_to_set (added_cells (length hs) state) = X.
Proof. apply generate_supernodes_spec. Qed.

Lemma supernodes_are_combinations_witness :
  ∃ result,
    Shortest.generate_supernodes domino_over_target domino_and_target
      = Some result ∧
    length result = binom (size (empty_cells 2 3 domino_over_target)) 4 ∧
    ∀ state, state ∈ result →
      take 2 state = domino_over_target ∧
      length (added_cells 2 state) = 4%nat.
Proof.
  destruct (supernodes_are_combinations domino_over_target domino_and_target
              domino_over_target eq_refl)
    as (result & Hgen & _ & Hlen & Hstates & _).
  exists result. split_and!; [exact Hgen|exact Hlen|].
  intros state Hstate.
  destruct (Hstates state Hstate) as (Htake & Hadded & _).
  by split.
Defined.

(** On the empty 1 x 5 grid of [empty_row], with five empty cells, the
    function does what is specified for four blocks, and therefore not
    what is specified for two blocks ([binom 5 2] states of two blocks)
    nor for six (no state). *)
Lemma supernodes_count_is_always_four :
  size (empty_cells 1 5 []) = 5%nat ∧
  extends_by 4 [] empty_row ∧
  ¬ extends_by 2 [] empty_row ∧
  ¬ extends_by 6 [] empty_row.
Proof.
  assert (size (empty_cells (rows empty_row) (cols empty_row) []) = 5%nat)
    as HE by (by vm_compute).
  destruct (generate_supernodes_spec [] empty_row [] eq_refl)
    as (r & Hr & _ & Hlen & Hstates & _).
  rewrite HE in Hlen.
  split_and!; [exact HE| | |].
  - exists r. split; [done|]. rewrite HE.
    rewrite decide_False by lia. split; [done|].
    apply Forall_forall. intros state Hstate.
    by destruct (Hstates state Hstate) as (_ & ? & _).
  - intros (result & Hgen & Hspec). rewrite Hr in Hgen.
    injection Hgen as <-. rewrite HE in Hspec.
    rewrite decide_False in Hspec by lia.
    destruct Hspec as [Hcount _]. rewrite Hlen in Hcount. done.
  - intros (result & Hgen & Hspec). rewrite Hr in Hgen.
    injection Hgen as <-. rewrite HE in Hspec.
    rewrite decide_True in Hspec by lia.
    rewrite Hspec in Hlen. done.
Qed.

(** ** C7: the canonical key *)

Lemma exchanged_keys_differ p q (rest : list piece) :
  label p ≠ label q → (row p, col p) ≠ (row q, col q) →
  board_to_tuple (p :: q :: rest) ≠
  board_to_tuple (set_pos p (row q) (col q) :: set_pos q (row p) (col p) :: rest).
Proof.
  intros Hl Ha Hkey. apply board_to_tuple_perm in Hkey.
  rewrite !fmap_cons in Hkey.
  apply (Permutation_app_inv_r (triple <$> rest)
           [triple p; triple q]
           [triple (set_pos p (row q) (col q));
            triple (set_pos q (row p) (col p))]) in Hkey.
  assert (triple p ∈ [triple (set_pos p (row q) (col q));
                      triple (set_pos q (row p) (col p))]) as Hin.
  { rewrite <- Hkey. by left. }
  unfold triple, set_pos in Hin. simpl in Hin.
  apply elem_of_cons in Hin as [Heq|Hin].
  - apply Ha. congruence.
  - apply list_elem_of_singleton in Hin. apply Hl. congruence.
Qed.

(** C7.  [board_to_tuple] gives the same key to two lists that are
    permutations of each other; on boards with unique labels, two keys
    are equal exactly when every label has the same anchor on both
    boards; and exchanging the anchors of two pieces with different
    labels that stand on different cells changes the key, whatever
    their shapes. *)
Theorem board_to_tuple_canonical (s s' : list piece) :
  (s ≡ₚ s' → board_to_tuple s = board_to_tuple s') ∧
  (NoDup (label <$> s) → NoDup (label <$> s') →
   (board_to_tuple s = board_to_tuple s' ↔
    ∀ l, anchor_of l s = anchor_of l s')) ∧
  (∀ p q rest,
     s = p :: q :: rest →
     label p ≠ label q → (row p, col p) ≠ (row q, col q) →
     board_to_tuple s ≠
     board_to_tuple
       (set_pos p (row q) (col q) :: set_pos q (row p) (col p) :: rest)).
Proof.
  split_and!.
  - intros Hperm. apply board_to_tuple_perm. by rewrite Hperm.
  - apply same_key_same_anchors.
  - intros p q rest ->. apply exchanged_keys_differ.
Qed.

Lemma board_to_tuple_canonical_witness :
  board_to_tuple [pc "T" 0 0 "1x1"; pc "B" 1 0 "1x1"]
    = board_to_tuple [pc "B" 1 0 "1x1"; pc "T" 0 0 "1x1"] ∧
  (board_to_tuple [pc "T" 0 0 "1x1"; pc "B" 1 0 "1x1"]
     = board_to_tuple [pc "B" 1 0 "1x1"; pc "T" 0 0 "1x1"] ↔
   ∀ l, anchor_of l [pc "T" 0 0 "1x1"; pc "B" 1 0 "1x1"]
        = anchor_of l [pc "B" 1 0 "1x1"; pc "T" 0 0 "1x1"]) ∧
  board_to_tuple [pc "T" 0 0 "1x1"; pc "B" 1 0 "1x1"]
    ≠ board_to_tuple [pc "T" 1 0 "1x1"; pc "B" 0 0 "1x1"].
Proof.
  destruct (board_to_tuple_canonical
              [pc "T" 0 0 "1x1"; pc "B" 1 0 "1x1"]
              [pc "B" 1 0 "1x1"; pc "T" 0 0 "1x1"]) as (Hperm & Hkey & Hswap).
  split_and!.
  - apply Hperm. apply Permutation_swap.
  - apply Hkey; by_decide.
  - apply (Hswap (pc "T" 0 0 "1x1") (pc "B" 1 0 "1x1") []); [done|by_decide..].
Defined.

(** ** C8: the flag of fixed pieces *)

Lemma strip_set_fixed (flag : piece → option bool) (s : list piece) :
  strip <$> ((λ p, set_fixed p (flag p)) <$> s) = strip <$> s.
Proof. rewrite <- list_fmap_compose. by apply list_fmap_ext. Qed.

(** C8 (as amended).  No move generator reads the flag of a piece:
    whatever the flags are set to, [get_all_possible_moves] of
    potentialMoves.py and of shortestMoves.py return the same move lists
    (the latter four moves for every piece of a board with unique
    labels).  The blocks [generate_supernodes] adds carry no flag. *)
Theorem flags_are_not_read (flag : piece → option bool) (s : list piece)
    (rows cols : Z) :
  fst <$> Potential.get_all_possible_moves
            ((λ p, set_fixed p (flag p)) <$> s) rows cols
    = fst <$> Potential.get_all_possible_moves s rows cols ∧
  Shortest.get_all_possible_moves ((λ p, set_fixed p (flag p)) <$> s) rows cols
    = Shortest.get_all_possible_moves s rows cols ∧
  (NoDup (label <$> s) →
   ∀ p, p ∈ s →
     length (Shortest.get_all_possible_moves
               ((λ p, set_fixed p (flag p)) <$> s) rows cols !!! label p)
       = 4%nat) ∧
  ∀ idx cell, fixed (Shortest.block idx cell) = None.
Proof.
  pose proof (strip_set_fixed flag s) as Hstrip.
  pose proof (shortest_moves_strip _ _ rows cols Hstrip) as Hshort.
  split_and!; [|done| |done].
  - pose proof (get_all_possible_moves_strip Potential.get_piece_dimensions
                  potential_gpd_type _ _ rows cols Hstrip) as Hgen.
    unfold Potential.get_all_possible_moves.
    repeat case_match; simpl in *; try done.
    destruct Hgen as (-> & _). done.
  - intros Hnd p Hp. rewrite Hshort.
    pose proof (shortest_moves_lookup s rows cols p Hnd Hp) as Hl.
    unfold move in *. by rewrite Hl.
Qed.

Lemma flags_are_not_read_witness :
  length (Shortest.get_all_possible_moves
            ((λ p, set_fixed p (Some true)) <$> fixed_target) 2 2 !!! "T")
    = 4%nat.
Proof.
  destruct (flags_are_not_read (λ _, Some true) fixed_target 2 2)
    as (_ & _ & Hfour & _).
  apply (Hfour ltac:(by_decide) (set_fixed (pc "T" 0 0 "1x1") (Some true))).
  by_decide.
Defined.

(** The target of [fixed_target] is marked fixed and both generators
    list moves for it. *)
Lemma fixed_piece_gets_moves :
  fixed <$> find_piece "T" fixed_target = Some (Some true) ∧
  (fst <$> Potential.get_all_possible_moves fixed_target 2 2)
    ≫= (.!! "T") = Some [("right", 0, 1)] ∧
  Shortest.get_all_possible_moves fixed_target 2 2 !!! "T"
    = [("up", -1, 0); ("down", 1, 0); ("left", 0, -1); ("right", 0, 1)].
Proof. split_and!; by vm_compute. Qed.

(** ** C9: malformed configurations *)

Lemma filter_nil_Forall {A} (P : A → Prop) `{∀ x, Decision (P x)} (l : list A) :
  Forall (λ x, ¬ P x) l → filter P l = [].
Proof.
  induction 1 as [|x l Hx _ IH]; [done|].
  by rewrite filter_cons_False.
Qed.

Lemma filter_all_Forall {A} (P : A → Prop) `{∀ x, Decision (P x)} (l : list A) :
  Forall P l → filter P l = l.
Proof.
  induction 1 as [|x l Hx _ IH]; [done|].
  rewrite filter_cons_True by done. by rewrite IH.
Qed.

Lemma combinations_0 {A} (l : list A) : combinations l 0 = [[]].
Proof. by destruct l. Qed.

Lemma mapM_with_dimensions_units (ps : list piece) :
  Forall (λ p, piece_type p = "1x1") ps →
  mapM Shortest.with_dimensions ps = Some ((λ p, set_dims p 1 1) <$> ps).
Proof.
  induction 1 as [|p ps Hp _ IH]; [done|].
  cbn [mapM]. rewrite IH. unfold Shortest.with_dimensions at 1.
  unfold Shortest.get_piece_dimensions. rewrite Hp. done.
Qed.

(** With unit pieces only, [generate_hypernodes] returns one state: the
    pieces where they are, whatever the grid, the labels and the
    anchors. *)
Lemma generate_hypernodes_units d :
  Forall (λ p, piece_type p = "1x1") (pieces d) →
  Shortest.generate_hypernodes d = Some [(λ p, set_dims p 1 1) <$> pieces d].
Proof.
  intros Hunits. unfold Shortest.generate_hypernodes.
  assert (filter Shortest.is_domino (pieces d) = []) as ->.
  { apply filter_nil_Forall. eapply Forall_impl; [exact Hunits|].
    intros p Hp [Hd|Hd]; by rewrite Hp in Hd. }
  assert (filter (λ p, ¬ Shortest.is_domino p) (pieces d) = pieces d) as ->.
  { apply filter_all_Forall. eapply Forall_impl; [exact Hunits|].
    intros p Hp [Hd|Hd]; by rewrite Hp in Hd. }
  rewrite (mapM_with_dimensions_units _ Hunits). simpl.
  rewrite !combinations_0. simpl.
  unfold Shortest.add_unique. simpl.
  rewrite decide_False by set_solver. done.
Qed.

(** C9 (as amended).  Nothing validates a configuration.
    [load_puzzle_config] looks at the shape of the file only: it raises
    exactly when the file cannot be read as JSON, returns [None] exactly
    for a missing file and for a file that holds [null] or a list, and
    returns every other value as it is, a dictionary whatever its
    entries are.  [main] hands the dictionary to [generate_hypernodes],
    which does not read the target and, for unit pieces, returns one
    state whatever the dimensions of the grid, the labels and the
    anchors are.  A state without the target is met after the
    enumeration: [find_shortest_target_path_from_state] returns the
    empty list for it. *)
Theorem configuration_is_not_validated (file : config_file) (v : json_top)
    (d : puzzle_data) (tgt : string) (init : list piece) (fuel : nat) :
  (load_puzzle_config file = None ↔ file = Unreadable) ∧
  (load_puzzle_config file = Some JNull ↔
   file = NoFile ∨ file = Holds JNull ∨ file = Holds JList) ∧
  (v ≠ JNull → v ≠ JList →
   (load_puzzle_config file = Some v ↔ file = Holds v)) ∧
  load_puzzle_config file ≠ Some JList ∧
  main_hyper_states (Holds (JDict d)) = Shortest.generate_hypernodes d ∧
  Shortest.generate_hypernodes (PuzzleData (rows d) (cols d) (pieces d) tgt)
    = Shortest.generate_hypernodes d ∧
  (Forall (λ p, piece_type p = "1x1") (pieces d) →
   main_hyper_states (Holds (JDict d))
     = Some [(λ p, set_dims p 1 1) <$> pieces d]) ∧
  (target d ∉ label <$> init →
   Shortest.find_shortest_target_path_from_state fuel init d = Some []).
Proof.
  split_and!.
  - destruct file as [| |[]]; simpl; split; done.
  - destruct file as [| |[]]; simpl; split; try done; try tauto;
      by intros [?|[?|?]].
  - intros Hnull Hlist.
    destruct file as [| |[]]; simpl; split; try done;
      try (by intros [= <-]); by intros [= <-].
  - by destruct file as [| |[]].
  - done.
  - done.
  - intros Hunits. simpl. by apply generate_hypernodes_units.
  - intros Hl. unfold Shortest.find_shortest_target_path_from_state.
    by rewrite find_piece_None.
Qed.

Lemma configuration_is_not_validated_witness :
  main_hyper_states (Holds (JDict malformed))
    = Some [(λ p, set_dims p 1 1) <$> pieces malformed] ∧
  Shortest.find_shortest_target_path_from_state 0 (pieces malformed) malformed
    = Some [].
Proof.
  destruct (configuration_is_not_validated
              (Holds (JDict malformed)) (JDict malformed) malformed "A"
              (pieces malformed) 0)
    as (_ & _ & _ & _ & _ & _ & Hunits & Htarget).
  split; [apply Hunits|apply Htarget]; by_decide.
Defined.

(** [malformed] has all four defects, and is loaded and enumerated:
    [main] gets a state for it from [generate_hypernodes].  On the
    2 x 2 grid of [misplaced], [generate_supernodes] extends that state
    as well. *)
Lemma malformed_configuration_is_enumerated :
  (rows malformed ≤ 0 ∧ cols malformed ≤ 0 ∧
   ¬ NoDup (label <$> pieces malformed) ∧
   (target malformed ∉ label <$> pieces malformed) ∧
   Forall (λ p, ¬ in_grid (rows misplaced) (cols misplaced) (row p, col p))
          (pieces misplaced)) ∧
  load_puzzle_config (Holds (JDict malformed)) = Some (JDict malformed) ∧
  main_hyper_states (Holds (JDict malformed))
    = Some [[Piece "A" 5 5 "1x1" (Some 1) (Some 1) None;
             Piece "A" 7 7 "1x1" (Some 1) (Some 1) None]] ∧
  ∃ state,
    Shortest.generate_supernodes
      [Piece "A" 5 5 "1x1" (Some 1) (Some 1) None;
       Piece "A" 7 7 "1x1" (Some 1) (Some 1) None] misplaced
      = Some [state] ∧
    length state = 6%nat.
Proof.
  split_and!; [done|done|by_decide..|done|by vm_compute|].
  eexists. split; by vm_compute.
Qed.

(** ** C10: the goal test *)





(** * Further properties of the code *)

(** ** shortestMoves.py: the length of the returned sequence *)

Lemma find_piece_move_other l l' (s : list piece) r c :
  l ≠ l' → find_piece l (move_piece s l' r c) = find_piece l s.
Proof.
  intros Hne. induction s as [|p s IH]; [done|].
  unfold move_piece in *. rewrite fmap_cons, !find_piece_cons.
  destruct (decide (label p = l')) as [Hl|Hl]; simpl.
  - rewrite Hl. rewrite !decide_False by done. apply IH.
  - destruct (decide (label p = l)); [done|apply IH].
Qed.

(** One unchecked step moves the target by at most one cell. *)
Lemma free_step_target tgt (s : list piece) mv s' t :
  NoDup (label <$> s) → free_step s mv s' → find_piece tgt s = Some t →
  ∃ t', find_piece tgt s' = Some t' ∧ piece_type t' = piece_type t ∧
        Z.abs (row t' - row t) + Z.abs (col t' - col t) ≤ 1.
Proof.
  intros Hnd (p & dr & dc & Hp & _ & HM & ->) Hfind.
  destruct (decide (label p = tgt)) as [Hl|Hl].
  - rewrite <- Hl, find_piece_move_piece, Hl, Hfind. simpl.
    eexists. split; [done|]. simpl. split; [done|].
    apply find_piece_Some in Hfind as [Ht Hlt].
    assert (p = t) as -> by (eapply NoDup_label_inj; eauto; congruence).
    unfold MOVES in HM. set_unfold in HM.
    destruct HM as [HM|[HM|[HM|[HM|[]]]]]; injection HM as _ -> ->; lia.
  - rewrite find_piece_move_other by done. exists t. split; [done|].
    split; [done|lia].
Qed.

(** A walk of unchecked steps moves the target by at most its length. *)
Lemma free_walk_target tgt (s : list piece) seq sf t :
  NoDup (label <$> s) → walk free_step s seq sf →
  find_piece tgt s = Some t →
  ∃ tf, find_piece tgt sf = Some tf ∧ piece_type tf = piece_type t ∧
        Z.abs (row tf - row t) + Z.abs (col tf - col t)
          ≤ Z.of_nat (length seq).
Proof.
  intros Hnd Hw. revert t Hnd.
  induction Hw as [s|s m s1 seq sf Hstep Hw IH]; intros t Hnd Hfind.
  - exists t. split_and!; [done|done|simpl; lia].
  - destruct (free_step_target tgt s m s1 t Hnd Hstep Hfind)
      as (t1 & Hfind1 & Hty1 & Hd).
    assert (NoDup (label <$> s1)) as Hnd1.
    { destruct (free_step_same s s m s1 (same_pieces_refl s) Hstep) as [-> _].
      done. }
    destruct (IH t1 Hnd1 Hfind1) as (tf & Hfindf & Htyf & Hdf).
    exists tf. split_and!; [done|congruence|simpl length; lia].
Qed.

Lemma free_walk_distance rows tgt (s : list piece) seq sf t :
  NoDup (label <$> s) → walk free_step s seq sf →
  find_piece tgt s = Some t → anchor_goal rows tgt sf →
  Z.abs (row t - (rows - 1)) + Z.abs (col t) ≤ Z.of_nat (length seq).
Proof.
  intros Hnd Hw Hfind (tf & Hfindf & Hr & Hc).
  destruct (free_walk_target tgt s seq sf t Hnd Hw Hfind)
    as (tf' & Hfindf' & _ & Hd).
  rewrite Hfindf in Hfindf'. injection Hfindf' as <-. lia.
Qed.

(** The target can be walked to the goal anchor in as many unchecked
    steps as the distance says. *)
Lemma free_walk_of_distance rows tgt n :
  ∀ (s : list piece) t, find_piece tgt s = Some t →
    Z.abs (row t - (rows - 1)) + Z.abs (col t) = Z.of_nat n →
    ∃ seq sf, walk free_step s seq sf ∧ anchor_goal rows tgt sf ∧
              length seq = n.
Proof.
  induction n as [|n IH]; intros s t Hfind Hdist.
  - exists [], s. split_and!; [constructor| |done].
    exists t. split_and!; [done|lia|lia].
  - pose proof (find_piece_Some _ _ _ Hfind) as [Hin Hl].
    assert (∃ dir dr dc, (dir, (dr, dc)) ∈ MOVES ∧
              Z.abs (row t + dr - (rows - 1)) + Z.abs (col t + dc)
                = Z.of_nat n) as (dir & dr & dc & HM & Hless).
    { destruct (Z.lt_trichotomy (row t) (rows - 1)) as [Hlt|[Heq|Hgt]].
      - exists "down", 1, 0. split; [|lia]. unfold MOVES. set_solver.
      - destruct (Z.lt_trichotomy (col t) 0) as [Hlt|[Heq'|Hgt]].
        + exists "right", 0, 1. split; [|lia]. unfold MOVES. set_solver.
        + lia.
        + exists "left", 0, (-1). split; [|lia]. unfold MOVES. set_solver.
      - exists "up", (-1), 0. split; [|lia]. unfold MOVES. set_solver. }
    destruct (IH (move_piece s tgt (row t + dr) (col t + dc))
                 (set_pos t (row t + dr) (col t + dc)))
      as (seq & sf & Hw & Hg & Hlen).
    { by rewrite find_piece_move_piece, Hfind. }
    { done. }
    exists ((tgt, dir) :: seq), sf. split_and!; [|done|by rewrite <- Hlen].
    eapply walk_cons; [|done].
    exists t, dr, dc. simpl. rewrite Hl. done.
Qed.

Lemma shortest_returns_distance (init : list piece) (d : puzzle_data)
    (t : piece) :
  NoDup (label <$> init) → find_piece (target d) init = Some t →
  ∃ N h,
    (∀ fuel, (N ≤ fuel)%nat →
       Shortest.find_shortest_target_path_from_state fuel init d = Some h) ∧
    Z.of_nat (length h) = Z.abs (row t - (rows d - 1)) + Z.abs (col t).
Proof.
  intros Hnd Hfind.
  assert (target d ∈ label <$> init) as Htgt.
  { apply find_piece_Some in Hfind as [Ht <-]. by apply list_elem_of_fmap_2. }
  destruct (shortest_search_finds init d Hnd Htgt)
    as (N & h & s & Hfound & Hw & Hg & Hmin).
  exists N, h. split.
  - intros fuel Hfuel. unfold Shortest.find_shortest_target_path_from_state.
    by rewrite Hfind, (Hfound fuel Hfuel).
  - pose proof (free_walk_distance (rows d) (target d) init h s t
                  Hnd Hw Hfind Hg) as Hlow.
    destruct (free_walk_of_distance (rows d) (target d)
                (Z.to_nat (Z.abs (row t - (rows d - 1)) + Z.abs (col t)))
                init t Hfind) as (seq & sf & Hw' & Hg' & Hlen); [lia|].
    specialize (Hmin seq sf Hw' Hg'). lia.
Qed.

(** X1.  On a state with unique labels that holds the target,
    [find_shortest_target_path_from_state] returns a list whose length
    is the distance, in one-cell shifts, between the anchor of the
    target and the cell [(rows - 1, 0)]: the other pieces and the
    number of columns play no part. *)
Theorem shortest_length_is_distance (init : list piece) (d : puzzle_data)
    (t : piece) :
  NoDup (label <$> init) → find_piece (target d) init = Some t →
  ∃ N h,
    (∀ fuel, (N ≤ fuel)%nat →
       Shortest.find_shortest_target_path_from_state fuel init d = Some h) ∧
    Z.of_nat (length h) = Z.abs (row t - (rows d - 1)) + Z.abs (col t).
Proof. apply shortest_returns_distance. Qed.

Lemma shortest_length_is_distance_witness :
  ∃ N h,
    (∀ fuel, (N ≤ fuel)%nat →
       Shortest.find_shortest_target_path_from_state
         fuel (pieces two_units) two_units = Some h) ∧
    Z.of_nat (length h) = 1.
Proof.
  apply (shortest_length_is_distance (pieces two_units) two_units
           (pc "T" 0 0 "1x1")); [by_decide|done].
Defined.

(** ** simpleShortestMoves.py: the length of the returned sequence *)

Lemma legal_step_free gpd rows cols (s : list piece) mv s' :
  legal_step gpd rows cols s mv s' → free_step s mv s'.
Proof.
  intros (p & m & Hp & -> & (dr & dc & h & w & HM & Hr & Hc & _) & ->).
  exists p, dr, dc. simpl. by rewrite Hr, Hc.
Qed.

Lemma legal_walk_free gpd rows cols (s : list piece) seq s' :
  walk (legal_step gpd rows cols) s seq s' → walk free_step s seq s'.
Proof.
  induction 1 as [|s m s1 seq s' Hstep _ IH]; [constructor|].
  eapply walk_cons; [by eapply legal_step_free|done].
Qed.

(** X2.  On a board with unique labels, known piece types and no two
    pieces overlapping, a non-empty list returned by
    [find_shortest_target_path] is at least as long as the distance, in
    one-cell shifts, between the anchor of the target and the anchor it
    has in the bottom-left corner, [(rows - height, 0)]. *)
Theorem simple_length_at_least_distance (d : puzzle_data) (fuel : nat)
    (h : list step) (t : piece) (ht wt : Z) :
  NoDup (label <$> pieces d) →
  Forall (λ p, is_Some (Simple.get_piece_dimensions p)) (pieces d) →
  disjoint_board Simple.get_piece_dimensions (pieces d) →
  find_piece (target d) (pieces d) = Some t →
  Simple.get_piece_dimensions t = Some (ht, wt) →
  Simple.find_shortest_target_path fuel d = Some h → h ≠ [] →
  Z.abs (row t - (rows d - ht)) + Z.abs (col t) ≤ Z.of_nat (length h).
Proof.
  intros Hnd Hknown Hdis Hfind Hdim Hret Hne.
  unfold Simple.find_shortest_target_path in Hret.
  destruct (Simple.search fuel d) as [h' s| | |] eqn:Hsearch; simpl in Hret;
    try done; [|congruence].
  injection Hret as ->.
  apply bfs_sound in Hsearch as [Hpath Hstop].
  assert (target d ∈ label <$> pieces d) as Htgt.
  { apply find_piece_Some in Hfind as [Ht <-]. by apply list_elem_of_fmap_2. }
  destruct (simple_path_legal_walk (rows d) (cols d) (target d) (pieces d)
              Hnd Hknown Htgt (pieces d) h s Hpath (pieces d) eq_refl
              (same_pieces_refl _) Hdis) as (σ & Hwalk & Hstrip).
  apply (simple_stop_strip (rows d) (cols d) (target d) s σ Hstrip) in Hstop.
  apply simple_inspect_Stop in Hstop as (tf & hf & wf & Hfindf & Hdimf & Hr & Hc).
  destruct (free_walk_target (target d) (pieces d) h σ t Hnd
              (legal_walk_free _ _ _ _ _ _ Hwalk) Hfind)
    as (tf' & Hfindf' & Hty & Hd).
  rewrite Hfindf in Hfindf'. injection Hfindf' as <-.
  rewrite (simple_gpd_type tf t Hty), Hdim in Hdimf.
  injection Hdimf as <- <-. lia.
Qed.

Lemma simple_length_at_least_distance_witness :
  Z.abs (0 - (2 - 1)) + Z.abs 0
    ≤ Z.of_nat (length [("B", "right"); ("T", "down")]).
Proof.
  apply (simple_length_at_least_distance two_units 10
           [("B", "right"); ("T", "down")] (pc "T" 0 0 "1x1") 1 1);
    [by_decide..|done|done|by vm_compute|done].
Defined.

(** ** simpleShortestMoves.py: replaying the result of the search *)

Lemma MOVES_get_elem dir dr dc :
  (dir, (dr, dc)) ∈ MOVES → Simulate.MOVES_get dir = Some (dr, dc).
Proof.
  unfold MOVES. intros HM. set_unfold in HM.
  by destruct HM as [HM|[HM|[HM|[HM|[]]]]]; injection HM as -> -> ->.
Qed.

Lemma shift_first_move_piece (ps : list piece) p dr dc :
  NoDup (label <$> ps) → p ∈ ps →
  Simulate.shift_first (label p) dr dc ps
    = move_piece ps (label p) (row p + dr) (col p + dc).
Proof.
  induction ps as [|q ps IH]; intros Hnd Hp; [by apply elem_of_nil in Hp|].
  rewrite fmap_cons in Hnd. apply NoDup_cons in Hnd as [Hq Hnd].
  unfold move_piece in *. simpl.
  apply elem_of_cons in Hp as [->|Hp].
  - rewrite !decide_True by done. f_equal.
    symmetry. rewrite <- (list_fmap_id ps) at 2.
    apply list_fmap_ext. intros i x Hx. simpl.
    rewrite decide_False; [done|]. intros Hl. apply Hq. rewrite <- Hl.
    apply list_elem_of_fmap_2. by eapply list_elem_of_lookup_2.
  - assert (label q ≠ label p) as Hne.
    { intros Hl. apply Hq. rewrite Hl. by apply list_elem_of_fmap_2. }
    rewrite !decide_False by done. f_equal. by apply IH.
Qed.

Lemma save_board_image_known draw (s : list piece) (number : nat) :
  Forall (λ p, is_Some (Simple.get_piece_dimensions p)) s →
  Simulate.save_board_image draw s number = draw s number.
Proof.
  intros Hall. unfold Simulate.save_board_image.
  assert (is_Some (mapM Simple.get_piece_dimensions s)) as [x ->]; [|done].
  apply mapM_is_Some. done.
Qed.

(** Replaying a sequence of legal moves saves the boards of the walk:
    the replay returns them if every drawing succeeds, and raises
    otherwise. *)
Lemma simulate_legal_walk draw rows cols (s : list piece) seq σ :
  walk (legal_step Simple.get_piece_dimensions rows cols) s seq σ →
  NoDup (label <$> s) →
  Forall (λ p, is_Some (Simple.get_piece_dimensions p)) s →
  ∃ frames,
    length frames = length seq ∧
    last (s :: frames) = Some σ ∧
    (∀ i mv f f', seq !! i = Some mv → (s :: frames) !! i = Some f →
                  frames !! i = Some f' →
                  legal_step Simple.get_piece_dimensions rows cols f mv f') ∧
    ∀ number,
      (drawn draw number frames →
       Simulate.simulate_from draw number s seq = Some frames) ∧
      (¬ drawn draw number frames →
       Simulate.simulate_from draw number s seq = None).
Proof.
  induction 1 as [s|s m s1 seq σ Hstep Hw IH]; intros Hnd Hknown.
  - exists []. split_and!; [done|done|..].
    + intros i ????. by rewrite lookup_nil.
    + intros number. split; [done|]. intros Hno. destruct Hno.
      intros i f Hf. by rewrite lookup_nil in Hf.
  - pose proof Hstep as (p & mv & Hp & -> & Hlegal & ->).
    destruct (legal_move_shape _ _ _ _ _ _ Hlegal) as ([dir [dr dc]] & HM & ->).
    simpl in *.
    pose proof (legal_step_same Simple.get_piece_dimensions rows cols s s _ _
                  (same_pieces_refl s) Hstep) as [Hlab Hty].
    assert (Forall (λ p, is_Some (Simple.get_piece_dimensions p))
                   (move_piece s (label p) (row p + dr) (col p + dc)))
      as Hknown'
      by (by apply (known_types Simple.get_piece_dimensions s _
                      simple_gpd_type)).
    destruct IH as (frames & Hlen & Hlast & Hsteps & Hsim);
      [by rewrite Hlab|done|].
    exists (move_piece s (label p) (row p + dr) (col p + dc) :: frames).
    split_and!.
    + simpl. by rewrite Hlen.
    + done.
    + intros [|i] mv' f f' Hmv Hf Hf'; simpl in *.
      * injection Hmv as <-. injection Hf as <-. injection Hf' as <-. done.
      * by apply (Hsteps i).
    + intros number.
      rewrite (MOVES_get_elem dir dr dc HM). simpl.
      rewrite (shift_first_move_piece s p dr dc Hnd Hp).
      rewrite (save_board_image_known draw _ number Hknown').
      destruct (Hsim (S number)) as [Hyes Hno].
      split.
      * intros Hdrawn.
        pose proof (Hdrawn 0%nat _ eq_refl) as H0.
        rewrite Nat.add_0_r in H0. rewrite H0. simpl.
        rewrite Hyes; [done|].
        intros i f Hf. specialize (Hdrawn (S i) f Hf).
        by rewrite Nat.add_succ_r in Hdrawn.
      * intros Hnot.
        destruct (draw (move_piece s (label p) (row p + dr) (col p + dc))
                       number) as [[]|] eqn:Hd; [|done].
        simpl. rewrite Hno; [done|]. intros Hrest. apply Hnot.
        intros [|i] f Hf; simpl in Hf.
        -- injection Hf as <-. by rewrite Nat.add_0_r.
        -- rewrite Nat.add_succ_r. by apply (Hrest i).
Qed.

(** Legal steps read labels, anchors and types only. *)
Lemma legal_step_strip rows cols (s s0 : list piece) mv s' :
  legal_step Simple.get_piece_dimensions rows cols s mv s' →
  strip <$> s0 = strip <$> s → NoDup (label <$> s0) →
  ∃ s0', legal_step Simple.get_piece_dimensions rows cols s0 mv s0' ∧
         strip <$> s0' = strip <$> s'.
Proof.
  intros (p & m & Hp & -> & (dr & dc & h & w & HM & Hr & Hc & Hd & Hcells) & ->)
    Hstrip Hnd.
  destruct (strip_elem s s0 p (eq_sym Hstrip) Hp) as (p0 & Hp0 & Hpp).
  pose proof Hpp as (Hl & Hrow & Hcol & Hty)%strip_fields.
  exists (move_piece s0 (label p0) m.1.2 m.2). split.
  - exists p0, m. split_and!; [done|by rewrite Hl| |done].
    exists dr, dc, h, w. split_and!; [done|congruence|congruence| |].
    { by rewrite (simple_gpd_type p0 p Hty). }
    intros cell Hcell. destruct (Hcells cell Hcell) as [Hgrid Hfree].
    split; [done|]. intros q0 Hq0 Hne.
    destruct (strip_elem s0 s q0 Hstrip Hq0) as (q & Hq & Hqq).
    rewrite <- (type_cells_strip Simple.get_piece_dimensions simple_gpd_type
                  q q0 Hqq).
    apply Hfree; [done|]. intros ->. apply Hne.
    apply (NoDup_label_inj s0); [done..|].
    apply strip_fields in Hqq as [Hlq _]. congruence.
  - rewrite Hl. by apply move_piece_strip_eq.
Qed.

Lemma legal_walk_strip rows cols (s : list piece) seq σ :
  walk (legal_step Simple.get_piece_dimensions rows cols) s seq σ →
  ∀ s0, strip <$> s0 = strip <$> s → NoDup (label <$> s0) →
  ∃ σ0, walk (legal_step Simple.get_piece_dimensions rows cols) s0 seq σ0 ∧
        strip <$> σ0 = strip <$> σ.
Proof.
  induction 1 as [s|s m s1 seq σ Hstep Hw IH]; intros s0 Hstrip Hnd.
  - exists s0. split; [constructor|done].
  - destruct (legal_step_strip rows cols s s0 m s1 Hstep Hstrip Hnd)
      as (s0' & Hstep0 & Hstrip').
    destruct (IH s0' Hstrip') as (σ0 & Hw0 & Hσ).
    { destruct (legal_step_same Simple.get_piece_dimensions rows cols s0 s0 _ _
                  (same_pieces_refl s0) Hstep0) as [-> _]. done. }
    exists σ0. split; [|done]. by eapply walk_cons.
Qed.

Lemma simple_goal_strip rows tgt (s s' : list piece) :
  strip <$> s = strip <$> s' → simple_goal rows tgt s → simple_goal rows tgt s'.
Proof.
  intros Hstrip Hgoal.
  apply (simple_inspect_Stop rows 0 tgt). apply (simple_inspect_Stop rows 0 tgt) in Hgoal.
  by apply (simple_stop_strip rows 0 tgt s s' Hstrip).
Qed.

(** X3.  Replaying the result of the search.  When
    [find_shortest_target_path] returns a non-empty list for a
    configuration with unique labels, known piece types and no two
    pieces overlapping, the boards that
    [simulate_shortest_path_and_save_images], run on that list and on
    the pieces of the configuration (with or without the dimensions the
    search has stored in them), hands to the drawing are one more than
    there are moves, the given pieces first; each board arises from the
    one before by the legal move of the list, and on the last one the
    target stands in the bottom-left corner.  The replay returns when
    the folder can be made and the drawing of each of these boards
    succeeds, and raises otherwise: [MOVES] has every direction of the
    list and every piece has a known type. *)
Theorem replay_reaches_goal (folder_made : option unit)
    (draw : list piece → nat → option unit) (d : puzzle_data)
    (s0 : list piece) (fuel : nat) (h : list step) :
  NoDup (label <$> pieces d) →
  Forall (λ p, is_Some (Simple.get_piece_dimensions p)) (pieces d) →
  disjoint_board Simple.get_piece_dimensions (pieces d) →
  strip <$> s0 = strip <$> pieces d →
  Simple.find_shortest_target_path fuel d = Some h → h ≠ [] →
  ∃ frames,
    length frames = S (length h) ∧
    head frames = Some s0 ∧
    (∀ i mv f f', h !! i = Some mv → frames !! i = Some f →
                  frames !! S i = Some f' →
                  legal_step Simple.get_piece_dimensions (rows d) (cols d)
                             f mv f') ∧
    (∃ σ, last frames = Some σ ∧ simple_goal (rows d) (target d) σ) ∧
    (folder_made = Some () ∧ drawn draw 0 frames →
     Simulate.simulate_shortest_path_and_save_images folder_made draw
       (PuzzleData (rows d) (cols d) s0 (target d)) h = Some frames) ∧
    (¬ (folder_made = Some () ∧ drawn draw 0 frames) →
     Simulate.simulate_shortest_path_and_save_images folder_made draw
       (PuzzleData (rows d) (cols d) s0 (target d)) h = None).
Proof.
  intros Hnd Hknown Hdis Hstrip Hret Hne.
  unfold Simple.find_shortest_target_path in Hret.
  destruct (Simple.search fuel d) as [h' s| | |] eqn:Hsearch; simpl in Hret;
    try done; [|congruence].
  injection Hret as ->.
  apply bfs_sound in Hsearch as [Hpath Hstop].
  assert (target d ∈ label <$> pieces d) as Htgt.
  { destruct (decide (target d ∈ label <$> pieces d)) as [|Hno]; [done|].
    exfalso. destruct h as [|mv h]; [done|].
    inversion Hpath as [|? ? ? ? ? (next & Hnext & _) _]; subst.
    unfold Simple.inspect in Hnext.
    by rewrite (find_piece_None _ _ Hno) in Hnext. }
  destruct (simple_path_legal_walk (rows d) (cols d) (target d) (pieces d)
              Hnd Hknown Htgt (pieces d) h s Hpath (pieces d) eq_refl
              (same_pieces_refl _) Hdis) as (σ & Hwalk & Hσ).
  assert (NoDup (label <$> s0)) as Hnd0.
  { rewrite <- (label_strip s0), Hstrip, label_strip. done. }
  assert (Forall (λ p, is_Some (Simple.get_piece_dimensions p)) s0) as Hknown0.
  { apply (known_types Simple.get_piece_dimensions (pieces d) s0
             simple_gpd_type); [|done].
    rewrite <- (type_strip s0), Hstrip, type_strip. done. }
  destruct (legal_walk_strip (rows d) (cols d) (pieces d) h σ Hwalk s0
              Hstrip Hnd0) as (σ0 & Hwalk0 & Hσ0).
  destruct (simulate_legal_walk draw (rows d) (cols d) s0 h σ0 Hwalk0 Hnd0
              Hknown0) as (frames & Hlen & Hlast & Hsteps & Hsim).
  exists (s0 :: frames). split_and!.
  - simpl. by rewrite Hlen.
  - done.
  - intros i mv f f' Hmv Hf Hf'. by apply (Hsteps i).
  - exists σ0. split; [done|].
    apply (simple_goal_strip (rows d) (target d) s); [congruence|].
    by apply (simple_inspect_Stop (rows d) (cols d)).
  - intros [-> Hdrawn].
    unfold Simulate.simulate_shortest_path_and_save_images. simpl.
    rewrite (save_board_image_known draw s0 0 Hknown0).
    pose proof (Hdrawn 0%nat s0 eq_refl) as H0. simpl in H0.
    rewrite H0. simpl.
    destruct (Hsim 1%nat) as [Hyes _]. rewrite Hyes; [done|].
    intros i f Hf. by apply (Hdrawn (S i)).
  - intros Hnot.
    unfold Simulate.simulate_shortest_path_and_save_images. simpl.
    destruct folder_made as [[]|]; [|done]. simpl.
    rewrite (save_board_image_known draw s0 0 Hknown0).
    destruct (draw s0 0%nat) as [[]|] eqn:Hd; [|done]. simpl.
    destruct (Hsim 1%nat) as [_ Hno]. rewrite Hno; [done|].
    intros Hrest. apply Hnot. split; [done|].
    intros [|i] f Hf; simpl in Hf.
    + by injection Hf as <-.
    + by apply (Hrest i).
Qed.

Lemma replay_reaches_goal_witness :
  ∃ frames,
    length frames = 3%nat ∧
    head frames = Some (pieces two_units) ∧
    (∃ σ, last frames = Some σ ∧ simple_goal 2 "T" σ) ∧
    Simulate.simulate_shortest_path_and_save_images
      (Some ()) (λ _ _, Some ())
      (PuzzleData 2 2 (pieces two_units) "T")
      [("B", "right"); ("T", "down")] = Some frames.
Proof.
  destruct (replay_reaches_goal (Some ()) (λ _ _, Some ()) two_units
              (pieces two_units) 10 [("B", "right"); ("T", "down")])
    as (frames & Hlen & Hhead & _ & Hgoal & Hsim & _);
    [by_decide..|done|by vm_compute|done|].
  exists frames. split_and!; [done..|]. apply Hsim. split; [done|].
  by intros i f _.
Defined.

(** ** shortestMoves.py: the states [generate_hypernodes] returns *)

Lemma cells_1_2 r c : cells r c 1 2 = [(r, c); (r, c + 1)].
Proof. unfold cells, range. simpl. by rewrite !Z.add_0_r. Qed.

Lemma cells_2_1 r c : cells r c 2 1 = [(r, c); (r + 1, c)].
Proof. unfold cells, range. simpl. by rewrite !Z.add_0_r. Qed.

Lemma elem_of_placements_h rows cols (pl : Shortest.placement) :
  pl ∈ Shortest.placements_h rows cols ↔
  ∃ r c, 0 ≤ r < rows ∧ 0 ≤ c < cols - 1 ∧ pl = ((r, c), (r, c + 1)).
Proof.
  unfold Shortest.placements_h. rewrite list_elem_of_bind. split.
  - intros (r & (c & Hpl & Hc)%list_elem_of_bind & Hr).
    apply list_elem_of_singleton in Hpl.
    apply elem_of_range in Hr, Hc. by exists r, c.
  - intros (r & c & Hr & Hc & ->). exists r. split; [|by apply elem_of_range].
    apply list_elem_of_bind. exists c. split; [|by apply elem_of_range].
    by apply list_elem_of_singleton.
Qed.

Lemma elem_of_placements_v rows cols (pl : Shortest.placement) :
  pl ∈ Shortest.placements_v rows cols ↔
  ∃ r c, 0 ≤ r < rows - 1 ∧ 0 ≤ c < cols ∧ pl = ((r, c), (r + 1, c)).
Proof.
  unfold Shortest.placements_v. rewrite list_elem_of_bind. split.
  - intros (r & (c & Hpl & Hc)%list_elem_of_bind & Hr).
    apply list_elem_of_singleton in Hpl.
    apply elem_of_range in Hr, Hc. by exists r, c.
  - intros (r & c & Hr & Hc & ->). exists r. split; [|by apply elem_of_range].
    apply list_elem_of_bind. exists c. split; [|by apply elem_of_range].
    by apply list_elem_of_singleton.
Qed.

Lemma placement_cells_cons pl (chosen : list Shortest.placement) :
  placement_cells (pl :: chosen) = pl.1 :: pl.2 :: placement_cells chosen.
Proof. done. Qed.

Lemma taken_l (a b : Z * Z) (X : gset (Z * Z)) : a ∈ ({[a; b]} : gset _) ∪ X.
Proof. apply elem_of_union_l, elem_of_union_l. by apply elem_of_singleton. Qed.

Lemma taken_r (a b : Z * Z) (X : gset (Z * Z)) : b ∈ ({[a; b]} : gset _) ∪ X.
Proof. apply elem_of_union_l, elem_of_union_r. by apply elem_of_singleton. Qed.

(** The check of [generate_hypernodes] accepts a choice of placements
    exactly when no cell is taken twice. *)
Lemma placements_free_spec occupied (chosen : list Shortest.placement) :
  Forall (λ pl, pl.1 ≠ pl.2) chosen →
  Shortest.placements_free occupied chosen = true ↔
  NoDup (placement_cells chosen) ∧
  ∀ cell, cell ∈ placement_cells chosen → cell ∉ occupied.
Proof.
  intros Hall. revert occupied.
  induction Hall as [|pl chosen Hpl Hall IH]; intros occupied.
  - simpl. split; [|done]. intros _. split; [constructor|].
    intros cell Hc. by apply elem_of_nil in Hc.
  - cbn [Shortest.placements_free]. rewrite placement_cells_cons.
    case_decide as Hocc.
    + split; [done|]. intros [_ Hfree]. exfalso.
      destruct Hocc as [Hocc|Hocc].
      * apply (Hfree pl.1); [by left|done].
      * apply (Hfree pl.2); [right; by left|done].
    + rewrite IH. split.
      * intros [Hnd Hfree]. split.
        -- constructor; [|constructor; [|done]].
           ++ intros [?|Hin]%elem_of_cons; [done|].
              apply (Hfree _ Hin). apply taken_l.
           ++ intros Hin. apply (Hfree _ Hin). apply taken_r.
        -- intros cell [->|[->|Hin]%elem_of_cons]%elem_of_cons.
           ++ tauto.
           ++ tauto.
           ++ intros Ho. apply (Hfree _ Hin). by apply elem_of_union_r.
      * intros [Hnd Hfree].
        apply NoDup_cons in Hnd as [H1 Hnd].
        apply NoDup_cons in Hnd as [H2 Hnd].
        split; [done|]. intros cell Hin Ho.
        apply elem_of_union in Ho as [Ho|Ho].
        -- apply elem_of_union in Ho as [Ho|Ho];
             apply elem_of_singleton in Ho; subst.
           ++ apply H1. by right.
           ++ done.
        -- apply (Hfree cell); [|done]. by do 2 right.
Qed.

Lemma add_unique_step (acc : list (list piece))
    (seen : gset (list (string * Z * Z))) state :
  seen = list_to_set (board_to_tuple <$> acc) →
  NoDup (board_to_tuple <$> acc) →
  (Shortest.add_unique (acc, seen) state).2
    = list_to_set (board_to_tuple <$> (Shortest.add_unique (acc, seen) state).1) ∧
  NoDup (board_to_tuple <$> (Shortest.add_unique (acc, seen) state).1) ∧
  (∀ st, st ∈ (Shortest.add_unique (acc, seen) state).1 →
         st ∈ acc ∨ st = state) ∧
  board_to_tuple state ∈ (Shortest.add_unique (acc, seen) state).2 ∧
  seen ⊆ (Shortest.add_unique (acc, seen) state).2.
Proof.
  intros Hseen Hnd. unfold Shortest.add_unique. simpl.
  case_decide as Hin; simpl.
  - split_and!; [exact Hseen|exact Hnd|by left|exact Hin|reflexivity].
  - split_and!.
    + rewrite fmap_app, list_to_set_app_L, Hseen. simpl.
      rewrite (comm_L (∪)). f_equal.
      symmetry. apply (right_id_L (∅ : gset (list (string * Z * Z))) (∪)).
    + rewrite fmap_app. apply NoDup_app. split_and!; [done| |].
      * intros k Hk [->|[]%elem_of_nil]%elem_of_cons. apply Hin.
        rewrite Hseen. by apply elem_of_list_to_set.
      * simpl. apply NoDup_singleton.
    + intros st [?|Hst]%elem_of_app; [by left|].
      apply list_elem_of_singleton in Hst. by right.
    + apply elem_of_union_l. by apply elem_of_singleton.
    + intros k Hk. by apply elem_of_union_r.
Qed.

Lemma foldl_add_unique (states acc : list (list piece))
    (seen : gset (list (string * Z * Z))) :
  seen = list_to_set (board_to_tuple <$> acc) →
  NoDup (board_to_tuple <$> acc) →
  (foldl Shortest.add_unique (acc, seen) states).2
    = list_to_set (board_to_tuple <$>
                     (foldl Shortest.add_unique (acc, seen) states).1) ∧
  NoDup (board_to_tuple <$> (foldl Shortest.add_unique (acc, seen) states).1) ∧
  (∀ st, st ∈ (foldl Shortest.add_unique (acc, seen) states).1 →
         st ∈ acc ∨ st ∈ states) ∧
  (∀ st, st ∈ states →
         board_to_tuple st ∈ (foldl Shortest.add_unique (acc, seen) states).2) ∧
  seen ⊆ (foldl Shortest.add_unique (acc, seen) states).2.
Proof.
  revert acc seen.
  induction states as [|state states IH]; intros acc seen Hseen Hnd.
  - simpl. split_and!; [done|done|by left| |done].
    intros st Hst. by apply elem_of_nil in Hst.
  - cbn [foldl].
    destruct (add_unique_step acc seen state Hseen Hnd)
      as (Hs1 & Hs2 & Hs3 & Hs4 & Hs5).
    destruct (Shortest.add_unique (acc, seen) state) as [acc' seen'].
    simpl in *.
    destruct (IH acc' seen' Hs1 Hs2) as (H1 & H2 & H3 & H4 & H5).
    split_and!; [done|done| | |].
    + intros st Hst. destruct (H3 st Hst) as [Ha|?]; [|right; by right].
      destruct (Hs3 st Ha) as [?| ->]; [by left|right; by left].
    + intros st [->|Hst]%elem_of_cons; [by apply H5|by apply H4].
    + by etrans.
Qed.

Lemma mapM_fmap_Some {A B} (f : A → option B) (g : A → B) (l : list A) :
  (∀ x, x ∈ l → f x = Some (g x)) → mapM f l = Some (g <$> l).
Proof.
  induction l as [|x l IH]; intros Hf; [done|].
  cbn [mapM]. rewrite (Hf x) by (by left). simpl.
  rewrite IH; [done|]. intros y Hy. apply Hf. by right.
Qed.

Lemma mapM_elem_of {A B} (f : A → option B) (l : list A) k y :
  mapM f l = Some k → y ∈ k → ∃ x, x ∈ l ∧ f x = Some y.
Proof.
  intros Hm%mapM_Some Hy.
  apply list_elem_of_lookup in Hy as [i Hi].
  destruct (Forall2_lookup_r _ _ _ _ _ Hm Hi) as (x & Hx & Hfx).
  exists x. split; [by eapply list_elem_of_lookup_2|done].
Qed.

Lemma mov_1x2_types d : Forall (λ p, piece_type p = "1x2") (mov_1x2 d).
Proof.
  apply Forall_forall. intros p Hp. unfold mov_1x2 in Hp.
  by apply list_elem_of_filter in Hp as [? _].
Qed.

Lemma mov_2x1_types d : Forall (λ p, piece_type p = "2x1") (mov_2x1 d).
Proof.
  apply Forall_forall. intros p Hp. unfold mov_2x1 in Hp.
  by apply list_elem_of_filter in Hp as [? _].
Qed.

Lemma mapM_assign_h (ps : list piece) (pls : list Shortest.placement) :
  Forall (λ p, piece_type p = "1x2") ps →
  mapM Shortest.assign (zip ps pls) = Some (placed 1 2 <$> zip ps pls).
Proof.
  intros Hall. apply mapM_fmap_Some. intros [p pl] Hx.
  apply elem_of_zip_l in Hx. rewrite Forall_forall in Hall.
  specialize (Hall p Hx). simpl in Hall.
  unfold Shortest.assign, Shortest.with_dimensions,
    Shortest.get_piece_dimensions, placed. simpl. by rewrite Hall.
Qed.

Lemma mapM_assign_v (ps : list piece) (pls : list Shortest.placement) :
  Forall (λ p, piece_type p = "2x1") ps →
  mapM Shortest.assign (zip ps pls) = Some (placed 2 1 <$> zip ps pls).
Proof.
  intros Hall. apply mapM_fmap_Some. intros [p pl] Hx.
  apply elem_of_zip_l in Hx. rewrite Forall_forall in Hall.
  specialize (Hall p Hx). simpl in Hall.
  unfold Shortest.assign, Shortest.with_dimensions,
    Shortest.get_piece_dimensions, placed. simpl. by rewrite Hall.
Qed.

(** How every state of [generate_hypernodes] is built. *)
Lemma generate_hypernodes_states d states :
  Shortest.generate_hypernodes d = Some states →
  ∃ fixed,
    mapM Shortest.with_dimensions (kept d) = Some fixed ∧
    NoDup (board_to_tuple <$> states) ∧
    ∀ state, state ∈ states →
      ∃ comb_h comb_v,
        comb_h ∈ combinations (Shortest.placements_h (rows d) (cols d))
                              (length (mov_1x2 d)) ∧
        comb_v ∈ combinations (Shortest.placements_v (rows d) (cols d))
                              (length (mov_2x1 d)) ∧
        Shortest.placements_free ∅ (comb_h ++ comb_v) = true ∧
        state = (placed 1 2 <$> zip (mov_1x2 d) comb_h) ++
                (placed 2 1 <$> zip (mov_2x1 d) comb_v) ++ fixed.
Proof.
  unfold Shortest.generate_hypernodes.
  fold (kept d). fold (mov_1x2 d). fold (mov_2x1 d).
  destruct (mapM Shortest.with_dimensions (kept d)) as [fixed|]; [|done].
  simpl.
  match goal with |- context [mapM ?f ?l] =>
    destruct (mapM f l) as [sts|] eqn:Hsts; [|done] end.
  simpl. intros [= <-]. exists fixed. split; [done|].
  destruct (foldl_add_unique sts [] ∅ eq_refl (NoDup_nil_2))
    as (_ & Hnd & Hsub & _).
  split; [done|]. intros state Hstate.
  destruct (Hsub state Hstate) as [[]%elem_of_nil|Hin].
  destruct (mapM_elem_of _ _ _ _ Hsts Hin) as ([comb_h comb_v] & Hcc & Hbuild).
  apply list_elem_of_filter in Hcc as [Hfree Hcc]. simpl in *.
  apply list_elem_of_bind in Hcc as (ch & Hcv & Hch).
  apply list_elem_of_bind in Hcv as (cv & Heq & Hcv).
  apply list_elem_of_singleton in Heq. injection Heq as -> ->.
  rewrite (mapM_assign_h _ _ (mov_1x2_types d)) in Hbuild.
  rewrite (mapM_assign_v _ _ (mov_2x1_types d)) in Hbuild.
  simpl in Hbuild. injection Hbuild as <-.
  by exists ch, cv.
Qed.

Lemma placed_footprint h w (x : piece * Shortest.placement) :
  Shortest.footprint (placed h w x) = cells x.2.1.1 x.2.1.2 h w.
Proof. done. Qed.

Lemma bind_ext_in {A B} (f g : A → list B) (l : list A) :
  (∀ x, x ∈ l → f x = g x) → l ≫= f = l ≫= g.
Proof.
  induction l as [|x l IH]; intros Hfg; [done|].
  cbn [mbind list_bind]. rewrite (Hfg x) by (by left).
  f_equal. apply IH. intros y Hy. apply Hfg. by right.
Qed.

(** The footprints of the dominoes put on a choice of horizontal
    placements are the cells of the placements. *)
Lemma placed_h_cells rows cols (ps : list piece) (pls : list Shortest.placement) :
  length pls = length ps →
  (∀ pl, pl ∈ pls → pl ∈ Shortest.placements_h rows cols) →
  (placed 1 2 <$> zip ps pls) ≫= Shortest.footprint = placement_cells pls.
Proof.
  intros Hlen Hin. rewrite list_fmap_bind. unfold placement_cells.
  rewrite <- (snd_zip ps pls) at 2 by lia.
  rewrite list_fmap_bind. apply bind_ext_in. intros [p pl] Hx. simpl.
  apply elem_of_zip_r in Hx.
  apply Hin, elem_of_placements_h in Hx as (r & c & _ & _ & ->).
  rewrite placed_footprint. simpl. apply cells_1_2.
Qed.

Lemma placed_v_cells rows cols (ps : list piece) (pls : list Shortest.placement) :
  length pls = length ps →
  (∀ pl, pl ∈ pls → pl ∈ Shortest.placements_v rows cols) →
  (placed 2 1 <$> zip ps pls) ≫= Shortest.footprint = placement_cells pls.
Proof.
  intros Hlen Hin. rewrite list_fmap_bind. unfold placement_cells.
  rewrite <- (snd_zip ps pls) at 2 by lia.
  rewrite list_fmap_bind. apply bind_ext_in. intros [p pl] Hx. simpl.
  apply elem_of_zip_r in Hx.
  apply Hin, elem_of_placements_v in Hx as (r & c & _ & _ & ->).
  rewrite placed_footprint. simpl. apply cells_2_1.
Qed.

Lemma placement_cells_app (l1 l2 : list Shortest.placement) :
  placement_cells (l1 ++ l2) = placement_cells l1 ++ placement_cells l2.
Proof. unfold placement_cells. apply bind_app. Qed.

Lemma elem_of_placement_cells (pls : list Shortest.placement) cell :
  cell ∈ placement_cells pls ↔ ∃ pl, pl ∈ pls ∧ (cell = pl.1 ∨ cell = pl.2).
Proof.
  unfold placement_cells. rewrite list_elem_of_bind. split.
  - intros (pl & Hc & Hpl). exists pl. split; [done|].
    apply elem_of_cons in Hc as [?|Hc]; [by left|].
    apply list_elem_of_singleton in Hc. by right.
  - intros (pl & Hpl & [->| ->]); exists pl; (split; [|done]).
    + by left.
    + right. by left.
Qed.

Lemma with_dimensions_Some p q :
  Shortest.with_dimensions p = Some q →
  ∃ h w, Shortest.get_piece_dimensions p = Some (h, w) ∧ q = set_dims p h w.
Proof.
  unfold Shortest.with_dimensions.
  destruct (Shortest.get_piece_dimensions p) as [[h w]|]; [|done].
  intros [= <-]. by exists h, w.
Qed.

Lemma mapM_with_dimensions (ps fixed : list piece) :
  mapM Shortest.with_dimensions ps = Some fixed →
  strip <$> fixed = strip <$> ps ∧
  Forall (λ q, ∃ h w, Shortest.get_piece_dimensions q = Some (h, w) ∧
                      height q = Some h ∧ width q = Some w) fixed.
Proof.
  intros Hm%mapM_Some.
  induction Hm as [|p q ps fixed Hpq _ [IH1 IH2]]; [done|].
  apply with_dimensions_Some in Hpq as (h & w & Hd & ->).
  split; [by rewrite !fmap_cons, IH1|].
  constructor; [|done]. by exists h, w.
Qed.

Lemma filter_all {A} (P : A → Prop) `{∀ x, Decision (P x)} (l : list A) :
  Forall P l → filter P l = l.
Proof.
  induction 1 as [|x l Hx _ IH]; [done|].
  rewrite filter_cons_True by done. by rewrite IH.
Qed.

Lemma filter_none {A} (P : A → Prop) `{∀ x, Decision (P x)} (l : list A) :
  Forall (λ x, ¬ P x) l → filter P l = [].
Proof.
  induction 1 as [|x l Hx _ IH]; [done|].
  by rewrite filter_cons_False.
Qed.

(** The pieces of a configuration are its horizontal dominoes, its
    vertical dominoes and the pieces kept in place. *)
Lemma pieces_split d : mov_1x2 d ++ mov_2x1 d ++ kept d ≡ₚ pieces d.
Proof.
  unfold mov_1x2, mov_2x1, kept.
  trans (filter Shortest.is_domino (pieces d) ++
         filter (λ p, ¬ Shortest.is_domino p) (pieces d));
    [|apply filter_app_complement].
  rewrite (assoc (++)). apply Permutation_app; [|done].
  trans (filter (λ p, piece_type p = "1x2")
                (filter Shortest.is_domino (pieces d)) ++
         filter (λ p, ¬ piece_type p = "1x2")
                (filter Shortest.is_domino (pieces d)));
    [|apply filter_app_complement].
  apply Permutation_app; [done|].
  rewrite !list_filter_filter.
  apply reflexive_eq, list_filter_iff. intros p. unfold Shortest.is_domino.
  split.
  - intros [Hv _]. split; [|by right]. by rewrite Hv.
  - intros [Hno [?|?]]; [done|]. split; [done|by right].
Qed.

Lemma fmap_placed_zip {B} (f : piece → B) h w (ps : list piece)
    (pls : list Shortest.placement) :
  (∀ x, f (placed h w x) = f x.1) → (length ps ≤ length pls)%nat →
  f <$> (placed h w <$> zip ps pls) = f <$> ps.
Proof.
  intros Hf Hlen. rewrite <- list_fmap_compose.
  rewrite (list_fmap_ext _ (f ∘ fst)) by (intros ? x _; apply Hf).
  by rewrite list_fmap_compose, fst_zip.
Qed.

Lemma placed_all h w (P : piece → Prop) (ps : list piece)
    (pls : list Shortest.placement) :
  (∀ p pl, p ∈ ps → P (placed h w (p, pl))) →
  Forall P (placed h w <$> zip ps pls).
Proof.
  intros HP. apply Forall_forall. intros q ([p pl] & -> & Hx)%list_elem_of_fmap.
  apply HP. by apply elem_of_zip_l in Hx.
Qed.

Lemma strip_not_domino (s s' : list piece) :
  strip <$> s = strip <$> s' →
  Forall (λ p, ¬ Shortest.is_domino p) s' →
  Forall (λ p, ¬ Shortest.is_domino p) s.
Proof.
  revert s'. induction s as [|p s IH]; intros [|q s'] Heq Hall; try done.
  apply fmap_cons_eq in Heq as [Hpq Heq].
  apply Forall_cons in Hall as [Hq Hall].
  constructor; [|by eapply IH].
  apply strip_fields in Hpq as (_ & _ & _ & Hty).
  unfold Shortest.is_domino in *. by rewrite Hty.
Qed.

(** The states of [generate_hypernodes]. *)
Lemma hypernode_states_spec (d : puzzle_data)
    (states : list (list piece)) (state : list piece) :
  Shortest.generate_hypernodes d = Some states → state ∈ states →
  (λ p, (label p, piece_type p)) <$> state
    ≡ₚ (λ p, (label p, piece_type p)) <$> pieces d ∧
  Forall (λ q, ∃ h w, Shortest.get_piece_dimensions q = Some (h, w) ∧
                      height q = Some h ∧ width q = Some w) state ∧
  strip <$> filter (λ p, ¬ Shortest.is_domino p) state = strip <$> kept d ∧
  NoDup (filter Shortest.is_domino state ≫= Shortest.footprint) ∧
  ∀ cell, cell ∈ filter Shortest.is_domino state ≫= Shortest.footprint →
          in_grid (rows d) (cols d) cell.
Proof.
  intros Hgen Hstate.
  destruct (generate_hypernodes_states d states Hgen)
    as (fixed & Hfixed & _ & Hstates).
  destruct (Hstates state Hstate)
    as (comb_h & comb_v & Hh & Hv & Hfree & ->).
  apply elem_of_combinations in Hh as [Hsubh Hlenh].
  apply elem_of_combinations in Hv as [Hsubv Hlenv].
  destruct (mapM_with_dimensions _ _ Hfixed) as [Hstrip Hdims].
  assert (Forall (λ p, ¬ Shortest.is_domino p) fixed) as Hkept.
  { apply (strip_not_domino fixed (kept d) Hstrip).
    apply Forall_forall. intros p Hp. unfold kept in Hp.
    by apply list_elem_of_filter in Hp as [? _]. }
  assert (Forall Shortest.is_domino (placed 1 2 <$> zip (mov_1x2 d) comb_h))
    as Hdomh.
  { apply placed_all. intros p pl Hp. left.
    pose proof (mov_1x2_types d) as Hty. rewrite Forall_forall in Hty.
    exact (Hty p Hp). }
  assert (Forall Shortest.is_domino (placed 2 1 <$> zip (mov_2x1 d) comb_v))
    as Hdomv.
  { apply placed_all. intros p pl Hp. right.
    pose proof (mov_2x1_types d) as Hty. rewrite Forall_forall in Hty.
    exact (Hty p Hp). }
  assert (filter Shortest.is_domino
            ((placed 1 2 <$> zip (mov_1x2 d) comb_h) ++
             (placed 2 1 <$> zip (mov_2x1 d) comb_v) ++ fixed)
          = (placed 1 2 <$> zip (mov_1x2 d) comb_h) ++
            (placed 2 1 <$> zip (mov_2x1 d) comb_v)) as Hdoms.
  { rewrite !filter_app, (filter_all _ _ Hdomh), (filter_all _ _ Hdomv).
    rewrite (filter_none Shortest.is_domino fixed Hkept).
    by rewrite app_nil_r. }
  assert ((filter Shortest.is_domino
             ((placed 1 2 <$> zip (mov_1x2 d) comb_h) ++
              (placed 2 1 <$> zip (mov_2x1 d) comb_v) ++ fixed))
            ≫= Shortest.footprint = placement_cells (comb_h ++ comb_v))
    as Hcells.
  { rewrite Hdoms, bind_app, placement_cells_app.
    rewrite (placed_h_cells (rows d) (cols d)), (placed_v_cells (rows d) (cols d));
      [done|done| |done|].
    - intros pl Hpl. by eapply elem_of_sublist.
    - intros pl Hpl. by eapply elem_of_sublist. }
  split_and!.
  - rewrite !fmap_app.
    rewrite (fmap_placed_zip _ 1 2) by (done || lia).
    rewrite (fmap_placed_zip _ 2 1) by (done || lia).
    rewrite <- (pieces_split d), !fmap_app.
    do 2 (apply Permutation_app; [done|]).
    apply reflexive_eq.
    change (λ p, (label p, piece_type p))
      with ((λ p, (label p, piece_type p)) ∘ strip).
    by rewrite !list_fmap_compose, Hstrip.
  - rewrite !Forall_app. split_and!; [| |done].
    + apply placed_all. intros p pl Hp. exists 1, 2.
      pose proof (mov_1x2_types d) as Hty. rewrite Forall_forall in Hty.
      unfold Shortest.get_piece_dimensions, placed. simpl.
      by rewrite (Hty p Hp).
    + apply placed_all. intros p pl Hp. exists 2, 1.
      pose proof (mov_2x1_types d) as Hty. rewrite Forall_forall in Hty.
      unfold Shortest.get_piece_dimensions, placed. simpl.
      by rewrite (Hty p Hp).
  - rewrite !filter_app.
    rewrite (filter_none (λ p, ¬ Shortest.is_domino p) _)
      by (eapply Forall_impl; [exact Hdomh|tauto]).
    rewrite (filter_none (λ p, ¬ Shortest.is_domino p) _)
      by (eapply Forall_impl; [exact Hdomv|tauto]).
    simpl. by rewrite (filter_all _ _ Hkept).
  - rewrite Hcells. apply (placements_free_spec ∅); [|done].
    apply Forall_app. split; apply Forall_forall; intros pl Hpl.
    + apply (elem_of_sublist _ _ _ Hpl), elem_of_placements_h in Hsubh
        as (r & c & _ & _ & ->). simpl. intros [= ?]. lia.
    + apply (elem_of_sublist _ _ _ Hpl), elem_of_placements_v in Hsubv
        as (r & c & _ & _ & ->). simpl. intros [= ?]. lia.
  - intros cell. rewrite Hcells, placement_cells_app, elem_of_app.
    rewrite !elem_of_placement_cells.
    intros [(pl & Hpl & Hc)|(pl & Hpl & Hc)].
    + apply (elem_of_sublist _ _ _ Hpl), elem_of_placements_h in Hsubh
        as (r & c & Hr & Hcc & ->).
      unfold in_grid. destruct Hc as [-> | ->]; simpl; lia.
    + apply (elem_of_sublist _ _ _ Hpl), elem_of_placements_v in Hsubv
        as (r & c & Hr & Hcc & ->).
      unfold in_grid. destruct Hc as [-> | ->]; simpl; lia.
Qed.

(** X4.  Every state [generate_hypernodes] returns holds the pieces of
    the configuration, each with the dimensions of its type stored; the
    pieces that are no dominoes stand where the configuration has them;
    and the dominoes cover cells of the grid, no cell twice. *)
Theorem hypernodes_place_dominoes (d : puzzle_data)
    (states : list (list piece)) (state : list piece) :
  Shortest.generate_hypernodes d = Some states → state ∈ states →
  (λ p, (label p, piece_type p)) <$> state
    ≡ₚ (λ p, (label p, piece_type p)) <$> pieces d ∧
  Forall (λ q, ∃ h w, Shortest.get_piece_dimensions q = Some (h, w) ∧
                      height q = Some h ∧ width q = Some w) state ∧
  strip <$> filter (λ p, ¬ Shortest.is_domino p) state = strip <$> kept d ∧
  NoDup (filter Shortest.is_domino state ≫= Shortest.footprint) ∧
  ∀ cell, cell ∈ filter Shortest.is_domino state ≫= Shortest.footprint →
          in_grid (rows d) (cols d) cell.
Proof. apply hypernode_states_spec. Qed.

Lemma hypernodes_place_dominoes_witness :
  NoDup (filter Shortest.is_domino domino_over_target ≫= Shortest.footprint) ∧
  strip <$> filter (λ p, ¬ Shortest.is_domino p) domino_over_target
    = strip <$> kept domino_and_target.
Proof.
  assert (∃ states,
            Shortest.generate_hypernodes domino_and_target = Some states ∧
            domino_over_target ∈ states) as (states & Hgen & Hin).
  { eexists. split; [by vm_compute|by_decide]. }
  destruct (hypernodes_place_dominoes domino_and_target states
              domino_over_target Hgen Hin) as (_ & _ & Hkept & Hnd & _).
  by split.
Defined.

(** X5.  [generate_hypernodes] returns no two states with the same
    canonical key. *)
Theorem hypernodes_distinct_keys (d : puzzle_data)
    (states : list (list piece)) :
  Shortest.generate_hypernodes d = Some states →
  NoDup (board_to_tuple <$> states).
Proof.
  intros Hgen.
  by destruct (generate_hypernodes_states d states Hgen) as (_ & _ & Hnd & _).
Qed.

Lemma hypernodes_distinct_keys_witness :
  ∃ states, Shortest.generate_hypernodes domino_and_target = Some states ∧
            NoDup (board_to_tuple <$> states).
Proof.
  assert (∃ states,
            Shortest.generate_hypernodes domino_and_target = Some states)
    as (states & Hgen).
  { eexists. by vm_compute. }
  exists states. split; [done|].
  by apply (hypernodes_distinct_keys domino_and_target).
Defined.

Lemma domino_known p :
  Shortest.is_domino p → is_Some (Shortest.get_piece_dimensions p).
Proof.
  unfold Shortest.is_domino, Shortest.get_piece_dimensions.
  intros [-> | ->]; by eexists.
Qed.

(** X6.  [generate_hypernodes] raises (the [ValueError] of
    [get_piece_dimensions]) exactly when some piece of the configuration
    has a type other than 1x1, 1x2 and 2x1; in particular a 2x2 piece,
    which simpleShortestMoves.py accepts, makes it raise. *)
Theorem hypernodes_raise_on_unknown_type (d : puzzle_data) :
  Shortest.generate_hypernodes d = None ↔
  Exists (λ p, Shortest.get_piece_dimensions p = None) (pieces d).
Proof.
  rewrite Exists_exists. split.
  - intros Hgen.
    destruct (decide (Exists (λ p, Shortest.get_piece_dimensions p = None)
                             (pieces d))) as [?%Exists_exists|Hno]; [done|].
    exfalso. apply not_Exists_Forall in Hno; [|apply _].
    rewrite Forall_forall in Hno.
    unfold Shortest.generate_hypernodes in Hgen.
    fold (kept d) in Hgen. fold (mov_1x2 d) in Hgen. fold (mov_2x1 d) in Hgen.
    destruct (mapM_is_Some_2 Shortest.with_dimensions (kept d)) as [fixed Hf].
    { apply Forall_forall. intros p Hp. unfold kept in Hp.
      apply list_elem_of_filter in Hp as [_ Hp].
      specialize (Hno p Hp). simpl in Hno.
      unfold compose, Shortest.with_dimensions.
      destruct (Shortest.get_piece_dimensions p) as [[??]|]; [by eexists|done]. }
    rewrite Hf in Hgen. simpl in Hgen.
    match type of Hgen with context [mapM ?f ?l] =>
      destruct (mapM_is_Some_2 f l) as [sts Hsts] end.
    { apply Forall_forall. intros cc _. unfold compose.
      rewrite (mapM_assign_h _ _ (mov_1x2_types d)).
      rewrite (mapM_assign_v _ _ (mov_2x1_types d)). by eexists. }
    by rewrite Hsts in Hgen.
  - intros (p & Hp & Hd).
    unfold Shortest.generate_hypernodes. fold (kept d).
    assert (mapM Shortest.with_dimensions (kept d) = None) as ->; [|done].
    destruct (mapM Shortest.with_dimensions (kept d)) as [fixed|] eqn:Hf;
      [|done].
    exfalso. assert (is_Some (mapM Shortest.with_dimensions (kept d))) as Hs
      by (by eexists).
    apply mapM_is_Some_1 in Hs. rewrite Forall_forall in Hs.
    destruct (Hs p) as [q Hq].
    + unfold kept. apply list_elem_of_filter. split; [|done].
      intros [x Hx]%domino_known. congruence.
    + unfold Shortest.with_dimensions in Hq. by rewrite Hd in Hq.
Qed.

(** ** The counting loop and the collecting loop *)

Section SweepLoops.
Context {St Mv K : Type} `{Countable K}.
Variable key : St → K.

Lemma foldl_mark_push (hist : list Mv) (next : list (Mv * St))
    (queue : list (St * list Mv)) (visited : gset K) :
  foldl (mark key) (queue.*1, visited) next
  = ((foldl (push key hist) (queue, visited) next).1.*1,
     (foldl (push key hist) (queue, visited) next).2).
Proof.
  revert queue visited.
  induction next as [|x next IH]; intros queue visited; [done|].
  cbn [foldl]. unfold mark at 2, push at 2 4. simpl.
  case_decide; [apply IH|].
  rewrite <- IH. by rewrite fmap_app.
Qed.

Section Count.
Variable expand : St → option (list (Mv * St)).
Variable init : St.

Local Abbreviation insp := (expand_view expand).

Lemma expand_view_not_Stop s : insp s ≠ Stop.
Proof. unfold expand_view. by destruct (expand s). Qed.

(** The counting loop follows the loop with histories, and counts the
    entries it dequeues. *)
Lemma count_loop_inv fuel past queue visited :
  bfs_inv key insp init past queue visited →
  size visited = (length past + length queue)%nat →
  bfs_loop key insp fuel queue visited = Exhausted →
  ∃ past' visited',
    bfs_inv key insp init past' [] visited' ∧
    size visited' = length past' ∧
    count_loop key expand fuel queue.*1 visited (length past)
      = Returns (length past').
Proof.
  revert past queue visited.
  induction fuel as [|fuel IH]; intros past queue visited Hinv Hsize; [done|].
  simpl. destruct queue as [|[s h] rest]; simpl.
  - intros _. exists past, visited. split_and!; [done| |done].
    rewrite Hsize. simpl. lia.
  - unfold expand_view at 1. destruct (expand s) as [next|] eqn:Hexp; [|done].
    intros Hloop.
    assert (insp s = Grow next) as Hgrow
      by (unfold expand_view; by rewrite Hexp).
    pose proof (bfs_inv_step key insp init past s h rest visited next
                  Hinv Hgrow) as Hinv'.
    destruct (foldl_push_spec key h next rest visited)
      as (new & Hq & _ & _ & _ & Hsz).
    rewrite (foldl_mark_push h). simpl.
    apply (IH ((s, h) :: past) _ _ Hinv'); [|done].
    rewrite Hsz, Hq, length_app, Hsize. simpl. lia.
Qed.

Section CountCorrect.
Variable Rinv : St → Prop.
Hypothesis Rinv_init : Rinv init.
Hypothesis Rinv_edge : ∀ s m s', Rinv s → edge insp s m s' → Rinv s'.
Hypothesis Rinv_expand : ∀ s, Rinv s → is_Some (expand s).
Hypothesis key_sim : ∀ s s' m t,
  Rinv s → Rinv s' → key s = key s' → edge insp s m t →
  ∃ t', edge insp s' m t' ∧ key t' = key t.
Variable U : gset K.
Hypothesis visited_in_U : ∀ past queue visited,
  bfs_inv key insp init past queue visited → visited ⊆ U.

(** With the keys drawn from a finite set, the counting loop returns,
    and what it returns is the number of keys of the states that can be
    reached. *)
Lemma count_correct fuel :
  (size U < fuel)%nat →
  ∃ (n : nat) (V : gset K),
    count key expand fuel init = Returns n ∧ size V = n ∧
    ∀ k, k ∈ V ↔ ∃ h t, path insp init h t ∧ key t = k.
Proof.
  intros Hfuel.
  assert (∀ s, Rinv s → insp s = Stop ∨ ∃ next, insp s = Grow next) as Hview.
  { intros s Hs. right. destruct (Rinv_expand s Hs) as [next Hexp].
    exists next. unfold expand_view. by rewrite Hexp. }
  assert (∀ s s', Rinv s → Rinv s' → key s = key s' →
            insp s = Stop → insp s' = Stop) as Hstop.
  { intros s s' _ _ _ Hs. by apply expand_view_not_Stop in Hs. }
  pose proof (bfs_correct key insp init Rinv Rinv_init Rinv_edge Hview
                key_sim Hstop U visited_in_U fuel Hfuel) as Hpost.
  unfold bfs in Hpost.
  destruct (bfs_loop key insp fuel [(init, [])] {[key init]})
    as [h s| | |] eqn:Hloop; simpl in Hpost; try done.
  { destruct Hpost as (_ & Hs & _). by apply expand_view_not_Stop in Hs. }
  destruct (count_loop_inv fuel [] [(init, [])] {[key init]}
              (bfs_inv_start key insp init))
    as (past & visited & Hinv & Hsize & Hcount); [|done|].
  { by rewrite size_singleton. }
  exists (length past), visited. split_and!; [done|done|].
  intros k. rewrite (inv_visited _ _ _ _ _ _ Hinv). rewrite app_nil_r. split.
  - intros (e & He & <-). exists e.2, e.1. split; [|done].
    apply (inv_path _ _ _ _ _ _ Hinv). by rewrite app_nil_r.
  - intros (h & t & Hp & <-).
    destruct (covered key insp init Rinv Rinv_init Rinv_edge key_sim
                past [] visited h t Hinv Hp) as (e & He & Hk & _).
    { intros e He. by apply elem_of_nil in He. }
    rewrite app_nil_r in He. by exists e.
Qed.
End CountCorrect.
End Count.

Section Collect.
Variable inspect : St → view St Mv.
Variable init : St.

Local Abbreviation insp_c := (continue_view inspect).

Lemma continue_view_not_Stop s : insp_c s ≠ Stop.
Proof. unfold continue_view. by destruct (inspect s). Qed.

Lemma edge_continue s m t : edge insp_c s m t ↔ edge inspect s m t.
Proof.
  unfold edge, continue_view. split; intros (next & Hnext & Hin).
  - destruct (inspect s) as [| | |next']; try done.
    + injection Hnext as <-. by apply elem_of_nil in Hin.
    + by exists next.
  - exists next. by rewrite Hnext.
Qed.

Lemma path_continue s h t : path insp_c s h t ↔ path inspect s h t.
Proof.
  split; induction 1 as [|s m s1 h t Hstep _ IH]; try constructor.
  - eapply walk_cons; [by apply edge_continue|done].
  - eapply walk_cons; [by apply edge_continue|done].
Qed.

Lemma sorted_snoc (l : list (St * list Mv)) e :
  StronglySorted (λ e1 e2 : St * list Mv, (depth e1 ≤ depth e2)%nat) l →
  (∀ e', e' ∈ l → (depth e' ≤ depth e)%nat) →
  StronglySorted (λ e1 e2 : St * list Mv, (depth e1 ≤ depth e2)%nat)
                 (l ++ [e]).
Proof.
  induction 1 as [|x l Hs IH Hall]; intros Hle; simpl.
  - repeat constructor.
  - constructor.
    + apply IH. intros e' He'. apply Hle. by right.
    + apply Forall_app. split; [done|].
      constructor; [|done]. apply Hle. by left.
Qed.

Section CollectCorrect.
Variable Rinv : St → Prop.
Hypothesis Rinv_init : Rinv init.
Hypothesis Rinv_edge : ∀ s m s', Rinv s → edge inspect s m s' → Rinv s'.
Hypothesis Rinv_view :
  ∀ s, Rinv s → inspect s = Stop ∨ ∃ next, inspect s = Grow next.
Hypothesis key_sim : ∀ s s' m t,
  Rinv s → Rinv s' → key s = key s' → edge inspect s m t →
  ∃ t', edge inspect s' m t' ∧ key t' = key t.
Hypothesis key_stop : ∀ s s',
  Rinv s → Rinv s' → key s = key s' → inspect s = Stop → inspect s' = Stop.

(** The collecting loop follows the loop that returns nothing early,
    and collects the entries dequeued at which the body stops. *)
Lemma collect_loop_inv fuel past queue visited found :
  bfs_inv key insp_c init past queue visited →
  (∀ e, e ∈ found ↔ e ∈ past ∧ inspect e.1 = Stop) →
  StronglySorted (λ e1 e2 : St * list Mv, (depth e1 ≤ depth e2)%nat) found →
  bfs_loop key insp_c fuel queue visited = Exhausted →
  ∃ past' visited' res,
    collect_loop key inspect fuel queue visited found = Returns res ∧
    bfs_inv key insp_c init past' [] visited' ∧
    (∀ e, e ∈ res ↔ e ∈ past' ∧ inspect e.1 = Stop) ∧
    StronglySorted (λ e1 e2 : St * list Mv, (depth e1 ≤ depth e2)%nat) res.
Proof.
  revert past queue visited found.
  induction fuel as [|fuel IH]; intros past queue visited found Hinv Hfound
    Hsorted; [done|].
  simpl. destruct queue as [|[s h] rest].
  - intros _. by exists past, visited, found.
  - assert (Rinv s) as HRs.
    { apply (path_Rinv inspect Rinv Rinv_edge init h s Rinv_init).
      apply path_continue.
      apply (inv_path _ _ _ _ _ _ Hinv (s, h)).
      apply elem_of_app. right. by left. }
    destruct (Rinv_view s HRs) as [Hstop|(next & Hgrow)].
    + assert (insp_c s = Grow []) as Hc
        by (unfold continue_view; by rewrite Hstop).
      rewrite Hc, Hstop. simpl. intros Hloop.
      pose proof (bfs_inv_step key insp_c init past s h rest visited []
                    Hinv Hc) as Hinv'.
      apply (IH ((s, h) :: past) rest visited); [done| | |done].
      * intros e. rewrite elem_of_app, Hfound, list_elem_of_singleton,
          elem_of_cons.
        split.
        -- intros [[? ?]| ->]; [split; [by right|done]|split; [by left|done]].
        -- intros [[->|?] ?]; [by right|by left].
      * apply sorted_snoc; [done|]. intros e' [He' _]%Hfound.
        apply (inv_done_le _ _ _ _ _ _ Hinv e' (s, h) He'). by left.
    + assert (insp_c s = Grow next) as Hc
        by (unfold continue_view; by rewrite Hgrow).
      rewrite Hc, Hgrow. intros Hloop.
      pose proof (bfs_inv_step key insp_c init past s h rest visited next
                    Hinv Hc) as Hinv'.
      apply (IH ((s, h) :: past) _ _ found Hinv'); [|done|done].
      intros e. rewrite Hfound, elem_of_cons. split.
      * intros [? ?]. split; [by right|done].
      * intros [[->|?] Hs]; [simpl in Hs; congruence|done].
Qed.

Variable U : gset K.
Hypothesis visited_in_U : ∀ past queue visited,
  bfs_inv key insp_c init past queue visited → visited ⊆ U.

(** With the keys drawn from a finite set, the collecting loop returns:
    every entry is a state the body stops at, with the history of a walk
    of the loop to it; the entries come by growing length of history;
    and every state the body stops at that a walk of the loop reaches
    has its key in the result, with a history no longer. *)
Lemma collect_correct fuel :
  (size U < fuel)%nat →
  ∃ res,
    collect key inspect fuel init = Returns res ∧
    (∀ e, e ∈ res → path inspect init e.2 e.1 ∧ inspect e.1 = Stop) ∧
    StronglySorted (λ e1 e2 : St * list Mv, (depth e1 ≤ depth e2)%nat) res ∧
    ∀ h t, path inspect init h t → inspect t = Stop →
      ∃ e, e ∈ res ∧ key e.1 = key t ∧ (depth e ≤ length h)%nat.
Proof.
  intros Hfuel.
  assert (∀ s m s', Rinv s → edge insp_c s m s' → Rinv s') as Hedge.
  { intros s m s' Hs He%edge_continue. by eapply Rinv_edge. }
  assert (∀ s, Rinv s → insp_c s = Stop ∨ ∃ next, insp_c s = Grow next)
    as Hview.
  { intros s Hs. right. unfold continue_view.
    destruct (Rinv_view s Hs) as [->|(next & ->)]; by eexists. }
  assert (∀ s s' m t, Rinv s → Rinv s' → key s = key s' → edge insp_c s m t →
            ∃ t', edge insp_c s' m t' ∧ key t' = key t) as Hsim.
  { intros s s' m t Hs Hs' Hk He%edge_continue.
    destruct (key_sim s s' m t Hs Hs' Hk He) as (t' & He' & Hk').
    exists t'. split; [by apply edge_continue|done]. }
  assert (∀ s s', Rinv s → Rinv s' → key s = key s' →
            insp_c s = Stop → insp_c s' = Stop) as Hstop.
  { intros s s' _ _ _ Hs. by apply continue_view_not_Stop in Hs. }
  pose proof (bfs_correct key insp_c init Rinv Rinv_init Hedge Hview
                Hsim Hstop U visited_in_U fuel Hfuel) as Hpost.
  unfold bfs in Hpost.
  destruct (bfs_loop key insp_c fuel [(init, [])] {[key init]})
    as [h s| | |] eqn:Hloop; simpl in Hpost; try done.
  { destruct Hpost as (_ & Hs & _). by apply continue_view_not_Stop in Hs. }
  destruct (collect_loop_inv fuel [] [(init, [])] {[key init]} []
              (bfs_inv_start key insp_c init))
    as (past & visited & res & Hres & Hinv & Hmem & Hsorted);
    [|constructor|done|].
  { intros e. split; [by intros ?%elem_of_nil|].
    by intros [?%elem_of_nil _]. }
  exists res. split_and!; [done| |done|].
  - intros e [He Hs]%Hmem. split; [|done]. apply path_continue.
    apply (inv_path _ _ _ _ _ _ Hinv). by rewrite app_nil_r.
  - intros h t Hp Ht.
    destruct (covered key insp_c init Rinv Rinv_init Hedge Hsim
                past [] visited h t Hinv) as (e & He & Hk & Hd).
    { by apply path_continue. }
    { intros e He. by apply elem_of_nil in He. }
    rewrite app_nil_r in He.
    exists e. split_and!; [|done|done]. apply Hmem. split; [done|].
    apply (key_stop t e.1); [| |done|done].
    + by apply (path_Rinv inspect Rinv Rinv_edge init h t Rinv_init).
    + apply (path_Rinv inspect Rinv Rinv_edge init e.2 e.1 Rinv_init).
      apply path_continue, (inv_path _ _ _ _ _ _ Hinv).
      by rewrite app_nil_r.
Qed.
End CollectCorrect.
End Collect.
End SweepLoops.

(** ** potentialMoves.py: the searches *)

Lemma count_loop_fuel {St Mv K : Type} `{Countable K} (key : St → K)
    (expand : St → option (list (Mv * St))) fuel fuel' queue visited total :
  (fuel ≤ fuel')%nat →
  count_loop key expand fuel queue visited total ≠ NoFuel →
  count_loop key expand fuel' queue visited total
    = count_loop key expand fuel queue visited total.
Proof.
  revert fuel' queue visited total.
  induction fuel as [|fuel IH]; intros fuel' queue visited total Hle; simpl;
    [done|].
  destruct fuel' as [|fuel']; [lia|]. simpl.
  destruct queue as [|s rest]; [done|].
  destruct (expand s); [|done]. apply IH. lia.
Qed.

Lemma collect_loop_fuel {St Mv K : Type} `{Countable K} (key : St → K)
    (inspect : St → view St Mv) fuel fuel' queue visited found :
  (fuel ≤ fuel')%nat →
  collect_loop key inspect fuel queue visited found ≠ NoFuel →
  collect_loop key inspect fuel' queue visited found
    = collect_loop key inspect fuel queue visited found.
Proof.
  revert fuel' queue visited found.
  induction fuel as [|fuel IH]; intros fuel' queue visited found Hle; simpl;
    [done|].
  destruct fuel' as [|fuel']; [lia|]. simpl.
  destruct queue as [|[s h] rest]; [done|].
  destruct (inspect s); [| |done|]; apply IH; lia.
Qed.

Section PotentialExpand.
Variables (rows cols : Z) (init : list piece).
Hypothesis init_nodup : NoDup (label <$> init).
Hypothesis init_known :
  Forall (λ p, is_Some (Potential.get_piece_dimensions p)) init.

Local Abbreviation gpd := Potential.get_piece_dimensions.
Local Abbreviation expand := (PotentialSearch.expand rows cols).
Local Abbreviation legal := (legal_step Potential.get_piece_dimensions rows cols).
Local Abbreviation anchors := (anchors_of rows cols init).

Lemma potential_known s :
  same_pieces init s → Forall (λ p, is_Some (gpd p)) s.
Proof.
  intros [_ Ht].
  eapply known_types; [apply potential_gpd_type|symmetry; apply Ht|done].
Qed.

Lemma potential_expand_view s :
  same_pieces init s →
  ∃ md, Potential.get_all_possible_moves s rows cols
          = Some (md, cache gpd <$> s) ∧
        expand s = Some (candidates (cache gpd <$> s) md).
Proof.
  intros Hs.
  destruct (get_all_possible_moves_spec gpd s rows cols (potential_known s Hs))
    as (md & b & Hgen & _).
  exists md. unfold PotentialSearch.expand, Potential.get_all_possible_moves.
  by rewrite Hgen.
Qed.

Lemma potential_expand_strip s s' next :
  strip <$> s = strip <$> s' → expand s = Some next →
  ∃ next', expand s' = Some next' ∧
    ∀ m t, (m, t) ∈ next →
      ∃ t', (m, t') ∈ next' ∧ strip <$> t = strip <$> t'.
Proof.
  intros Heq. unfold PotentialSearch.expand, Potential.get_all_possible_moves.
  pose proof (get_all_possible_moves_strip gpd potential_gpd_type s s'
                rows cols Heq) as Hgen.
  destruct (MoveGen.get_all_possible_moves _ s rows cols) as [[md ps]|],
    (MoveGen.get_all_possible_moves _ s' rows cols) as [[md' ps']|]; try done.
  destruct Hgen as (<- & -> & ->).
  intros [= <-]. eexists. split; [done|].
  intros m u Hin. eapply candidates_strip; [|done].
  by rewrite !strip_cache_list.
Qed.

Lemma potential_expand_same s next m s' :
  same_pieces init s → expand s = Some next → (m, s') ∈ next →
  same_pieces init s'.
Proof.
  intros Hs Hnext Hin.
  destruct (potential_expand_view s Hs) as (md & _ & Hexp).
  rewrite Hexp in Hnext. injection Hnext as <-.
  apply elem_of_candidates in Hin as (p & mv & _ & _ & [= _ ->]).
  apply same_pieces_move.
  eapply same_pieces_strip; [|apply Hs]. by rewrite strip_cache_list.
Qed.

Lemma potential_expand_anchored s next m s' :
  same_pieces init s → anchored anchors s →
  expand s = Some next → (m, s') ∈ next → anchored anchors s'.
Proof.
  intros Hs Hanch Hnext Hin.
  destruct (potential_expand_view s Hs) as (md & Hgen & Hexp).
  rewrite Hexp in Hnext. injection Hnext as <-.
  apply elem_of_candidates in Hin as (p' & mv & Hp' & Hm & [= _ ->]).
  apply list_elem_of_fmap in Hp' as (p & -> & Hp).
  rewrite cache_label in *.
  assert ((mv.1.2, mv.2) ∈ cells 0 0 rows cols) as Hgrid.
  { eapply (get_all_possible_moves_in_grid gpd s);
      [apply potential_gpd_pos| |done|done|done].
    destruct Hs as [-> _]. done. }
  apply Forall_forall. intros x (y & Hy & ->)%elem_of_move_piece.
  destruct (decide (label y = label p)); simpl.
  - apply elem_of_app. by right.
  - apply list_elem_of_fmap in Hy as (z & -> & Hz).
    unfold anchored in Hanch. rewrite Forall_forall in Hanch.
    specialize (Hanch z Hz).
    unfold cache. by repeat case_match.
Qed.

Lemma potential_grow_legal σ md p m :
  same_pieces init σ → disjoint_board gpd σ →
  Potential.get_all_possible_moves σ rows cols = Some (md, cache gpd <$> σ) →
  p ∈ σ →
  m ∈ md !!! label p ↔ legal_move gpd rows cols σ p m.
Proof.
  intros [Hl _] Hdis Hgen Hp.
  eapply get_all_possible_moves_legal; eauto using potential_gpd_pos.
  by rewrite Hl.
Qed.

Lemma potential_expand_to_legal s σ next mv s' :
  strip <$> s = strip <$> σ → same_pieces init σ → disjoint_board gpd σ →
  expand s = Some next → (mv, s') ∈ next →
  ∃ σ', legal σ mv σ' ∧ strip <$> s' = strip <$> σ'.
Proof.
  intros Heq Hσ Hdis Hnext Hin.
  destruct (potential_expand_strip s σ next Heq Hnext) as (next' & Hnext' & Hall).
  destruct (Hall mv s' Hin) as (t' & Hin' & Htt).
  destruct (potential_expand_view σ Hσ) as (md & Hgen & Hview).
  rewrite Hview in Hnext'. injection Hnext' as <-.
  apply elem_of_candidates in Hin' as (p' & m & Hp' & Hm & [= -> ->]).
  apply list_elem_of_fmap in Hp' as (p & -> & Hp).
  rewrite cache_label in *.
  exists (move_piece σ (label p) m.1.2 m.2). split.
  - exists p, m. split_and!; [done|done| |done].
    by apply (potential_grow_legal σ md).
  - rewrite Htt. apply move_piece_strip_eq. apply strip_cache_list.
Qed.

Lemma potential_legal_to_expand s σ mv σ' :
  strip <$> s = strip <$> σ → same_pieces init σ → disjoint_board gpd σ →
  legal σ mv σ' →
  ∃ next s', expand s = Some next ∧ (mv, s') ∈ next ∧
             strip <$> s' = strip <$> σ'.
Proof.
  intros Heq Hσ Hdis (p & m & Hp & -> & Hlegal & ->).
  destruct (potential_expand_view σ Hσ) as (md & Hgen & Hview).
  destruct (potential_expand_strip σ s _ (eq_sym Heq) Hview)
    as (next & Hnext & Hall).
  destruct (Hall (label p, m.1.1)
              (move_piece (cache gpd <$> σ) (label p) m.1.2 m.2))
    as (s' & Hin & Hss).
  { apply elem_of_candidates. exists (cache gpd p), m.
    rewrite cache_label. split_and!; [by apply list_elem_of_fmap_2| |done].
    by apply (potential_grow_legal σ md). }
  exists next, s'. split_and!; [done|done|].
  rewrite <- Hss. apply move_piece_strip_eq. apply strip_cache_list.
Qed.
End PotentialExpand.

Section PotentialCount.
Variables (rows cols : Z) (init : list piece).
Hypothesis init_nodup : NoDup (label <$> init).
Hypothesis init_known :
  Forall (λ p, is_Some (Potential.get_piece_dimensions p)) init.

Local Abbreviation gpd := Potential.get_piece_dimensions.
Local Abbreviation expand := (PotentialSearch.expand rows cols).
Local Abbreviation insp := (expand_view (PotentialSearch.expand rows cols)).
Local Abbreviation legal := (legal_step Potential.get_piece_dimensions rows cols).
Local Abbreviation anchors := (anchors_of rows cols init).

Lemma expand_view_edge s m s' :
  edge insp s m s' ↔ ∃ next, expand s = Some next ∧ (m, s') ∈ next.
Proof.
  unfold edge, expand_view. split; intros (next & Hnext & Hin); exists next.
  - destruct (expand s); [|done]. by injection Hnext as ->.
  - by rewrite Hnext.
Qed.

Lemma potential_path_legal_walk s h t :
  path insp s h t →
  ∀ σ, strip <$> s = strip <$> σ →
    same_pieces init σ → disjoint_board gpd σ →
    ∃ σt, walk legal σ h σt ∧ strip <$> t = strip <$> σt.
Proof.
  induction 1 as [s|s m s1 h t Hedge Hwalk IH]; intros σ Heq Hσ Hdis.
  - exists σ. split; [constructor|done].
  - apply expand_view_edge in Hedge as (next & Hnext & Hin).
    destruct (potential_expand_to_legal rows cols init init_nodup init_known
                s σ next m s1 Heq Hσ Hdis Hnext Hin) as (σ1 & Hstep & Heq1).
    destruct (IH σ1 Heq1) as (σt & Hw & Heqt).
    + by eapply legal_step_same.
    + apply (legal_step_disjoint gpd potential_gpd_type rows cols σ m σ1);
        [|done|done].
      destruct Hσ as [Hl _]. by rewrite Hl.
    + exists σt. split; [by eapply walk_cons|done].
Qed.

Lemma potential_legal_walk_path σ seq σf :
  walk legal σ seq σf →
  ∀ s, strip <$> s = strip <$> σ →
    same_pieces init σ → disjoint_board gpd σ →
    ∃ t, path insp s seq t ∧ strip <$> t = strip <$> σf.
Proof.
  induction 1 as [σ|σ m σ1 seq σf Hstep Hwalk IH]; intros s Heq Hσ Hdis.
  - exists s. split; [constructor|done].
  - destruct (potential_legal_to_expand rows cols init init_nodup init_known
                s σ m σ1 Heq Hσ Hdis Hstep) as (next & s1 & Hnext & Hin & Heq1).
    destruct (IH s1 Heq1) as (t & Hp & Ht).
    + by eapply legal_step_same.
    + apply (legal_step_disjoint gpd potential_gpd_type rows cols σ m σ1);
        [|done|done].
      destruct Hσ as [Hl _]. by rewrite Hl.
    + exists t. split; [|done]. eapply walk_cons; [|done].
      apply expand_view_edge. by exists next.
Qed.

(** With bounds checked, the counting loop ends, and it has counted the
    keys of the boards that legal moves reach. *)
Lemma potential_count_correct :
  disjoint_board gpd init →
  ∃ N n (V : gset (list (string * Z * Z))),
    (∀ fuel, (N ≤ fuel)%nat →
       count board_to_tuple expand fuel init = Returns n) ∧
    size V = n ∧
    ∀ k, k ∈ V ↔ ∃ seq σ, walk legal init seq σ ∧ board_to_tuple σ = k.
Proof.
  intros Hdis.
  set (U := list_to_set (C := gset (list (string * Z * Z)))
              (board_to_tuple <$> placements_over anchors (strip <$> init))).
  set (Rinv := λ s, same_pieces init s ∧ anchored anchors s).
  assert (Rinv init) as Hinit.
  { split; [done|]. apply Forall_forall. intros p Hp. apply elem_of_app. left.
    by apply (list_elem_of_fmap_2 (λ p, (row p, col p))). }
  assert (∀ s m s', Rinv s → edge insp s m s' → Rinv s') as Hedge.
  { intros s m s' [Hs Hanch] (next & Hnext & Hin)%expand_view_edge. split.
    - by eapply potential_expand_same.
    - by eapply potential_expand_anchored. }
  assert (∀ s, Rinv s → is_Some (expand s)) as Hexp.
  { intros s [Hs _].
    destruct (potential_expand_view rows cols init init_known s Hs)
      as (md & _ & ->). by eexists. }
  assert (∀ s s' m t, Rinv s → Rinv s' →
            board_to_tuple s = board_to_tuple s' → edge insp s m t →
            ∃ t', edge insp s' m t' ∧ board_to_tuple t' = board_to_tuple t)
    as Hsim.
  { intros s s' m t [Hs _] [Hs' _] Hk (next & Hnext & Hin)%expand_view_edge.
    pose proof (same_key_strip init s s' init_nodup Hs Hs' Hk) as Heq.
    destruct (potential_expand_strip rows cols s s' next Heq Hnext)
      as (next' & Hnext' & Hall).
    destruct (Hall m t Hin) as (t' & Hin' & Htt).
    exists t'. split; [apply expand_view_edge; by exists next'|].
    symmetry. by apply key_strip. }
  assert (∀ past queue visited,
            bfs_inv board_to_tuple insp init past queue visited → visited ⊆ U)
    as HU.
  { intros past queue visited Hinv k Hk.
    apply (inv_visited _ _ _ _ _ _ Hinv) in Hk as (e & He & <-).
    pose proof (inv_path _ _ _ _ _ _ Hinv e He) as Hp.
    destruct (path_Rinv insp Rinv Hedge init e.2 e.1 Hinit Hp) as [Hs Hanch].
    apply elem_of_list_to_set, list_elem_of_fmap.
    exists (strip <$> e.1). split.
    - apply key_strip. by rewrite <- list_fmap_compose.
    - by apply same_pieces_in_placements. }
  destruct (count_correct board_to_tuple expand init Rinv Hinit Hedge Hexp
              Hsim U HU (S (size U)) (Nat.lt_succ_diag_r _))
    as (n & V & Hcount & Hsize & HV).
  exists (S (size U)), n, V. split_and!; [|done|].
  - intros fuel Hfuel. unfold count in *. rewrite <- Hcount.
    apply count_loop_fuel; [done|]. by rewrite Hcount.
  - intros k. rewrite HV. split.
    + intros (h & t & Hp & <-).
      destruct (potential_path_legal_walk init h t Hp init eq_refl
                  (same_pieces_refl init) Hdis) as (σ & Hw & Heq).
      exists h, σ. split; [done|]. symmetry. by apply key_strip.
    + intros (seq & σ & Hw & <-).
      destruct (potential_legal_walk_path init seq σ Hw init eq_refl
                  (same_pieces_refl init) Hdis) as (t & Hp & Heq).
      exists seq, t. split; [done|]. by apply key_strip.
Qed.
End PotentialCount.

(** X7.  On a configuration with unique labels, known piece types and
    no two pieces overlapping, [BFS] of potentialMoves.py returns the
    number of different canonical keys among the boards that sequences
    of legal moves reach from the initial pieces (the initial board
    included). *)
Theorem potential_bfs_counts_reachable (d : puzzle_data) :
  NoDup (label <$> pieces d) →
  Forall (λ p, is_Some (Potential.get_piece_dimensions p)) (pieces d) →
  disjoint_board Potential.get_piece_dimensions (pieces d) →
  ∃ N n (V : gset (list (string * Z * Z))),
    (∀ fuel, (N ≤ fuel)%nat → PotentialSearch.BFS fuel d = Returns n) ∧
    size V = n ∧
    ∀ k, k ∈ V ↔
         ∃ seq σ,
           walk (legal_step Potential.get_piece_dimensions (rows d) (cols d))
                (pieces d) seq σ ∧
           board_to_tuple σ = k.
Proof.
  intros Hnd Hknown Hdis.
  by apply (potential_count_correct (rows d) (cols d) (pieces d)).
Qed.

Lemma potential_bfs_counts_reachable_witness :
  ∃ N n (V : gset (list (string * Z * Z))),
    (∀ fuel, (N ≤ fuel)%nat → PotentialSearch.BFS fuel two_units = Returns n) ∧
    size V = n ∧
    ∀ k, k ∈ V ↔
         ∃ seq σ,
           walk (legal_step Potential.get_piece_dimensions 2 2)
                (pieces two_units) seq σ ∧
           board_to_tuple σ = k.
Proof.
  apply (potential_bfs_counts_reachable two_units); by_decide.
Defined.

Section PotentialPaths.
Variables (rows cols : Z) (tgt : string) (init : list piece).
Hypothesis init_nodup : NoDup (label <$> init).
Hypothesis init_known :
  Forall (λ p, is_Some (Potential.get_piece_dimensions p)) init.
Hypothesis init_target : tgt ∈ label <$> init.

Local Abbreviation gpd := Potential.get_piece_dimensions.
Local Abbreviation expand := (PotentialSearch.expand rows cols).
Local Abbreviation insp := (PotentialSearch.inspect rows cols tgt).
Local Abbreviation open_step := (step_before_goal rows cols tgt).
Local Abbreviation anchors := (anchors_of rows cols init).

Lemma potential_inspect_Stop s : insp s = Stop ↔ anchor_goal rows tgt s.
Proof.
  unfold PotentialSearch.inspect, anchor_goal. split.
  - destruct (find_piece tgt s) as [t|]; [|done].
    case_bool_decide as Hg.
    + intros _. exists t. by destruct Hg.
    + by destruct (expand s).
  - intros (t & -> & Hr & Hc). by rewrite bool_decide_eq_true_2.
Qed.

Lemma anchor_goal_strip (s s' : list piece) :
  strip <$> s = strip <$> s' → anchor_goal rows tgt s → anchor_goal rows tgt s'.
Proof.
  intros Heq (t & Hfind & Hr & Hc).
  pose proof (find_piece_strip tgt s s' Heq) as Hf. rewrite Hfind in Hf.
  destruct (find_piece tgt s') as [t'|] eqn:Hfind'; [|done].
  simpl in Hf. apply (inj Some) in Hf.
  apply strip_fields in Hf as (_ & Hr' & Hc' & _).
  exists t'. split_and!; [done|congruence|congruence].
Qed.

Lemma potential_inspect_view s :
  same_pieces init s →
  insp s = Stop ∨ ∃ next, expand s = Some next ∧ insp s = Grow next.
Proof.
  intros Hs. unfold PotentialSearch.inspect.
  destruct (find_piece_elem tgt s) as [t ->]; [by destruct Hs as [-> _]|].
  case_bool_decide; [by left|right].
  destruct (potential_expand_view rows cols init init_known s Hs)
    as (md & _ & Hexp).
  rewrite Hexp. by eexists.
Qed.

Lemma potential_inspect_edge s m s' :
  edge insp s m s' ↔
  insp s ≠ Stop ∧ is_Some (find_piece tgt s) ∧
  ∃ next, expand s = Some next ∧ (m, s') ∈ next.
Proof.
  unfold edge, PotentialSearch.inspect. split.
  - intros (next & Hnext & Hin).
    destruct (find_piece tgt s) as [t|]; [|done].
    case_bool_decide; [done|].
    destruct (expand s) as [next'|]; [|done].
    injection Hnext as ->. split_and!; [done|by eexists|by exists next].
  - intros (Hnot & [t Hfind] & next & Hnext & Hin). exists next.
    rewrite Hfind in *. case_bool_decide; [done|]. by rewrite Hnext.
Qed.

Lemma potential_path_open_walk s h t :
  path insp s h t →
  ∀ σ, strip <$> s = strip <$> σ →
    same_pieces init σ → disjoint_board gpd σ →
    ∃ σt, walk open_step σ h σt ∧ strip <$> t = strip <$> σt.
Proof.
  induction 1 as [s|s m s1 h t Hedge Hwalk IH]; intros σ Heq Hσ Hdis.
  - exists σ. split; [constructor|done].
  - apply potential_inspect_edge in Hedge as (Hnot & _ & next & Hnext & Hin).
    destruct (potential_expand_to_legal rows cols init init_nodup init_known
                s σ next m s1 Heq Hσ Hdis Hnext Hin) as (σ1 & Hstep & Heq1).
    destruct (IH σ1 Heq1) as (σt & Hw & Heqt).
    + by eapply legal_step_same.
    + apply (legal_step_disjoint gpd potential_gpd_type rows cols σ m σ1);
        [|done|done].
      destruct Hσ as [Hl _]. by rewrite Hl.
    + exists σt. split; [|done]. eapply walk_cons; [|done].
      split; [|done]. intros Hgoal. apply Hnot, potential_inspect_Stop.
      by apply (anchor_goal_strip σ s).
Qed.

Lemma potential_open_walk_path σ seq σf :
  walk open_step σ seq σf →
  ∀ s, strip <$> s = strip <$> σ →
    same_pieces init σ → same_pieces init s → disjoint_board gpd σ →
    ∃ t, path insp s seq t ∧ strip <$> t = strip <$> σf.
Proof.
  induction 1 as [σ|σ m σ1 seq σf [Hnot Hstep] Hwalk IH];
    intros s Heq Hσ Hs Hdis.
  - exists s. split; [constructor|done].
  - destruct (potential_legal_to_expand rows cols init init_nodup init_known
                s σ m σ1 Heq Hσ Hdis Hstep) as (next & s1 & Hnext & Hin & Heq1).
    destruct (IH s1 Heq1) as (t & Hp & Ht).
    + exact (legal_step_same _ _ _ _ _ _ _ Hσ Hstep).
    + by eapply potential_expand_same.
    + apply (legal_step_disjoint gpd potential_gpd_type rows cols σ m σ1);
        [|done|done].
      destruct Hσ as [Hl _]. by rewrite Hl.
    + exists t. split; [|done]. eapply walk_cons; [|done].
      apply potential_inspect_edge. split_and!.
      * intros Hstop%potential_inspect_Stop. apply Hnot.
        by apply (anchor_goal_strip s σ).
      * apply find_piece_elem. by destruct Hs as [-> _].
      * by exists next.
Qed.

(** With bounds checked, the collecting loop ends with the end states
    that legal moves reach without passing an end state. *)
Lemma potential_paths_correct :
  disjoint_board gpd init →
  ∃ N res,
    (∀ fuel, (N ≤ fuel)%nat →
       collect board_to_tuple insp fuel init = Returns res) ∧
    (∀ s h, (s, h) ∈ res →
       anchor_goal rows tgt s ∧
       ∃ σ, walk open_step init h σ ∧ strip <$> s = strip <$> σ) ∧
    StronglySorted (λ e1 e2 : list piece * list step,
                      (length e1.2 ≤ length e2.2)%nat) res ∧
    ∀ seq σ, walk open_step init seq σ → anchor_goal rows tgt σ →
      ∃ s h, (s, h) ∈ res ∧ board_to_tuple s = board_to_tuple σ ∧
             (length h ≤ length seq)%nat.
Proof.
  intros Hdis.
  set (U := list_to_set (C := gset (list (string * Z * Z)))
              (board_to_tuple <$> placements_over anchors (strip <$> init))).
  set (Rinv := λ s, same_pieces init s ∧ anchored anchors s).
  assert (Rinv init) as Hinit.
  { split; [done|]. apply Forall_forall. intros p Hp. apply elem_of_app. left.
    by apply (list_elem_of_fmap_2 (λ p, (row p, col p))). }
  assert (∀ s m s', Rinv s → edge insp s m s' → Rinv s') as Hedge.
  { intros s m s' [Hs Hanch]
      (_ & _ & next & Hnext & Hin)%potential_inspect_edge. split.
    - by eapply potential_expand_same.
    - by eapply potential_expand_anchored. }
  assert (∀ s, Rinv s → insp s = Stop ∨ ∃ next, insp s = Grow next) as Hview.
  { intros s [Hs _].
    destruct (potential_inspect_view s Hs) as [?|(next & _ & ?)];
      [by left|right; by eexists]. }
  assert (∀ s s', Rinv s → Rinv s' →
            board_to_tuple s = board_to_tuple s' →
            insp s = Stop → insp s' = Stop) as Hstop.
  { intros s s' [Hs _] [Hs' _] Hk Hst%potential_inspect_Stop.
    apply potential_inspect_Stop.
    apply (anchor_goal_strip s s'); [|done].
    by apply (same_key_strip init). }
  assert (∀ s s' m t, Rinv s → Rinv s' →
            board_to_tuple s = board_to_tuple s' → edge insp s m t →
            ∃ t', edge insp s' m t' ∧ board_to_tuple t' = board_to_tuple t)
    as Hsim.
  { intros s s' m t HRs HRs' Hk
      (Hnot & _ & next & Hnext & Hin)%potential_inspect_edge.
    pose proof HRs as [Hs _]. pose proof HRs' as [Hs' _].
    pose proof (same_key_strip init s s' init_nodup Hs Hs' Hk) as Heq.
    destruct (potential_expand_strip rows cols s s' next Heq Hnext)
      as (next' & Hnext' & Hall).
    destruct (Hall m t Hin) as (t' & Hin' & Htt).
    exists t'. split; [|symmetry; by apply key_strip].
    apply potential_inspect_edge. split_and!.
    - intros Hst. apply Hnot. by apply (Hstop s' s).
    - apply find_piece_elem. by destruct Hs' as [-> _].
    - by exists next'. }
  assert (∀ past queue visited,
            bfs_inv board_to_tuple (continue_view insp) init past queue visited
            → visited ⊆ U) as HU.
  { intros past queue visited Hinv k Hk.
    apply (inv_visited _ _ _ _ _ _ Hinv) in Hk as (e & He & <-).
    pose proof (proj1 (path_continue _ _ _ _)
                  (inv_path _ _ _ _ _ _ Hinv e He)) as Hp.
    destruct (path_Rinv insp Rinv Hedge init e.2 e.1 Hinit Hp) as [Hs Hanch].
    apply elem_of_list_to_set, list_elem_of_fmap.
    exists (strip <$> e.1). split.
    - apply key_strip. by rewrite <- list_fmap_compose.
    - by apply same_pieces_in_placements. }
  destruct (collect_correct board_to_tuple insp init Rinv Hinit Hedge Hview
              Hsim Hstop U HU (S (size U)) (Nat.lt_succ_diag_r _))
    as (res & Hres & Hsound & Hsorted & Hcomplete).
  exists (S (size U)), res. split_and!; [| |done|].
  - intros fuel Hfuel. unfold collect in *. rewrite <- Hres.
    apply collect_loop_fuel; [done|]. by rewrite Hres.
  - intros s h Hin. destruct (Hsound (s, h) Hin) as [Hp Hst]. simpl in *.
    split; [by apply potential_inspect_Stop|].
    destruct (potential_path_open_walk init h s Hp init eq_refl
                (same_pieces_refl init) Hdis) as (σ & Hw & Heq).
    by exists σ.
  - intros seq σ Hw Hgoal.
    destruct (potential_open_walk_path init seq σ Hw init eq_refl
                (same_pieces_refl init) (same_pieces_refl init) Hdis)
      as (t & Hp & Heq).
    destruct (Hcomplete seq t Hp) as ([s h] & Hin & Hk & Hd).
    { apply potential_inspect_Stop. by apply (anchor_goal_strip σ t). }
    exists s, h. split_and!; [done| |done].
    simpl in Hk. rewrite Hk. by apply key_strip.
Qed.
End PotentialPaths.

(** X8.  On a configuration with unique labels, known piece types, no
    two pieces overlapping and the target among the pieces,
    [find_target_piece_paths] returns a list of pairs (board, history):
    on every board the anchor of the target is [(rows - 1, 0)], and the
    history is a sequence of legal moves from the initial pieces to that
    board that passes no such board on the way; the histories come in
    order of growing length; and every such board that legal moves reach
    without passing another has its canonical key in the list, with a
    history no longer. *)
Theorem potential_paths_found (d : puzzle_data) :
  NoDup (label <$> pieces d) →
  Forall (λ p, is_Some (Potential.get_piece_dimensions p)) (pieces d) →
  disjoint_board Potential.get_piece_dimensions (pieces d) →
  target d ∈ label <$> pieces d →
  ∃ N res,
    (∀ fuel, (N ≤ fuel)%nat →
       PotentialSearch.find_target_piece_paths fuel d = Returns res) ∧
    (∀ s h, (s, h) ∈ res →
       anchor_goal (rows d) (target d) s ∧
       ∃ σ, walk (step_before_goal (rows d) (cols d) (target d))
                 (pieces d) h σ ∧
            strip <$> s = strip <$> σ) ∧
    StronglySorted (λ e1 e2 : list piece * list step,
                      (length e1.2 ≤ length e2.2)%nat) res ∧
    ∀ seq σ,
      walk (step_before_goal (rows d) (cols d) (target d)) (pieces d) seq σ →
      anchor_goal (rows d) (target d) σ →
      ∃ s h, (s, h) ∈ res ∧ board_to_tuple s = board_to_tuple σ ∧
             (length h ≤ length seq)%nat.
Proof.
  intros Hnd Hknown Hdis Htgt.
  by apply (potential_paths_correct (rows d) (cols d) (target d) (pieces d)).
Qed.

Lemma potential_paths_found_witness :
  ∃ N res,
    (∀ fuel, (N ≤ fuel)%nat →
       PotentialSearch.find_target_piece_paths fuel two_units = Returns res) ∧
    ∀ s h, (s, h) ∈ res → anchor_goal 2 "T" s.
Proof.
  destruct (potential_paths_found two_units) as (N & res & Hres & Hsound & _);
    [by_decide..|].
  exists N, res. split; [done|]. intros s h Hin.
  by destruct (Hsound s h Hin) as [? _].
Defined.

(** X9.  Without a piece that carries the target label, the searches
    that look the target up with [next(...)] raise at the first dequeue:
    [find_target_piece_paths] of potentialMoves.py and
    [find_shortest_target_path] of simpleShortestMoves.py; the latter
    also raises when the type of the target is not known. *)
Theorem searches_raise_without_target (d : puzzle_data) (fuel : nat) :
  (target d ∉ label <$> pieces d →
   PotentialSearch.find_target_piece_paths (S fuel) d = Raises ∧
   Simple.search (S fuel) d = Raised) ∧
  (∀ t, find_piece (target d) (pieces d) = Some t →
        Simple.get_piece_dimensions t = None →
        Simple.search (S fuel) d = Raised).
Proof.
  split.
  - intros Hno.
    unfold PotentialSearch.find_target_piece_paths, collect, Simple.search, bfs.
    simpl. unfold PotentialSearch.inspect, Simple.inspect.
    by rewrite (find_piece_None _ _ Hno).
  - intros t Hfind Hd. unfold Simple.search, bfs. simpl.
    unfold Simple.inspect. by rewrite Hfind, Hd.
Qed.

Lemma searches_raise_without_target_witness :
  (PotentialSearch.find_target_piece_paths 1 malformed = Raises ∧
   Simple.search 1 malformed = Raised) ∧
  Simple.search 1 (PuzzleData 2 2 [pc "T" 0 0 "3x3"] "T") = Raised.
Proof.
  destruct (searches_raise_without_target malformed 0) as [H1 _].
  destruct (searches_raise_without_target
              (PuzzleData 2 2 [pc "T" 0 0 "3x3"] "T") 0) as [_ H2].
  split; [apply H1; by_decide|]. by apply (H2 (pc "T" 0 0 "3x3")).
Defined.

(** ** shortestMoves.py: searching from a super-state *)

Lemma find_piece_app l (s1 s2 : list piece) :
  find_piece l (s1 ++ s2)
  = match find_piece l s1 with
    | Some t => Some t
    | None => find_piece l s2
    end.
Proof.
  induction s1 as [|p s1 IH]; [done|].
  rewrite <- app_comm_cons, !find_piece_cons.
  by destruct (decide (label p = l)).
Qed.

Lemma ensure_dimensions_strip p q :
  Shortest.ensure_dimensions p = Some q → strip q = strip p.
Proof.
  unfold Shortest.ensure_dimensions, Shortest.with_dimensions.
  destruct (height p), (width p);
    try (by intros [= <-]);
    (destruct (Shortest.get_piece_dimensions p) as [[??]|]; [|done]);
    by intros [= <-].
Qed.

Lemma mapM_ensure_dimensions_strip (ps hs : list piece) :
  mapM Shortest.ensure_dimensions ps = Some hs → strip <$> hs = strip <$> ps.
Proof.
  intros Hm%mapM_Some.
  induction Hm as [|p q ps hs Hpq _ IH]; [done|].
  rewrite !fmap_cons, IH. f_equal. by apply ensure_dimensions_strip.
Qed.

Lemma block_labels (combo : list (Z * Z)) :
  length combo = 4%nat →
  label <$> imap Shortest.block combo
    = ["Block1"; "Block2"; "Block3"; "Block4"].
Proof.
  destruct combo as [|a [|b [|c [|e [|]]]]]; try done.
Qed.

(** The states of [generate_supernodes] are the hyper-state, its
    dimensions stored, followed by four blocks. *)
Lemma generate_supernodes_states hyper_state d result state :
  Shortest.generate_supernodes hyper_state d = Some result →
  state ∈ result →
  ∃ hs combo,
    mapM Shortest.ensure_dimensions hyper_state = Some hs ∧
    length combo = 4%nat ∧
    state = hs ++ imap Shortest.block combo.
Proof.
  unfold Shortest.generate_supernodes.
  destruct (mapM Shortest.ensure_dimensions hyper_state) as [hs|]; [|done].
  simpl. intros [= <-] Hin. case_decide; [|by apply elem_of_nil in Hin].
  apply list_elem_of_fmap in Hin as (combo & -> & Hc).
  apply elem_of_combinations in Hc as [_ Hlen].
  by exists hs, combo.
Qed.

(** The search from a state of [generate_supernodes]. *)
Lemma supernode_states_search (hyper_state : list piece) (d : puzzle_data)
    (result : list (list piece)) (state : list piece) (t : piece) :
  NoDup (label <$> hyper_state) →
  Forall (λ l, l ∉ label <$> hyper_state)
         ["Block1"; "Block2"; "Block3"; "Block4"] →
  find_piece (target d) hyper_state = Some t →
  Shortest.generate_supernodes hyper_state d = Some result →
  state ∈ result →
  label <$> state
    = (label <$> hyper_state) ++ ["Block1"; "Block2"; "Block3"; "Block4"] ∧
  ∃ N h,
    (∀ fuel, (N ≤ fuel)%nat →
       Shortest.find_shortest_target_path_from_state fuel state d = Some h) ∧
    Z.of_nat (length h) = Z.abs (row t - (rows d - 1)) + Z.abs (col t).
Proof.
  intros Hnd Hblocks Hfind Hgen Hstate.
  destruct (generate_supernodes_states _ _ _ _ Hgen Hstate)
    as (hs & combo & Hhs & Hlen & ->).
  pose proof (mapM_ensure_dimensions_strip _ _ Hhs) as Hstrip.
  assert (label <$> hs = label <$> hyper_state) as Hlab.
  { by rewrite <- (label_strip hs), Hstrip, label_strip. }
  assert (label <$> (hs ++ imap Shortest.block combo)
          = (label <$> hyper_state) ++ ["Block1"; "Block2"; "Block3"; "Block4"])
    as Hlabels.
  { by rewrite fmap_app, Hlab, (block_labels combo Hlen). }
  split; [done|].
  pose proof (find_piece_strip (target d) hs hyper_state Hstrip) as Hf.
  rewrite Hfind in Hf.
  destruct (find_piece (target d) hs) as [t'|] eqn:Hfind'; [|done].
  simpl in Hf. apply (inj Some) in Hf.
  apply strip_fields in Hf as (_ & Hr & Hc & _).
  rewrite <- Hr, <- Hc.
  apply shortest_returns_distance.
  - rewrite Hlabels. apply NoDup_app. split_and!; [done| |by_decide].
    intros l Hl Hb. rewrite Forall_forall in Hblocks.
    by apply (Hblocks l Hb).
  - by rewrite find_piece_app, Hfind'.
Qed.

(** X10.  Searching from a super-state.  For a hyper-state with unique
    labels, none of them [Block1] to [Block4], that holds the target:
    every state [generate_supernodes] makes of it carries the labels of
    the hyper-state followed by [Block1] to [Block4], and
    [find_shortest_target_path_from_state] run on it returns a list as
    long as the distance between the anchor of the target and the cell
    [(rows - 1, 0)], wherever the blocks are. *)
Theorem supernode_search_length (hyper_state : list piece) (d : puzzle_data)
    (result : list (list piece)) (state : list piece) (t : piece) :
  NoDup (label <$> hyper_state) →
  Forall (λ l, l ∉ label <$> hyper_state)
         ["Block1"; "Block2"; "Block3"; "Block4"] →
  find_piece (target d) hyper_state = Some t →
  Shortest.generate_supernodes hyper_state d = Some result →
  state ∈ result →
  label <$> state
    = (label <$> hyper_state) ++ ["Block1"; "Block2"; "Block3"; "Block4"] ∧
  ∃ N h,
    (∀ fuel, (N ≤ fuel)%nat →
       Shortest.find_shortest_target_path_from_state fuel state d = Some h) ∧
    Z.of_nat (length h) = Z.abs (row t - (rows d - 1)) + Z.abs (col t).
Proof. apply supernode_states_search. Qed.

Lemma supernode_search_length_witness :
  ∃ state N h,
    Shortest.generate_supernodes domino_over_target domino_and_target
      = Some [state] ∧
    (∀ fuel, (N ≤ fuel)%nat →
       Shortest.find_shortest_target_path_from_state
         fuel state domino_and_target = Some h) ∧
    Z.of_nat (length h) = 3.
Proof.
  assert (∃ state,
            Shortest.generate_supernodes domino_over_target domino_and_target
              = Some [state]) as [state Hgen].
  { eexists. by vm_compute. }
  destruct (supernode_search_length domino_over_target domino_and_target
              [state] state (Piece "T" 0 2 "1x1" (Some 1) (Some 1) None))
    as (_ & N & h & Hh & Hlen); [by_decide|by_decide|done|done|by left|].
  by exists state, N, h.
Defined.

(** ** graph/getToEnd.py: the move generator and the key *)

Lemma sized_stored p :
  sized p → ∃ h w, stored_dims p = Some (h, w) ∧ 0 < h ∧ 0 < w ∧
                   height p = Some h ∧ width p = Some w.
Proof.
  intros (h & w & Hh & Hw & ? & ? & _)%sized_dims.
  exists h, w. unfold stored_dims. by rewrite Hh, Hw.
Qed.

(** On pieces that store their dimensions, the board dictionary of
    getToEnd.py holds for every cell the label of the last piece whose
    stored footprint covers it. *)
Lemma gettoend_board_spec b (ps : list piece) :
  Forall sized ps →
  ∃ b', GetToEnd.create_board_from b ps = Some (b', ps) ∧
        ∀ cell, b' !! cell = owner stored_dims ps cell (b !! cell).
Proof.
  intros Hall. revert b.
  induction Hall as [|p ps Hp _ IH]; intros b; [by exists b|].
  cbn [GetToEnd.create_board_from owner].
  pose proof Hp as (h' & w' & _ & _ & _ & _ & [[h w] Hd])%sized_dims.
  pose proof (sized_stored p Hp) as (hs & ws & Hst & _ & _ & Hh & Hw).
  rewrite Hd, (setdefault_dims_sized p h w Hp), Hh, Hw. simpl.
  match goal with |- context [GetToEnd.create_board_from ?b0 ps] =>
    destruct (IH b0) as (b' & -> & Hb') end.
  exists b'. split; [done|]. intros cell. rewrite Hb'. f_equal.
  rewrite foldl_insert_lookup. unfold type_cells. rewrite Hst.
  by destruct (decide (cell ∈ cells (row p) (col p) hs ws)).
Qed.

(** The entries of the move dictionary of getToEnd.py are the moves
    that are legal among the pieces and the extra blocks. *)
Lemma gettoend_moves_among (ps : list piece) (extra : list (Z * Z))
    (rows cols : Z) (md : gmap string (list move)) (ps' : list piece)
    (p : piece) (m : move) :
  Forall sized ps → NoDup (label <$> ps) → disjoint_board stored_dims ps →
  GetToEnd.get_all_possible_moves ps extra rows cols = Some (md, ps') →
  p ∈ ps →
  m ∈ md !!! label p ↔ legal_among rows cols ps extra p m.
Proof.
  intros Hsized Hnd Hdis Hgen Hp.
  unfold GetToEnd.get_all_possible_moves, GetToEnd.create_board_representation
    in Hgen.
  destruct (gettoend_board_spec ∅ ps Hsized) as (b & Hb & Hlookup).
  rewrite Hb in Hgen.
  set (b' := foldl (λ b cell, <[cell:="X"]> b) b extra) in *.
  destruct (MoveGen.move_dict_from ∅ ps b' rows cols) as [md'|] eqn:Hmd;
    [|done].
  injection Hgen as <- <-.
  destruct (move_dict_from_lookup ps ∅ b' rows cols md' Hmd) as [_ Hmoves].
  rewrite Forall_forall in Hsized.
  destruct (sized_stored p (Hsized p Hp)) as (h & w & Hst & Hhpos & Hwpos & Hh & Hw).
  destruct (moves_of_spec p b' rows cols MOVES) as (ms & Hms & Hin);
    [by rewrite Hh|by rewrite Hw|].
  rewrite lookup_total_alt, (Hmoves Hnd p Hp), Hms. simpl. rewrite Hin.
  assert (∀ cell, b' !! cell
                  = if decide (cell ∈ extra) then Some "X"
                    else owner stored_dims ps cell None) as Hb'.
  { intros cell. unfold b'. rewrite foldl_insert_lookup.
    destruct (decide (cell ∈ extra)); [done|]. by rewrite Hlookup. }
  assert (∀ r c,
            MoveGen.is_valid_move p r c b' rows cols = Some true ↔
            ∀ cell, cell ∈ cells r c h w →
              in_grid rows cols cell ∧
              (cell ∈ extra → label p = "X") ∧
              (cell ∉ extra →
               ∀ q, q ∈ ps → q ≠ p → cell ∉ type_cells stored_dims q))
    as Hvalid.
  { intros r c. unfold MoveGen.is_valid_move. rewrite Hh, Hw.
    destruct ((r <? 0) || (c <? 0) || (rows <? r + h) || (cols <? c + w))
      eqn:Hbounds.
    - split; [done|]. intros Hall. exfalso.
      assert (in_grid rows cols (r, c)) as [Hr Hc].
      { apply Hall. apply elem_of_cells. simpl. lia. }
      assert (in_grid rows cols (r + h - 1, c + w - 1)) as [Hr' Hc'].
      { apply Hall. apply elem_of_cells. simpl. lia. }
      simpl in *.
      repeat (apply orb_true_iff in Hbounds as [Hbounds|Hbounds]);
        apply Z.ltb_lt in Hbounds; lia.
    - repeat (apply orb_false_iff in Hbounds as [Hbounds ?]).
      rewrite Z.ltb_ge in *. split.
      + intros [= Hall]. rewrite forallb_forall in Hall.
        intros cell Hcell. split_and!.
        * apply elem_of_cells in Hcell. unfold in_grid. lia.
        * intros Hx. apply list_elem_of_In in Hcell.
          specialize (Hall cell Hcell). rewrite Hb' in Hall.
          rewrite decide_True in Hall by done.
          by apply bool_decide_eq_true in Hall.
        * intros Hx q Hq Hne Hcq. apply list_elem_of_In in Hcell.
          specialize (Hall cell Hcell). rewrite Hb' in Hall.
          rewrite decide_False in Hall by done.
          destruct (owner_covered stored_dims ps cell None)
            as (q' & Hq' & Hcq' & Ho); [by exists q|].
          rewrite Ho in Hall. apply bool_decide_eq_true in Hall.
          assert (q' = p) as -> by (by eapply NoDup_label_inj).
          by apply (Hdis p q cell).
      + intros Hall. f_equal. apply forallb_forall. intros cell Hcell.
        apply list_elem_of_In in Hcell.
        destruct (Hall cell Hcell) as (_ & Hx & Hfree).
        rewrite Hb'. destruct (decide (cell ∈ extra)) as [Hin'|Hout].
        * apply bool_decide_eq_true. by rewrite (Hx Hin').
        * destruct (owner stored_dims ps cell None) as [l|] eqn:Ho; [|done].
          apply owner_Some in Ho as (q & Hq & Hcq & <-).
          apply bool_decide_eq_true.
          destruct (decide (q = p)) as [->|Hne]; [done|].
          by destruct (Hfree Hout q Hq Hne). }
  unfold legal_among. split.
  - intros (dr & dc & HM & Hr & Hc & Hv). exists dr, dc, h, w.
    split_and!; [done..|]. rewrite Hr, Hc. by apply Hvalid.
  - intros (dr & dc & h0 & w0 & HM & Hr & Hc & Hst' & Hall).
    rewrite Hst in Hst'. injection Hst' as <- <-.
    exists dr, dc. split_and!; [done..|]. apply Hvalid.
    by rewrite <- Hr, <- Hc.
Qed.

(** X11.  The move generator of getToEnd.py.  On pieces with unique
    labels and known types (1x1, 1x2, 2x1) that store positive
    dimensions and whose footprints, of the stored dimensions, do not
    overlap, [get_all_possible_moves] returns, leaves the pieces as they are,
    and lists a move for a piece exactly when the shifted footprint
    lies in the grid, holds no extra block and no cell of another
    piece; a piece labelled ["X"] is the exception: the extra blocks,
    written into the board under that label, do not stop it (on such a
    cell not even another piece does). *)
Theorem gettoend_moves_legal (ps : list piece) (extra : list (Z * Z))
    (rows cols : Z) :
  Forall sized ps → NoDup (label <$> ps) → disjoint_board stored_dims ps →
  ∃ md, GetToEnd.get_all_possible_moves ps extra rows cols = Some (md, ps) ∧
        ∀ p m, p ∈ ps →
          m ∈ md !!! label p ↔ legal_among rows cols ps extra p m.
Proof.
  intros Hsized Hnd Hdis.
  destruct (gettoend_moves_sized ps extra rows cols Hsized)
    as (md & b & Hgen & _).
  exists md. split; [done|]. intros p m Hp.
  by apply (gettoend_moves_among ps extra rows cols md ps).
Qed.

Lemma gettoend_moves_legal_witness :
  ∃ md,
    GetToEnd.get_all_possible_moves
      [Piece "H" 0 0 "1x2" (Some 1) (Some 2) None;
       Piece "A" 1 0 "1x1" (Some 1) (Some 1) None] [(1, 1)] 2 3
    = Some (md, [Piece "H" 0 0 "1x2" (Some 1) (Some 2) None;
                 Piece "A" 1 0 "1x1" (Some 1) (Some 1) None]) ∧
    ∀ p m,
      p ∈ [Piece "H" 0 0 "1x2" (Some 1) (Some 2) None;
           Piece "A" 1 0 "1x1" (Some 1) (Some 1) None] →
      m ∈ md !!! label p ↔
      legal_among 2 3 [Piece "H" 0 0 "1x2" (Some 1) (Some 2) None;
                       Piece "A" 1 0 "1x1" (Some 1) (Some 1) None]
                  [(1, 1)] p m.
Proof.
  apply (gettoend_moves_legal
           [Piece "H" 0 0 "1x2" (Some 1) (Some 2) None;
            Piece "A" 1 0 "1x1" (Some 1) (Some 1) None] [(1, 1)] 2 3);
    by_decide.
Defined.

(** ** graph/getToEnd.py: the search from a super node *)

Lemma gettoend_dims_positive p h w :
  GetToEnd.get_piece_dimensions p = Some (h, w) → 0 < h ∧ 0 < w.
Proof.
  unfold GetToEnd.get_piece_dimensions.
  repeat case_decide; intros [= <- <-]; lia.
Qed.

Lemma stored_label p : label (stored p) = label p.
Proof. unfold stored. by repeat case_match. Qed.

Lemma stored_labels (ps : list piece) : label <$> (stored <$> ps) = label <$> ps.
Proof.
  rewrite <- list_fmap_compose. apply list_fmap_ext. intros i p _.
  apply stored_label.
Qed.

Lemma stored_triples (ps : list piece) :
  triple <$> (stored <$> ps) = triple <$> ps.
Proof.
  rewrite <- list_fmap_compose. apply list_fmap_ext. intros i p _.
  unfold stored. simpl. by repeat case_match.
Qed.

Lemma stored_sized p : sizable p → sized (stored p).
Proof.
  intros ([[h w] Hd] & Hh & Hw). unfold stored. rewrite Hd.
  destruct (gettoend_dims_positive p h w Hd) as [Hhpos Hwpos].
  unfold sized. simpl. split_and!.
  - by destruct (height p).
  - by destruct (width p).
  - unfold GetToEnd.get_piece_dimensions in *. simpl. by rewrite Hd.
Qed.

(** [create_board_representation] stores the dimensions of the pieces
    that lack them; doing it again changes nothing. *)
Lemma gettoend_create_board_sizable b (ps : list piece) :
  Forall sizable ps →
  ∃ b', GetToEnd.create_board_from b ps = Some (b', stored <$> ps) ∧
        GetToEnd.create_board_from b (stored <$> ps)
          = Some (b', stored <$> ps).
Proof.
  intros Hall. revert b.
  induction Hall as [|p ps Hp _ IH]; intros b; [by exists b|].
  pose proof (stored_sized p Hp) as Hsz.
  destruct Hp as ([[h w] Hd] & _).
  rewrite fmap_cons. cbn [GetToEnd.create_board_from].
  assert (GetToEnd.get_piece_dimensions (stored p) = Some (h, w)) as Hd'.
  { unfold stored. rewrite Hd. unfold GetToEnd.get_piece_dimensions in *.
    simpl. by rewrite Hd. }
  rewrite Hd, Hd', (setdefault_dims_sized (stored p) h w Hsz).
  assert (stored p = GetToEnd.setdefault_dims p h w) as Hst
    by (unfold stored; by rewrite Hd).
  rewrite <- Hst.
  assert (default h (height (stored p)) = default h (height p)
          ∧ default w (width (stored p)) = default w (width p)
          ∧ row (stored p) = row p ∧ col (stored p) = col p
          ∧ label (stored p) = label p)
    as (-> & -> & Hr & Hc & Hl).
  { rewrite Hst. simpl. done. }
  rewrite !Hr, !Hc, !Hl.
  match goal with |- context [GetToEnd.create_board_from ?b0 ps] =>
    destruct (IH b0) as (b' & -> & ->) end.
  by exists b'.
Qed.

Lemma gettoend_expand_stored rows cols (ps : list piece) extra :
  Forall sizable ps →
  GetToEnd.expand rows cols (GetToEnd.State ps extra)
  = GetToEnd.expand rows cols (GetToEnd.State (stored <$> ps) extra).
Proof.
  intros Hall. unfold GetToEnd.expand, GetToEnd.get_all_possible_moves,
    GetToEnd.create_board_representation. simpl.
  by destruct (gettoend_create_board_sizable ∅ ps Hall) as (b & -> & ->).
Qed.

(** A search started from a state that is not a goal runs like the
    search started from a state with the same key and the same
    successors. *)
Lemma bfs_same_start {St Mv K : Type} `{Countable K} (key : St → K)
    (insp : St → view St Mv) fuel (init init' : St) :
  key init = key init' → insp init = insp init' → insp init ≠ Stop →
  bfs key insp fuel init = bfs key insp fuel init'.
Proof.
  intros Hk Hi Hstop. unfold bfs. rewrite Hk.
  destruct fuel; [done|]. simpl. rewrite <- Hi.
  by destruct (insp init).
Qed.

Lemma gettoend_path_frame rows cols tgt (init s : GetToEnd.state) h :
  NoDup (label <$> GetToEnd.pieces init) →
  Forall sized (GetToEnd.pieces init) →
  path (GetToEnd.inspect rows cols tgt) init h s → same_frame init s.
Proof.
  intros Hnd Hsized Hp.
  assert (same_frame init init
          ∧ anchored (anchors_of rows cols (GetToEnd.pieces init))
                     (GetToEnd.pieces init)) as Hinit.
  { split; [done|]. apply Forall_forall. intros p Hp'. apply elem_of_app.
    left. by apply (list_elem_of_fmap_2 (λ p, (row p, col p))). }
  by destruct (path_Rinv (GetToEnd.inspect rows cols tgt) _
                 (gettoend_edge_frame rows cols tgt init Hnd Hsized)
                 init h s Hinit Hp).
Qed.

(** Without a piece of the target label the search exhausts the states
    it can reach. *)
Lemma gettoend_no_target_exhausts (init : GetToEnd.state)
    (d : puzzle_data) (tgt : string) :
  NoDup (label <$> GetToEnd.pieces init) →
  Forall sizable (GetToEnd.pieces init) →
  tgt ∉ label <$> GetToEnd.pieces init →
  ∃ N, ∀ fuel, (N ≤ fuel)%nat →
    GetToEnd.find_shortest_path_from_supernode fuel init d tgt
    = Some GetToEnd.NoSolution.
Proof.
  intros Hnd Hall Htgt.
  set (init' := GetToEnd.State (stored <$> GetToEnd.pieces init)
                               (GetToEnd.extra_blocks init)).
  assert (NoDup (label <$> GetToEnd.pieces init')) as Hnd'
    by (simpl; by rewrite stored_labels).
  assert (Forall sized (GetToEnd.pieces init')) as Hsized'.
  { simpl. apply Forall_fmap. eapply Forall_impl; [exact Hall|].
    apply stored_sized. }
  assert (GetToEnd.board_to_tuple init = GetToEnd.board_to_tuple init') as Hkey.
  { unfold GetToEnd.board_to_tuple. simpl. by rewrite stored_triples. }
  assert (GetToEnd.inspect (rows d) (cols d) tgt init
          = GetToEnd.inspect (rows d) (cols d) tgt init') as Hinsp.
  { unfold GetToEnd.inspect. simpl.
    rewrite !find_piece_None; [|by rewrite stored_labels|done].
    destruct init as [ps extra]. by apply gettoend_expand_stored. }
  assert (GetToEnd.inspect (rows d) (cols d) tgt init ≠ Stop) as Hstop.
  { unfold GetToEnd.inspect. rewrite find_piece_None by done.
    apply gettoend_expand_not_Stop. }
  destruct (gettoend_search_ends (rows d) (cols d) tgt init' Hnd' Hsized')
    as [N HN].
  exists N. intros fuel Hfuel. specialize (HN fuel Hfuel).
  unfold GetToEnd.find_shortest_path_from_supernode, GetToEnd.search.
  rewrite (bfs_same_start _ _ fuel init init' Hkey Hinsp Hstop).
  destruct (bfs _ _ fuel init') as [h s| | |]; simpl in HN; try done.
  exfalso. destruct HN as (Hp & Hs & _).
  apply gettoend_inspect_Stop in Hs as (t & _ & _ & Hfind & _).
  pose proof (gettoend_path_frame _ _ _ _ _ _ Hnd' Hsized' Hp) as [Hf _].
  rewrite find_piece_None in Hfind; [done|].
  rewrite (unplaced_labels _ _ Hf). simpl. by rewrite stored_labels.
Qed.

(** X12.  A super node without the target piece.  When no piece of the
    initial state carries the target label (the labels are unique, the
    types known and the stored dimensions, if any, positive),
    [find_shortest_path_from_supernode] explores every state it can
    reach and then returns the pair [(None, None)]: it neither raises
    nor reports a solution. *)
Theorem gettoend_absent_target_no_solution (init : GetToEnd.state)
    (d : puzzle_data) (tgt : string) :
  NoDup (label <$> GetToEnd.pieces init) →
  Forall sizable (GetToEnd.pieces init) →
  tgt ∉ label <$> GetToEnd.pieces init →
  ∃ N, ∀ fuel, (N ≤ fuel)%nat →
    GetToEnd.find_shortest_path_from_supernode fuel init d tgt
    = Some GetToEnd.NoSolution.
Proof. apply gettoend_no_target_exhausts. Qed.

Lemma gettoend_absent_target_no_solution_witness :
  ∃ N, ∀ fuel, (N ≤ fuel)%nat →
    GetToEnd.find_shortest_path_from_supernode fuel
      (GetToEnd.State [pc "H" 0 0 "1x2"] [(1, 1)])
      (PuzzleData 2 2 [pc "H" 0 0 "1x2"; pc "T" 1 0 "1x1"] "T") "T"
    = Some GetToEnd.NoSolution.
Proof.
  apply (gettoend_absent_target_no_solution
           (GetToEnd.State [pc "H" 0 0 "1x2"] [(1, 1)])
           (PuzzleData 2 2 [pc "H" 0 0 "1x2"; pc "T" 1 0 "1x1"] "T") "T");
    by_decide.
Defined.

(** X13.  A target without stored dimensions.  When the target piece of
    the initial state lacks the key ["height"] or the key ["width"],
    [find_shortest_path_from_supernode] raises at once: the goal test
    of the first state dequeued reads both keys before any board is
    built. *)
Theorem gettoend_unsized_target_raises (init : GetToEnd.state)
    (d : puzzle_data) (tgt : string) (t : piece) (fuel : nat) :
  find_piece tgt (GetToEnd.pieces init) = Some t →
  height t = None ∨ width t = None →
  GetToEnd.search (S fuel) init d tgt = Raised ∧
  GetToEnd.find_shortest_path_from_supernode (S fuel) init d tgt = None.
Proof.
  intros Hfind Hdims.
  assert (GetToEnd.search (S fuel) init d tgt = Raised) as Hs.
  { unfold GetToEnd.search, bfs. simpl. unfold GetToEnd.inspect.
    rewrite Hfind. unfold GetToEnd.target_piece_in_bottom_left.
    destruct Hdims as [-> | ->]; [done|]. by destruct (height t). }
  split; [done|].
  unfold GetToEnd.find_shortest_path_from_supernode. by rewrite Hs.
Qed.

Lemma gettoend_unsized_target_raises_witness :
  GetToEnd.search 1 (GetToEnd.State [pc "T" 1 0 "1x2"] [])
                  (PuzzleData 2 2 [pc "T" 1 0 "1x2"] "T") "T" = Raised ∧
  GetToEnd.find_shortest_path_from_supernode
    1 (GetToEnd.State [pc "T" 1 0 "1x2"] [])
    (PuzzleData 2 2 [pc "T" 1 0 "1x2"] "T") "T" = None.
Proof.
  apply (gettoend_unsized_target_raises
           (GetToEnd.State [pc "T" 1 0 "1x2"] [])
           (PuzzleData 2 2 [pc "T" 1 0 "1x2"] "T") "T" (pc "T" 1 0 "1x2") 0).
  - reflexivity.
  - left. reflexivity.
Defined.

Lemma move_first_move_piece (ps : list piece) p r c :
  NoDup (label <$> ps) → p ∈ ps →
  GetToEnd.move_first ps (label p) r c = move_piece ps (label p) r c.
Proof.
  induction ps as [|q ps IH]; intros Hnd Hp; [by apply elem_of_nil in Hp|].
  rewrite fmap_cons in Hnd. apply NoDup_cons in Hnd as [Hq Hnd].
  unfold move_piece in *. simpl.
  apply elem_of_cons in Hp as [->|Hp].
  - rewrite !decide_True by done. f_equal.
    symmetry. rewrite <- (list_fmap_id ps) at 2.
    apply list_fmap_ext. intros i x Hx. simpl.
    rewrite decide_False; [done|]. intros Hl. apply Hq. rewrite <- Hl.
    apply list_elem_of_fmap_2. by eapply list_elem_of_lookup_2.
  - assert (label q ≠ label p) as Hne.
    { intros Hl. apply Hq. rewrite Hl. by apply list_elem_of_fmap_2. }
    rewrite !decide_False by done. f_equal. by apply IH.
Qed.

(** A move that is legal among the pieces and the extra blocks keeps
    the pieces apart, when the piece is not labelled ["X"]. *)
Lemma among_step_disjoint rows cols extra (s : list piece) mv s' :
  NoDup (label <$> s) → "X" ∉ label <$> s → disjoint_board stored_dims s →
  among_step rows cols extra s mv s' → disjoint_board stored_dims s'.
Proof.
  intros Hnd HX Hdis (p & m & Hp & -> & Hlegal & ->).
  rewrite (move_first_move_piece s p _ _ Hnd Hp).
  destruct Hlegal as (dr & dc & h & w & _ & _ & _ & Hd & Hcells).
  assert (label p ≠ "X") as HpX.
  { intros Hl. apply HX. rewrite <- Hl. by apply list_elem_of_fmap_2. }
  assert (∀ y, y ∈ s → label y = label p → y = p) as Hsame.
  { intros y Hy Hl. by eapply NoDup_label_inj. }
  assert (∀ r c, type_cells stored_dims (set_pos p r c) = cells r c h w)
    as Hmoved.
  { intros r c. unfold type_cells, stored_dims in *. simpl. by rewrite Hd. }
  assert (∀ cell y, cell ∈ cells m.1.2 m.2 h w → y ∈ s → y ≠ p →
                    cell ∉ type_cells stored_dims y) as Hfree.
  { intros cell y Hcell Hy Hne.
    destruct (Hcells cell Hcell) as (_ & Hin & Hout).
    destruct (decide (cell ∈ extra)) as [Hx|Hx]; [by destruct (HpX (Hin Hx))|].
    by apply Hout. }
  intros x y cell (x0 & Hx0 & ->)%elem_of_move_piece
    (y0 & Hy0 & ->)%elem_of_move_piece Hne Hcx Hcy.
  destruct (decide (label x0 = label p)) as [Hlx|Hlx],
    (decide (label y0 = label p)) as [Hly|Hly].
  - rewrite (Hsame x0 Hx0 Hlx), (Hsame y0 Hy0 Hly) in Hne. done.
  - rewrite (Hsame x0 Hx0 Hlx), Hmoved in Hcx.
    assert (y0 ≠ p) as Hyp by (intros ->; done).
    by apply (Hfree cell y0).
  - rewrite (Hsame y0 Hy0 Hly), Hmoved in Hcy.
    assert (x0 ≠ p) as Hxp by (intros ->; done).
    by apply (Hfree cell x0).
  - assert (x0 ≠ y0) as Hxy by (intros ->; done).
    by apply (Hdis x0 y0 cell Hx0 Hy0 Hxy).
Qed.

Section GetToEndLegal.
Variables (rows cols : Z) (tgt : string) (init : GetToEnd.state).
Hypothesis init_nodup : NoDup (label <$> GetToEnd.pieces init).
Hypothesis init_sized : Forall sized (GetToEnd.pieces init).
Hypothesis init_disjoint : disjoint_board stored_dims (GetToEnd.pieces init).
Hypothesis init_no_X : "X" ∉ label <$> GetToEnd.pieces init.

Local Abbreviation insp := (GetToEnd.inspect rows cols tgt).
Local Abbreviation extra := (GetToEnd.extra_blocks init).
Local Abbreviation among := (among_step rows cols extra).

Local Abbreviation apart := (apart init).

Lemma apart_init : apart init.
Proof. by split. Qed.

(** A state that is no goal is expanded by the moves that are legal
    among its pieces and the extra blocks. *)
Lemma apart_view s :
  apart s →
  insp s = Stop ∨
  ∃ md, insp s = Grow (GetToEnd.candidates (GetToEnd.pieces s) extra md) ∧
        ∀ p m, p ∈ GetToEnd.pieces s →
          m ∈ md !!! label p
          ↔ legal_among rows cols (GetToEnd.pieces s) extra p m.
Proof.
  intros [Hs Hdis].
  pose proof (frame_sized init init_sized s Hs) as Hsized.
  pose proof (frame_nodup init init_nodup s Hs) as Hnd.
  destruct (gettoend_moves_sized (GetToEnd.pieces s) extra rows cols Hsized)
    as (md & b & Hgen & _).
  assert (GetToEnd.expand rows cols s
          = Grow (GetToEnd.candidates (GetToEnd.pieces s) extra md)) as Hexp.
  { unfold GetToEnd.expand. destruct Hs as [_ ->]. by rewrite Hgen. }
  assert (insp s = Stop ∨ insp s = GetToEnd.expand rows cols s) as [?|Hi].
  { unfold GetToEnd.inspect.
    destruct (find_piece tgt (GetToEnd.pieces s)) as [t|] eqn:Hfind;
      [|by right].
    apply find_piece_Some in Hfind as [Ht _].
    rewrite Forall_forall in Hsized.
    destruct (sized_dims t (Hsized t Ht)) as (h & w & Hh & Hw & _).
    unfold GetToEnd.target_piece_in_bottom_left. rewrite Hh, Hw.
    case_bool_decide; [by left|by right]. }
  { by left. }
  right. exists md. split; [by rewrite Hi|].
  intros p m Hp.
  by apply (gettoend_moves_among (GetToEnd.pieces s) extra rows cols md
              (GetToEnd.pieces s)).
Qed.

Lemma apart_edge s m s' :
  apart s → edge insp s m s' →
  among (GetToEnd.pieces s) m (GetToEnd.pieces s') ∧ apart s'.
Proof.
  intros Hs (next & Hnext & Hin).
  destruct (apart_view s Hs) as [Hstop|(md & Hview & Hmd)]; [congruence|].
  rewrite Hview in Hnext. injection Hnext as <-.
  apply elem_of_gettoend_candidates in Hin as (p & mv & Hp & Hm & [= -> ->]).
  assert (among (GetToEnd.pieces s) (label p, mv.1.1)
                (GetToEnd.move_first (GetToEnd.pieces s) (label p) mv.1.2 mv.2))
    as Hstep.
  { exists p, mv. split_and!; [done|done| |done]. by apply Hmd. }
  destruct Hs as [[Hf Hx] Hdis]. simpl. split; [done|]. split.
  - split; simpl; [|done]. by rewrite move_first_unplaced.
  - eapply (among_step_disjoint rows cols extra (GetToEnd.pieces s));
      [| |exact Hdis|exact Hstep].
    + by rewrite (unplaced_labels _ _ Hf).
    + by rewrite (unplaced_labels _ _ Hf).
Qed.

Lemma apart_step s m σ :
  apart s → insp s ≠ Stop → among (GetToEnd.pieces s) m σ →
  edge insp s m (GetToEnd.State σ extra).
Proof.
  intros Hs Hstop (p & mv & Hp & -> & Hlegal & ->).
  destruct (apart_view s Hs) as [?|(md & Hview & Hmd)]; [done|].
  exists (GetToEnd.candidates (GetToEnd.pieces s) extra md).
  split; [done|]. apply elem_of_gettoend_candidates.
  exists p, mv. split_and!; [done| |done]. by apply Hmd.
Qed.

Lemma apart_path_walk s h t :
  apart s → path insp s h t →
  walk among (GetToEnd.pieces s) h (GetToEnd.pieces t) ∧ apart t.
Proof.
  intros Hs Hp. induction Hp as [s|s m s1 h t Hedge _ IH].
  - split; [constructor|done].
  - destruct (apart_edge s m s1 Hs Hedge) as [Hstep Hs1].
    destruct (IH Hs1) as [Hw Ht]. split; [|done]. by econstructor.
Qed.

(** A sequence of legal moves that ends in a goal state passes through
    a state the search stops at. *)
Lemma apart_walk_path h' : ∀ s σ,
  apart s → walk among (GetToEnd.pieces s) h' σ →
  corner_goal rows tgt (GetToEnd.State σ extra) →
  ∃ h t, path insp s h t ∧ insp t = Stop ∧ (length h ≤ length h')%nat.
Proof.
  induction h' as [|m h' IH]; intros s σ Hs Hw Hgoal.
  - inversion Hw; subst. exists [], s. split_and!; [constructor| |done].
    apply gettoend_inspect_Stop. destruct Hs as [[_ Hx] _].
    destruct s as [ps ex]. simpl in *. by subst.
  - destruct (apart_view s Hs) as [Hstop|(md & Hview & _)].
    + exists [], s. split_and!; [constructor|done|simpl; lia].
    + assert (insp s ≠ Stop) as Hstop by congruence.
      inversion Hw as [|? ? σ1 ? ? Hstep Hrest]; subst.
      pose proof (apart_step s m σ1 Hs Hstop Hstep) as Hedge.
      destruct (apart_edge s m _ Hs Hedge) as [_ Hs1].
      destruct (IH (GetToEnd.State σ1 extra) σ Hs1 Hrest Hgoal)
        as (h & t & Hp & Ht & Hlen).
      exists (m :: h), t. split_and!; [by econstructor|done|simpl; lia].
Qed.

Lemma gettoend_legal_correct :
  ∃ N r,
    (∀ fuel, (N ≤ fuel)%nat →
       match bfs GetToEnd.board_to_tuple insp fuel init with
       | Found h s => Some (GetToEnd.Solution h s)
       | Exhausted => Some GetToEnd.NoSolution
       | _ => None
       end = Some r) ∧
    match r with
    | GetToEnd.Solution h s =>
        walk among (GetToEnd.pieces init) h (GetToEnd.pieces s) ∧
        GetToEnd.extra_blocks s = extra ∧
        corner_goal rows tgt s ∧
        ∀ h' σ, walk among (GetToEnd.pieces init) h' σ →
                corner_goal rows tgt (GetToEnd.State σ extra) →
                (length h ≤ length h')%nat
    | GetToEnd.NoSolution =>
        ∀ h' σ, walk among (GetToEnd.pieces init) h' σ →
                ¬ corner_goal rows tgt (GetToEnd.State σ extra)
    end.
Proof.
  destruct (gettoend_search_ends rows cols tgt init init_nodup init_sized)
    as [N HN].
  assert (∀ fuel, (N ≤ fuel)%nat →
            bfs GetToEnd.board_to_tuple insp fuel init
            = bfs GetToEnd.board_to_tuple insp N init) as Hsame.
  { intros fuel Hfuel. unfold bfs.
    apply bfs_loop_fuel; [done|].
    specialize (HN N (le_n N)). unfold bfs in HN.
    by destruct (bfs_loop _ _ N _ _). }
  pose proof (HN N (le_n N)) as Hpost.
  destruct (bfs GetToEnd.board_to_tuple insp N init) as [h s| | |] eqn:Hres;
    simpl in Hpost; try done.
  - exists N, (GetToEnd.Solution h s). split.
    { intros fuel Hfuel. by rewrite (Hsame fuel Hfuel). }
    destruct Hpost as (Hp & Hstop & Hmin).
    destruct (apart_path_walk init h s apart_init Hp) as [Hw [[_ Hx] _]].
    split; [done|]. split; [done|].
    split; [by apply (gettoend_inspect_Stop rows cols tgt s)|].
    intros h' σ Hw' Hgoal.
    destruct (apart_walk_path h' init σ apart_init Hw' Hgoal)
      as (h0 & t & Hp0 & Ht & Hlen).
    specialize (Hmin h0 t Hp0 Ht). lia.
  - exists N, GetToEnd.NoSolution. split.
    { intros fuel Hfuel. by rewrite (Hsame fuel Hfuel). }
    intros h' σ Hw' Hgoal.
    destruct (apart_walk_path h' init σ apart_init Hw' Hgoal)
      as (h0 & t & Hp0 & Ht & _).
    by apply (Hpost h0 t Hp0).
Qed.
End GetToEndLegal.

(** X14.  The search from a super node, in terms of the puzzle.  From a
    state whose pieces have unique labels, none of them ["X"], have
    known types (1x1, 1x2, 2x1), store positive dimensions and do not
    overlap in the footprints of these dimensions,
    [find_shortest_path_from_supernode] returns.  A returned pair
    [(move_history, current_state)] is a sequence of moves, each legal
    among the pieces and the extra blocks, that leads from the initial
    pieces to those of [current_state], where the target covers the
    cell [(rows - 1, 0)]; the extra blocks are unchanged, and no
    shorter sequence of such moves reaches such a state.  The pair
    [(None, None)] means that no sequence of such moves does. *)
Theorem gettoend_search_shortest (init : GetToEnd.state) (d : puzzle_data)
    (tgt : string) :
  NoDup (label <$> GetToEnd.pieces init) →
  Forall sized (GetToEnd.pieces init) →
  disjoint_board stored_dims (GetToEnd.pieces init) →
  "X" ∉ label <$> GetToEnd.pieces init →
  ∃ N r,
    (∀ fuel, (N ≤ fuel)%nat →
       GetToEnd.find_shortest_path_from_supernode fuel init d tgt = Some r) ∧
    match r with
    | GetToEnd.Solution h s =>
        walk (among_step (rows d) (cols d) (GetToEnd.extra_blocks init))
             (GetToEnd.pieces init) h (GetToEnd.pieces s) ∧
        GetToEnd.extra_blocks s = GetToEnd.extra_blocks init ∧
        corner_goal (rows d) tgt s ∧
        ∀ h' σ,
          walk (among_step (rows d) (cols d) (GetToEnd.extra_blocks init))
               (GetToEnd.pieces init) h' σ →
          corner_goal (rows d) tgt
                      (GetToEnd.State σ (GetToEnd.extra_blocks init)) →
          (length h ≤ length h')%nat
    | GetToEnd.NoSolution =>
        ∀ h' σ,
          walk (among_step (rows d) (cols d) (GetToEnd.extra_blocks init))
               (GetToEnd.pieces init) h' σ →
          ¬ corner_goal (rows d) tgt
                        (GetToEnd.State σ (GetToEnd.extra_blocks init))
    end.
Proof.
  intros Hnd Hsized Hdis HX.
  exact (gettoend_legal_correct (rows d) (cols d) tgt init Hnd Hsized Hdis HX).
Qed.

Lemma gettoend_search_shortest_witness :
  ∃ N r,
    (∀ fuel, (N ≤ fuel)%nat →
       GetToEnd.find_shortest_path_from_supernode fuel
         (GetToEnd.State [Piece "T" 0 0 "1x1" (Some 1) (Some 1) None;
                          Piece "H" 1 1 "1x2" (Some 1) (Some 2) None]
                         [(0, 1)])
         (PuzzleData 2 3 [] "T") "T" = Some r) ∧
    match r with
    | GetToEnd.Solution h s =>
        walk (among_step 2 3 [(0, 1)])
             [Piece "T" 0 0 "1x1" (Some 1) (Some 1) None;
              Piece "H" 1 1 "1x2" (Some 1) (Some 2) None]
             h (GetToEnd.pieces s) ∧
        GetToEnd.extra_blocks s = [(0, 1)] ∧
        corner_goal 2 "T" s ∧
        ∀ h' σ,
          walk (among_step 2 3 [(0, 1)])
               [Piece "T" 0 0 "1x1" (Some 1) (Some 1) None;
                Piece "H" 1 1 "1x2" (Some 1) (Some 2) None] h' σ →
          corner_goal 2 "T" (GetToEnd.State σ [(0, 1)]) →
          (length h ≤ length h')%nat
    | GetToEnd.NoSolution =>
        ∀ h' σ,
          walk (among_step 2 3 [(0, 1)])
               [Piece "T" 0 0 "1x1" (Some 1) (Some 1) None;
                Piece "H" 1 1 "1x2" (Some 1) (Some 2) None] h' σ →
          ¬ corner_goal 2 "T" (GetToEnd.State σ [(0, 1)])
    end.
Proof.
  apply (gettoend_search_shortest
           (GetToEnd.State [Piece "T" 0 0 "1x1" (Some 1) (Some 1) None;
                            Piece "H" 1 1 "1x2" (Some 1) (Some 2) None]
                           [(0, 1)])
           (PuzzleData 2 3 [] "T") "T"); by_decide.
Defined.

(** ** graph/getToEnd.py: hyper nodes and super nodes *)

Lemma NoDup_range n : NoDup (range n).
Proof.
  unfold range. apply NoDup_fmap_2; [|apply NoDup_seq].
  intros ?? ?. lia.
Qed.

Lemma NoDup_placements_h rows cols : NoDup (Shortest.placements_h rows cols).
Proof.
  unfold Shortest.placements_h. apply NoDup_bind; [| |apply NoDup_range].
  - intros r1 r2 pl _ _ (c1 & Hpl1 & _)%list_elem_of_bind
      (c2 & Hpl2 & _)%list_elem_of_bind.
    apply list_elem_of_singleton in Hpl1, Hpl2. congruence.
  - intros r _. apply NoDup_bind; [| |apply NoDup_range].
    + intros c1 c2 pl _ _ Hpl1 Hpl2.
      apply list_elem_of_singleton in Hpl1, Hpl2. congruence.
    + intros c _. apply NoDup_singleton.
Qed.

Lemma NoDup_placements_v rows cols : NoDup (Shortest.placements_v rows cols).
Proof.
  unfold Shortest.placements_v. apply NoDup_bind; [| |apply NoDup_range].
  - intros r1 r2 pl _ _ (c1 & Hpl1 & _)%list_elem_of_bind
      (c2 & Hpl2 & _)%list_elem_of_bind.
    apply list_elem_of_singleton in Hpl1, Hpl2. congruence.
  - intros r _. apply NoDup_bind; [| |apply NoDup_range].
    + intros c1 c2 pl _ _ Hpl1 Hpl2.
      apply list_elem_of_singleton in Hpl1, Hpl2. congruence.
    + intros c _. apply NoDup_singleton.
Qed.

Lemma NoDup_cells r0 c0 h w : NoDup (cells r0 c0 h w).
Proof.
  unfold cells. apply NoDup_bind; [| |apply NoDup_range].
  - intros r1 r2 cell _ _ (c1 & Hc1 & _)%list_elem_of_bind
      (c2 & Hc2 & _)%list_elem_of_bind.
    apply list_elem_of_singleton in Hc1, Hc2.
    assert (r0 + r1 = r0 + r2) by congruence. lia.
  - intros r _. apply NoDup_bind; [| |apply NoDup_range].
    + intros c1 c2 cell _ _ Hc1 Hc2.
      apply list_elem_of_singleton in Hc1, Hc2.
      assert (c0 + c1 = c0 + c2) by congruence. lia.
    + intros c _. apply NoDup_singleton.
Qed.

Lemma length_range n : length (range n) = Z.to_nat n.
Proof. unfold range. by rewrite length_fmap, length_seq. Qed.

Lemma length_bind_const {A B} (f : A → list B) (l : list A) n :
  (∀ x, length (f x) = n) → length (l ≫= f) = (length l * n)%nat.
Proof.
  intros Hf. induction l as [|x l IH]; [done|].
  rewrite bind_cons, length_app, Hf, IH. simpl. lia.
Qed.

Lemma length_cells r0 c0 h w :
  length (cells r0 c0 h w) = (Z.to_nat h * Z.to_nat w)%nat.
Proof.
  unfold cells. rewrite (length_bind_const _ _ (Z.to_nat w)).
  - by rewrite length_range.
  - intros r. rewrite (length_bind_const _ _ 1%nat); [|done].
    rewrite length_range. lia.
Qed.

Lemma placements_h_shape rows cols (pl : Shortest.placement) :
  pl ∈ Shortest.placements_h rows cols →
  pl.1 ≠ pl.2 ∧ pl.1.1 = pl.2.1 ∧ pl.1.2 ≠ pl.2.2 ∧
  pl.2 = (pl.1.1, pl.1.2 + 1) ∧ in_grid rows cols pl.1 ∧ in_grid rows cols pl.2.
Proof.
  intros (r & c & Hr & Hc & ->)%elem_of_placements_h. simpl.
  unfold in_grid. simpl. split_and!; try done; try lia.
  intros [=]. lia.
Qed.

Lemma placements_v_shape rows cols (pl : Shortest.placement) :
  pl ∈ Shortest.placements_v rows cols →
  pl.1 ≠ pl.2 ∧ pl.1.2 = pl.2.2 ∧ pl.1.1 ≠ pl.2.1 ∧
  pl.2 = (pl.1.1 + 1, pl.1.2) ∧ in_grid rows cols pl.1 ∧ in_grid rows cols pl.2.
Proof.
  intros (r & c & Hr & Hc & ->)%elem_of_placements_v. simpl.
  unfold in_grid. simpl. split_and!; try done; try lia.
  intros [=]. lia.
Qed.

(** The cells of a list of placements are all different exactly when
    the placements are, each has two cells, and no two share one. *)
Lemma NoDup_placement_cells (l : list Shortest.placement) :
  NoDup (placement_cells l) ↔
  NoDup l ∧ Forall (λ pl, pl.1 ≠ pl.2) l ∧
  ∀ p q, p ∈ l → q ∈ l → p ≠ q →
         p.1 ≠ q.1 ∧ p.1 ≠ q.2 ∧ p.2 ≠ q.1 ∧ p.2 ≠ q.2.
Proof.
  induction l as [|pl l IH].
  - split; [|intros _; constructor].
    intros _. split_and!; [constructor|constructor|].
    intros p q Hp. by apply elem_of_nil in Hp.
  - rewrite placement_cells_cons, !NoDup_cons, IH, Forall_cons.
    rewrite elem_of_cons. setoid_rewrite elem_of_placement_cells. split.
    + intros (H1 & H2 & Hnd & Hall & Hpair).
      assert (∀ q, q ∈ l → pl.1 ≠ q.1 ∧ pl.1 ≠ q.2 ∧ pl.2 ≠ q.1 ∧ pl.2 ≠ q.2)
        as Hpl.
      { intros q Hq. split_and!; intros Heq.
        - apply H1. right. exists q. split; [done|by left].
        - apply H1. right. exists q. split; [done|by right].
        - apply H2. exists q. split; [done|by left].
        - apply H2. exists q. split; [done|by right]. }
      split_and!; [|done| |done|].
      * intros Hin. destruct (Hpl pl Hin) as [? _]. done.
      * intros Heq. apply H1. by left.
      * intros p q [->|Hp]%elem_of_cons [->|Hq]%elem_of_cons Hne.
        -- done.
        -- by apply Hpl.
        -- destruct (Hpl p Hp) as (? & ? & ? & ?). by split_and!.
        -- by apply Hpair.
    + intros ((Hin & Hnd) & (H12 & Hall) & Hpair).
      assert (∀ q, q ∈ l → pl ≠ q) as Hne by (intros q Hq ->; done).
      split_and!; [| |done|done|].
      * intros [?|(q & Hq & Hc)]; [done|].
        destruct (Hpair pl q) as (? & ? & _);
          [by left|by right|by apply Hne|]. by destruct Hc.
      * intros (q & Hq & Hc).
        destruct (Hpair pl q) as (_ & _ & ? & ?);
          [by left|by right|by apply Hne|]. by destruct Hc.
      * intros p q Hp Hq. apply Hpair; by right.
Qed.

Lemma elem_of_count_valid_arrangements (d : puzzle_data)
    (A : gset Shortest.placement) :
  A ∈ HyperSuper.count_valid_arrangements d ↔
  ∃ ch cv,
    ch ∈ combinations (Shortest.placements_h (rows d) (cols d))
                      (length (horiz_pieces d)) ∧
    cv ∈ combinations (Shortest.placements_v (rows d) (cols d))
                      (length (vert_pieces d)) ∧
    Shortest.placements_free ∅ (ch ++ cv) = true ∧
    A = list_to_set (ch ++ cv).
Proof.
  unfold HyperSuper.count_valid_arrangements.
  fold (horiz_pieces d). fold (vert_pieces d).
  rewrite elem_of_elements, elem_of_list_to_set, list_elem_of_bind. split.
  - intros (ch & (cv & HA & Hcv)%list_elem_of_bind & Hch).
    destruct (Shortest.placements_free ∅ (ch ++ cv)) eqn:Hfree;
      [|by apply elem_of_nil in HA].
    apply list_elem_of_singleton in HA. by exists ch, cv.
  - intros (ch & cv & Hch & Hcv & Hfree & ->). exists ch. split; [|done].
    apply list_elem_of_bind. exists cv. split; [|done].
    rewrite Hfree. by apply list_elem_of_singleton.
Qed.

(** What a valid choice of placements looks like. *)
Lemma chosen_placements rows cols nh nv (ch cv : list Shortest.placement) :
  ch ∈ combinations (Shortest.placements_h rows cols) nh →
  cv ∈ combinations (Shortest.placements_v rows cols) nv →
  length ch = nh ∧ length cv = nv ∧
  Forall (λ pl, pl ∈ Shortest.placements_h rows cols) ch ∧
  Forall (λ pl, pl ∈ Shortest.placements_v rows cols) cv ∧
  NoDup ch ∧ NoDup cv ∧ NoDup (ch ++ cv) ∧
  Forall (λ pl : Shortest.placement, pl.1 ≠ pl.2) (ch ++ cv).
Proof.
  intros [Hsh Hlh]%elem_of_combinations [Hsv Hlv]%elem_of_combinations.
  assert (Forall (λ pl, pl ∈ Shortest.placements_h rows cols) ch) as Hh.
  { apply Forall_forall. intros pl Hpl. by eapply elem_of_sublist. }
  assert (Forall (λ pl, pl ∈ Shortest.placements_v rows cols) cv) as Hv.
  { apply Forall_forall. intros pl Hpl. by eapply elem_of_sublist. }
  assert (NoDup ch) as Hndh
    by (eapply sublist_NoDup; [apply NoDup_placements_h|done]).
  assert (NoDup cv) as Hndv
    by (eapply sublist_NoDup; [apply NoDup_placements_v|done]).
  rewrite Forall_forall in Hh, Hv.
  split_and!; try done.
  - by apply Forall_forall.
  - by apply Forall_forall.
  - apply NoDup_app. split_and!; [done| |done].
    intros pl Hph Hpv.
    destruct (placements_h_shape _ _ pl (Hh pl Hph)) as (_ & ? & _).
    destruct (placements_v_shape _ _ pl (Hv pl Hpv)) as (_ & _ & ? & _).
    done.
  - apply Forall_app. split; apply Forall_forall; intros pl Hpl.
    + by destruct (placements_h_shape _ _ pl (Hh pl Hpl)).
    + by destruct (placements_v_shape _ _ pl (Hv pl Hpl)).
Qed.

(** X15.  The hyper nodes of getToEnd.py.  [count_valid_arrangements]
    lists every arrangement once, and a set of placements is listed
    exactly when it consists of as many horizontal placements of the
    grid as the configuration has 1x2 pieces and as many vertical ones
    as it has 2x1 pieces, no two of them sharing a cell.  The pieces of
    other types play no part. *)
Theorem arrangements_are_disjoint_placements (d : puzzle_data)
    (A : gset Shortest.placement) :
  NoDup (HyperSuper.count_valid_arrangements d) ∧
  (A ∈ HyperSuper.count_valid_arrangements d ↔
   ∃ H V : gset Shortest.placement,
     A = H ∪ V ∧
     H ⊆ list_to_set (Shortest.placements_h (rows d) (cols d)) ∧
     size H = length (horiz_pieces d) ∧
     V ⊆ list_to_set (Shortest.placements_v (rows d) (cols d)) ∧
     size V = length (vert_pieces d) ∧
     ∀ p q, p ∈ A → q ∈ A → p ≠ q →
            p.1 ≠ q.1 ∧ p.1 ≠ q.2 ∧ p.2 ≠ q.1 ∧ p.2 ≠ q.2).
Proof.
  split.
  { unfold HyperSuper.count_valid_arrangements. apply NoDup_elements. }
  rewrite elem_of_count_valid_arrangements. split.
  - intros (ch & cv & Hch & Hcv & Hfree & ->).
    destruct (chosen_placements _ _ _ _ ch cv Hch Hcv)
      as (Hlh & Hlv & Hh & Hv & Hndh & Hndv & Hnd & Hcells).
    apply (placements_free_spec ∅ _ Hcells) in Hfree as [Hfree _].
    apply NoDup_placement_cells in Hfree as (_ & _ & Hpair).
    exists (list_to_set ch), (list_to_set cv).
    rewrite Forall_forall in Hh. rewrite Forall_forall in Hv.
    split_and!.
    + apply list_to_set_app_L.
    + intros pl Hpl%elem_of_list_to_set. apply elem_of_list_to_set. by apply Hh.
    + by rewrite size_list_to_set.
    + intros pl Hpl%elem_of_list_to_set. apply elem_of_list_to_set. by apply Hv.
    + by rewrite size_list_to_set.
    + intros p q Hp%elem_of_list_to_set Hq%elem_of_list_to_set.
      by apply Hpair.
  - intros (H & V & -> & HH & HsH & HV & HsV & Hpair).
    destruct (combinations_sets (Shortest.placements_h (rows d) (cols d))
                (length (horiz_pieces d)) (NoDup_placements_h _ _))
      as [_ Hexh].
    destruct (combinations_sets (Shortest.placements_v (rows d) (cols d))
                (length (vert_pieces d)) (NoDup_placements_v _ _))
      as [_ Hexv].
    destruct (Hexh H HH HsH) as (ch & Hch & <-).
    destruct (Hexv V HV HsV) as (cv & Hcv & <-).
    exists ch, cv.
    destruct (chosen_placements _ _ _ _ ch cv Hch Hcv)
      as (Hlh & Hlv & Hh & Hv & Hndh & Hndv & Hnd & Hcells).
    split_and!; [done|done| |by rewrite list_to_set_app_L].
    apply (placements_free_spec ∅ _ Hcells). split; [|set_solver].
    apply NoDup_placement_cells. split_and!; [done|done|].
    intros p q Hp Hq. apply Hpair.
    + rewrite <- list_to_set_app_L. by apply elem_of_list_to_set.
    + rewrite <- list_to_set_app_L. by apply elem_of_list_to_set.
Qed.

(** *** The super nodes of an arrangement *)

Lemma arrangement_split rows cols nh nv (ch cv : list Shortest.placement) :
  ch ∈ combinations (Shortest.placements_h rows cols) nh →
  cv ∈ combinations (Shortest.placements_v rows cols) nv →
  elements (list_to_set (C := gset Shortest.placement) (ch ++ cv)) ≡ₚ ch ++ cv ∧
  merge_sort HyperSuper.anchor_le
    (filter (λ p : Shortest.placement, p.1.1 = p.2.1)
       (elements (list_to_set (C := gset Shortest.placement) (ch ++ cv)))) ≡ₚ ch ∧
  merge_sort HyperSuper.anchor_le
    (filter (λ p : Shortest.placement, p.1.2 = p.2.2)
       (elements (list_to_set (C := gset Shortest.placement) (ch ++ cv)))) ≡ₚ cv.
Proof.
  intros Hch Hcv.
  destruct (chosen_placements _ _ _ _ ch cv Hch Hcv)
    as (_ & _ & Hh & Hv & _ & _ & Hnd & _).
  pose proof (elements_list_to_set (C := gset Shortest.placement) _ Hnd)
    as Hperm.
  split; [done|]. split.
  - rewrite merge_sort_Permutation, Hperm, filter_app.
    rewrite (filter_all _ ch), (filter_none _ cv), app_nil_r; [done| |].
    + eapply Forall_impl; [exact Hv|]. intros pl Hpl. simpl.
      by destruct (placements_v_shape _ _ pl Hpl) as (_ & _ & ? & _).
    + eapply Forall_impl; [exact Hh|]. intros pl Hpl. simpl.
      by destruct (placements_h_shape _ _ pl Hpl) as (_ & ? & _).
  - rewrite merge_sort_Permutation, Hperm, filter_app.
    rewrite (filter_none _ ch), (filter_all _ cv); [done| |].
    + eapply Forall_impl; [exact Hv|]. intros pl Hpl. simpl.
      by destruct (placements_v_shape _ _ pl Hpl) as (_ & ? & _).
    + eapply Forall_impl; [exact Hh|]. intros pl Hpl. simpl.
      by destruct (placements_h_shape _ _ pl Hpl) as (_ & _ & ? & _).
Qed.

Lemma fmap_assign_zip {B} (f : piece → B) (ps : list piece)
    (pls : list Shortest.placement) :
  (∀ p r c, f (set_pos p r c) = f p) → length ps = length pls →
  f <$> (HyperSuper.assign <$> zip ps pls) = f <$> ps.
Proof.
  intros Hf Hlen. rewrite <- list_fmap_compose.
  rewrite <- (fst_zip ps pls) at 2 by lia.
  rewrite <- list_fmap_compose. apply list_fmap_ext. intros i [p pl] _.
  simpl. apply Hf.
Qed.

Lemma assigned_h_cells rows cols (ps : list piece)
    (pls : list Shortest.placement) :
  length ps = length pls →
  Forall (λ p, piece_type p = "1x2") ps →
  Forall (λ pl, pl ∈ Shortest.placements_h rows cols) pls →
  (HyperSuper.assign <$> zip ps pls)
    ≫= type_cells GetToEnd.get_piece_dimensions
  = placement_cells pls.
Proof.
  intros Hlen Hty Hin. rewrite Forall_forall in Hty. rewrite Forall_forall in Hin.
  rewrite list_fmap_bind. unfold placement_cells.
  rewrite <- (snd_zip ps pls) at 2 by lia.
  rewrite list_fmap_bind. apply bind_ext_in. intros [p pl] Hx. simpl.
  pose proof (elem_of_zip_l _ _ _ _ Hx) as Hp.
  pose proof (elem_of_zip_r _ _ _ _ Hx) as Hpl.
  apply Hin, elem_of_placements_h in Hpl as (r & c & _ & _ & ->).
  unfold type_cells, GetToEnd.get_piece_dimensions, HyperSuper.assign. simpl.
  rewrite (Hty p Hp). simpl. apply cells_1_2.
Qed.

Lemma assigned_v_cells rows cols (ps : list piece)
    (pls : list Shortest.placement) :
  length ps = length pls →
  Forall (λ p, piece_type p = "2x1") ps →
  Forall (λ pl, pl ∈ Shortest.placements_v rows cols) pls →
  (HyperSuper.assign <$> zip ps pls)
    ≫= type_cells GetToEnd.get_piece_dimensions
  = placement_cells pls.
Proof.
  intros Hlen Hty Hin. rewrite Forall_forall in Hty. rewrite Forall_forall in Hin.
  rewrite list_fmap_bind. unfold placement_cells.
  rewrite <- (snd_zip ps pls) at 2 by lia.
  rewrite list_fmap_bind. apply bind_ext_in. intros [p pl] Hx. simpl.
  pose proof (elem_of_zip_l _ _ _ _ Hx) as Hp.
  pose proof (elem_of_zip_r _ _ _ _ Hx) as Hpl.
  apply Hin, elem_of_placements_v in Hpl as (r & c & _ & _ & ->).
  unfold type_cells, GetToEnd.get_piece_dimensions, HyperSuper.assign. simpl.
  rewrite (Hty p Hp). simpl. apply cells_2_1.
Qed.

Lemma horiz_pieces_types d : Forall (λ p, piece_type p = "1x2") (horiz_pieces d).
Proof.
  apply Forall_forall. intros p Hp. unfold horiz_pieces in Hp.
  by apply list_elem_of_filter in Hp as [? _].
Qed.

Lemma vert_pieces_types d : Forall (λ p, piece_type p = "2x1") (vert_pieces d).
Proof.
  apply Forall_forall. intros p Hp. unfold vert_pieces in Hp.
  by apply list_elem_of_filter in Hp as [? _].
Qed.

(** The states [generate_supernode_states] builds on an arrangement of
    [count_valid_arrangements]. *)
Lemma generate_supernode_states_spec (d : puzzle_data)
    (A : gset Shortest.placement) :
  A ∈ HyperSuper.count_valid_arrangements d →
  ∃ assigned : list piece,
    HyperSuper.generate_supernode_states A d
    = (λ extra, GetToEnd.State assigned extra)
        <$> combinations (elements (free_cells (rows d) (cols d) A)) 4 ∧
    unplaced <$> assigned = unplaced <$> (horiz_pieces d ++ vert_pieces d) ∧
    assigned ≫= type_cells GetToEnd.get_piece_dimensions
      ≡ₚ placement_cells (elements A) ∧
    NoDup (placement_cells (elements A)) ∧
    (∀ cell, cell ∈ placement_cells (elements A) →
             in_grid (rows d) (cols d) cell) ∧
    length (placement_cells (elements A))
    = (2 * (length (horiz_pieces d) + length (vert_pieces d)))%nat.
Proof.
  intros (ch & cv & Hch & Hcv & Hfree & ->)%elem_of_count_valid_arrangements.
  destruct (chosen_placements _ _ _ _ ch cv Hch Hcv)
    as (Hlh & Hlv & Hh & Hv & _ & _ & Hnd & Hcells).
  destruct (arrangement_split _ _ _ _ ch cv Hch Hcv) as (Hperm & Hph & Hpv).
  apply (placements_free_spec ∅ _ Hcells) in Hfree as [Hfree _].
  unfold HyperSuper.generate_supernode_states.
  fold (horiz_pieces d). fold (vert_pieces d).
  set (A := list_to_set (ch ++ cv)) in *.
  set (hs := merge_sort _ (filter (λ p : Shortest.placement, p.1.1 = p.2.1) _))
    in *.
  set (vs := merge_sort _ (filter (λ p : Shortest.placement, p.1.2 = p.2.2) _))
    in *.
  assert (length (horiz_pieces d) = length hs) as Hlenh
    by (by rewrite Hph).
  assert (length (vert_pieces d) = length vs) as Hlenv
    by (by rewrite Hpv).
  eexists. split; [reflexivity|]. split_and!.
  - rewrite !fmap_app. f_equal; by apply fmap_assign_zip.
  - rewrite bind_app.
    rewrite (assigned_h_cells (rows d) (cols d)), (assigned_v_cells (rows d) (cols d));
      [|done|apply vert_pieces_types|by rewrite Hpv
       |done|apply horiz_pieces_types|by rewrite Hph].
    rewrite <- placement_cells_app. unfold placement_cells.
    by rewrite Hph, Hpv, Hperm.
  - unfold placement_cells in *. by rewrite Hperm.
  - intros cell. unfold placement_cells. rewrite Hperm.
    intros (pl & Hpl & Hc)%elem_of_placement_cells.
    rewrite Forall_forall in Hh. rewrite Forall_forall in Hv.
    apply elem_of_app in Hpl as [Hpl|Hpl].
    + destruct (placements_h_shape _ _ pl (Hh pl Hpl)) as (_ & _ & _ & _ & ? & ?).
      by destruct Hc as [-> | ->].
    + destruct (placements_v_shape _ _ pl (Hv pl Hpl)) as (_ & _ & _ & _ & ? & ?).
      by destruct Hc as [-> | ->].
  - unfold placement_cells. rewrite Hperm.
    rewrite (length_bind_const _ _ 2%nat) by done.
    rewrite length_app, Hlh, Hlv. lia.
Qed.

Lemma elem_of_free_cells (rows cols : Z) (A : gset Shortest.placement)
    (cell : Z * Z) :
  cell ∈ free_cells rows cols A ↔
  in_grid rows cols cell ∧ cell ∉ placement_cells (elements A).
Proof.
  unfold free_cells, arrangement_cells.
  rewrite elem_of_difference, !elem_of_list_to_set, elem_of_cells.
  unfold in_grid. split; intros [? ?]; (split; [lia|done]).
Qed.

(** X16.  The super nodes of getToEnd.py.  Every state that
    [generate_supernode_states] builds on an arrangement of
    [count_valid_arrangements] holds the 1x2 pieces of the configuration
    followed by its 2x1 pieces, changed in their anchors only (pieces
    of any other type, the target among them if it is one, are left
    out); the footprints of these pieces do not overlap and are the
    cells of the arrangement; the extra blocks are four different
    cells; and every cell of the state lies in the grid, no extra block
    on a cell of a piece. *)
Theorem supernodes_are_boards (d : puzzle_data) (A : gset Shortest.placement)
    (st : GetToEnd.state) :
  A ∈ HyperSuper.count_valid_arrangements d →
  st ∈ HyperSuper.generate_supernode_states A d →
  unplaced <$> GetToEnd.pieces st
    = unplaced <$> (horiz_pieces d ++ vert_pieces d) ∧
  NoDup (GetToEnd.pieces st ≫= type_cells GetToEnd.get_piece_dimensions) ∧
  list_to_set (GetToEnd.pieces st ≫= type_cells GetToEnd.get_piece_dimensions)
    = arrangement_cells A ∧
  NoDup (GetToEnd.extra_blocks st) ∧
  length (GetToEnd.extra_blocks st) = 4%nat ∧
  (∀ cell,
     cell ∈ (GetToEnd.pieces st ≫= type_cells GetToEnd.get_piece_dimensions)
            ++ GetToEnd.extra_blocks st →
     in_grid (rows d) (cols d) cell) ∧
  (∀ cell,
     cell ∈ GetToEnd.extra_blocks st →
     cell ∉ GetToEnd.pieces st ≫= type_cells GetToEnd.get_piece_dimensions).
Proof.
  intros HA Hst.
  destruct (generate_supernode_states_spec d A HA)
    as (assigned & Hgen & Hun & Hcells & Hnd & Hgrid & _).
  rewrite Hgen in Hst.
  apply list_elem_of_fmap in Hst as (extra & -> & Hextra).
  apply elem_of_combinations in Hextra as [Hsub Hlen]. simpl.
  assert (∀ cell, cell ∈ extra →
            in_grid (rows d) (cols d) cell
            ∧ cell ∉ placement_cells (elements A)) as Hfree.
  { intros cell Hc. apply elem_of_free_cells, elem_of_elements.
    by eapply elem_of_sublist. }
  split_and!.
  - done.
  - by rewrite Hcells.
  - unfold arrangement_cells. by apply list_to_set_perm_L.
  - eapply sublist_NoDup; [|exact Hsub]. apply NoDup_elements.
  - done.
  - intros cell [Hc|Hc]%elem_of_app.
    + apply Hgrid. by rewrite <- Hcells.
    + by apply Hfree.
  - intros cell Hc. rewrite Hcells. by apply Hfree.
Qed.

Lemma supernodes_are_boards_witness :
  unplaced <$> [pc "H" 0 0 "1x2"]
    = unplaced <$> (horiz_pieces (PuzzleData 2 3 [pc "H" 1 1 "1x2";
                                                  pc "T" 0 0 "1x1"] "T")
                    ++ vert_pieces (PuzzleData 2 3 [pc "H" 1 1 "1x2";
                                                   pc "T" 0 0 "1x1"] "T")) ∧
  NoDup ([pc "H" 0 0 "1x2"] ≫= type_cells GetToEnd.get_piece_dimensions) ∧
  list_to_set ([pc "H" 0 0 "1x2"] ≫= type_cells GetToEnd.get_piece_dimensions)
    = arrangement_cells (list_to_set [((0, 0), (0, 1))]) ∧
  NoDup [(0, 2); (1, 0); (1, 2); (1, 1)] ∧
  length [(0, 2); (1, 0); (1, 2); (1, 1)] = 4%nat ∧
  (∀ cell,
     cell ∈ ([pc "H" 0 0 "1x2"] ≫= type_cells GetToEnd.get_piece_dimensions)
            ++ [(0, 2); (1, 0); (1, 2); (1, 1)] →
     in_grid 2 3 cell) ∧
  (∀ cell,
     cell ∈ [(0, 2); (1, 0); (1, 2); (1, 1)] →
     cell ∉ [pc "H" 0 0 "1x2"] ≫= type_cells GetToEnd.get_piece_dimensions).
Proof.
  apply (supernodes_are_boards
           (PuzzleData 2 3 [pc "H" 1 1 "1x2"; pc "T" 0 0 "1x1"] "T")
           (list_to_set [((0, 0), (0, 1))])
           (GetToEnd.State [pc "H" 0 0 "1x2"]
                           [(0, 2); (1, 0); (1, 2); (1, 1)])); by_decide.
Defined.

Lemma length_generate_supernode_states (d : puzzle_data)
    (A : gset Shortest.placement) :
  A ∈ HyperSuper.count_valid_arrangements d →
  length (HyperSuper.generate_supernode_states A d)
    = binom (Z.to_nat (rows d) * Z.to_nat (cols d)
             - 2 * (length (horiz_pieces d) + length (vert_pieces d))) 4.
Proof.
  intros HA.
  destruct (generate_supernode_states_spec d A HA)
    as (assigned & Hgen & _ & _ & Hnd & Hgrid & Hlen).
  rewrite Hgen, length_fmap, length_combinations. f_equal.
  change (length (elements ?X)) with (size X).
  unfold free_cells. rewrite size_difference.
  - unfold arrangement_cells.
    rewrite !size_list_to_set by (done || apply NoDup_cells).
    by rewrite length_cells, Hlen.
  - intros cell Hc%elem_of_list_to_set.
    apply elem_of_list_to_set, elem_of_cells.
    destruct (Hgrid cell Hc). lia.
Qed.

(** X17.  The number of super nodes.  On an arrangement of
    [count_valid_arrangements], [generate_supernode_states] builds one
    state for every set of four cells of the grid outside the
    arrangement, and no two states for the same set: their number is
    the binomial coefficient, over four, of the number of those cells:
    the cells of the grid, [max rows 0 * max cols 0] of them, less two
    for each 1x2 and each 2x1 piece of the configuration (for [rows]
    and [cols] not negative, [rows * cols] cells). *)
Theorem supernode_states_count (d : puzzle_data)
    (A : gset Shortest.placement) :
  A ∈ HyperSuper.count_valid_arrangements d →
  length (HyperSuper.generate_supernode_states A d)
    = binom (Z.to_nat (rows d) * Z.to_nat (cols d)
             - 2 * (length (horiz_pieces d) + length (vert_pieces d))) 4 ∧
  NoDup ((λ st, list_to_set (C := gset (Z * Z)) (GetToEnd.extra_blocks st))
           <$> HyperSuper.generate_supernode_states A d) ∧
  ∀ X : gset (Z * Z),
    X ⊆ free_cells (rows d) (cols d) A → size X = 4%nat →
    ∃ st, st ∈ HyperSuper.generate_supernode_states A d ∧
          list_to_set (GetToEnd.extra_blocks st) = X.
Proof.
  intros HA. split; [by apply length_generate_supernode_states|].
  destruct (generate_supernode_states_spec d A HA)
    as (assigned & Hgen & _).
  rewrite Hgen.
  destruct (combinations_sets (elements (free_cells (rows d) (cols d) A)) 4
              (NoDup_elements _)) as [Hinj Hex].
  split.
  - by rewrite <- list_fmap_compose.
  - intros X HX Hsize. destruct (Hex X) as (c & Hc & <-); [|done|].
    + by rewrite list_to_set_elements_L.
    + exists (GetToEnd.State assigned c). split; [|done].
      apply list_elem_of_fmap. by exists c.
Qed.

Lemma supernode_states_count_witness :
  length (HyperSuper.generate_supernode_states
            (list_to_set [((0, 0), (0, 1))])
            (PuzzleData 2 3 [pc "H" 1 1 "1x2"; pc "T" 0 0 "1x1"] "T"))
    = binom (Z.to_nat 2 * Z.to_nat 3
             - 2 * (length (horiz_pieces (PuzzleData 2 3 [pc "H" 1 1 "1x2";
                                                         pc "T" 0 0 "1x1"] "T"))
                    + length (vert_pieces (PuzzleData 2 3 [pc "H" 1 1 "1x2";
                                                          pc "T" 0 0 "1x1"] "T"))))
            4 ∧
  NoDup ((λ st, list_to_set (C := gset (Z * Z)) (GetToEnd.extra_blocks st))
           <$> HyperSuper.generate_supernode_states
                 (list_to_set [((0, 0), (0, 1))])
                 (PuzzleData 2 3 [pc "H" 1 1 "1x2"; pc "T" 0 0 "1x1"] "T")) ∧
  ∀ X : gset (Z * Z),
    X ⊆ free_cells 2 3 (list_to_set [((0, 0), (0, 1))]) → size X = 4%nat →
    ∃ st, st ∈ HyperSuper.generate_supernode_states
                 (list_to_set [((0, 0), (0, 1))])
                 (PuzzleData 2 3 [pc "H" 1 1 "1x2"; pc "T" 0 0 "1x1"] "T") ∧
          list_to_set (GetToEnd.extra_blocks st) = X.
Proof.
  apply (supernode_states_count
           (PuzzleData 2 3 [pc "H" 1 1 "1x2"; pc "T" 0 0 "1x1"] "T")
           (list_to_set [((0, 0), (0, 1))])); by_decide.
Defined.

(** *** The searches main runs on the super nodes *)

Lemma unplaced_Forall (P : piece → Prop) (s s' : list piece) :
  (∀ p, P (unplaced p) ↔ P p) →
  unplaced <$> s = unplaced <$> s' → Forall P s → Forall P s'.
Proof.
  intros HP Heq Hall.
  assert (Forall P (unplaced <$> s')) as Hall'.
  { rewrite <- Heq. apply Forall_fmap. eapply Forall_impl; [exact Hall|].
    intros p Hp. by apply HP. }
  rewrite Forall_fmap in Hall'. eapply Forall_impl; [exact Hall'|].
  intros p Hp. by apply HP.
Qed.

Lemma domino_labels_nodup d :
  NoDup (label <$> pieces d) →
  NoDup (label <$> (horiz_pieces d ++ vert_pieces d)).
Proof.
  intros Hnd. rewrite fmap_app. apply NoDup_app. split_and!.
  - eapply sublist_NoDup; [exact Hnd|]. apply fmap_sublist, sublist_filter.
  - intros l (p & -> & Hp)%list_elem_of_fmap (q & Hl & Hq)%list_elem_of_fmap.
    apply list_elem_of_filter in Hp as [Hpt Hp].
    apply list_elem_of_filter in Hq as [Hqt Hq].
    assert (p = q) as -> by (by eapply NoDup_label_inj).
    congruence.
  - eapply sublist_NoDup; [exact Hnd|]. apply fmap_sublist, sublist_filter.
Qed.

Lemma domino_pieces_without_dimensions d :
  Forall (λ p, height p = None ∧ width p = None) (pieces d) →
  Forall (λ p, sizable p ∧ height p = None) (horiz_pieces d ++ vert_pieces d).
Proof.
  intros Hall. rewrite Forall_forall in Hall.
  apply Forall_app. split; apply Forall_forall; intros p Hp;
    apply list_elem_of_filter in Hp as [Hty Hp];
    destruct (Hall p Hp) as [Hh Hw];
    unfold sizable, GetToEnd.get_piece_dimensions;
    rewrite Hty, Hh, Hw; simpl; (split; [split; [by eexists|lia]|done]).
Qed.

Lemma supernode_pieces_without_dimensions (d : puzzle_data)
    (A : gset Shortest.placement) (st : GetToEnd.state) :
  NoDup (label <$> pieces d) →
  Forall (λ p, height p = None ∧ width p = None) (pieces d) →
  A ∈ HyperSuper.count_valid_arrangements d →
  st ∈ HyperSuper.generate_supernode_states A d →
  label <$> GetToEnd.pieces st = label <$> (horiz_pieces d ++ vert_pieces d) ∧
  NoDup (label <$> GetToEnd.pieces st) ∧
  Forall (λ p, sizable p ∧ height p = None) (GetToEnd.pieces st).
Proof.
  intros Hnd Hdims HA Hst.
  destruct (generate_supernode_states_spec d A HA)
    as (assigned & Hgen & Hun & _).
  rewrite Hgen in Hst. apply list_elem_of_fmap in Hst as (extra & -> & _).
  simpl. pose proof (unplaced_labels _ _ Hun) as Hlab.
  split_and!; [done|rewrite Hlab; by apply domino_labels_nodup|].
  apply (unplaced_Forall _ (horiz_pieces d ++ vert_pieces d) assigned);
    [|done|by apply domino_pieces_without_dimensions].
  intros p. unfold sizable, GetToEnd.get_piece_dimensions. by destruct p.
Qed.

Lemma elem_of_super_nodes (d : puzzle_data) (st : GetToEnd.state) :
  st ∈ HyperSuper.build_hyper_super_structure
         (HyperSuper.count_valid_arrangements d) d ↔
  ∃ A, A ∈ HyperSuper.count_valid_arrangements d ∧
       st ∈ HyperSuper.generate_supernode_states A d.
Proof.
  unfold HyperSuper.build_hyper_super_structure. rewrite list_elem_of_bind.
  split; intros (A & ? & ?); by exists A.
Qed.

(** X18.  A domino as target, dimensions not stored.  When the pieces
    of the configuration have unique labels and store no dimensions and
    the target is one of its 1x2 or 2x1 pieces, the search that main
    runs on a super node raises at its first goal test, whichever of
    the super nodes of [build_hyper_super_structure] it is. *)
Theorem supernode_search_raises (d : puzzle_data) (st : GetToEnd.state)
    (fuel : nat) :
  NoDup (label <$> pieces d) →
  Forall (λ p, height p = None ∧ width p = None) (pieces d) →
  target d ∈ label <$> (horiz_pieces d ++ vert_pieces d) →
  st ∈ HyperSuper.build_hyper_super_structure
         (HyperSuper.count_valid_arrangements d) d →
  GetToEnd.search (S fuel) st d (target d) = Raised ∧
  GetToEnd.find_shortest_path_from_supernode (S fuel) st d (target d) = None.
Proof.
  intros Hnd Hdims Htgt (A & HA & Hst)%elem_of_super_nodes.
  destruct (supernode_pieces_without_dimensions d A st Hnd Hdims HA Hst)
    as (Hlab & _ & Hall).
  rewrite <- Hlab in Htgt.
  destruct (find_piece_elem _ _ Htgt) as [t Hfind].
  pose proof (find_piece_Some _ _ _ Hfind) as [Ht _].
  rewrite Forall_forall in Hall. destruct (Hall t Ht) as [_ Hh].
  assert (GetToEnd.search (S fuel) st d (target d) = Raised) as Hs.
  { unfold GetToEnd.search, bfs. simpl. unfold GetToEnd.inspect.
    rewrite Hfind. unfold GetToEnd.target_piece_in_bottom_left.
    by rewrite Hh. }
  split; [done|].
  unfold GetToEnd.find_shortest_path_from_supernode. by rewrite Hs.
Qed.

Lemma supernode_search_raises_witness :
  GetToEnd.search 1
    (GetToEnd.State [pc "H" 0 0 "1x2"] [(0, 2); (1, 0); (1, 2); (1, 1)])
    (PuzzleData 2 3 [pc "H" 1 1 "1x2"; pc "B" 0 0 "1x1"] "H") "H" = Raised ∧
  GetToEnd.find_shortest_path_from_supernode 1
    (GetToEnd.State [pc "H" 0 0 "1x2"] [(0, 2); (1, 0); (1, 2); (1, 1)])
    (PuzzleData 2 3 [pc "H" 1 1 "1x2"; pc "B" 0 0 "1x1"] "H") "H" = None.
Proof.
  apply (supernode_search_raises
           (PuzzleData 2 3 [pc "H" 1 1 "1x2"; pc "B" 0 0 "1x1"] "H")
           (GetToEnd.State [pc "H" 0 0 "1x2"]
                           [(0, 2); (1, 0); (1, 2); (1, 1)]) 0); by_decide.
Defined.

(** X19.  A target that is no domino.  When the pieces of the
    configuration have unique labels and store no dimensions and the
    target is none of its 1x2 and 2x1 pieces (a 1x1 piece, say), the
    search that main runs on a super node of
    [build_hyper_super_structure] explores all it can reach and returns
    the pair [(None, None)]: the super nodes do not hold the target, so
    that no super node is ever reported solved. *)
Theorem supernode_search_never_solves (d : puzzle_data)
    (st : GetToEnd.state) :
  NoDup (label <$> pieces d) →
  Forall (λ p, height p = None ∧ width p = None) (pieces d) →
  target d ∉ label <$> (horiz_pieces d ++ vert_pieces d) →
  st ∈ HyperSuper.build_hyper_super_structure
         (HyperSuper.count_valid_arrangements d) d →
  ∃ N, ∀ fuel, (N ≤ fuel)%nat →
    GetToEnd.find_shortest_path_from_supernode fuel st d (target d)
    = Some GetToEnd.NoSolution.
Proof.
  intros Hnd Hdims Htgt (A & HA & Hst)%elem_of_super_nodes.
  destruct (supernode_pieces_without_dimensions d A st Hnd Hdims HA Hst)
    as (Hlab & Hnd' & Hall).
  apply gettoend_no_target_exhausts; [done| |by rewrite Hlab].
  eapply Forall_impl; [exact Hall|]. by intros p [? _].
Qed.

Lemma supernode_search_never_solves_witness :
  ∃ N, ∀ fuel, (N ≤ fuel)%nat →
    GetToEnd.find_shortest_path_from_supernode fuel
      (GetToEnd.State [pc "H" 0 0 "1x2"] [(0, 2); (1, 0); (1, 2); (1, 1)])
      (PuzzleData 2 3 [pc "H" 1 1 "1x2"; pc "T" 0 0 "1x1"] "T") "T"
    = Some GetToEnd.NoSolution.
Proof.
  apply (supernode_search_never_solves
           (PuzzleData 2 3 [pc "H" 1 1 "1x2"; pc "T" 0 0 "1x1"] "T")
           (GetToEnd.State [pc "H" 0 0 "1x2"]
                           [(0, 2); (1, 0); (1, 2); (1, 1)])); by_decide.
Defined.

(** X20.  The number of super nodes main reports.
    [build_hyper_super_structure] on the arrangements of
    [count_valid_arrangements] returns as many states as there are
    arrangements times the binomial coefficient, over four, of the
    number of cells outside an arrangement: the cells of the grid,
    [max rows 0 * max cols 0] of them, less two for each 1x2 and each
    2x1 piece of the configuration. *)
Theorem super_nodes_total (d : puzzle_data) :
  length (HyperSuper.build_hyper_super_structure
            (HyperSuper.count_valid_arrangements d) d)
  = (length (HyperSuper.count_valid_arrangements d)
     * binom (Z.to_nat (rows d) * Z.to_nat (cols d)
              - 2 * (length (horiz_pieces d) + length (vert_pieces d))) 4)%nat.
Proof.
  unfold HyperSuper.build_hyper_super_structure.
  assert (∀ l : list (gset Shortest.placement),
            (∀ A, A ∈ l → A ∈ HyperSuper.count_valid_arrangements d) →
            length (l ≫= λ A, HyperSuper.generate_supernode_states A d)
            = (length l
               * binom (Z.to_nat (rows d) * Z.to_nat (cols d)
                        - 2 * (length (horiz_pieces d)
                               + length (vert_pieces d))) 4)%nat) as Hlen.
  { induction l as [|A l IH]; intros Hl; [done|].
    rewrite bind_cons, length_app, IH.
    - rewrite length_generate_supernode_states; [simpl; lia|].
      apply Hl. by left.
    - intros B HB. apply Hl. by right. }
  by apply Hlen.
Qed.

(** ** graph/getToEnd.py: the key of a state *)

#[global] Instance cell_le_total : Total GetToEnd.cell_le.
Proof. intros a b. unfold GetToEnd.cell_le. lia. Qed.

#[global] Instance cell_le_trans : Transitive GetToEnd.cell_le.
Proof. intros a b c. unfold GetToEnd.cell_le. lia. Qed.

#[global] Instance cell_le_antisym : AntiSymm (=) GetToEnd.cell_le.
Proof.
  intros [a1 a2] [b1 b2]. unfold GetToEnd.cell_le. simpl.
  intros ? ?. f_equal; lia.
Qed.

(** X21.  The key of a state of getToEnd.py.  [board_to_tuple] gives two
    states the same key exactly when their pieces have the same
    [(label, row, col)] tuples and their extra blocks are the same
    cells, in any order and with the same repetitions; piece types,
    stored dimensions and flags do not enter the key. *)
Theorem gettoend_key_canonical (s s' : GetToEnd.state) :
  GetToEnd.board_to_tuple s = GetToEnd.board_to_tuple s' ↔
  triple <$> GetToEnd.pieces s ≡ₚ triple <$> GetToEnd.pieces s' ∧
  GetToEnd.extra_blocks s ≡ₚ GetToEnd.extra_blocks s'.
Proof.
  unfold GetToEnd.board_to_tuple. split.
  - intros [= Hp Hx]. split.
    + rewrite <- (merge_sort_Permutation tuple_le (triple <$> GetToEnd.pieces s)).
      rewrite Hp. apply merge_sort_Permutation.
    + rewrite <- (merge_sort_Permutation GetToEnd.cell_le (GetToEnd.extra_blocks s)).
      rewrite Hx. apply merge_sort_Permutation.
  - intros [Hp Hx]. f_equal.
    + apply (Sorted_unique tuple_le).
      * apply Sorted_merge_sort; apply _.
      * apply Sorted_merge_sort; apply _.
      * by rewrite !merge_sort_Permutation.
    + apply (Sorted_unique GetToEnd.cell_le).
      * apply Sorted_merge_sort; apply _.
      * apply Sorted_merge_sort; apply _.
      * by rewrite !merge_sort_Permutation.
Qed.

(** ** shortestMoves.py: the searches main runs *)

Lemma mapM_ensure_dimensions_stored (s : list piece) :
  Forall (λ q, ∃ h w, Shortest.get_piece_dimensions q = Some (h, w) ∧
                      height q = Some h ∧ width q = Some w) s →
  mapM Shortest.ensure_dimensions s = Some s.
Proof.
  intros Hall. apply mapM_Some.
  induction Hall as [|q s (h & w & _ & Hh & Hw) _ IH]; constructor; [|done].
  unfold Shortest.ensure_dimensions. by rewrite Hh, Hw.
Qed.

(** X22.  The solutions main writes for a target that is no domino.
    On a configuration with unique labels, none of them [Block1] to
    [Block4], whose target is a piece of another type than 1x2 and
    2x1: [generate_supernodes] returns for every state of
    [generate_hypernodes], and on every super-state it returns the
    search returns a list of the same length, the distance between the
    anchor the configuration gives the target and the cell
    [(rows - 1, 0)], whatever the arrangement of the dominoes and the
    blocks. *)
Theorem unit_target_same_length (d : puzzle_data)
    (hyper_states : list (list piece)) (hyper_state : list piece)
    (t0 : piece) :
  NoDup (label <$> pieces d) →
  Forall (λ l, l ∉ label <$> pieces d)
         ["Block1"; "Block2"; "Block3"; "Block4"] →
  find_piece (target d) (pieces d) = Some t0 →
  ¬ Shortest.is_domino t0 →
  Shortest.generate_hypernodes d = Some hyper_states →
  hyper_state ∈ hyper_states →
  ∃ super_states,
    Shortest.generate_supernodes hyper_state d = Some super_states ∧
    ∀ super_state, super_state ∈ super_states →
      ∃ N h,
        (∀ fuel, (N ≤ fuel)%nat →
           Shortest.find_shortest_target_path_from_state fuel super_state d
           = Some h) ∧
        Z.of_nat (length h) = Z.abs (row t0 - (rows d - 1)) + Z.abs (col t0).
Proof.
  intros Hnd Hblocks Hfind Hdom Hgen Hhyper.
  destruct (hypernode_states_spec d hyper_states hyper_state Hgen Hhyper)
    as (Hpairs & Hdims & Hkept & _).
  assert (label <$> hyper_state ≡ₚ label <$> pieces d) as Hlab.
  { assert (fst <$> ((λ p, (label p, piece_type p)) <$> hyper_state)
            ≡ₚ fst <$> ((λ p, (label p, piece_type p)) <$> pieces d)) as Hp
      by (by rewrite Hpairs).
    by rewrite <- !list_fmap_compose in Hp. }
  assert (NoDup (label <$> hyper_state)) as Hnd' by (by rewrite Hlab).
  assert (Forall (λ l, l ∉ label <$> hyper_state)
                 ["Block1"; "Block2"; "Block3"; "Block4"]) as Hblocks'.
  { eapply Forall_impl; [exact Hblocks|]. intros l Hl. by rewrite Hlab. }
  apply find_piece_Some in Hfind as [Ht0 Hl0].
  assert (∃ t, find_piece (target d) hyper_state = Some t
               ∧ row t = row t0 ∧ col t = col t0) as (t & Hfind' & Hr & Hc).
  { assert (strip t0 ∈ strip <$> kept d) as Hin.
    { apply list_elem_of_fmap_2. unfold kept. by apply list_elem_of_filter. }
    rewrite <- Hkept in Hin.
    apply list_elem_of_fmap in Hin as (t & Hst & Ht).
    apply list_elem_of_filter in Ht as [_ Ht].
    symmetry in Hst. apply strip_fields in Hst as (Hl & Hr & Hc & _).
    exists t. split; [|done].
    apply find_piece_NoDup; [done|done|congruence]. }
  pose proof (mapM_ensure_dimensions_stored hyper_state Hdims) as Hens.
  assert (is_Some (Shortest.generate_supernodes hyper_state d))
    as [super_states Hsuper].
  { unfold Shortest.generate_supernodes. rewrite Hens. by eexists. }
  exists super_states. split; [done|]. intros super_state Hstate.
  rewrite <- Hr, <- Hc.
  by destruct (supernode_states_search hyper_state d super_states super_state
                 t Hnd' Hblocks' Hfind' Hsuper Hstate) as [_ ?].
Qed.

Lemma unit_target_same_length_witness :
  ∃ super_states,
    Shortest.generate_supernodes domino_over_target domino_and_target
      = Some super_states ∧
    ∀ super_state, super_state ∈ super_states →
      ∃ N h,
        (∀ fuel, (N ≤ fuel)%nat →
           Shortest.find_shortest_target_path_from_state
             fuel super_state domino_and_target = Some h) ∧
        Z.of_nat (length h) = Z.abs (0 - (2 - 1)) + Z.abs 2.
Proof.
  assert (∃ states,
            Shortest.generate_hypernodes domino_and_target = Some states ∧
            domino_over_target ∈ states) as (states & Hgen & Hin).
  { eexists. split; [by vm_compute|by_decide]. }
  apply (unit_target_same_length domino_and_target states domino_over_target
           (pc "T" 0 2 "1x1"));
    [by_decide|by_decide|reflexivity|by_decide|exact Hgen|exact Hin].
Defined.

(** ** simpleShortestMoves.py: what the replay checks *)

Lemma MOVES_get_is_Some dir :
  is_Some (Simulate.MOVES_get dir) ↔ dir ∈ ["up"; "down"; "left"; "right"].
Proof.
  unfold Simulate.MOVES_get, MOVES. split.
  - intros [x Hx]. apply fmap_Some in Hx as ([i e] & Hfind & _).
    apply list_find_Some in Hfind as (Hi & <- & _).
    apply list_elem_of_lookup_2 in Hi. set_unfold in Hi.
    destruct Hi as [->|[->|[->|[->|[]]]]]; set_solver.
  - intros Hd. set_unfold in Hd.
    destruct Hd as [->|[->|[->|[->|[]]]]]; by eexists.
Qed.

Lemma shift_first_same l dr dc (init s : list piece) :
  same_pieces init s → same_pieces init (Simulate.shift_first l dr dc s).
Proof.
  intros [Hl Ht]. unfold same_pieces. rewrite <- Hl, <- Ht. clear Hl Ht.
  induction s as [|p s [IHl IHt]]; [done|]. simpl.
  destruct (decide (label p = l)); [done|].
  rewrite !fmap_cons, IHl, IHt. done.
Qed.

Lemma same_pieces_known (init s : list piece) :
  same_pieces init s →
  Forall (λ p, is_Some (Simple.get_piece_dimensions p)) init →
  Forall (λ p, is_Some (Simple.get_piece_dimensions p)) s.
Proof.
  intros [_ Ht] Hall.
  assert (Forall (λ t, is_Some (Simple.get_piece_dimensions
                                  (Piece "" 0 0 t None None None)))
                 (piece_type <$> s)) as Hs.
  { rewrite Ht. apply Forall_fmap. eapply Forall_impl; [exact Hall|].
    intros p. by destruct p. }
  rewrite Forall_fmap in Hs. eapply Forall_impl; [exact Hs|].
  intros p. by destruct p.
Qed.

Lemma simulate_from_spec draw (init : list piece) (path : list step) :
  Forall (λ p, is_Some (Simple.get_piece_dimensions p)) init →
  ∀ s number, same_pieces init s →
    (∀ frames, Simulate.simulate_from draw number s path = Some frames →
       length frames = length path ∧
       Forall (same_pieces init) frames ∧
       Forall (λ mv : step, mv.2 ∈ ["up"; "down"; "left"; "right"]) path ∧
       drawn draw number frames) ∧
    (Forall (λ mv : step, mv.2 ∈ ["up"; "down"; "left"; "right"]) path →
     (∀ f i, same_pieces init f → draw f i = Some ()) →
     is_Some (Simulate.simulate_from draw number s path)).
Proof.
  intros Hknown. induction path as [|[l dir] path IH]; intros s number Hs.
  - simpl. split.
    + intros frames [= <-]. split_and!; [done|done|done|].
      intros i f Hf. by rewrite lookup_nil in Hf.
    + by eexists.
  - cbn [Simulate.simulate_from].
    pose proof (MOVES_get_is_Some dir) as Hdir.
    destruct (Simulate.MOVES_get dir) as [[dr dc]|] eqn:Hget; simpl.
    2:{ split; [done|]. intros [Hd _]%Forall_cons.
        apply Hdir in Hd as [? ?]. done. }
    pose proof (shift_first_same l dr dc init s Hs) as Hs'.
    rewrite (save_board_image_known draw _ number
               (same_pieces_known _ _ Hs' Hknown)).
    destruct (IH _ (S number) Hs') as [Hframes Hsome].
    split.
    + intros frames' Hret.
      destruct (draw (Simulate.shift_first l dr dc s) number) as [[]|] eqn:Hd;
        [|done].
      simpl in Hret.
      destruct (Simulate.simulate_from draw (S number)
                  (Simulate.shift_first l dr dc s) path) as [frames|];
        [|done].
      simpl in Hret. injection Hret as <-.
      destruct (Hframes frames eq_refl) as (Hlen & Hall & Hdirs & Hdrawn).
      split; [|split; [|split]].
      * simpl. by rewrite Hlen.
      * by constructor.
      * constructor; [|done]. apply Hdir. by eexists.
      * intros [|i] f Hf; simpl in Hf.
        -- injection Hf as <-. by rewrite Nat.add_0_r.
        -- rewrite Nat.add_succ_r. by apply (Hdrawn i).
    + intros [_ Hdirs]%Forall_cons Hdraw. rewrite (Hdraw _ number Hs'). simpl.
      destruct (Hsome Hdirs Hdraw) as [frames ->]. by eexists.
Qed.

(** X23.  What the replay checks.  Whatever the outcomes of making the
    folder and of the matplotlib drawing are:
    when [simulate_shortest_path_and_save_images] returns, every piece
    of the configuration has a known type, every move names one of the
    four directions of [MOVES], and the boards saved are one more than
    there are moves, the configuration first, every board with the
    labels and types of the configuration in its order; and it tests
    neither bounds nor collisions: if the folder can be made and no
    board of these pieces makes the drawing raise, it returns for every
    list of moves with such directions on a configuration of known
    types (a move of a label no piece carries is saved as a board like
    the one before). *)
Theorem replay_checks_names_only (folder_made : option unit)
    (draw : list piece → nat → option unit) (d : puzzle_data)
    (shortest_path : list step) :
  (∀ frames,
     Simulate.simulate_shortest_path_and_save_images folder_made draw d
       shortest_path = Some frames →
     folder_made = Some () ∧
     Forall (λ p, is_Some (Simple.get_piece_dimensions p)) (pieces d) ∧
     Forall (λ mv : step, mv.2 ∈ ["up"; "down"; "left"; "right"])
            shortest_path ∧
     length frames = S (length shortest_path) ∧
     head frames = Some (pieces d) ∧
     Forall (same_pieces (pieces d)) frames ∧
     drawn draw 0 frames) ∧
  (folder_made = Some () →
   (∀ f i, same_pieces (pieces d) f → draw f i = Some ()) →
   Forall (λ p, is_Some (Simple.get_piece_dimensions p)) (pieces d) →
   Forall (λ mv : step, mv.2 ∈ ["up"; "down"; "left"; "right"]) shortest_path →
   is_Some (Simulate.simulate_shortest_path_and_save_images folder_made draw d
              shortest_path)).
Proof.
  unfold Simulate.simulate_shortest_path_and_save_images. split.
  - intros frames' Hret.
    destruct folder_made as [[]|]; [|done]. simpl in Hret.
    unfold Simulate.save_board_image in Hret.
    destruct (mapM Simple.get_piece_dimensions (pieces d)) as [dims|] eqn:Hm;
      [|done].
    assert (Forall (λ p, is_Some (Simple.get_piece_dimensions p)) (pieces d))
      as Hknown.
    { pose proof (mapM_is_Some Simple.get_piece_dimensions (pieces d)) as Hi.
      unfold compose in Hi. apply Hi. by eexists. }
    simpl in Hret.
    destruct (draw (pieces d) 0%nat) as [[]|] eqn:Hd; [|done]. simpl in Hret.
    destruct (simulate_from_spec draw (pieces d) shortest_path Hknown
                (pieces d) 1%nat (same_pieces_refl _)) as [Hframes _].
    destruct (Simulate.simulate_from draw 1 (pieces d) shortest_path)
      as [frames|]; [|done].
    simpl in Hret. injection Hret as <-.
    destruct (Hframes frames eq_refl) as (Hlen & Hall & Hdirs & Hdrawn).
    split_and!; [done|done|done|simpl; by rewrite Hlen|done| |].
    + constructor; [apply same_pieces_refl|done].
    + intros [|i] f Hf; simpl in Hf.
      * by injection Hf as <-.
      * by apply (Hdrawn i).
  - intros -> Hdraw Hknown Hdirs. simpl.
    rewrite (save_board_image_known draw _ 0 Hknown).
    rewrite (Hdraw _ 0%nat (same_pieces_refl _)). simpl.
    destruct (simulate_from_spec draw (pieces d) shortest_path Hknown
                (pieces d) 1%nat (same_pieces_refl _)) as [_ Hsome].
    destruct (Hsome Hdirs Hdraw) as [frames ->]. by eexists.
Qed.
